(** * EnSuRe fault-tolerant scheduler: a shallow embedding of
      [EnSuRe_Scheduler.py] and the properties of its schedule builder,
      BB-overloading reservation, fault generator and time-stepped simulator.

    Python objects live in one store ([World]): the scheduler object, the
    heap of [Task] objects reached through references (the deep copies that a
    window's primary map and its backup list share), the caller's task list,
    the cores and the tape of random draws.  Methods are computations in a
    state monad whose outcomes are normal completion, an early [return] of
    [generate_schedule], a raised exception, or exhausted loop fuel.

    Python numbers are abstracted by the class [Number]; the code is embedded
    once and run at two instances: exact rationals ([Q], the arithmetic the
    algorithm is designed in) and IEEE binary64 ([float], what CPython
    executes). *)

From Stdlib Require Import ZArith QArith Qround Qabs List Bool Lia Lqa Arith.
From Stdlib Require Import Sorting.Sorted Sorting.Permutation.
From Stdlib Require Import Floats.PrimFloat Floats.FloatOps Floats.SpecFloat.
Import ListNotations.

Set Implicit Arguments.
Local Open Scope Z_scope.

(* ================================================================== *)
(** ** Outcomes of Python statements *)

Inductive exn : Type :=
| ZeroDivisionError | ValueError | OverflowError
| IndexError | KeyError | TypeError.

(** The value of an expression, or the exception it raises. *)
Inductive result (A : Type) : Type :=
| Ok (a : A)
| Raise (e : exn).

Arguments Ok {A} a.
Arguments Raise {A} e.

Definition rbind {A B} (c : result A) (f : A -> result B) : result B :=
  match c with
  | Ok a => f a
  | Raise e => Raise e
  end.

(** How a statement ends. *)
Inductive outcome (A : Type) : Type :=
| Normal (a : A)        (* the statement ran to its end *)
| Return (b : bool)     (* a [return] statement was executed *)
| Throw (e : exn)       (* an exception was raised *)
| Timeout.              (* the fuel of a [while] loop ran out *)

Arguments Normal {A} a.
Arguments Return {A} b.
Arguments Throw {A} e.
Arguments Timeout {A}.


(** [l[i]] on a Python list, for [i >= 0]. *)
Definition index {A} (l : list A) (i : nat) : result A :=
  match nth_error l i with
  | Some a => Ok a
  | None => Raise IndexError
  end.

(** [l[i] = v]; the caller has checked the index. *)
Fixpoint list_set {A} (l : list A) (i : nat) (v : A) : list A :=
  match l, i with
  | [], _ => []
  | _ :: l', O => v :: l'
  | a :: l', S i' => a :: list_set l' i' v
  end.

(* ================================================================== *)
(** ** Numbers *)

(** The operations the scheduler applies to Python numbers.  [num_lt a b] is
    [a < b] (so Python's [a > b] is [num_lt b a]), [truediv] is [/], [ceil]
    is [math.ceil], [round_to x n] is [round(x, n)] and [round_log10 x] is
    [round(math.log(x, 10))]. *)
Class Number (R : Type) : Type := {
  of_int : Z -> R;
  num_add : R -> R -> R;
  num_sub : R -> R -> R;
  num_mul : R -> R -> R;
  truediv : R -> R -> result R;
  num_lt : R -> R -> bool;
  num_le : R -> R -> bool;
  num_eq : R -> R -> bool;
  ceil : R -> result Z;
  round_to : R -> Z -> R;
  round_log10 : R -> result Z
}.

Declare Scope num_scope.
Delimit Scope num_scope with num.
Notation "x + y" := (num_add x y) : num_scope.
Notation "x - y" := (num_sub x y) : num_scope.
Notation "x * y" := (num_mul x y) : num_scope.
Notation "x <? y" := (num_lt x y) : num_scope.
Notation "x <=? y" := (num_le x y) : num_scope.
Notation "x =? y" := (num_eq x y) : num_scope.

(** *** Exact rationals *)

Module ExactNum.

(** Round to the nearest integer, ties to the even one. *)
Definition round_half_even (q : Q) : Z :=
  let f := Qfloor q in
  match Qcompare (q - inject_Z f) (1 # 2) with
  | Lt => f
  | Gt => f + 1
  | Eq => if Z.even f then f else f + 1
  end.

Definition pow10 (n : Z) : Z := 10 ^ n.

Definition Qround_to (q : Q) (n : Z) : Q :=
  if 0 <=? n
  then Qred (Qmake (round_half_even (q * inject_Z (pow10 n))) (Z.to_pos (pow10 n)))
  else Qred (inject_Z (round_half_even (q / inject_Z (pow10 (- n))) * pow10 (- n))).

(** Number of decimal digits of [z >= 1], minus one. *)
Fixpoint log10_floor_aux (fuel : nat) (z acc : Z) : Z :=
  match fuel with
  | O => acc
  | S fuel' => if z <? 10 then acc else log10_floor_aux fuel' (z / 10) (acc + 1)
  end.

Definition Zlog10_floor (z : Z) : Z :=
  log10_floor_aux (S (Z.to_nat (Z.log2 z))) z 0.

(** The integer [f] with [10^f <= q < 10^(f+1)], for [q > 0]. *)
Definition Qlog10_floor (q : Q) : Z :=
  let p := Qnum q in
  let d := Zpos (Qden q) in
  if d <=? p then Zlog10_floor (p / d)
  else - (Zlog10_floor ((d + p - 1) / p - 1) + 1).

Definition Qpow10 (n : Z) : Q :=
  if 0 <=? n then inject_Z (pow10 n) else Qmake 1 (Z.to_pos (pow10 (- n))).

(** The integer nearest to [log10 q]: the [n] with
    [10^(2n-1) < q^2 < 10^(2n+1)]. *)
Definition Qround_log10 (q : Q) : result Z :=
  if Qle_bool q 0 then Raise ValueError
  else
    let f := Qlog10_floor q in
    if Qle_bool (Qpow10 (2 * f + 1)) (q * q) then Ok (f + 1) else Ok f.

Definition Qtruediv (a b : Q) : result Q :=
  if Qeq_bool b 0 then Raise ZeroDivisionError else Ok (Qred (a / b)).

#[export] Instance Q_Number : Number Q := {|
  of_int := inject_Z;
  num_add := fun a b => Qred (a + b);
  num_sub := fun a b => Qred (a - b);
  num_mul := fun a b => Qred (a * b);
  truediv := Qtruediv;
  num_lt := fun a b => negb (Qle_bool b a);
  num_le := Qle_bool;
  num_eq := Qeq_bool;
  ceil := fun a => Ok (Qceiling a);
  round_to := Qround_to;
  round_log10 := Qround_log10
|}.

End ExactNum.

(** *** IEEE binary64, as CPython's [float] *)

Module Binary64.

(** The exact value of a finite float. *)
Definition to_Q (x : float) : option Q :=
  match Prim2SF x with
  | S754_zero _ => Some 0%Q
  | S754_finite s m e =>
      let v := if 0 <=? e then inject_Z (Zpos m * 2 ^ e)
               else Qmake (Zpos m) (Z.to_pos (2 ^ (- e))) in
      Some (if s then Qopp v else v)
  | S754_infinity _ | S754_nan => None
  end.

(** [float(z)], rounding to nearest even beyond 2^53. *)
Definition of_Z (z : Z) : float :=
  SF2Prim (binary_normalize prec emax z 0 false).

Definition ftruediv (a b : float) : result float :=
  if PrimFloat.eqb b zero then Raise ZeroDivisionError
  else Ok (PrimFloat.div a b).

Definition fceil (x : float) : result Z :=
  match Prim2SF x with
  | S754_nan => Raise ValueError
  | S754_infinity _ => Raise OverflowError
  | _ => match to_Q x with
         | Some q => Ok (Qceiling q)
         | None => Raise ValueError
         end
  end.

Definition is_negative (x : float) : bool :=
  match Prim2SF x with
  | S754_zero s | S754_infinity s | S754_finite s _ _ => s
  | S754_nan => false
  end.

(** The float nearest to a rational, ties to even; [neg] is the sign of a
    zero result.  The quotient is taken with at least 64 bits, and one more
    bit records whether anything is left of it, so that the one rounding
    done by [binary_normalize] is that of the exact value. *)
Definition of_Q (neg : bool) (q : Q) : float :=
  let a := Z.abs (Qnum q) in
  let b := Zpos (Qden q) in
  if a =? 0 then (if neg then PrimFloat.opp zero else zero)
  else
    let s := Z.max 0 (64 + Z.log2 b - Z.log2 a) in
    let n := a * 2 ^ s in
    let m := 2 * (n / b) + (if n mod b =? 0 then 0 else 1) in
    SF2Prim (binary_normalize prec emax (if Qnum q <? 0 then - m else m)
                              (- s - 1) false).

(** [round(x, n)]: the float nearest to the decimal obtained by rounding
    the exact value of [x] half-even at [n] decimals, which is what
    CPython's correctly rounded [float.__round__] returns.  Where CPython
    raises [OverflowError] because that decimal is beyond the largest
    float, the result here is infinity. *)
Definition fround_to (x : float) (n : Z) : float :=
  match to_Q x with
  | None => x
  | Some q => of_Q (is_negative x) (ExactNum.Qround_to q n)
  end.

(** [round(math.log(x, 10))] with the logarithm taken exactly.  CPython
    divides [log(x)] by [log(10)] in binary64; the quotient can land on a
    half-integer that the exact logarithm only comes near (as for
    [x = 10 ** 0.5]), and the two then round apart. *)
Definition fround_log10 (x : float) : result Z :=
  match Prim2SF x with
  | S754_nan => Raise ValueError
  | S754_infinity false => Raise OverflowError
  | _ => match to_Q x with
         | Some q => ExactNum.Qround_log10 q
         | None => Raise ValueError
         end
  end.

#[export] Instance float_Number : Number float := {|
  of_int := of_Z;
  num_add := PrimFloat.add;
  num_sub := PrimFloat.sub;
  num_mul := PrimFloat.mul;
  truediv := ftruediv;
  num_lt := PrimFloat.ltb;
  num_le := PrimFloat.leb;
  num_eq := PrimFloat.eqb;
  ceil := fceil;
  round_to := fround_to;
  round_log10 := fround_log10
|}.

End Binary64.

(* ================================================================== *)
(** ** Python built-ins used by the scheduler *)

Section Builtins.
Context {A : Type}.

(** [max(a, b)]: the first argument unless the second is greater. *)
Definition pymax {R} `{Number R} (a b : R) : R :=
  if (a <? b)%num then b else a.

(** [list.sort(key=..)] is stable; [lt] compares two keys with [<]. *)
Fixpoint insert_asc (lt : A -> A -> bool) (x : A) (l : list A) : list A :=
  match l with
  | [] => [x]
  | y :: l' => if lt x y then x :: y :: l' else y :: insert_asc lt x l'
  end.

Definition sort_asc (lt : A -> A -> bool) (l : list A) : list A :=
  fold_left (fun acc x => insert_asc lt x acc) l [].

(** [list.sort(reverse=True, key=..)]: descending, equal keys keep their
    original order. *)
Fixpoint insert_desc (lt : A -> A -> bool) (x : A) (l : list A) : list A :=
  match l with
  | [] => [x]
  | y :: l' => if lt y x then x :: y :: l' else y :: insert_desc lt x l'
  end.

Definition sort_desc (lt : A -> A -> bool) (l : list A) : list A :=
  fold_left (fun acc x => insert_desc lt x acc) l [].

(** A [dict] keeps its items in insertion order. *)
Fixpoint dict_get {K} (eqb : K -> K -> bool) (k : K) (d : list (K * A)) : result A :=
  match d with
  | [] => Raise KeyError
  | (k', v) :: d' => if eqb k' k then Ok v else dict_get eqb k d'
  end.

Fixpoint dict_set {K} (eqb : K -> K -> bool) (k : K) (v : A) (d : list (K * A))
  : list (K * A) :=
  match d with
  | [] => [(k, v)]
  | (k', v') :: d' =>
      if eqb k' k then (k', v) :: d' else (k', v') :: dict_set eqb k v d'
  end.

End Builtins.

(* ================================================================== *)
(** ** Data model *)

Section Model.
Context {R : Type} {NR : Number R}.

(** Modelled from the spec: [Task.py] is not among the sources.  A task has
    an immutable [id], [deadline] and [weight]; per-window quotas are kept
    in lists that [setWorkloadQuota] / [setBackupWorkloadQuota] append to
    once per window and [getWorkloadQuota(i)] / [getBackupWorkloadQuota(i)]
    index; the simulator writes [start_time], [backup_start_time] and the
    fault flag with the fault's offset relative to the task's start. *)
Record Task : Type := mkTask {
  task_id : Z;
  deadline : R;
  weight : R;
  workload_quota : list R;
  backup_workload_quota : list R;
  start_time : R;
  backup_start_time : R;
  encountered_fault : bool;
  relative_fault_time : option (nat * R);
  completed : bool
}.

(** [Task(id, deadline, weight)] *)
Definition new_Task (i : Z) (d w : R) : Task :=
  mkTask i d w [] [] (of_int 0) (of_int 0) false None false.

Definition getId (t : Task) : Z := task_id t.
Definition getDeadline (t : Task) : R := deadline t.
Definition getWeight (t : Task) : R := weight t.
Definition getWorkloadQuota (t : Task) (i : nat) : result R :=
  index (workload_quota t) i.
Definition getBackupWorkloadQuota (t : Task) (i : nat) : result R :=
  index (backup_workload_quota t) i.
Definition getStartTime (t : Task) : R := start_time t.
Definition getBackupStartTime (t : Task) : R := backup_start_time t.
Definition getEncounteredFault (t : Task) : bool := encountered_fault t.

Definition setWorkloadQuota (t : Task) (wq : R) : Task :=
  mkTask (task_id t) (deadline t) (weight t) (workload_quota t ++ [wq])
         (backup_workload_quota t) (start_time t) (backup_start_time t)
         (encountered_fault t) (relative_fault_time t) (completed t).
Definition setBackupWorkloadQuota (t : Task) (bwq : R) : Task :=
  mkTask (task_id t) (deadline t) (weight t) (workload_quota t)
         (backup_workload_quota t ++ [bwq]) (start_time t) (backup_start_time t)
         (encountered_fault t) (relative_fault_time t) (completed t).
Definition setStartTime (t : Task) (x : R) : Task :=
  mkTask (task_id t) (deadline t) (weight t) (workload_quota t)
         (backup_workload_quota t) x (backup_start_time t)
         (encountered_fault t) (relative_fault_time t) (completed t).
Definition setBackupStartTime (t : Task) (x : R) : Task :=
  mkTask (task_id t) (deadline t) (weight t) (workload_quota t)
         (backup_workload_quota t) (start_time t) x
         (encountered_fault t) (relative_fault_time t) (completed t).
Definition setEncounteredFault (t : Task) (idx : nat) (rel : R) : Task :=
  mkTask (task_id t) (deadline t) (weight t) (workload_quota t)
         (backup_workload_quota t) (start_time t) (backup_start_time t)
         true (Some (idx, rel)) (completed t).
Definition resetEncounteredFault (t : Task) : Task :=
  mkTask (task_id t) (deadline t) (weight t) (workload_quota t)
         (backup_workload_quota t) (start_time t) (backup_start_time t)
         false (relative_fault_time t) (completed t).

(** Modelled from the spec: [Core.py] is not among the sources.  A core
    accumulates [active_duration] and [energy_consumed]; its energy is
    linear in time, [xi * t] when active and [p_idle * t] when idle. *)
Record Core : Type := mkCore {
  xi : R;
  p_idle : R;
  active_duration : R;
  energy_consumed : R
}.

Definition update_active_duration (c : Core) (dt : R) : Core :=
  mkCore (xi c) (p_idle c) (active_duration c + dt)%num (energy_consumed c).
Definition get_active_duration (c : Core) : R := active_duration c.
Definition energy_consumption_active (c : Core) (t : R) : R := (xi c * t)%num.
Definition energy_consumption_idle (c : Core) (t : R) : R := (p_idle c * t)%num.
Definition update_energy_consumption (c : Core) (e : R) : Core :=
  mkCore (xi c) (p_idle c) (active_duration c) (energy_consumed c + e)%num.

(** A reference to a [Task] object of the heap. *)
Definition ref := nat.

(** Key of a window's primary map: [(start_time, core_id)]. *)
Definition Key : Type := (R * nat)%type.

Definition key_eqb (a b : Key) : bool :=
  (fst a =? fst b)%num && Nat.eqb (snd a) (snd b).

(** Tuple comparison: the first differing component decides. *)
Definition key_ltb (a b : Key) : bool :=
  if (fst a =? fst b)%num then Nat.ltb (snd a) (snd b)
  else (fst a <? fst b)%num.

Record EnSuRe_Scheduler : Type := mkScheduler {
  k : Z;
  frame : R;
  time_step : R;
  precision_dp : Z;
  m_pri : Z;
  lp_hp_ratio : R;
  pri_schedule : list (nat * list (Key * ref));
  deadlines : option (list R);
  backup_start : list R;
  backup_list : list (list ref);
  log_debug : bool
}.

(** [__init__]: the only statement that can fail is [math.log]. *)
Definition init (k0 : Z) (frame0 time_step0 : R) (m_pri0 : Z) (lp_hp_ratio0 : R)
           (log_debug0 : bool) : result EnSuRe_Scheduler :=
  rbind (round_log10 time_step0) (fun lg =>
  Ok (mkScheduler k0 frame0 time_step0 (- lg) m_pri0 lp_hp_ratio0
                      [] None [] [] log_debug0)).

Definition roundUpTimeStep (self : EnSuRe_Scheduler) (value : R) : result R :=
  rbind (truediv value (time_step self)) (fun q =>
  rbind (ceil q) (fun c =>
  let out := round_to (of_int c * time_step self)%num (precision_dp self) in
  if (out <? time_step self)%num then Ok (time_step self) else Ok out)).

(* ---------------------------------------------------------------- *)
(** *** The store and the monad of statements *)

Record World : Type := mkWorld {
  sched : EnSuRe_Scheduler;     (* self *)
  heap : list Task;             (* Task objects reached through references *)
  tasksList : list Task;        (* the caller's list given to generate_schedule *)
  lp_cores : list Core;
  hp_core : Core;
  tape : list Z                 (* the values random.randint will return *)
}.

Definition M (A : Type) : Type := World -> World * outcome A.

Definition ret {A} (a : A) : M A := fun w => (w, Normal a).
Definition bind {A B} (m : M A) (f : A -> M B) : M B :=
  fun w =>
    match m w with
    | (w', Normal a) => f a w'
    | (w', Return b) => (w', Return b)
    | (w', Throw e) => (w', Throw e)
    | (w', Timeout) => (w', Timeout)
    end.
(** An expression evaluated inside a statement. *)
Definition lift {A} (r : result A) : M A :=
  fun w => (w, match r with Ok a => Normal a | Raise e => Throw e end).
(** Leaving with a given outcome. *)
Definition exit {A} (o : outcome A) : M A := fun w => (w, o).
Definition gets {A} (f : World -> A) : M A := fun w => (w, Normal (f w)).
Definition modify (f : World -> World) : M unit := fun w => (f w, Normal tt).

Definition with_sched (f : EnSuRe_Scheduler -> EnSuRe_Scheduler) (w : World) :=
  mkWorld (f (sched w)) (heap w) (tasksList w) (lp_cores w) (hp_core w) (tape w).
Definition with_heap (f : list Task -> list Task) (w : World) :=
  mkWorld (sched w) (f (heap w)) (tasksList w) (lp_cores w) (hp_core w) (tape w).
Definition with_tasksList (f : list Task -> list Task) (w : World) :=
  mkWorld (sched w) (heap w) (f (tasksList w)) (lp_cores w) (hp_core w) (tape w).
Definition with_lp_cores (f : list Core -> list Core) (w : World) :=
  mkWorld (sched w) (heap w) (tasksList w) (f (lp_cores w)) (hp_core w) (tape w).
Definition with_hp_core (f : Core -> Core) (w : World) :=
  mkWorld (sched w) (heap w) (tasksList w) (lp_cores w) (f (hp_core w)) (tape w).
Definition with_tape (f : list Z -> list Z) (w : World) :=
  mkWorld (sched w) (heap w) (tasksList w) (lp_cores w) (hp_core w) (f (tape w)).

Definition set_pri_schedule (v : list (nat * list (Key * ref))) (s : EnSuRe_Scheduler) :=
  mkScheduler (k s) (frame s) (time_step s) (precision_dp s) (m_pri s)
              (lp_hp_ratio s) v (deadlines s) (backup_start s) (backup_list s)
              (log_debug s).
Definition set_deadlines (v : option (list R)) (s : EnSuRe_Scheduler) :=
  mkScheduler (k s) (frame s) (time_step s) (precision_dp s) (m_pri s)
              (lp_hp_ratio s) (pri_schedule s) v (backup_start s) (backup_list s)
              (log_debug s).
Definition set_backup_start (v : list R) (s : EnSuRe_Scheduler) :=
  mkScheduler (k s) (frame s) (time_step s) (precision_dp s) (m_pri s)
              (lp_hp_ratio s) (pri_schedule s) (deadlines s) v (backup_list s)
              (log_debug s).
Definition set_backup_list (v : list (list ref)) (s : EnSuRe_Scheduler) :=
  mkScheduler (k s) (frame s) (time_step s) (precision_dp s) (m_pri s)
              (lp_hp_ratio s) (pri_schedule s) (deadlines s) (backup_start s) v
              (log_debug s).

End Model.

Arguments Task R : clear implicits.
Arguments Core R : clear implicits.
Arguments EnSuRe_Scheduler R : clear implicits.
Arguments World R : clear implicits.
Arguments Key R : clear implicits.
Arguments M R A : clear implicits.

Declare Scope py_scope.
Delimit Scope py_scope with py.
Notation "x <- c ;; f" := (bind c (fun x => f))
  (at level 61, c at next level, right associativity) : py_scope.
Notation "c ;; f" := (bind c (fun _ => f))
  (at level 61, right associativity) : py_scope.

(* ================================================================== *)
(** ** The methods of [EnSuRe_Scheduler] *)

Section Methods.
Context {R : Type} {NR : Number R}.
Local Open Scope py_scope.

Fixpoint for_each {A} (l : list A) (body : A -> M R unit) : M R unit :=
  match l with
  | [] => ret tt
  | x :: l' => body x ;; for_each l' body
  end.

(** A [for] loop that carries the local variables [acc]. *)
Fixpoint for_fold {A B} (l : list A) (acc : B) (body : A -> B -> M R B) : M R B :=
  match l with
  | [] => ret acc
  | x :: l' => acc' <- body x acc ;; for_fold l' acc' body
  end.

(** Reading and writing the object behind a reference (a reference is
    always to an allocated object). *)
Definition deref (r : ref) : M R (Task R) := fun w => lift (index (heap w) r) w.

Definition update_task (r : ref) (f : Task R -> Task R) : M R unit :=
  modify (with_heap (fun h =>
    match nth_error h r with
    | Some t => list_set h r (f t)
    | None => h
    end)).

(** [self.deadlines], which is [None] until a schedule is generated. *)
Definition self_deadlines : M R (list R) :=
  fun w => match deadlines (sched w) with
           | Some ds => (w, Normal ds)
           | None => (w, Throw TypeError)
           end.

Definition pri_schedule_at (i : nat) : M R (list (Key R * ref)) :=
  s <- gets sched ;; lift (dict_get Nat.eqb i (pri_schedule s)).

Definition pri_schedule_put (i : nat) (d : list (Key R * ref)) : M R unit :=
  s <- gets sched ;;
  modify (with_sched (set_pri_schedule (dict_set Nat.eqb i d (pri_schedule s)))).

(** [(time_window, start_window)] of window [i]. *)
Definition window_bounds (i : nat) : M R (R * R) :=
  ds <- self_deadlines ;;
  match i with
  | O => d <- lift (index ds 0) ;; ret (d, of_int 0)
  | S j =>
      d <- lift (index ds i) ;;
      p <- lift (index ds j) ;;
      ret ((d - p)%num, p)
  end.

(* ---------------------------------------------------------------- *)
(** *** [update_BB_overloading] and [remove_from_backup_list] *)

(** [for z in range(l): reserve_cap += backup_list[idx][z].getBackupWorkloadQuota(idx)],
    over the first [l] entries of the backup list. *)
Fixpoint reserve (idx : nat) (bl : list ref) (reserve_cap : R) : M R R :=
  match bl with
  | [] => ret reserve_cap
  | b :: bl' =>
      t <- deref b ;;
      q <- lift (getBackupWorkloadQuota t idx) ;;
      reserve idx bl' (reserve_cap + q)%num
  end.

Definition update_BB_overloading (idx : nat) (sim_time : R) : M R unit :=
  s <- gets sched ;;
  bl <- lift (index (backup_list s) idx) ;;
  let l := Z.to_nat (Z.min (k s) (Z.of_nat (length bl))) in
  reserve_cap <- reserve idx (firstn l bl) (of_int 0) ;;
  ds <- self_deadlines ;;
  d <- lift (index ds idx) ;;
  let new_backup_start := (d - reserve_cap)%num in
  if (length (backup_start s) <=? idx)%nat
  then modify (with_sched (set_backup_start (backup_start s ++ [new_backup_start])))
  else modify (with_sched (set_backup_start
                 (list_set (backup_start s) idx (pymax sim_time new_backup_start)))).

(** [[b for b in self.backup_list[idx] if b.getId() != taskId]] *)
Fixpoint without_id (taskId : Z) (bl : list ref) : M R (list ref) :=
  match bl with
  | [] => ret []
  | b :: bl' =>
      t <- deref b ;;
      rest <- without_id taskId bl' ;;
      ret (if (getId t =? taskId)%Z then rest else b :: rest)
  end.

Definition remove_from_backup_list (idx : nat) (taskId : Z) (sim_time : R) : M R unit :=
  s <- gets sched ;;
  bl <- lift (index (backup_list s) idx) ;;
  bl' <- without_id taskId bl ;;
  s' <- gets sched ;;
  modify (with_sched (set_backup_list (list_set (backup_list s') idx bl'))) ;;
  update_BB_overloading idx sim_time.

(* ---------------------------------------------------------------- *)
(** *** [generate_schedule] *)

(** [tasksList.sort(reverse=False, key=getTaskDeadline)] *)
Definition sort_by_deadline (l : list (Task R)) : list (Task R) :=
  sort_asc (fun a b => (getDeadline a <? getDeadline b)%num) l.

(** The comprehension that appends every deadline not yet in
    [self.deadlines]. *)
Fixpoint unique_deadlines (acc : list R) (l : list (Task R)) : list R :=
  match l with
  | [] => acc
  | t :: l' =>
      if existsb (fun d => (d =? getDeadline t)%num) acc
      then unique_deadlines acc l'
      else unique_deadlines (acc ++ [getDeadline t]) l'
  end.

(** Step ii: the loop that gives every task of [tasksList] its quotas for
    the window and sums the primary quotas. *)
Fixpoint set_quotas (self : EnSuRe_Scheduler R) (time_window : R)
         (tl : list (Task R)) (total_wq : R) : list (Task R) * result R :=
match tl with
| [] => ([], Ok total_wq)
| task :: rest =>
    match roundUpTimeStep self (getWeight task * time_window)%num with
    | Ok wq =>
        let task1 := setWorkloadQuota task wq in
        match roundUpTimeStep self
                (lp_hp_ratio self * getWeight task * time_window)%num with
        | Ok bwq =>
            let task2 := setBackupWorkloadQuota task1 bwq in
            let (rest', o) := set_quotas self time_window rest (total_wq + wq)%num in
            (task2 :: rest', o)
        | Raise e => (task1 :: rest, Raise e)
        end
    | Raise e => (task :: rest, Raise e)
    end
end.

(** [copy.deepcopy(tasksList)]: fresh objects at the end of the heap. *)
Definition deepcopy_tasks : M R (list ref) :=
  fun w =>
    (with_heap (fun h => h ++ tasksList w) w,
     Normal (seq (length (heap w)) (length (tasksList w)))).

(** [getTaskWQ]: the quota appended last. *)
Definition getTaskWQ (t : Task R) : result R :=
  match workload_quota t with
  | [] => Raise IndexError
  | _ => getWorkloadQuota t (length (workload_quota t) - 1)
  end.

(** The keys of a sort are computed first, one per element. *)
Fixpoint decorate_wq (l : list ref) : M R (list (R * ref)) :=
  match l with
  | [] => ret []
  | r :: l' =>
      t <- deref r ;;
      key <- lift (getTaskWQ t) ;;
      rest <- decorate_wq l' ;;
      ret ((key, r) :: rest)
  end.

(** [tasksA.sort(reverse=True, key=getTaskWQ)] *)
Definition sort_by_wq (l : list ref) : M R (list ref) :=
  keyed <- decorate_wq l ;;
  ret (map snd (sort_desc (fun a b => (fst a <? fst b)%num) keyed)).

Definition next_core (m : Z) (cur : nat) : nat :=
  if (m <=? Z.of_nat (S cur))%Z then O else S cur.

(** The [while] loop that looks for a core with room for [lp] before
    [limit = start_window + time_window]. *)
Fixpoint probe (fuel : nat) (m : Z) (pri_cores : list R) (lp limit : R)
         (currPriCore : nat) (counter : Z) : outcome nat :=
  match index pri_cores currPriCore with
  | Ok c =>
      if (limit <? c + lp)%num then
        let cur' := next_core m currPriCore in
        let counter' := (counter + 1)%Z in
        if (m <? counter')%Z then Return false
        else match fuel with
             | O => Timeout
             | S fuel' => probe fuel' m pri_cores lp limit cur' counter'
             end
      else Normal currPriCore
  | Raise e => Throw e
  end.

(** [tasksList.remove] of the first task with the given id. *)
Fixpoint remove_task (tid : Z) (l : list (Task R)) : list (Task R) :=
  match l with
  | [] => []
  | x :: l' => if (getId x =? tid)%Z then l' else x :: remove_task tid l'
  end.

(** Body of [for t in tasksA]; the locals are [(pri_cores, currPriCore)]. *)
Definition place (i : nat) (start_window time_window : R) (t : ref)
           (st : list R * nat) : M R (list R * nat) :=
  s <- gets sched ;;
  tk <- deref t ;;
  lp_executionTime <- lift (getWorkloadQuota tk i) ;;
  cur <- exit (probe (Z.to_nat (m_pri s)) (m_pri s) (fst st) lp_executionTime
                     (start_window + time_window)%num (snd st) 0) ;;
  c <- lift (index (fst st) cur) ;;
  d <- pri_schedule_at i ;;
  pri_schedule_put i (dict_set key_eqb (c, cur) t d) ;;
  update_task t (fun x => setStartTime x c) ;;
  let pri_cores' := list_set (fst st) cur (c + lp_executionTime)%num in
  let cur' := next_core (m_pri s) cur in
  ds <- self_deadlines ;;
  di <- lift (index ds i) ;;
  (if (di =? getDeadline tk)%num
   then modify (with_tasksList (remove_task (getId tk)))
   else ret tt) ;;
  ret (pri_cores', cur').

(** Step ii of a window: the quotas of every task of [tasksList]; the
    result is [total_wq]. *)
Definition assign_quotas (time_window : R) : M R R :=
  s <- gets sched ;;
  tl <- gets tasksList ;;
  let q := set_quotas s time_window tl (of_int 0) in
  modify (with_tasksList (fun _ => fst q)) ;;
  lift (snd q).

(** Steps iv and v of a window: the LP packing.  The result is [tasksA]
    (the order in which the tasks were packed) and the final [pri_cores]
    and [currPriCore]. *)
Definition lp_pack (i : nat) (start_window time_window : R)
  : M R (list ref * (list R * nat)) :=
  s <- gets sched ;;
  tasksA0 <- deepcopy_tasks ;;
  tasksA <- sort_by_wq tasksA0 ;;
  pri_schedule_put i [] ;;
  st <- for_fold tasksA (repeat start_window (Z.to_nat (m_pri s)), O)
                 (place i start_window time_window) ;;
  ret (tasksA, st).

(** Body of [for i in range(len(self.deadlines))]. *)
Definition schedule_window (i : nat) : M R unit :=
  b <- window_bounds i ;;
  let time_window := fst b in
  let start_window := snd b in
  total_wq <- assign_quotas time_window ;;
  s <- gets sched ;;
  if (total_wq <=? time_window * of_int (m_pri s))%num then
    packed <- lp_pack i start_window time_window ;;
    d <- pri_schedule_at i ;;
    pri_schedule_put i (sort_asc (fun a b => key_ltb (fst a) (fst b)) d) ;;
    _ <- lift (index (fst (snd packed)) 0) ;;
    s' <- gets sched ;;
    modify (with_sched (set_backup_list (backup_list s' ++ [fst packed]))) ;;
    update_BB_overloading i (of_int 0)
  else exit (Return false).

(** The outcome [Return b] is the value the call returns. *)
Definition generate_schedule : M R unit :=
  modify (with_tasksList sort_by_deadline) ;;
  tl <- gets tasksList ;;
  modify (with_sched (set_deadlines (Some (unique_deadlines [] tl)))) ;;
  ds <- self_deadlines ;;
  for_each (seq 0 (length ds)) schedule_window ;;
  exit (Return true).

(* ---------------------------------------------------------------- *)
(** *** [generate_fault_occurrences] *)

(** [random.randint(0, b)] for a float bound [b]: [b] must be integral and
    the range non-empty; the next value of the tape picks the result. *)
Definition randint0 (b : R) : M R Z :=
  n <- lift (ceil b) ;;
  if negb (of_int n =? b)%num || (n <? 0)%Z then lift (Raise ValueError)
  else fun w =>
         match tape w with
         | [] => (w, Timeout)
         | r :: t => (with_tape (fun _ => t) w, Normal (r mod (n + 1))%Z)
         end.

(** The [for key in ...] scan of one sampled [fault_time]; [Some id] when
    the loop left through [break]. *)
Fixpoint scan_fault (idx : nat) (fault_time : R) (items : list (Key R * ref))
  : M R (option Z) :=
  match items with
  | [] => ret None
  | (key, t) :: rest =>
      task <- deref t ;;
      inside <- (if (fst key <=? fault_time)%num
                 then wq <- lift (getWorkloadQuota task idx) ;;
                      ret (fault_time <=? fst key + wq)%num
                 else ret false) ;;
      if inside && negb (getEncounteredFault task)
      then update_task t (fun x => setEncounteredFault x idx (fault_time - fst key)%num) ;;
           ret (Some (getId task))
      else scan_fault idx fault_time rest
  end.

(** [while fault_time is None] *)
Fixpoint sample_fault (fuel : nat) (idx : nat) (time_window start_window : R)
  : M R Z :=
  match fuel with
  | O => exit Timeout
  | S fuel' =>
      s <- gets sched ;;
      b <- lift (truediv time_window (time_step s)) ;;
      rand <- randint0 b ;;
      let fault_time := (time_step s * of_int rand + start_window)%num in
      items <- pri_schedule_at idx ;;
      hit <- scan_fault idx fault_time items ;;
      match hit with
      | Some tid => ret tid
      | None => sample_fault fuel' idx time_window start_window
      end
  end.

(** [for f in range(l)]; every sampling round consumes one value of the
    tape, so the tape bounds the rounds. *)
Fixpoint fault_loop (l : nat) (idx : nat) (time_window start_window : R)
         (faulty_tasks : list Z) : M R (list Z) :=
  match l with
  | O => ret faulty_tasks
  | S l' =>
      tp <- gets tape ;;
      tid <- sample_fault (S (length tp)) idx time_window start_window ;;
      fault_loop l' idx time_window start_window (faulty_tasks ++ [tid])
  end.

Definition generate_fault_occurrences (idx : nat) : M R (list Z) :=
  s <- gets sched ;;
  items <- pri_schedule_at idx ;;
  let l := Z.to_nat (Z.min (k s) (Z.of_nat (length items))) in
  b <- window_bounds idx ;;
  fault_loop l idx (fst b) (snd b) [].

(* ---------------------------------------------------------------- *)
(** *** [simulate] *)

(** The local variables of the time-stepped loop.  [key] is always the
    [keyIdx]-th key of the window's primary map, so only [keyIdx] is kept. *)
Record Locals : Type := mkLocals {
  sim_time : R;
  lp_assignedTask : list (option ref);
  hp_assignedTask : option ref;
  keyIdx : nat
}.

(** Sub-step i on the LP cores. *)
Fixpoint accrue_lp (dt : R) (assigned : list (option ref)) (cores : list (Core R))
  : list (Core R) :=
  match assigned, cores with
  | a :: assigned', c :: cores' =>
      (match a with
       | Some _ => update_active_duration c dt
       | None => c
       end) :: accrue_lp dt assigned' cores'
  | _, _ => cores
  end.

Definition accrue (loc : Locals) : M R unit :=
  s <- gets sched ;;
  modify (with_lp_cores (accrue_lp (time_step s) (lp_assignedTask loc))) ;;
  match hp_assignedTask loc with
  | Some _ => modify (with_hp_core (fun c => update_active_duration c (time_step s)))
  | None => ret tt
  end.

(** A primary copy [t] that ran without fault leaves the backup list and
    cancels its own backup; returns the new [hp_assignedTask]. *)
Definition complete_primary (i : nat) (now : R) (t : ref) (hp : option ref)
  : M R (option ref) :=
  tk <- deref t ;;
  if negb (getEncounteredFault tk) then
    remove_from_backup_list i (getId tk) now ;;
    match hp with
    | Some h =>
        htk <- deref h ;;
        ret (if (getId htk =? getId tk)%Z then None else hp)
    | None => ret None
    end
  else ret hp.

(** Sub-step ii for LP core [lp]; the locals are
    [(lp_assignedTask, hp_assignedTask)]. *)
Definition sweep_core (i : nat) (now : R) (lp : nat)
           (st : list (option ref) * option ref)
  : M R (list (option ref) * option ref) :=
  match nth_error (fst st) lp with
  | Some (Some t) =>
      tk <- deref t ;;
      wq <- lift (getWorkloadQuota tk i) ;;
      if (getStartTime tk + wq <=? now)%num then
        hp' <- complete_primary i now t (snd st) ;;
        ret (list_set (fst st) lp None, hp')
      else ret st
  | _ => ret st
  end.

(** Sub-step iv. *)
Definition backup_completion (i : nat) (now : R) (hp : option ref)
  : M R (option ref) :=
  match hp with
  | Some h =>
      s <- gets sched ;;
      bl <- lift (index (backup_list s) i) ;;
      match bl with
      | [] => ret hp
      | _ :: _ =>
          htk <- deref h ;;
          bwq <- lift (getBackupWorkloadQuota htk i) ;;
          if (getBackupStartTime htk + bwq <=? now)%num then
            remove_from_backup_list i (getId htk) now ;;
            ret None
          else ret hp
      end
  | None => ret None
  end.

(** Sub-step v: the [while] loop over the not yet dispatched items of the
    primary map; the locals are [(lp_assignedTask, hp_assignedTask, keyIdx)]. *)
Fixpoint dispatch (i : nat) (now : R) (pending : list (Key R * ref))
         (st : list (option ref) * option ref * nat)
  : M R (list (option ref) * option ref * nat) :=
  match pending with
  | [] => ret st
  | (key, new) :: rest =>
      if (fst key <=? now)%num then
        let '(assigned, hp, idx) := st in
        cur <- lift (index assigned (snd key)) ;;
        newtk <- deref new ;;
        hp' <- match cur with
               | Some c =>
                   ctk <- deref c ;;
                   if negb (getId ctk =? getId newtk)%Z
                   then complete_primary i now c hp
                   else ret hp
               | None => ret hp
               end ;;
        stale <- match cur with
                 | Some c => ctk <- deref c ;; ret (negb (getId ctk =? getId newtk)%Z)
                 | None => ret true
                 end ;;
        assigned' <- (if stale : bool
                      then update_task new (fun x => setStartTime x now) ;;
                           ret (list_set assigned (snd key) (Some new))
                      else ret assigned) ;;
        dispatch i now rest (assigned', hp', S idx)
      else ret st
  end.

(** Sub-step vi. *)
Definition backup_dispatch (i : nat) (now : R) (hp : option ref)
  : M R (option ref) :=
  s <- gets sched ;;
  bs <- lift (index (backup_start s) i) ;;
  if (bs <=? now)%num then
    bl <- lift (index (backup_list s) i) ;;
    match bl with
    | b0 :: _ =>
        change <- match hp with
                  | None => ret true
                  | Some h =>
                      htk <- deref h ;;
                      btk <- deref b0 ;;
                      ret (negb (getId htk =? getId btk)%Z)
                  end ;;
        if change : bool
        then update_task b0 (fun x => setBackupStartTime x now) ;; ret (Some b0)
        else ret hp
    | [] => ret None
    end
  else ret hp.

(** One iteration of [while sim_time <= self.deadlines[i]]. *)
Definition sim_step (i : nat) (loc : Locals) : M R Locals :=
  let now := sim_time loc in
  accrue loc ;;
  st <- for_fold (seq 0 (length (lp_assignedTask loc)))
                 (lp_assignedTask loc, hp_assignedTask loc)
                 (sweep_core i now) ;;
  hp1 <- backup_completion i now (snd st) ;;
  items <- pri_schedule_at i ;;
  st2 <- dispatch i now (skipn (keyIdx loc) items) (fst st, hp1, keyIdx loc) ;;
  hp2 <- backup_dispatch i now (snd (fst st2)) ;;
  s <- gets sched ;;
  ret (mkLocals (now + time_step s)%num (fst (fst st2)) hp2 (snd st2)).

Fixpoint window_loop (fuel : nat) (i : nat) (loc : Locals) : M R Locals :=
  ds <- self_deadlines ;;
  d <- lift (index ds i) ;;
  if (sim_time loc <=? d)%num then
    match fuel with
    | O => exit Timeout
    | S fuel' => loc' <- sim_step i loc ;; window_loop fuel' i loc'
    end
  else ret loc.

(** Body of [for i in range(len(self.deadlines))] in [simulate]; the
    clock is the local that survives from one window to the next. *)
Definition simulate_window (fuel : nat) (i : nat) (now : R) : M R R :=
  items <- pri_schedule_at i ;;
  for_each items (fun e => update_task (snd e) resetEncounteredFault) ;;
  _ <- generate_fault_occurrences i ;;
  lp <- gets lp_cores ;;
  items' <- pri_schedule_at i ;;
  _ <- lift (index items' 0) ;;
  loc <- window_loop fuel i (mkLocals now (repeat None (length lp)) None 0) ;;
  ret (sim_time loc).

Definition account_energy (frame0 : R) (c : Core R) : Core R :=
  let c1 := update_energy_consumption c
              (energy_consumption_active c (get_active_duration c)) in
  update_energy_consumption c1
    (energy_consumption_idle c1 (frame0 - get_active_duration c1)%num).

(** [fuel] bounds the iterations of each window's [while] loop. *)
Definition simulate (fuel : nat) : M R unit :=
  ds <- self_deadlines ;;
  _ <- for_fold (seq 0 (length ds)) (of_int 0) (simulate_window fuel) ;;
  s <- gets sched ;;
  modify (with_lp_cores (map (account_energy (frame s)))) ;;
  modify (with_hp_core (account_energy (frame s))).

End Methods.

Arguments Locals R : clear implicits.

(* ================================================================== *)
(** ** Order and arithmetic laws of exact numbers *)

(** The facts about numbers that the properties of the scheduler rest on.
    They hold of exact rationals; binary64 satisfies the order laws on
    finite values but none of the arithmetic ones exactly. *)
Class NumberLaws (R : Type) {NR : Number R} : Prop := {
  num_le_refl : forall a : R, (a <=? a)%num = true;
  num_le_trans : forall a b c : R,
      (a <=? b)%num = true -> (b <=? c)%num = true -> (a <=? c)%num = true;
  num_le_total : forall a b : R, (a <=? b)%num = false -> (b <=? a)%num = true;
  num_lt_le : forall a b : R, (a <? b)%num = negb (b <=? a)%num;
  num_eq_le : forall a b : R, (a =? b)%num = (a <=? b)%num && (b <=? a)%num;
  num_sub_zero : forall a : R, (a - of_int 0 =? a)%num = true;
  num_add_step : forall a d : R,
      (of_int 0 <? d)%num = true -> (a <? a + d)%num = true;
  num_archimedean : forall a b d : R,
      (of_int 0 <? d)%num = true ->
      exists n, (b <? Nat.iter n (fun x => x + d)%num a)%num = true;
  num_offset_bounds : forall a f q : R,
      (a <=? f)%num = true -> (f <=? a + q)%num = true ->
      (of_int 0 <=? f - a)%num = true /\ (f - a <=? q)%num = true;
  num_add_nonneg : forall a q : R,
      (of_int 0 <=? q)%num = true -> (a <=? a + q)%num = true
}.

Arguments NumberLaws R {NR}.

Module ExactLaws.
Import ExactNum.

Lemma Qle_bool_false (a b : Q) : Qle_bool a b = false -> (b < a)%Q.
Proof.
  intros E. apply Qnot_le_lt. intros L.
  apply Qle_bool_iff in L. congruence.
Qed.

Lemma iter_add (d a : Q) (n : nat) :
  (Nat.iter n (fun x => Qred (x + d)) a == a + inject_Z (Z.of_nat n) * d)%Q.
Proof.
  induction n as [|n IH].
  - simpl. ring.
  - rewrite Nat2Z.inj_succ.
    change (Nat.iter (S n) (fun x => Qred (x + d)) a)
      with (Qred (Nat.iter n (fun x => Qred (x + d)) a + d)).
    rewrite Qred_correct, IH.
    unfold Z.succ. rewrite inject_Z_plus. ring.
Qed.

Lemma Q_archimedean (a b d : Q) :
  (0 < d)%Q -> exists n, (b < a + inject_Z (Z.of_nat n) * d)%Q.
Proof.
  intros Hd.
  set (x := ((b - a) / d)%Q).
  exists (S (Z.to_nat (Qfloor x))).
  assert (Hx : (x < inject_Z (Z.of_nat (S (Z.to_nat (Qfloor x)))))%Q).
  { apply Qlt_le_trans with (inject_Z (Qfloor x + 1)).
    - apply Qlt_floor.
    - rewrite <- Zle_Qle. lia. }
  assert (Hm : (x * d < inject_Z (Z.of_nat (S (Z.to_nat (Qfloor x)))) * d)%Q).
  { apply Qmult_lt_compat_r; assumption. }
  assert (Hxd : (x * d == b - a)%Q).
  { unfold x. field. intros E. rewrite E in Hd. revert Hd. apply Qlt_irrefl. }
  rewrite Hxd in Hm.
  apply Qplus_lt_l with (z := (- a)%Q).
  eapply Qlt_le_trans; [exact Hm|].
  apply Qle_lteq. right. ring.
Qed.

#[export] Instance Q_Laws : NumberLaws Q.
Proof.
  constructor;
    cbn [of_int num_add num_sub num_mul num_lt num_le num_eq Q_Number].
  - intros a. apply Qle_bool_iff, Qle_refl.
  - intros a b c H1 H2. apply Qle_bool_iff.
    apply Qle_bool_iff in H1, H2. eapply Qle_trans; eassumption.
  - intros a b E. apply Qle_bool_iff, Qlt_le_weak, Qle_bool_false, E.
  - reflexivity.
  - intros a b. destruct (Qeq_bool a b) eqn:E.
    + apply Qeq_bool_iff in E. symmetry. apply andb_true_iff; split;
        apply Qle_bool_iff; rewrite E; apply Qle_refl.
    + symmetry. apply andb_false_iff.
      destruct (Qle_bool a b) eqn:L1; [|now left].
      destruct (Qle_bool b a) eqn:L2; [|now right].
      apply Qle_bool_iff in L1, L2.
      assert (a == b)%Q by (apply Qle_antisym; assumption).
      apply Qeq_bool_iff in H. congruence.
  - intros a. apply Qeq_bool_iff. rewrite Qred_correct. ring.
  - intros a d Hd. apply negb_true_iff in Hd. apply Qle_bool_false in Hd.
    apply negb_true_iff. destruct (Qle_bool (Qred (a + d)) a) eqn:L; [|reflexivity].
    apply Qle_bool_iff in L. rewrite Qred_correct in L. exfalso.
    assert (a + 0 < a + d)%Q by (apply Qplus_lt_r; exact Hd).
    rewrite Qplus_0_r in H. apply (Qlt_irrefl a).
    eapply Qlt_le_trans; eassumption.
  - intros a b d Hd. apply negb_true_iff in Hd. apply Qle_bool_false in Hd.
    destruct (Q_archimedean a b Hd) as [n Hn]. exists n.
    apply negb_true_iff.
    destruct (Qle_bool (Nat.iter n (fun x => Qred (x + d)) a) b) eqn:L; [|reflexivity].
    apply Qle_bool_iff in L. rewrite iter_add in L. exfalso.
    apply (Qlt_irrefl b). eapply Qlt_le_trans; eassumption.
  - intros a f q H1 H2. apply Qle_bool_iff in H1, H2.
    rewrite Qred_correct in H2.
    split; apply Qle_bool_iff; rewrite Qred_correct;
      unfold inject_Z; lra.
  - intros a q Hq. apply Qle_bool_iff in Hq. apply Qle_bool_iff.
    rewrite Qred_correct.
    assert (a + 0 <= a + q)%Q by (apply Qplus_le_r; exact Hq).
    rewrite Qplus_0_r in H. exact H.
Qed.

End ExactLaws.

(* ================================================================== *)
(** ** Concrete configurations *)

Module Scenarios.
Import ExactNum Binary64.

Set Warnings "-inexact-float".

Definition idle_core {R} `{Number R} : Core R :=
  mkCore (of_int 0) (of_int 0) (of_int 0) (of_int 0).

(** The world in which [generate_schedule(tasks)] is called on a newly
    constructed scheduler; [None] when the constructor raises. *)
Definition fresh_world {R} `{Number R} (k0 : Z) (frame0 time_step0 : R)
           (m0 : Z) (r0 : R) (tasks : list (Task R)) (draws : list Z)
  : option (World R) :=
  match init k0 frame0 time_step0 m0 r0 false with
  | Ok s =>
      Some (mkWorld s [] tasks (repeat idle_core (Z.to_nat m0)) idle_core draws)
  | _ => None
  end.

Definition run_generate {R} `{Number R} (w : option (World R))
  : option (World R * outcome unit) :=
  option_map generate_schedule w.

Definition empty_world {R} `{Number R} : World R :=
  mkWorld (mkScheduler 0 (of_int 0) (of_int 1) 0 0 (of_int 0) [] None [] [] false)
          [] [] [] idle_core [].

(** The world [generate_schedule] starts in. *)
Definition start {R} `{Number R} (w : option (World R)) : World R :=
  match w with
  | Some w' => w'
  | None => empty_world
  end.

(** The world [generate_schedule] leaves behind. *)
Definition built {R} `{Number R} (w : option (World R)) : World R :=
  match run_generate w with
  | Some (w', _) => w'
  | None => empty_world
  end.

(** What the scheduler holds for each task object: id, primary quotas,
    backup quotas. *)
Definition quotas_of {R} (w : World R) : list (Z * list R * list R) :=
  map (fun t => (task_id t, workload_quota t, backup_workload_quota t)) (heap w).

(** Two windows, two tasks, k = 1 (end-to-end scenario 3). *)
Definition two_windows_Q : option (World Q) :=
  fresh_world 1 200%Q (1 # 100)%Q 1 (8 # 10)%Q
              [new_Task 0 10%Q (4 # 10)%Q; new_Task 1 20%Q (3 # 10)%Q] [].

Definition two_windows_f : option (World float) :=
  fresh_world 1 200%float 0.01%float 1 0.8%float
              [new_Task 0 10%float 0.4%float; new_Task 1 20%float 0.3%float] [].

(** A time step that is not a power of ten. *)
Definition quarter_step_Q : option (World Q) :=
  fresh_world 1 200%Q (1 # 4)%Q 1 (8 # 10)%Q [new_Task 0 1%Q (3 # 4)%Q] [].

Definition quarter_step_f : option (World float) :=
  fresh_world 1 200%float 0.25%float 1 0.8%float
              [new_Task 0 1%float 0.75%float] [].

(** Two full-weight tasks on two LP cores, two tolerated faults. *)
Definition two_cores_Q : option (World Q) :=
  fresh_world 2 200%Q 1%Q 2 (8 # 10)%Q
              [new_Task 0 10%Q 1%Q; new_Task 1 10%Q 1%Q] [].

(** The second window cannot hold its two tasks. *)
Definition late_overload_Q : option (World Q) :=
  fresh_world 1 200%Q 1%Q 1 (8 # 10)%Q
              [new_Task 1 10%Q (4 # 10)%Q; new_Task 2 11%Q (3 # 10)%Q;
               new_Task 3 11%Q (3 # 10)%Q] [].

End Scenarios.

(* ================================================================== *)
(** ** Construction (C9) *)

Module Construction.
Import ExactNum.

(** Counterexample to C9 as stated: a scheduler with non-positive [k],
    [frame] and [m_pri] and a ratio outside (0,1) is constructed without
    any error. *)
Lemma init_accepts_invalid_config :
  init (-1) (-5)%Q (1 # 100)%Q 0 2%Q false
  = Ok (mkScheduler (-1) (-5)%Q (1 # 100)%Q 2 0 2%Q [] None [] [] false).
Proof. vm_compute. reflexivity. Qed.

(** C9 (amended): construction validates nothing.  It fails exactly when
    the time step is not positive, with the [ValueError] of [math.log]; for
    every positive time step it succeeds whatever [k], [frame], [m_pri] and
    [lp_hp_ratio] are, storing them unchanged with empty schedule data. *)
Theorem init_fails_only_on_time_step (k0 : Z) (frame0 ts : Q) (m0 : Z) (r0 : Q)
        (dbg : bool) :
  (Qle_bool ts 0 = true /\ init k0 frame0 ts m0 r0 dbg = Raise ValueError)
  \/ (Qle_bool ts 0 = false /\
      exists dp, init k0 frame0 ts m0 r0 dbg
                 = Ok (mkScheduler k0 frame0 ts dp m0 r0 [] None [] [] dbg)).
Proof.
  unfold init. cbn [round_log10 Q_Number]. unfold Qround_log10.
  destruct (Qle_bool ts 0) eqn:E.
  - left. split; reflexivity.
  - right. split; [reflexivity|].
    destruct (Qle_bool (Qpow10 (2 * Qlog10_floor ts + 1)) (ts * ts));
      eexists; reflexivity.
Qed.

End Construction.

(* ================================================================== *)
(** ** The worked two-window example (C2) and quota rounding (C4) *)

Module Examples.
Import ExactNum Binary64 Scenarios.

Set Warnings "-inexact-float".

(** Counterexample to C2 as stated: with [k = 1] only the first backup quota
    of window 0 is reserved, so the schedule is generated with
    [backup_start[0] = 10 - 3.2 = 6.8], not 4.4. *)
Lemma two_windows_backup_start_not_4_4 :
  exists w, run_generate two_windows_Q = Some (w, Return true)
            /\ backup_start (sched w) = [(34 # 5)%Q; (88 # 5)%Q]
            /\ ~ (34 # 5 == 44 # 10)%Q.
Proof.
  eexists. split; [vm_compute; reflexivity|].
  split; [reflexivity|]. intros E. discriminate E.
Qed.

(** C2 (amended): on the two-task input with [k = 1], step 0.01, one LP core
    and ratio 0.8, [generate_schedule] succeeds; task 0 gets [wq = 4] and
    task 1 gets [wq = 3], [bwq = 2.4] in both windows; the backup list of
    window 0 is [[T0, T1]] and that of window 1 is [[T1]];
    [backup_start[1] = 17.6]; and [backup_start[0]] reserves the backup quota
    of T0 alone, 10 - 3.2 = 6.8 in exact arithmetic.  In binary64 the same
    holds with [backup_start[0] = 10 - bwq(T0)]. *)
Theorem two_windows_schedule :
  (exists w, run_generate two_windows_Q = Some (w, Return true)
     /\ quotas_of w = [(0, [4%Q], [(16 # 5)%Q]);
                       (1, [3%Q], [(12 # 5)%Q]);
                       (1, [3%Q; 3%Q], [(12 # 5)%Q; (12 # 5)%Q])]
     /\ backup_list (sched w) = [[0%nat; 1%nat]; [2%nat]]
     /\ backup_start (sched w) = [(34 # 5)%Q; (88 # 5)%Q]
     /\ tasksList w = [])
  /\
  (exists w bwq0, run_generate two_windows_f = Some (w, Return true)
     /\ quotas_of w = [(0, [4%float], [bwq0]);
                       (1, [3%float], [2.4%float]);
                       (1, [3%float; 3%float], [2.4%float; 2.4%float])]
     /\ backup_list (sched w) = [[0%nat; 1%nat]; [2%nat]]
     /\ backup_start (sched w) = [(10 - bwq0)%float; 17.6%float]).
Proof.
  split.
  - eexists. split; [vm_compute; reflexivity|]. repeat split.
  - eexists. eexists. split; [vm_compute; reflexivity|].
    repeat split; vm_compute; reflexivity.
Qed.

(** C4, the code at failing inputs.  With a time step of 0.25 the quota of a
    task of weight 0.75 in a window of length 1 is 0.8, not
    ceil(0.75 / 0.25) * 0.25 = 0.75: [round(.., precision_dp)] rounds the
    multiple of the step to one decimal.  In binary64 with step 0.01 the
    backup quota of weight 0.4 at ratio 0.8 in a window of length 10 is
    3.21, not 3.2: the product 0.8 * 0.4 * 10 is a little above 3.2 and
    [math.ceil] moves it up a whole step. *)
Theorem quota_rounding_overshoots :
  (exists w, run_generate quarter_step_Q = Some (w, Return true)
     /\ quotas_of w = [(0, [(4 # 5)%Q], [(4 # 5)%Q])]
     /\ (inject_Z (Qceiling ((3 # 4) * 1 / (1 # 4))) * (1 # 4) == 3 # 4)%Q)
  /\ (exists w, run_generate quarter_step_f = Some (w, Return true)
     /\ quotas_of w = [(0, [0.8%float], [0.8%float])])
  /\ (exists w, run_generate two_windows_f = Some (w, Return true)
     /\ nth_error (quotas_of w) 0 = Some (0, [4%float], [3.21%float])
     /\ backup_start (sched w) = [6.79%float; 17.6%float]).
Proof.
  split; [|split].
  - eexists. split; [vm_compute; reflexivity|]. split; reflexivity.
  - eexists. split; [vm_compute; reflexivity|]. vm_compute. reflexivity.
  - eexists. split; [vm_compute; reflexivity|]. split; vm_compute; reflexivity.
Qed.

End Examples.

(* ================================================================== *)
(** ** Reasoning about statements *)

Section MonadFacts.
Context {R : Type} {NR : Number R}.

Lemma bind_eq {A B} (m : M R A) (f : A -> M R B) (w w1 : World R) (a : A) :
  m w = (w1, Normal a) -> bind m f w = f a w1.
Proof. intros E. unfold bind. rewrite E. reflexivity. Qed.

Lemma bind_gets {A B} (g : World R -> A) (f : A -> M R B) (w : World R) :
  bind (gets g) f w = f (g w) w.
Proof. reflexivity. Qed.

Lemma bind_modify {B} (g : World R -> World R) (f : unit -> M R B) (w : World R) :
  bind (modify g) f w = f tt (g w).
Proof. reflexivity. Qed.

Lemma bind_lift_ok {A B} (a : A) (f : A -> M R B) (w : World R) :
  bind (lift (Ok a)) f w = f a w.
Proof. reflexivity. Qed.

Lemma bind_inv {A B} (m : M R A) (f : A -> M R B) (w w' : World R) (o : outcome B) :
  bind m f w = (w', o) ->
  (exists w1 a, m w = (w1, Normal a) /\ f a w1 = (w', o))
  \/ (m w = (w', Return (A := A) true) /\ o = Return true)
  \/ (m w = (w', Return (A := A) false) /\ o = Return false)
  \/ (exists e, m w = (w', Throw e) /\ o = Throw e)
  \/ (m w = (w', Timeout) /\ o = Timeout).
Proof.
  unfold bind. destruct (m w) as [w1 [a|b|e|]]; intros E.
  - left. eauto.
  - inversion E; subst. destruct b; auto.
  - inversion E; subst. right. right. right. left. eauto.
  - inversion E; subst. auto 10.
Qed.

Lemma bind_inv_normal {A B} (m : M R A) (f : A -> M R B) (w w' : World R) (b : B) :
  bind m f w = (w', Normal b) ->
  exists w1 a, m w = (w1, Normal a) /\ f a w1 = (w', Normal b).
Proof.
  unfold bind. destruct (m w) as [w1 [a|b0|e|]]; intros E; try discriminate.
  eauto.
Qed.

Lemma lift_ok {A} (a : A) (w : World R) : lift (Ok a) w = (w, Normal a).
Proof. reflexivity. Qed.

Lemma lift_inv_normal {A} (r : result A) (w w' : World R) (a : A) :
  lift r w = (w', Normal a) -> w' = w /\ r = Ok a.
Proof. unfold lift. destruct r; intros E; inversion E; auto. Qed.

Lemma exit_inv {A} (o o' : outcome A) (w w' : World R) :
  exit o w = (w', o') -> w' = w /\ o = o'.
Proof. unfold exit. intros E. inversion E. auto. Qed.

Lemma index_ok {A} (l : list A) (i : nat) (a : A) :
  index l i = Ok a <-> nth_error l i = Some a.
Proof.
  unfold index. destruct (nth_error l i); split; intros E; inversion E; reflexivity.
Qed.

Lemma list_set_length {A} (l : list A) (i : nat) (v : A) :
  length (list_set l i v) = length l.
Proof.
  revert i. induction l as [|a l IH]; intros [|i]; simpl; auto.
Qed.

Lemma list_set_same {A} (l : list A) (i : nat) (v : A) :
  (i < length l)%nat -> nth_error (list_set l i v) i = Some v.
Proof.
  revert i. induction l as [|a l IH]; intros [|i] H; simpl in *; try lia; auto.
  apply IH. lia.
Qed.

Lemma list_set_other {A} (l : list A) (i j : nat) (v : A) :
  i <> j -> nth_error (list_set l i v) j = nth_error l j.
Proof.
  revert i j. induction l as [|a l IH]; intros [|i] [|j] H; simpl; auto.
  congruence.
Qed.

End MonadFacts.

(** Splits a hypothesis [bind m f w = (w', o)] into the run of [m] and the
    run of the continuation, closing the branches in which [m] already left
    with an outcome that contradicts [o]. *)
Ltac unbind H :=
  let w1 := fresh "w" in
  let a := fresh "a" in
  let E := fresh "E" in
  let e := fresh "e" in
  apply bind_inv in H;
  destruct H as [(w1 & a & E & H) | [(E & H) | [(E & H) | [(e & E & H) | (E & H)]]]];
  try discriminate H.

Tactic Notation "unbind_normal" hyp(H) "as" ident(w) ident(a) ident(E) :=
  apply bind_inv_normal in H;
  destruct H as (w & a & E & H).

Tactic Notation "unbind" hyp(H) "as" ident(w) ident(a) ident(E) :=
  apply bind_inv in H;
  destruct H as [(w & a & E & H) | [(E & H) | [(E & H) | [(? & E & H) | (E & H)]]]].

(* ================================================================== *)
(** ** BB-overloading reservation (C1) *)

Section Reservation.
Context {R : Type} {NR : Number R}.

(** The sum [reserve] computes, read off a heap: [acc] plus the backup
    quotas for window [idx] of the tasks referenced by [bl]. *)
Fixpoint backup_quota_sum (h : list (Task R)) (idx : nat) (bl : list ref) (acc : R)
  : result R :=
  match bl with
  | [] => Ok acc
  | b :: bl' =>
      rbind (index h b) (fun t =>
      rbind (getBackupWorkloadQuota t idx) (fun q =>
      backup_quota_sum h idx bl' (acc + q)%num))
  end.

(** The first [min(k, |bl|)] entries of a backup list. *)
Definition reserved_prefix (s : EnSuRe_Scheduler R) (bl : list ref) : list ref :=
  firstn (Z.to_nat (Z.min (k s) (Z.of_nat (length bl)))) bl.

Lemma reserve_pure (idx : nat) (bl : list ref) (acc : R) (w : World R) :
  reserve idx bl acc w = lift (backup_quota_sum (heap w) idx bl acc) w.
Proof.
  revert acc. induction bl as [|b bl IH]; intros acc; simpl.
  - reflexivity.
  - unfold bind, deref. destruct (index (heap w) b) as [t|e]; simpl; try reflexivity.
    destruct (getBackupWorkloadQuota t idx); simpl; try reflexivity.
    apply IH.
Qed.

Lemma pymax_ge_left {L : NumberLaws R} (a b : R) : (a <=? pymax a b)%num = true.
Proof.
  unfold pymax. destruct (a <? b)%num eqn:E.
  - rewrite num_lt_le in E. apply negb_true_iff in E.
    apply num_le_total. exact E.
  - apply num_le_refl.
Qed.

Lemma pymax_ge_right {L : NumberLaws R} (a b : R) : (b <=? pymax a b)%num = true.
Proof.
  unfold pymax. destruct (a <? b)%num eqn:E.
  - apply num_le_refl.
  - rewrite num_lt_le in E. apply negb_false_iff in E. exact E.
Qed.

(** What a call of [update_BB_overloading] does when nothing raises. *)
Lemma update_BB_overloading_spec (idx : nat) (sim_time : R) (w : World R)
      (bl : list ref) (ds : list R) (d cap : R) :
  nth_error (backup_list (sched w)) idx = Some bl ->
  backup_quota_sum (heap w) idx (reserved_prefix (sched w) bl) (of_int 0) = Ok cap ->
  deadlines (sched w) = Some ds ->
  nth_error ds idx = Some d ->
  update_BB_overloading idx sim_time w =
    (with_sched (set_backup_start
       (if (length (backup_start (sched w)) <=? idx)%nat
        then backup_start (sched w) ++ [(d - cap)%num]
        else list_set (backup_start (sched w)) idx (pymax sim_time (d - cap)%num))) w,
     Normal tt).
Proof.
  intros Hbl Hcap Hds Hd.
  unfold update_BB_overloading.
  unfold bind at 1. unfold gets.
  apply index_ok in Hbl. rewrite Hbl.
  unfold bind at 1. rewrite lift_ok.
  unfold bind at 1. rewrite reserve_pure.
  unfold reserved_prefix in Hcap. rewrite Hcap. rewrite lift_ok.
  unfold bind at 1. unfold self_deadlines. rewrite Hds.
  apply index_ok in Hd. rewrite Hd.
  unfold bind at 1. rewrite lift_ok.
  destruct (length (backup_start (sched w)) <=? idx)%nat; reflexivity.
Qed.

End Reservation.

Module ReservationExamples.
Import ExactNum Scenarios.

(** One task of weight 0.5 and deadline 10, one tolerated fault. *)
Definition one_task_Q (draws : list Z) : option (World Q) :=
  fresh_world 1 200%Q (1 # 100)%Q 1 (8 # 10)%Q [new_Task 0 10%Q (5 # 10)%Q] draws.

(** The clock with which [simulate] leaves its loop over the windows. *)
Definition final_clock (fuel : nat) (w : World Q) : World Q * outcome Q :=
  match deadlines (sched w) with
  | Some ds => for_fold (seq 0 (length ds)) (of_int 0) (simulate_window fuel) w
  | None => (w, Throw TypeError)
  end.

End ReservationExamples.

Section ReservationTheorems.
Context {R : Type} {NR : Number R} {L : NumberLaws R}.

(** C1 (amended): a call [update_BB_overloading(w, sim_time)] that finds an
    entry for window [w] overwrites it with
    [max(sim_time, d_w - sum)], where [sum] adds the backup quotas of the
    first [min(k, |B_w|)] entries of the backup list; the new entry is at
    least the [sim_time] of the call, and no other entry changes. *)
Theorem update_overwrites_with_clamp (idx : nat) (sim_time : R) (w : World R)
        (bl : list ref) (ds : list R) (d cap : R) :
  nth_error (backup_list (sched w)) idx = Some bl ->
  backup_quota_sum (heap w) idx (reserved_prefix (sched w) bl) (of_int 0) = Ok cap ->
  deadlines (sched w) = Some ds ->
  nth_error ds idx = Some d ->
  (idx < length (backup_start (sched w)))%nat ->
  exists w',
    update_BB_overloading idx sim_time w = (w', Normal tt)
    /\ nth_error (backup_start (sched w')) idx = Some (pymax sim_time (d - cap)%num)
    /\ (sim_time <=? pymax sim_time (d - cap)%num)%num = true
    /\ length (backup_start (sched w')) = length (backup_start (sched w))
    /\ (forall j, j <> idx ->
          nth_error (backup_start (sched w')) j = nth_error (backup_start (sched w)) j)
    /\ backup_list (sched w') = backup_list (sched w).
Proof.
  intros Hbl Hcap Hds Hd Hlen.
  eexists. split.
  - eapply update_BB_overloading_spec; eassumption.
  - assert (E : (length (backup_start (sched w)) <=? idx)%nat = false)
      by (apply Nat.leb_gt; exact Hlen).
    rewrite E. cbn [sched with_sched set_backup_start backup_start backup_list].
    repeat split.
    + apply list_set_same; assumption.
    + apply pymax_ge_left.
    + apply list_set_length.
    + intros j Hj. apply list_set_other. congruence.
Qed.

End ReservationTheorems.

Module ReservationChecks.
Import ExactNum ExactLaws Scenarios ReservationExamples.

(** Counterexample to C1 as stated.  (1) With two full-weight tasks on two LP
    cores and [k = 2], window 0 reserves 8 + 8 before the deadline 10: the
    entry appended by [update_BB_overloading(0, 0)] is -6, which is neither
    [max(0, -6)] nor at least the [sim_time] 0 of the call.  (2) In the
    simulation of a single task with a fault, the clock leaves window 0 at
    10.01 while [backup_start[0]] is 10: the clock passes the entry. *)
Lemma backup_start_below_sim_time :
  (exists w w',
      run_generate two_cores_Q = Some (w, Return true)
      /\ backup_start (sched w) = [(-6)%Q]
      /\ update_BB_overloading 0 0%Q (with_sched (set_backup_start []) w)
         = (w', Normal tt)
      /\ backup_start (sched w') = [(-6)%Q]
      /\ pymax 0%Q (-6)%Q = 0%Q
      /\ (0%Q <=? (-6)%Q)%num = false)
  /\
  (exists w w' t,
      run_generate (one_task_Q [200]) = Some (w, Return true)
      /\ final_clock 2000 w = (w', Normal t)
      /\ backup_start (sched w') = [10%Q]
      /\ t = (1001 # 100)%Q
      /\ (t <=? 10%Q)%num = false).
Proof.
  split.
  - eexists. eexists. split; [vm_compute; reflexivity|].
    split; [reflexivity|]. split; [vm_compute; reflexivity|].
    repeat split.
  - eexists. eexists. eexists. split; [vm_compute; reflexivity|].
    split; [vm_compute; reflexivity|]. repeat split.
Qed.

(** The overwrite of [backup_start[0]] when a task leaves the backup list of
    window 0 at time 4 in the two-window example. *)
Lemma update_overwrites_with_clamp_witness :
  let w := built two_windows_Q in
  nth_error (backup_list (sched w)) 0 = Some [0%nat; 1%nat]
  /\ backup_quota_sum (heap w) 0 (reserved_prefix (sched w) [0%nat; 1%nat]) 0%Q
     = Ok (16 # 5)%Q
  /\ deadlines (sched w) = Some [10%Q; 20%Q]
  /\ (0 < length (backup_start (sched w)))%nat
  /\ exists w',
      update_BB_overloading 0 4%Q w = (w', Normal tt)
      /\ nth_error (backup_start (sched w')) 0
         = Some (pymax 4%Q (num_sub 10%Q (16 # 5)%Q))
      /\ (4%Q <=? pymax 4%Q (num_sub 10%Q (16 # 5)%Q))%num = true
      /\ length (backup_start (sched w')) = length (backup_start (sched w))
      /\ (forall j, j <> 0%nat ->
            nth_error (backup_start (sched w')) j = nth_error (backup_start (sched w)) j)
      /\ backup_list (sched w') = backup_list (sched w).
Proof.
  intros w.
  assert (H1 : nth_error (backup_list (sched w)) 0 = Some [0%nat; 1%nat])
    by (vm_compute; reflexivity).
  assert (H2 : backup_quota_sum (heap w) 0 (reserved_prefix (sched w) [0%nat; 1%nat]) 0%Q
               = Ok (16 # 5)%Q) by (vm_compute; reflexivity).
  assert (H3 : deadlines (sched w) = Some [10%Q; 20%Q]) by (vm_compute; reflexivity).
  assert (H4 : (0 < length (backup_start (sched w)))%nat) by (vm_compute; lia).
  repeat (split; [assumption|]).
  eapply (update_overwrites_with_clamp (L := Q_Laws));
    [exact H1 | exact H2 | exact H3 | reflexivity | exact H4].
Defined.

End ReservationChecks.

(* ================================================================== *)
(** ** Frame properties of statements *)

Section Frames.
Context {R : Type} {NR : Number R}.

(** [m] relates the world it starts in to the world it leaves, whatever its
    outcome. *)
Definition preserves {A} (Rel : World R -> World R -> Prop) (m : M R A) : Prop :=
  forall w w' o, m w = (w', o) -> Rel w w'.

(** [m] never executes [return b]. *)
Definition never_returns (b : bool) {A} (m : M R A) : Prop :=
  forall w w', m w <> (w', Return b).

Section Closure.
Variable Rel : World R -> World R -> Prop.
Hypothesis Rel_refl : forall w, Rel w w.
Hypothesis Rel_trans : forall a b c, Rel a b -> Rel b c -> Rel a c.

Lemma preserves_ret {A} (a : A) : preserves Rel (ret a).
Proof. intros w w' o E. inversion E; subst. apply Rel_refl. Qed.

Lemma preserves_lift {A} (r : result A) : preserves Rel (lift r).
Proof. intros w w' o' E. inversion E; subst. apply Rel_refl. Qed.

Lemma preserves_exit {A} (o : outcome A) : preserves Rel (exit o).
Proof. intros w w' o' E. inversion E; subst. apply Rel_refl. Qed.

Lemma preserves_gets {A} (f : World R -> A) : preserves Rel (gets f).
Proof. intros w w' o E. inversion E; subst. apply Rel_refl. Qed.

Lemma preserves_deref (r : ref) : preserves Rel (deref r).
Proof. intros w w' o E. inversion E; subst. apply Rel_refl. Qed.

Lemma preserves_self_deadlines : preserves Rel self_deadlines.
Proof.
  intros w w' o E. unfold self_deadlines in E.
  destruct (deadlines (sched w)); inversion E; subst; apply Rel_refl.
Qed.

Lemma preserves_modify (f : World R -> World R) :
  (forall w, Rel w (f w)) -> preserves Rel (modify f).
Proof. intros H w w' o E. inversion E; subst. apply H. Qed.

Lemma preserves_bind {A B} (m : M R A) (f : A -> M R B) :
  preserves Rel m -> (forall a, preserves Rel (f a)) -> preserves Rel (bind m f).
Proof.
  intros Hm Hf w w' o E. unfold bind in E.
  destruct (m w) as [w1 [a|b|e|]] eqn:Em; try (inversion E; subst; eapply Hm; eassumption).
  eapply Rel_trans; [eapply Hm; eassumption | eapply Hf; eassumption].
Qed.

Lemma preserves_for_each {A} (l : list A) (body : A -> M R unit) :
  (forall x, preserves Rel (body x)) -> preserves Rel (for_each l body).
Proof.
  intros H. induction l as [|x l IH]; simpl.
  - apply preserves_ret.
  - apply preserves_bind; auto.
Qed.

Lemma preserves_for_fold {A B} (l : list A) (body : A -> B -> M R B) (acc : B) :
  (forall x b, preserves Rel (body x b)) -> preserves Rel (for_fold l acc body).
Proof.
  intros H. revert acc. induction l as [|x l IH]; intros acc; simpl.
  - apply preserves_ret.
  - apply preserves_bind; auto.
Qed.

End Closure.

Section Never.
Variable b : bool.

Lemma never_returns_ret {A} (a : A) : never_returns b (ret a).
Proof. intros w w' E. inversion E. Qed.

Lemma never_returns_gets {A} (f : World R -> A) : never_returns b (gets f).
Proof. intros w w' E. inversion E. Qed.

Lemma never_returns_modify (f : World R -> World R) : never_returns b (modify f).
Proof. intros w w' E. inversion E. Qed.

Lemma never_returns_lift {A} (r : result A) : never_returns b (lift r).
Proof. intros w w' E. unfold lift in E. destruct r; inversion E. Qed.

Lemma never_returns_exit {A} (o : outcome A) :
  o <> Return b -> never_returns b (exit o).
Proof. intros H w w' E. inversion E. congruence. Qed.

Lemma never_returns_deref (r : ref) : never_returns b (deref r).
Proof. intros w w'. apply never_returns_lift. Qed.

Lemma never_returns_self_deadlines : never_returns b self_deadlines.
Proof.
  intros w w' E. unfold self_deadlines in E.
  destruct (deadlines (sched w)); inversion E.
Qed.

Lemma never_returns_bind {A B} (m : M R A) (f : A -> M R B) :
  never_returns b m -> (forall a, never_returns b (f a)) -> never_returns b (bind m f).
Proof.
  intros Hm Hf w w' E. unfold bind in E.
  destruct (m w) as [w1 [a|b0|e|]] eqn:Em; try discriminate.
  - eapply Hf; eassumption.
  - inversion E; subst. eapply Hm; eassumption.
Qed.

Lemma never_returns_for_each {A} (l : list A) (body : A -> M R unit) :
  (forall x, never_returns b (body x)) -> never_returns b (for_each l body).
Proof.
  intros H. induction l as [|x l IH]; simpl.
  - apply never_returns_ret.
  - apply never_returns_bind; auto.
Qed.

Lemma never_returns_for_fold {A B} (l : list A) (body : A -> B -> M R B) (acc : B) :
  (forall x y, never_returns b (body x y)) -> never_returns b (for_fold l acc body).
Proof.
  intros H. revert acc. induction l as [|x l IH]; intros acc; simpl.
  - apply never_returns_ret.
  - apply never_returns_bind; auto.
Qed.

End Never.

End Frames.

(** Walks through the structure of a statement to show that it preserves a
    relation with reflexivity proof [refl] and transitivity proof [trans];
    what is left are the [modify] steps and the calls of other methods. *)
Ltac frame_walk refl trans :=
  repeat match goal with
    | |- preserves _ (ret _) => apply preserves_ret; apply refl
    | |- preserves _ (lift _) => apply preserves_lift; apply refl
    | |- preserves _ (exit _) => apply preserves_exit; apply refl
    | |- preserves _ (gets _) => apply preserves_gets; apply refl
    | |- preserves _ (deref _) => apply preserves_deref; apply refl
    | |- preserves _ self_deadlines => apply preserves_self_deadlines; apply refl
    | |- preserves _ (bind _ _) => apply preserves_bind; [apply trans | | intros]
    | |- preserves _ (for_each _ _) =>
        apply preserves_for_each; [apply refl | apply trans | intros]
    | |- preserves _ (for_fold _ _ _) =>
        apply preserves_for_fold; [apply refl | apply trans | intros]
    | |- preserves _ (match ?x with _ => _ end) => destruct x
    | |- preserves _ (let _ := _ in _) => cbv zeta
    end.

Ltac never_walk :=
  repeat match goal with
    | |- never_returns _ (ret _) => apply never_returns_ret
    | |- never_returns _ (gets _) => apply never_returns_gets
    | |- never_returns _ (modify _) => apply never_returns_modify
    | |- never_returns _ (deref _) => apply never_returns_deref
    | |- never_returns _ self_deadlines => apply never_returns_self_deadlines
    | |- never_returns _ (lift _) => apply never_returns_lift
    | |- never_returns true (exit (Return false)) =>
        apply never_returns_exit; discriminate
    | |- never_returns _ (bind _ _) => apply never_returns_bind; [|intros]
    | |- never_returns _ (for_each _ _) => apply never_returns_for_each; intros
    | |- never_returns _ (for_fold _ _ _) => apply never_returns_for_fold; intros
    | |- never_returns _ (match ?x with _ => _ end) => destruct x
    | |- never_returns _ (let _ := _ in _) => cbv zeta
    end.

Section Unchanged.
Context {R : Type} {NR : Number R} {X : Type}.
Variable F : World R -> X.

(** The part [F] of the world is the same before and after. *)
Definition unchanged (w w' : World R) : Prop := F w' = F w.

Lemma unchanged_refl (w : World R) : unchanged w w.
Proof. reflexivity. Qed.

Lemma unchanged_trans (a b c : World R) :
  unchanged a b -> unchanged b c -> unchanged a c.
Proof. unfold unchanged. congruence. Qed.

Definition ignores_heap : Prop := forall w f, F (with_heap f w) = F w.
Definition ignores_tasksList : Prop := forall w f, F (with_tasksList f w) = F w.
Definition ignores_lp_cores : Prop := forall w f, F (with_lp_cores f w) = F w.
Definition ignores_hp_core : Prop := forall w f, F (with_hp_core f w) = F w.
Definition ignores_tape : Prop := forall w f, F (with_tape f w) = F w.
Definition ignores_pri_schedule : Prop :=
  forall w v, F (with_sched (set_pri_schedule v) w) = F w.
Definition ignores_backup_list : Prop :=
  forall w v, F (with_sched (set_backup_list v) w) = F w.
Definition ignores_backup_start : Prop :=
  forall w v, F (with_sched (set_backup_start v) w) = F w.
Definition ignores_deadlines : Prop :=
  forall w v, F (with_sched (set_deadlines v) w) = F w.

Ltac walk := frame_walk unchanged_refl unchanged_trans.
Ltac by_modify H := apply preserves_modify; intros; apply H.

Lemma reserve_unchanged (idx : nat) (bl : list ref) (acc : R) :
  preserves unchanged (reserve idx bl acc).
Proof.
  intros w w' o E. rewrite reserve_pure in E. inversion E; subst. reflexivity.
Qed.

Lemma window_bounds_unchanged (i : nat) : preserves unchanged (window_bounds i).
Proof. unfold window_bounds. walk. Qed.

Lemma pri_schedule_at_unchanged (i : nat) : preserves unchanged (pri_schedule_at i).
Proof. unfold pri_schedule_at. walk. Qed.

Lemma pri_schedule_put_unchanged (i : nat) (d : list (Key R * ref)) :
  ignores_pri_schedule -> preserves unchanged (pri_schedule_put i d).
Proof. intros H. unfold pri_schedule_put. walk. by_modify H. Qed.

Lemma update_task_unchanged (r : ref) (f : Task R -> Task R) :
  ignores_heap -> preserves unchanged (update_task r f).
Proof. intros H. unfold update_task. by_modify H. Qed.

Lemma update_BB_overloading_unchanged (idx : nat) (t : R) :
  ignores_backup_start -> preserves unchanged (update_BB_overloading idx t).
Proof.
  intros H. unfold update_BB_overloading. walk;
    try apply reserve_unchanged; by_modify H.
Qed.

Lemma without_id_unchanged (tid : Z) (bl : list ref) :
  preserves unchanged (without_id tid bl).
Proof. induction bl as [|b bl IH]; simpl; walk. exact IH. Qed.

Lemma remove_from_backup_list_unchanged (idx : nat) (tid : Z) (t : R) :
  ignores_backup_start -> ignores_backup_list ->
  preserves unchanged (remove_from_backup_list idx tid t).
Proof.
  intros H1 H2. unfold remove_from_backup_list. walk.
  - apply without_id_unchanged.
  - by_modify H2.
  - apply update_BB_overloading_unchanged; assumption.
Qed.

Lemma assign_quotas_unchanged (tw : R) :
  ignores_tasksList -> preserves unchanged (assign_quotas tw).
Proof. intros H. unfold assign_quotas. walk. by_modify H. Qed.

Lemma deepcopy_tasks_unchanged : ignores_heap -> preserves unchanged deepcopy_tasks.
Proof.
  intros H w w' o E. unfold deepcopy_tasks in E. inversion E; subst. apply H.
Qed.

Lemma decorate_wq_unchanged (l : list ref) : preserves unchanged (decorate_wq l).
Proof. induction l as [|r l IH]; simpl; walk. exact IH. Qed.

Lemma sort_by_wq_unchanged (l : list ref) : preserves unchanged (sort_by_wq l).
Proof. unfold sort_by_wq. walk. apply decorate_wq_unchanged. Qed.

Ltac known :=
  first [ apply window_bounds_unchanged
        | apply pri_schedule_at_unchanged
        | apply pri_schedule_put_unchanged; assumption
        | apply update_task_unchanged; assumption
        | apply update_BB_overloading_unchanged; assumption
        | apply assign_quotas_unchanged; assumption
        | apply deepcopy_tasks_unchanged; assumption
        | apply sort_by_wq_unchanged
        | match goal with
          | H : _ |- preserves _ (modify _) => by_modify H
          end ].

Lemma place_unchanged (i : nat) (sw tw : R) (t : ref) (st : list R * nat) :
  ignores_heap -> ignores_tasksList -> ignores_pri_schedule ->
  preserves unchanged (place i sw tw t st).
Proof. intros H1 H2 H3. unfold place. walk; known. Qed.

Lemma lp_pack_unchanged (i : nat) (sw tw : R) :
  ignores_heap -> ignores_tasksList -> ignores_pri_schedule ->
  preserves unchanged (lp_pack i sw tw).
Proof.
  intros H1 H2 H3. unfold lp_pack. walk;
    first [apply place_unchanged; assumption | known].
Qed.

Lemma schedule_window_unchanged (i : nat) :
  ignores_heap -> ignores_tasksList -> ignores_pri_schedule ->
  ignores_backup_list -> ignores_backup_start ->
  preserves unchanged (schedule_window i).
Proof.
  intros H1 H2 H3 H4 H5. unfold schedule_window. walk;
    first [apply lp_pack_unchanged; assumption | known].
Qed.

End Unchanged.

(* ================================================================== *)
(** ** Which methods can return *)

Section Returns.
Context {R : Type} {NR : Number R}.

Lemma reserve_never_returns (b : bool) (idx : nat) (bl : list ref) (acc : R) :
  never_returns (R := R) b (reserve idx bl acc).
Proof.
  intros w w'. rewrite reserve_pure. apply never_returns_lift.
Qed.

Lemma window_bounds_never_returns (b : bool) (i : nat) :
  never_returns (R := R) b (window_bounds i).
Proof. unfold window_bounds. never_walk. Qed.

Lemma pri_schedule_at_never_returns (b : bool) (i : nat) :
  never_returns (R := R) b (pri_schedule_at i).
Proof. unfold pri_schedule_at. never_walk. Qed.

Lemma pri_schedule_put_never_returns (b : bool) (i : nat) (d : list (Key R * ref)) :
  never_returns (R := R) b (pri_schedule_put i d).
Proof. unfold pri_schedule_put. never_walk. Qed.

Lemma update_BB_overloading_never_returns (b : bool) (idx : nat) (t : R) :
  never_returns (R := R) b (update_BB_overloading idx t).
Proof.
  unfold update_BB_overloading. never_walk. apply reserve_never_returns.
Qed.

Lemma assign_quotas_never_returns (b : bool) (tw : R) :
  never_returns (R := R) b (assign_quotas tw).
Proof. unfold assign_quotas. never_walk. Qed.

Lemma deepcopy_tasks_never_returns (b : bool) : never_returns (R := R) b deepcopy_tasks.
Proof. intros w w' E. inversion E. Qed.

Lemma decorate_wq_never_returns (b : bool) (l : list ref) :
  never_returns (R := R) b (decorate_wq l).
Proof. induction l as [|r l IH]; simpl; never_walk. exact IH. Qed.

Lemma sort_by_wq_never_returns (b : bool) (l : list ref) :
  never_returns (R := R) b (sort_by_wq l).
Proof. unfold sort_by_wq. never_walk. apply decorate_wq_never_returns. Qed.

Lemma probe_not_return_true (fuel : nat) (m : Z) (cores : list R) (lp limit : R)
      (cur : nat) (counter : Z) :
  probe fuel m cores lp limit cur counter <> Return true.
Proof.
  revert cur counter. induction fuel as [|fuel IH]; intros cur counter; simpl;
    destruct (index cores cur); try discriminate;
    destruct (limit <? a + lp)%num; try discriminate;
    destruct (m <? counter + 1)%Z; try discriminate.
  apply IH.
Qed.

Lemma place_never_returns_true (i : nat) (sw tw : R) (t : ref) (st : list R * nat) :
  never_returns (R := R) true (place i sw tw t st).
Proof.
  unfold place. never_walk;
    first [ apply pri_schedule_at_never_returns
          | apply pri_schedule_put_never_returns
          | apply never_returns_exit; apply probe_not_return_true
          | unfold update_task; never_walk ].
Qed.

Lemma lp_pack_never_returns_true (i : nat) (sw tw : R) :
  never_returns (R := R) true (lp_pack i sw tw).
Proof.
  unfold lp_pack. never_walk;
    first [ apply deepcopy_tasks_never_returns
          | apply sort_by_wq_never_returns
          | apply pri_schedule_put_never_returns
          | apply place_never_returns_true ].
Qed.

Lemma schedule_window_never_returns_true (i : nat) :
  never_returns (R := R) true (schedule_window i).
Proof.
  unfold schedule_window. never_walk;
    first [ apply window_bounds_never_returns
          | apply assign_quotas_never_returns
          | apply lp_pack_never_returns_true
          | apply pri_schedule_at_never_returns
          | apply pri_schedule_put_never_returns
          | apply update_BB_overloading_never_returns ].
Qed.

End Returns.

(* ================================================================== *)
(** ** What a window commits (C5) *)

Section Commit.
Context {R : Type} {NR : Number R}.

(** Window [j] has a primary map. *)
Definition has_key (j : nat) (d : list (nat * list (Key R * ref))) : Prop :=
  exists v, dict_get Nat.eqb j d = Ok v.

Lemma dict_set_has_key_same (j : nat) (v : list (Key R * ref))
      (d : list (nat * list (Key R * ref))) :
  has_key j (dict_set Nat.eqb j v d).
Proof.
  induction d as [|[k' v'] d IH]; simpl.
  - exists v. simpl. rewrite Nat.eqb_refl. reflexivity.
  - destruct (Nat.eqb k' j) eqn:E.
    + exists v. simpl. rewrite E. reflexivity.
    + destruct IH as [x Hx]. exists x. simpl. rewrite E. exact Hx.
Qed.

Lemma dict_set_has_key_other (i j : nat) (v : list (Key R * ref))
      (d : list (nat * list (Key R * ref))) :
  has_key j d -> has_key j (dict_set Nat.eqb i v d).
Proof.
  unfold has_key. induction d as [|[k' v'] d IH]; intros [x Hx]; simpl in Hx.
  - discriminate.
  - simpl. destruct (Nat.eqb k' i) eqn:Ei; simpl;
      destruct (Nat.eqb k' j) eqn:Ej; eauto.
Qed.

Lemma dict_get_set_same (j : nat) (v : list (Key R * ref))
      (d : list (nat * list (Key R * ref))) :
  dict_get Nat.eqb j (dict_set Nat.eqb j v d) = Ok v.
Proof.
  induction d as [|[k' v'] d IH]; simpl.
  - rewrite Nat.eqb_refl. reflexivity.
  - destruct (Nat.eqb k' j) eqn:E; simpl; rewrite E; auto.
Qed.

Lemma dict_get_set_other (i j : nat) (v : list (Key R * ref))
      (d : list (nat * list (Key R * ref))) :
  i <> j -> dict_get Nat.eqb j (dict_set Nat.eqb i v d) = dict_get Nat.eqb j d.
Proof.
  intros Hij. induction d as [|[k' v'] d IH]; simpl.
  - destruct (Nat.eqb i j) eqn:E; [apply Nat.eqb_eq in E; congruence | reflexivity].
  - destruct (Nat.eqb k' i) eqn:Ei; simpl.
    + apply Nat.eqb_eq in Ei. subst k'.
      destruct (Nat.eqb i j) eqn:E; [apply Nat.eqb_eq in E; congruence | reflexivity].
    + destruct (Nat.eqb k' j); auto.
Qed.

(** Windows that have a primary map keep one. *)
Definition keeps_keys (w w' : World R) : Prop :=
  forall j, has_key j (pri_schedule (sched w)) -> has_key j (pri_schedule (sched w')).

Lemma keeps_keys_refl (w : World R) : keeps_keys w w.
Proof. intros j H. exact H. Qed.

Lemma keeps_keys_trans (a b c : World R) :
  keeps_keys a b -> keeps_keys b c -> keeps_keys a c.
Proof. intros H1 H2 j H. apply H2, H1, H. Qed.

Lemma same_pri_schedule_keeps_keys (w w' : World R) :
  pri_schedule (sched w') = pri_schedule (sched w) -> keeps_keys w w'.
Proof. intros E j H. rewrite E. exact H. Qed.

(** A statement that leaves the whole world as it is. *)
Lemma pure_step {A} (m : M R A) (w w' : World R) (o : outcome A) :
  preserves (unchanged (fun x : World R => x)) m -> m w = (w', o) -> w' = w.
Proof. intros H E. exact (H _ _ _ E). Qed.

Lemma pri_schedule_put_world (i : nat) (d : list (Key R * ref)) (w : World R) :
  pri_schedule_put i d w
  = (with_sched (set_pri_schedule (dict_set Nat.eqb i d (pri_schedule (sched w)))) w,
     Normal tt).
Proof. reflexivity. Qed.

Lemma pri_schedule_put_keeps_keys (i : nat) (d : list (Key R * ref)) :
  preserves keeps_keys (pri_schedule_put i d).
Proof.
  intros w w' o E. rewrite pri_schedule_put_world in E. inversion E; subst.
  intros j H. apply dict_set_has_key_other. exact H.
Qed.

Lemma place_keeps_keys (i : nat) (sw tw : R) (t : ref) (st : list R * nat) :
  preserves keeps_keys (place i sw tw t st).
Proof.
  unfold place. frame_walk keeps_keys_refl keeps_keys_trans;
    first [ apply pri_schedule_put_keeps_keys
          | intros w w' o E; apply same_pri_schedule_keeps_keys;
            revert E;
            first [ apply pri_schedule_at_unchanged with (F := fun x => pri_schedule (sched x))
                  | apply update_task_unchanged with (F := fun x => pri_schedule (sched x));
                    intros x f; reflexivity
                  | intros E; inversion E; reflexivity ] ].
Qed.

Lemma lp_pack_keeps_keys (i : nat) (sw tw : R) :
  preserves keeps_keys (lp_pack i sw tw).
Proof.
  unfold lp_pack. frame_walk keeps_keys_refl keeps_keys_trans;
    first [ apply pri_schedule_put_keeps_keys
          | apply place_keeps_keys
          | intros w w' o E; apply same_pri_schedule_keeps_keys;
            revert E;
            first [ apply deepcopy_tasks_unchanged with (F := fun x => pri_schedule (sched x));
                    intros x f; reflexivity
                  | apply sort_by_wq_unchanged with (F := fun x => pri_schedule (sched x)) ] ].
Qed.

(** The reservation data of a world. *)
Definition reservation (w : World R) : list (list ref) * list R :=
  (backup_list (sched w), backup_start (sched w)).

Lemma lp_pack_same_reservation (i : nat) (sw tw : R) :
  preserves (unchanged reservation) (lp_pack i sw tw).
Proof. apply lp_pack_unchanged; intros w f; reflexivity. Qed.

Lemma update_BB_overloading_normal (idx : nat) (t : R) (w w' : World R) :
  update_BB_overloading idx t w = (w', Normal tt) ->
  exists x,
    w' = with_sched (set_backup_start
           (if (length (backup_start (sched w)) <=? idx)%nat
            then backup_start (sched w) ++ [x]
            else list_set (backup_start (sched w)) idx (pymax t x))) w.
Proof.
  intros H. unfold update_BB_overloading in H.
  unbind_normal H as w1 s E1. inversion E1; subst; clear E1.
  unbind_normal H as w2 bl E2. apply lift_inv_normal in E2. destruct E2 as [-> _].
  unbind_normal H as w3 cap E3. rewrite reserve_pure in E3. apply lift_inv_normal in E3.
  destruct E3 as [-> _].
  unbind_normal H as w4 ds E4.
  assert (w4 = w1) by (revert E4; apply pure_step, preserves_self_deadlines;
                       apply unchanged_refl). subst w4.
  unbind_normal H as w5 d E5. apply lift_inv_normal in E5. destruct E5 as [-> _].
  exists (d - cap)%num.
  destruct (length (backup_start (sched w1)) <=? idx)%nat; inversion H; reflexivity.
Qed.

(** Windows [0 .. i-1] are committed and nothing else is: each has a backup
    list, a backup start and a primary map. *)
Definition committed (i : nat) (w : World R) : Prop :=
  length (backup_list (sched w)) = i
  /\ length (backup_start (sched w)) = i
  /\ forall j, (j < i)%nat -> has_key j (pri_schedule (sched w)).

Lemma committed_transfer (i : nat) (w w' : World R) :
  unchanged reservation w w' -> keeps_keys w w' -> committed i w -> committed i w'.
Proof.
  unfold unchanged, reservation. intros E K (H1 & H2 & H3).
  inversion E as [[E1 E2]]. unfold committed. rewrite E1, E2.
  repeat split; auto.
Qed.

(** Closes the branches of [unbind] in which a statement that cannot
    return left with a [return], or in which nothing is claimed. *)
Tactic Notation "cannot_return" hyp(E) "by" uconstr(lem) :=
  subst; try exact I; exfalso; revert E; apply lem.

Lemma schedule_window_commit (i : nat) (w w' : World R) (o : outcome unit) :
  schedule_window i w = (w', o) ->
  committed i w ->
  match o with
  | Normal _ => committed (S i) w'
  | Return _ => committed i w'
  | _ => True
  end.
Proof.
  intros H C. unfold schedule_window in H.
  unbind H as w1 b E1; [| cannot_return E1 by window_bounds_never_returns ..].
  assert (w1 = w) by (revert E1; apply pure_step, window_bounds_unchanged).
  subst w1. clear E1.
  unbind H as w2 total E2; [| cannot_return E2 by assign_quotas_never_returns ..].
  assert (C2 : committed i w2).
  { revert C. apply committed_transfer.
    - revert E2. apply assign_quotas_unchanged. intros x f. reflexivity.
    - apply same_pri_schedule_keeps_keys. revert E2.
      apply assign_quotas_unchanged with (F := fun x => pri_schedule (sched x)).
      intros x f. reflexivity. }
  clear E2 C.
  rewrite bind_gets in H.
  destruct (total <=? fst b * of_int (m_pri (sched w2)))%num.
  2:{ inversion H; subst. exact C2. }
  unbind H as w4 packed E4.
  2-5: assert (C4 : committed i w')
    by (revert C2; apply committed_transfer;
        [ revert E4; apply lp_pack_same_reservation
        | revert E4; apply lp_pack_keeps_keys ]);
    subst o; first [exact C4 | exact I].
  assert (C4 : committed i w4).
  { revert C2. apply committed_transfer.
    - revert E4. apply lp_pack_same_reservation.
    - revert E4. apply lp_pack_keeps_keys. }
  clear E4 C2.
  unbind H as w5 d E5; [| cannot_return E5 by pri_schedule_at_never_returns ..].
  assert (w5 = w4) by (revert E5; apply pure_step, pri_schedule_at_unchanged).
  subst w5. clear E5.
  erewrite bind_eq in H by apply pri_schedule_put_world.
  unbind H as w7 c0 E7; [| cannot_return E7 by never_returns_lift ..].
  assert (w7 = with_sched (set_pri_schedule
            (dict_set Nat.eqb i (sort_asc (fun a b => key_ltb (fst a) (fst b)) d)
                      (pri_schedule (sched w4)))) w4)
    by (revert E7; apply pure_step, preserves_lift; apply unchanged_refl).
  subst w7. clear E7.
  rewrite bind_gets, bind_modify in H.
  destruct C4 as (L1 & L2 & L3).
  destruct o as [[]| r | e |]; try exact I.
  - apply update_BB_overloading_normal in H. destruct H as [x ->].
    unfold committed.
    cbn [sched with_sched set_backup_start set_backup_list set_pri_schedule
         backup_list backup_start pri_schedule].
    rewrite L2, Nat.leb_refl.
    rewrite !length_app, L1, L2. simpl.
    repeat split; try lia.
    intros j Hj. destruct (Nat.eq_dec j i) as [->|Hne].
    + apply dict_set_has_key_same.
    + apply dict_set_has_key_other. apply L3. lia.
  - exfalso. revert H. apply update_BB_overloading_never_returns.
Qed.

End Commit.

Section CommitTheorems.
Context {R : Type} {NR : Number R}.

Lemma windows_commit (n a : nat) (w w' : World R) (o : outcome unit) :
  for_each (seq a n) schedule_window w = (w', o) ->
  committed a w ->
  match o with
  | Normal _ => committed (a + n) w'
  | Return b => b = false /\ exists i, (a <= i < a + n)%nat /\ committed i w'
  | _ => True
  end.
Proof.
  revert a w. induction n as [|n IH]; intros a w H C; simpl in H.
  - inversion H; subst. rewrite Nat.add_0_r. exact C.
  - unbind H as w1 u E.
    + pose proof (schedule_window_commit E C) as C1. simpl in C1.
      specialize (IH _ _ H C1).
      destruct o as [u'|b|e|]; try exact I.
      * rewrite <- Nat.add_succ_comm. exact IH.
      * destruct IH as (Hb & i & Hi & Ci). split; [exact Hb|].
        exists i. split; [lia | exact Ci].
    + exfalso. revert E. apply schedule_window_never_returns_true.
    + subst o. split; [reflexivity|]. exists a. split; [lia|].
      exact (schedule_window_commit E C).
    + subst o. exact I.
    + subst o. exact I.
Qed.

Lemma windows_same_deadlines (l : list nat) :
  preserves (R := R) (unchanged (fun x => deadlines (sched x)))
            (for_each l schedule_window).
Proof.
  apply preserves_for_each;
    [apply unchanged_refl | apply unchanged_trans | intros i].
  apply schedule_window_unchanged; intros x f; reflexivity.
Qed.

(** C5 (amended): [generate_schedule] never leaves by falling off its end.
    Started on a scheduler with no schedule data, it either returns [True]
    with a primary map, a backup list and a backup start for every window,
    or returns [False] at some window [i], leaving committed exactly the
    backup lists and backup starts of the [i] windows before it, with their
    primary maps: nothing is rolled back. *)
Theorem generate_schedule_commits_per_window (w w' : World R) (o : outcome unit) :
  pri_schedule (sched w) = [] ->
  backup_list (sched w) = [] ->
  backup_start (sched w) = [] ->
  generate_schedule w = (w', o) ->
  exists ds,
    deadlines (sched w') = Some ds
    /\ match o with
       | Return true => committed (length ds) w'
       | Return false => exists i, (i < length ds)%nat /\ committed i w'
       | Normal _ => False
       | _ => True
       end.
Proof.
  intros Hp Hl Hs H. unfold generate_schedule in H.
  rewrite bind_modify, bind_gets, bind_modify in H.
  unfold bind at 1 in H. unfold self_deadlines at 1 in H.
  cbn [deadlines sched with_sched set_deadlines] in H.
  match type of H with
  | context [unique_deadlines [] ?l] => set (ds := unique_deadlines [] l) in *
  end.
  exists ds.
  match type of H with
  | bind _ _ ?x = _ => set (w0 := x) in *
  end.
  assert (C0 : committed 0 w0).
  { unfold committed, w0. cbn. rewrite Hp, Hl, Hs. repeat split. intros j Hj. lia. }
  unbind H as w1 u E.
  - inversion H; subst w' o.
    pose proof (windows_commit _ E C0) as C1. simpl in C1.
    pose proof E as D. apply windows_same_deadlines in D. unfold unchanged in D.
    split; [rewrite D; reflexivity | exact C1].
  - exfalso. revert E. apply never_returns_for_each. intros i.
    apply schedule_window_never_returns_true.
  - pose proof (windows_commit _ E C0) as C1. simpl in C1.
    pose proof E as D. apply windows_same_deadlines in D. unfold unchanged in D.
    subst o. split; [rewrite D; reflexivity|].
    destruct C1 as (_ & i & Hi & Ci). exists i. split; [lia | exact Ci].
  - pose proof E as D. apply windows_same_deadlines in D. unfold unchanged in D.
    subst o. split; [rewrite D; reflexivity | exact I].
  - pose proof E as D. apply windows_same_deadlines in D. unfold unchanged in D.
    subst o. split; [rewrite D; reflexivity | exact I].
Qed.

End CommitTheorems.

Module CommitChecks.
Import ExactNum Scenarios.

(** Counterexample to C5 as stated: the second window of this task set
    exceeds the capacity, [generate_schedule] returns [False], and the
    primary map, backup list and backup start of window 0 stay in the
    scheduler. *)
Lemma failure_keeps_first_window :
  exists w,
    run_generate late_overload_Q = Some (w, Return false)
    /\ backup_list (sched w) = [[0%nat; 1%nat; 2%nat]]
    /\ backup_start (sched w) = [6%Q]
    /\ pri_schedule (sched w)
       = [(0%nat, [((0%Q, 0%nat), 0%nat); ((4%Q, 0%nat), 1%nat); ((7%Q, 0%nat), 2%nat)])].
Proof. eexists. split; [vm_compute; reflexivity|]. repeat split. Qed.

Lemma generate_schedule_commits_per_window_witness :
  pri_schedule (sched (start late_overload_Q)) = []
  /\ backup_list (sched (start late_overload_Q)) = []
  /\ backup_start (sched (start late_overload_Q)) = []
  /\ generate_schedule (start late_overload_Q) = (built late_overload_Q, Return false)
  /\ exists ds,
      deadlines (sched (built late_overload_Q)) = Some ds
      /\ exists i, (i < length ds)%nat /\ committed i (built late_overload_Q).
Proof.
  assert (H1 : pri_schedule (sched (start late_overload_Q)) = []) by reflexivity.
  assert (H2 : backup_list (sched (start late_overload_Q)) = []) by reflexivity.
  assert (H3 : backup_start (sched (start late_overload_Q)) = []) by reflexivity.
  assert (H4 : generate_schedule (start late_overload_Q)
               = (built late_overload_Q, Return false))
    by (vm_compute; reflexivity).
  repeat (split; [assumption|]).
  exact (@generate_schedule_commits_per_window Q _ _ _ _ H1 H2 H3 H4).
Defined.

End CommitChecks.

(* ================================================================== *)
(** ** Sorting *)

Section SortPermutation.
Context {A : Type}.
Variable lt : A -> A -> bool.

Lemma insert_asc_perm (x : A) (l : list A) : Permutation (x :: l) (insert_asc lt x l).
Proof.
  induction l as [|y l IH]; simpl.
  - apply Permutation_refl.
  - destruct (lt x y).
    + apply Permutation_refl.
    + eapply Permutation_trans; [apply perm_swap|]. apply perm_skip. exact IH.
Qed.

Lemma sort_asc_acc_perm (l acc : list A) :
  Permutation (acc ++ l) (fold_left (fun a x => insert_asc lt x a) l acc).
Proof.
  revert acc. induction l as [|x l IH]; intros acc; simpl.
  - rewrite app_nil_r. apply Permutation_refl.
  - eapply Permutation_trans; [|apply IH].
    eapply Permutation_trans; [apply Permutation_sym, Permutation_middle|].
    change (x :: acc ++ l) with ((x :: acc) ++ l).
    apply Permutation_app_tail. apply insert_asc_perm.
Qed.

Lemma sort_asc_perm (l : list A) : Permutation l (sort_asc lt l).
Proof. exact (sort_asc_acc_perm l []). Qed.

End SortPermutation.

Section SortFacts.
Context {A : Type}.
Variable lt : A -> A -> bool.
Variable le : A -> A -> Prop.
Hypothesis lt_le : forall x y, lt x y = true -> le x y.
Hypothesis not_lt_ge : forall x y, lt x y = false -> le y x.
Hypothesis le_trans : forall x y z, le x y -> le y z -> le x z.

Lemma insert_asc_sorted (x : A) (l : list A) :
  StronglySorted le l -> StronglySorted le (insert_asc lt x l).
Proof.
  induction l as [|y l IH]; intros S; simpl.
  - constructor; constructor.
  - inversion S as [|y' l' Sl Fl]; subst.
    destruct (lt x y) eqn:E.
    + constructor; [exact S|]. constructor; [apply lt_le; exact E|].
      eapply Forall_impl; [|exact Fl]. intros z Hz.
      eapply le_trans; [apply lt_le; exact E | exact Hz].
    + constructor; [apply IH; exact Sl|].
      apply Forall_forall. intros z Hz.
      apply (Permutation_in z (Permutation_sym (insert_asc_perm lt x l))) in Hz.
      destruct Hz as [<-|Hz].
      * apply not_lt_ge. exact E.
      * rewrite Forall_forall in Fl. apply Fl. exact Hz.
Qed.

Lemma sort_asc_acc_sorted (l acc : list A) :
  StronglySorted le acc ->
  StronglySorted le (fold_left (fun a x => insert_asc lt x a) l acc).
Proof.
  revert acc. induction l as [|x l IH]; intros acc Sa; simpl.
  - exact Sa.
  - apply IH. apply insert_asc_sorted. exact Sa.
Qed.

Lemma sort_asc_sorted (l : list A) : StronglySorted le (sort_asc lt l).
Proof. apply sort_asc_acc_sorted. constructor. Qed.

End SortFacts.

Lemma sort_desc_flip {A} (lt : A -> A -> bool) (l : list A) :
  sort_desc lt l = sort_asc (fun x y => lt y x) l.
Proof.
  unfold sort_desc, sort_asc. generalize (@nil A) as acc.
  induction l as [|x l IH]; intros acc; simpl; [reflexivity|].
  rewrite IH. f_equal.
  induction acc as [|y acc IHa]; simpl; [reflexivity|].
  destruct (lt y x); [reflexivity | rewrite IHa; reflexivity].
Qed.

Lemma filter_perm {A} (f : A -> bool) (l l' : list A) :
  Permutation l l' -> Permutation (filter f l) (filter f l').
Proof.
  induction 1 as [|x l l' P IH|x y l|l l' l'' P1 IH1 P2 IH2]; simpl.
  - constructor.
  - destruct (f x); [apply perm_skip|]; exact IH.
  - destruct (f x), (f y); try apply Permutation_refl. apply perm_swap.
  - eapply Permutation_trans; eassumption.
Qed.

Lemma filter_none {A} (f : A -> bool) (l : list A) :
  (forall x, In x l -> f x = false) -> filter f l = [].
Proof.
  induction l as [|x l IH]; intros H; simpl; [reflexivity|].
  rewrite (H x (or_introl eq_refl)). apply IH. intros y Hy. apply H. right. exact Hy.
Qed.

Lemma filter_all {A} (f : A -> bool) (l : list A) :
  (forall x, In x l -> f x = true) -> filter f l = l.
Proof.
  induction l as [|x l IH]; intros H; simpl; [reflexivity|].
  rewrite (H x (or_introl eq_refl)). f_equal. apply IH.
  intros y Hy. apply H. right. exact Hy.
Qed.

(* ================================================================== *)
(** ** Retiring the tasks of a window *)

Section Retirement.
Context {R : Type} {NR : Number R} {L : NumberLaws R}.

Definition le_num (a b : R) : Prop := (a <=? b)%num = true.
Definition lt_num (a b : R) : Prop := (a <? b)%num = true.

Lemma num_eq_refl (a : R) : (a =? a)%num = true.
Proof. rewrite num_eq_le, num_le_refl. reflexivity. Qed.

Lemma num_eq_true (a b : R) :
  (a =? b)%num = true <-> le_num a b /\ le_num b a.
Proof. rewrite num_eq_le. apply andb_true_iff. Qed.

Lemma num_lt_true (a b : R) : lt_num a b <-> (b <=? a)%num = false.
Proof. unfold lt_num. rewrite num_lt_le. apply negb_true_iff. Qed.

Lemma lt_num_le (a b : R) : lt_num a b -> le_num a b.
Proof. intros H. apply num_lt_true in H. apply num_le_total. exact H. Qed.

Lemma le_num_trans (a b c : R) : le_num a b -> le_num b c -> le_num a c.
Proof. apply num_le_trans. Qed.

Lemma le_lt_num_trans (a b c : R) : le_num a b -> lt_num b c -> lt_num a c.
Proof.
  intros H1 H2. apply num_lt_true. apply num_lt_true in H2.
  destruct (c <=? a)%num eqn:E; [|reflexivity].
  assert (le_num c b) by (eapply num_le_trans; eassumption).
  unfold le_num in *. congruence.
Qed.

Lemma lt_num_not_eq (a b : R) : lt_num a b -> (a =? b)%num = false.
Proof.
  intros H. apply num_lt_true in H. rewrite num_eq_le, H. apply andb_false_r.
Qed.

Lemma le_not_eq_lt (a b : R) : le_num a b -> (a =? b)%num = false -> lt_num a b.
Proof.
  intros H E. apply num_lt_true. rewrite num_eq_le, H in E. exact E.
Qed.

(** What identifies a task: the arguments of its constructor. *)
Definition ident (t : Task R) : Z * R * R := (task_id t, deadline t, weight t).
Definition ident_deadline (x : Z * R * R) : R := snd (fst x).
Definition ident_id (x : Z * R * R) : Z := fst (fst x).

(** The task is due in the window that ends at [d]. *)
Definition due (d : R) (t : Task R) : bool := (d =? deadline t)%num.

Lemma sort_by_deadline_perm (l : list (Task R)) : Permutation l (sort_by_deadline l).
Proof. apply sort_asc_perm. Qed.

Lemma sort_by_deadline_sorted (l : list (Task R)) :
  StronglySorted (fun a b => le_num (deadline a) (deadline b)) (sort_by_deadline l).
Proof.
  apply sort_asc_sorted.
  - intros x y H. apply lt_num_le. exact H.
  - intros x y H. unfold getDeadline in H. rewrite num_lt_le in H.
    apply negb_false_iff in H. exact H.
  - intros x y z. apply le_num_trans.
Qed.

(** The removals of one window, in the order in which the packed tasks
    [X] (given by id and deadline) are visited. *)
Definition retire (d : R) (X : list (Z * R)) (l : list (Task R)) : list (Task R) :=
  fold_left (fun l x => if (d =? snd x)%num then remove_task (fst x) l else l) X l.

Lemma remove_task_prefix (tid : Z) (P Q : list (Task R)) :
  In tid (map (@task_id R) P) ->
  remove_task tid (P ++ Q) = remove_task tid P ++ Q.
Proof.
  induction P as [|p P IH]; simpl; intros H; [contradiction|].
  unfold getId. destruct (task_id p =? tid)%Z eqn:E; [reflexivity|].
  destruct H as [H|H]; [apply Z.eqb_neq in E; congruence|].
  simpl. f_equal. apply IH. exact H.
Qed.

Lemma remove_task_ids (tid : Z) (P : list (Task R)) :
  In tid (map (@task_id R) P) ->
  Permutation (map (@task_id R) P) (tid :: map (@task_id R) (remove_task tid P)).
Proof.
  induction P as [|p P IH]; simpl; intros H; [contradiction|].
  unfold getId. destruct (task_id p =? tid)%Z eqn:E.
  - apply Z.eqb_eq in E. subst. apply Permutation_refl.
  - destruct H as [H|H]; [apply Z.eqb_neq in E; congruence|].
    simpl. eapply Permutation_trans; [apply perm_skip, IH, H|]. apply perm_swap.
Qed.

Lemma retire_prefix (d : R) (X : list (Z * R)) (P Q : list (Task R)) :
  Permutation (map fst (filter (fun x => (d =? snd x)%num) X)) (map (@task_id R) P) ->
  retire d X (P ++ Q) = Q.
Proof.
  revert P. induction X as [|x X IH]; intros P H; simpl in *.
  - apply Permutation_nil in H. destruct P; [reflexivity | discriminate].
  - destruct (d =? snd x)%num.
    + simpl in H.
      assert (Hin : In (fst x) (map (@task_id R) P)).
      { eapply Permutation_in; [exact H|]. left. reflexivity. }
      rewrite remove_task_prefix by exact Hin. apply IH.
      eapply Permutation_cons_inv.
      eapply Permutation_trans; [exact H|]. apply remove_task_ids. exact Hin.
    + apply IH. exact H.
Qed.

Lemma sorted_split (d : R) (l : list (Task R)) :
  StronglySorted (fun a b => le_num (deadline a) (deadline b)) l ->
  Forall (fun t => le_num d (deadline t)) l ->
  l = filter (due d) l ++ filter (fun t => negb (due d t)) l.
Proof.
  induction l as [|h l IH]; intros S F; simpl; [reflexivity|].
  inversion S as [|h' l' Sl Fl]; subst. inversion F as [|h' l' Fh Ft]; subst.
  destruct (due d h) eqn:E; simpl.
  - f_equal. apply IH; assumption.
  - assert (Hlt : lt_num d (deadline h)) by (apply le_not_eq_lt; assumption).
    assert (Hnone : forall t, In t l -> due d t = false).
    { intros t Ht. rewrite Forall_forall in Fl. specialize (Fl t Ht).
      apply lt_num_not_eq. apply num_lt_true.
      destruct (deadline t <=? d)%num eqn:E'; [|reflexivity].
      assert (le_num (deadline h) d) by (eapply num_le_trans; eassumption).
      apply num_lt_true in Hlt. unfold le_num in *. congruence. }
    rewrite (filter_none _ _ Hnone). simpl. f_equal. symmetry.
    apply filter_all. intros t Ht. rewrite (Hnone t Ht). reflexivity.
Qed.

Lemma filter_map_comm {A B} (f : A -> B) (g : B -> bool) (l : list A) :
  filter g (map f l) = map f (filter (fun a => g (f a)) l).
Proof.
  induction l as [|a l IH]; simpl; [reflexivity|].
  destruct (g (f a)); simpl; rewrite IH; reflexivity.
Qed.

(** In a deadline-sorted list whose earliest deadline is the window's, the
    removals by id delete exactly the tasks that are due. *)
Lemma retire_sorted (d : R) (X : list (Z * R)) (l : list (Task R)) :
  StronglySorted (fun a b => le_num (deadline a) (deadline b)) l ->
  Forall (fun t => le_num d (deadline t)) l ->
  Permutation X (map (fun t => (task_id t, deadline t)) l) ->
  retire d X l = filter (fun t => negb (due d t)) l.
Proof.
  intros S F P.
  rewrite (sorted_split S F) at 1. apply retire_prefix.
  apply (filter_perm (fun x => (d =? snd x)%num)) in P.
  rewrite filter_map_comm in P. apply (Permutation_map fst) in P.
  rewrite map_map in P. exact P.
Qed.

End Retirement.

(* ================================================================== *)
(** ** The LP packing, step by step *)

Section Packing.
Context {R : Type} {NR : Number R}.

(** Id and deadline of the object behind a reference. *)
Definition id_deadline (h : list (Task R)) (r : ref) : Z * R :=
  match nth_error h r with
  | Some t => (task_id t, deadline t)
  | None => (0%Z, of_int 0)
  end.

Lemma deref_normal (r : ref) (w w' : World R) (t : Task R) :
  deref r w = (w', Normal t) -> w' = w /\ nth_error (heap w) r = Some t.
Proof.
  unfold deref. intros H. apply lift_inv_normal in H. destruct H as [-> H].
  split; [reflexivity|]. apply index_ok. exact H.
Qed.

Lemma self_deadlines_normal (w w' : World R) (ds : list R) :
  self_deadlines w = (w', Normal ds) -> w' = w /\ deadlines (sched w) = Some ds.
Proof.
  unfold self_deadlines. destruct (deadlines (sched w)); intros H; inversion H; auto.
Qed.

Lemma pri_schedule_at_normal (i : nat) (w w' : World R) (d : list (Key R * ref)) :
  pri_schedule_at i w = (w', Normal d) ->
  w' = w /\ dict_get Nat.eqb i (pri_schedule (sched w)) = Ok d.
Proof.
  unfold pri_schedule_at. rewrite bind_gets. intros H.
  apply lift_inv_normal in H. exact H.
Qed.

(** A successful run of the body of [for t in tasksA]. *)
Lemma place_normal (i : nat) (sw tw : R) (t : ref) (st st' : list R * nat)
      (w w' : World R) :
  place i sw tw t st w = (w', Normal st') ->
  exists tk lp cur c d ds di,
    nth_error (heap w) t = Some tk
    /\ getWorkloadQuota tk i = Ok lp
    /\ probe (Z.to_nat (m_pri (sched w))) (m_pri (sched w)) (fst st) lp
             (sw + tw)%num (snd st) 0 = Normal cur
    /\ nth_error (fst st) cur = Some c
    /\ dict_get Nat.eqb i (pri_schedule (sched w)) = Ok d
    /\ deadlines (sched w) = Some ds
    /\ nth_error ds i = Some di
    /\ st' = (list_set (fst st) cur (c + lp)%num, next_core (m_pri (sched w)) cur)
    /\ w' = with_tasksList
              (fun l => if (di =? deadline tk)%num then remove_task (task_id tk) l else l)
              (with_heap (fun h => list_set h t (setStartTime tk c))
                 (with_sched (set_pri_schedule
                    (dict_set Nat.eqb i (dict_set key_eqb (c, cur) t d)
                              (pri_schedule (sched w)))) w)).
Proof.
  intros H. unfold place in H.
  rewrite bind_gets in H.
  unbind_normal H as w1 tk E1. apply deref_normal in E1. destruct E1 as [-> Htk].
  unbind_normal H as w1 lp E2. apply lift_inv_normal in E2. destruct E2 as [-> Hlp].
  unbind_normal H as w1 cur E3. apply exit_inv in E3. destruct E3 as [-> Hprobe].
  unbind_normal H as w1 c E4. apply lift_inv_normal in E4. destruct E4 as [-> Hc].
  apply index_ok in Hc.
  unbind_normal H as w1 d E5. apply pri_schedule_at_normal in E5.
  destruct E5 as [-> Hd].
  erewrite bind_eq in H by apply pri_schedule_put_world.
  unfold update_task in H. rewrite bind_modify in H.
  unbind_normal H as w1 ds E6. apply self_deadlines_normal in E6.
  destruct E6 as [-> Hds].
  unbind_normal H as w1 di E7. apply lift_inv_normal in E7. destruct E7 as [-> Hdi].
  apply index_ok in Hdi.
  exists tk, lp, cur, c, d, ds, di.
  cbn in Hds.
  repeat (split; [assumption|]).
  unfold getDeadline, getId in H.
  assert (Hw : forall f : list (Task R) -> list (Task R),
             with_tasksList f
               (with_heap (fun h => match nth_error h t with
                                    | Some t0 => list_set h t (setStartTime t0 c)
                                    | None => h
                                    end)
                  (with_sched (set_pri_schedule
                     (dict_set Nat.eqb i (dict_set key_eqb (c, cur) t d)
                               (pri_schedule (sched w)))) w))
             = with_tasksList f
                 (with_heap (fun h => list_set h t (setStartTime tk c))
                    (with_sched (set_pri_schedule
                       (dict_set Nat.eqb i (dict_set key_eqb (c, cur) t d)
                                 (pri_schedule (sched w)))) w))).
  { intros f. unfold with_tasksList, with_heap. cbn. rewrite Htk. reflexivity. }
  destruct (di =? deadline tk)%num.
  - rewrite bind_modify in H. inversion H. split; [reflexivity|]. apply Hw.
  - unfold bind, ret in H. inversion H. split; [reflexivity|].
    rewrite <- Hw. unfold with_tasksList. cbn. reflexivity.
Qed.

(** The fields of a task that the schedule builder and the simulator never
    change once the object exists. *)
Definition same_static (t t' : Task R) : Prop :=
  task_id t' = task_id t /\ deadline t' = deadline t /\ weight t' = weight t
  /\ workload_quota t' = workload_quota t
  /\ backup_workload_quota t' = backup_workload_quota t.

Lemma same_static_refl (t : Task R) : same_static t t.
Proof. repeat split. Qed.

Lemma same_static_trans (a b c : Task R) :
  same_static a b -> same_static b c -> same_static a c.
Proof.
  unfold same_static. intros (A1 & A2 & A3 & A4 & A5) (B1 & B2 & B3 & B4 & B5).
  repeat split; congruence.
Qed.

(** Objects stay where they are and keep their static fields. *)
Definition heap_stable (w w' : World R) : Prop :=
  forall r t, nth_error (heap w) r = Some t ->
              exists t', nth_error (heap w') r = Some t' /\ same_static t t'.

Lemma heap_stable_refl (w : World R) : heap_stable w w.
Proof. intros r t H. exists t. split; [exact H | apply same_static_refl]. Qed.

Lemma heap_stable_trans (a b c : World R) :
  heap_stable a b -> heap_stable b c -> heap_stable a c.
Proof.
  intros H1 H2 r t H. destruct (H1 r t H) as (t1 & E1 & S1).
  destruct (H2 r t1 E1) as (t2 & E2 & S2). exists t2. split; [exact E2|].
  eapply same_static_trans; eassumption.
Qed.

Lemma same_heap_stable (w w' : World R) : heap w' = heap w -> heap_stable w w'.
Proof. intros E r t H. rewrite E. exists t. split; [exact H | apply same_static_refl]. Qed.

Lemma update_task_heap_stable (r : ref) (f : Task R -> Task R) :
  (forall t, same_static t (f t)) -> preserves heap_stable (update_task r f).
Proof.
  intros Hf w w' o E. unfold update_task, modify in E. inversion E; subst. clear E.
  intros r' t H. cbn [heap with_heap].
  destruct (nth_error (heap w) r) as [t0|] eqn:E0.
  - destruct (Nat.eq_dec r r') as [<-|Hne].
    + rewrite list_set_same by (apply nth_error_Some; congruence).
      exists (f t0). split; [reflexivity|]. rewrite E0 in H. inversion H; subst. apply Hf.
    + rewrite list_set_other by exact Hne. exists t. split; [exact H | apply same_static_refl].
  - exists t. split; [exact H | apply same_static_refl].
Qed.

Lemma deepcopy_tasks_heap_stable : preserves heap_stable deepcopy_tasks.
Proof.
  intros w w' o E. unfold deepcopy_tasks in E. inversion E; subst. clear E.
  intros r t H. cbn [heap with_heap]. exists t. split; [|apply same_static_refl].
  rewrite nth_error_app1; [exact H | apply nth_error_Some; congruence].
Qed.

Lemma unchanged_heap_stable {A} (m : M R A) :
  preserves (unchanged (fun x : World R => heap x)) m -> preserves heap_stable m.
Proof. intros H w w' o E. apply same_heap_stable. exact (H _ _ _ E). Qed.

Lemma place_heap_stable (i : nat) (sw tw : R) (t : ref) (st : list R * nat) :
  preserves heap_stable (place i sw tw t st).
Proof.
  unfold place. frame_walk heap_stable_refl heap_stable_trans;
    first [ apply update_task_heap_stable; intros x; repeat split
          | apply unchanged_heap_stable;
            first [ apply pri_schedule_at_unchanged
                  | apply pri_schedule_put_unchanged; intros x v; reflexivity
                  | apply preserves_modify; intros x; reflexivity ] ].
Qed.

Lemma lp_pack_heap_stable (i : nat) (sw tw : R) :
  preserves heap_stable (lp_pack i sw tw).
Proof.
  unfold lp_pack. frame_walk heap_stable_refl heap_stable_trans;
    first [ apply deepcopy_tasks_heap_stable
          | apply place_heap_stable
          | apply unchanged_heap_stable;
            first [ apply sort_by_wq_unchanged
                  | apply pri_schedule_put_unchanged; intros x v; reflexivity ] ].
Qed.

Lemma schedule_window_heap_stable (i : nat) :
  preserves heap_stable (schedule_window i).
Proof.
  unfold schedule_window. frame_walk heap_stable_refl heap_stable_trans;
    first [ apply lp_pack_heap_stable
          | apply unchanged_heap_stable;
            first [ apply window_bounds_unchanged
                  | apply assign_quotas_unchanged; intros x f; reflexivity
                  | apply pri_schedule_at_unchanged
                  | apply pri_schedule_put_unchanged; intros x v; reflexivity
                  | apply update_BB_overloading_unchanged; intros x v; reflexivity
                  | apply preserves_modify; intros x; reflexivity ] ].
Qed.

Lemma id_deadline_set_start (h : list (Task R)) (t r : ref) (tk : Task R) (c : R) :
  nth_error h t = Some tk ->
  id_deadline (list_set h t (setStartTime tk c)) r = id_deadline h r.
Proof.
  intros H. unfold id_deadline. destruct (Nat.eq_dec t r) as [<-|Hne].
  - rewrite list_set_same by (apply nth_error_Some; congruence). rewrite H. reflexivity.
  - rewrite list_set_other by exact Hne. reflexivity.
Qed.

(** A successful run of [for t in tasksA]. *)
Lemma fold_place_normal (i : nat) (sw tw : R) (ds : list R) (di : R)
      (tasksA : list ref) (st st' : list R * nat) (w w' : World R) :
  for_fold tasksA st (place i sw tw) w = (w', Normal st') ->
  deadlines (sched w) = Some ds ->
  nth_error ds i = Some di ->
  tasksList w' = (fold_left
                    (fun l x => if (di =? snd x)%num then remove_task (fst x) l else l)
                    (map (id_deadline (heap w)) tasksA) (tasksList w))
  /\ length (heap w') = length (heap w)
  /\ length (fst st') = length (fst st)
  /\ (tasksA <> [] -> fst st' <> [])
  /\ Forall (fun r => exists t, nth_error (heap w) r = Some t
                               /\ exists q, getWorkloadQuota t i = Ok q) tasksA.
Proof.
  revert st w. induction tasksA as [|t tasksA IH]; intros st w H Hds Hdi; simpl in H.
  - inversion H; subst. simpl. repeat split; auto.
  - unbind_normal H as w1 st1 E.
    apply place_normal in E.
    destruct E as (tk & lp & cur & c & d & ds' & di' & Htk & Hlp & Hprobe & Hc & Hd
                   & Hds' & Hdi' & -> & ->).
    rewrite Hds in Hds'. inversion Hds'; subst ds'.
    rewrite Hdi in Hdi'. inversion Hdi'; subst di'.
    specialize (IH _ _ H Hds Hdi).
    cbn [heap tasksList with_tasksList with_heap with_sched fst snd] in IH.
    destruct IH as (I1 & I2 & I3 & I4 & I5).
    rewrite list_set_length in I2. rewrite list_set_length in I3.
    assert (Hmap : map (id_deadline (list_set (heap w) t (setStartTime tk c))) tasksA
                   = map (id_deadline (heap w)) tasksA).
    { apply map_ext. intros r. apply id_deadline_set_start. exact Htk. }
    rewrite Hmap in I1.
    repeat split.
    + rewrite I1. cbn [map fold_left].
      assert (Ht : id_deadline (heap w) t = (task_id tk, deadline tk))
        by (unfold id_deadline; rewrite Htk; reflexivity).
      rewrite Ht. reflexivity.
    + exact I2.
    + exact I3.
    + intros _ E0. apply length_zero_iff_nil in E0. rewrite I3 in E0.
      apply length_zero_iff_nil in E0. rewrite E0 in Hc. destruct cur; discriminate.
    + constructor.
      * exists tk. split; [exact Htk|]. exists lp. exact Hlp.
      * eapply Forall_impl; [|exact I5]. intros r (t0 & Ht0 & q & Hq).
        destruct (Nat.eq_dec t r) as [<-|Hne].
        -- rewrite list_set_same in Ht0 by (apply nth_error_Some; congruence).
           inversion Ht0; subst. exists tk. split; [exact Htk|]. exists q. exact Hq.
        -- rewrite list_set_other in Ht0 by exact Hne. exists t0. split; [exact Ht0|].
           exists q. exact Hq.
Qed.

(** The sort key of a packed task: the quota appended last. *)
Definition last_quota (h : list (Task R)) (r : ref) : R :=
  match nth_error h r with
  | Some t => last (workload_quota t) (of_int 0)
  | None => of_int 0
  end.

Definition keyed_refs (h : list (Task R)) (l : list ref) : list (R * ref) :=
  map (fun r => (last_quota h r, r)) l.

(** [tasksA] as [sort_by_wq] computes it from the references [l]. *)
Definition sorted_refs (h : list (Task R)) (l : list ref) : list ref :=
  map snd (sort_desc (fun a b => (fst a <? fst b)%num) (keyed_refs h l)).

Lemma nth_error_last {A} (l : list A) (d v : A) :
  nth_error l (length l - 1) = Some v -> last l d = v.
Proof.
  induction l as [|a l IH]; simpl; [discriminate|].
  rewrite Nat.sub_0_r. destruct l as [|b l].
  - simpl. intros H. inversion H. reflexivity.
  - intros H. apply IH. simpl in *. rewrite Nat.sub_0_r. exact H.
Qed.

Lemma getTaskWQ_ok (t : Task R) (v : R) :
  getTaskWQ t = Ok v -> last (workload_quota t) (of_int 0) = v.
Proof.
  unfold getTaskWQ, getWorkloadQuota. intros H.
  destruct (workload_quota t) as [|a l] eqn:E; [discriminate|].
  apply index_ok in H. apply nth_error_last. exact H.
Qed.

Lemma decorate_wq_normal (l : list ref) (w w' : World R) (keyed : list (R * ref)) :
  decorate_wq l w = (w', Normal keyed) ->
  w' = w /\ keyed = keyed_refs (heap w) l.
Proof.
  revert w' keyed. induction l as [|r l IH]; intros w' keyed H; simpl in H.
  - inversion H. auto.
  - unbind_normal H as w1 t E1. apply deref_normal in E1. destruct E1 as [-> Ht].
    unbind_normal H as w1 key E2. apply lift_inv_normal in E2. destruct E2 as [-> Hk].
    unbind_normal H as w1 rest E3. apply IH in E3. destruct E3 as [-> ->].
    inversion H; subst. split; [reflexivity|].
    simpl. unfold last_quota at 1. rewrite Ht. rewrite (getTaskWQ_ok _ Hk). reflexivity.
Qed.

Lemma sort_by_wq_normal (l : list ref) (w w' : World R) (tasksA : list ref) :
  sort_by_wq l w = (w', Normal tasksA) ->
  w' = w /\ tasksA = sorted_refs (heap w) l.
Proof.
  unfold sort_by_wq. intros H.
  unbind_normal H as w1 keyed E. apply decorate_wq_normal in E. destruct E as [-> ->].
  inversion H. auto.
Qed.

Lemma sorted_refs_perm (h : list (Task R)) (l : list ref) :
  Permutation l (sorted_refs h l).
Proof.
  unfold sorted_refs. rewrite sort_desc_flip.
  eapply Permutation_trans;
    [|apply Permutation_map, sort_asc_perm].
  unfold keyed_refs. rewrite map_map. simpl. rewrite map_id. apply Permutation_refl.
Qed.

Lemma id_deadline_copies (h tl : list (Task R)) :
  map (id_deadline (h ++ tl)) (seq (length h) (length tl))
  = map (fun t => (task_id t, deadline t)) tl.
Proof.
  revert h. induction tl as [|t tl IH]; intros h; simpl; [reflexivity|].
  f_equal.
  - unfold id_deadline. rewrite nth_error_app2 by lia. rewrite Nat.sub_diag. reflexivity.
  - specialize (IH (h ++ [t])). rewrite <- app_assoc in IH. simpl in IH.
    rewrite length_app in IH. simpl in IH. rewrite Nat.add_1_r in IH. exact IH.
Qed.

(** A successful LP packing of window [i]. *)
Lemma lp_pack_normal (i : nat) (sw tw : R) (ds : list R) (di : R)
      (tasksA : list ref) (st : list R * nat) (w w' : World R) :
  lp_pack i sw tw w = (w', Normal (tasksA, st)) ->
  deadlines (sched w) = Some ds ->
  nth_error ds i = Some di ->
  tasksA = sorted_refs (heap w ++ tasksList w)
                       (seq (length (heap w)) (length (tasksList w)))
  /\ tasksList w'
     = fold_left (fun l x => if (di =? snd x)%num then remove_task (fst x) l else l)
                 (map (id_deadline (heap w ++ tasksList w)) tasksA) (tasksList w)
  /\ length (heap w') = (length (heap w) + length (tasksList w))%nat
  /\ length (fst st) = Z.to_nat (m_pri (sched w))
  /\ (tasksList w <> [] -> fst st <> [])
  /\ has_key i (pri_schedule (sched w'))
  /\ Forall (fun r => exists t, nth_error (heap w ++ tasksList w) r = Some t
                               /\ exists q, getWorkloadQuota t i = Ok q) tasksA
  /\ (forall r t, nth_error (heap w ++ tasksList w) r = Some t ->
                  exists t', nth_error (heap w') r = Some t' /\ same_static t t').
Proof.
  intros H Hds Hdi. unfold lp_pack in H.
  rewrite bind_gets in H.
  unbind_normal H as w1 refs E1. unfold deepcopy_tasks in E1. inversion E1; subst w1 refs.
  clear E1.
  unbind_normal H as w1 tA E2. apply sort_by_wq_normal in E2. destruct E2 as [-> ->].
  erewrite bind_eq in H by apply pri_schedule_put_world.
  unbind_normal H as w1 st1 E3. inversion H; subst w1 st1 tasksA. clear H.
  cbn [heap with_heap] in *.
  pose proof E3 as K. apply (preserves_for_fold keeps_keys_refl keeps_keys_trans) in K;
    [|intros; apply place_keeps_keys].
  pose proof E3 as K2.
  apply (preserves_for_fold heap_stable_refl heap_stable_trans) in K2;
    [|intros; apply place_heap_stable].
  unfold heap_stable in K2. cbn [heap with_heap with_sched] in K2.
  apply fold_place_normal with (ds := ds) (di := di) in E3; [|exact Hds|exact Hdi].
  cbn [heap tasksList with_heap with_sched sched fst snd] in E3.
  destruct E3 as (F1 & F2 & F3 & F4 & F5).
  rewrite repeat_length in F3. rewrite length_app in F2.
  repeat split; try assumption.
  - intros Hne. apply F4. intros E0.
    pose proof (sorted_refs_perm (heap w ++ tasksList w)
                  (seq (length (heap w)) (length (tasksList w)))) as P.
    rewrite E0 in P. apply Permutation_sym, Permutation_nil in P.
    apply (f_equal (@length nat)) in P. rewrite length_seq in P. simpl in P.
    apply length_zero_iff_nil in P. contradiction.
  - apply K. cbn [sched with_sched with_heap set_pri_schedule pri_schedule].
    apply dict_set_has_key_same.
Qed.

End Packing.

(* ================================================================== *)
(** ** A window that is scheduled *)

Section Window.
Context {R : Type} {NR : Number R}.

Lemma window_bounds_normal (i : nat) (w w' : World R) (b : R * R) :
  window_bounds i w = (w', Normal b) ->
  w' = w /\ exists ds di, deadlines (sched w) = Some ds /\ nth_error ds i = Some di.
Proof.
  intros H. unfold window_bounds in H.
  unbind_normal H as w1 ds E. apply self_deadlines_normal in E. destruct E as [-> Hds].
  destruct i as [|j].
  - unbind_normal H as w1 d E. apply lift_inv_normal in E. destruct E as [-> Hd].
    inversion H; subst. split; [reflexivity|]. exists ds, d.
    split; [exact Hds | apply index_ok; exact Hd].
  - unbind_normal H as w1 d E. apply lift_inv_normal in E. destruct E as [-> Hd].
    unbind_normal H as w1 p E. apply lift_inv_normal in E. destruct E as [-> Hp].
    inversion H; subst. split; [reflexivity|]. exists ds, d.
    split; [exact Hds | apply index_ok; exact Hd].
Qed.

(** The quotas a task is given for a window of length [tw]. *)
Definition quotas_added (s : EnSuRe_Scheduler R) (tw : R) (t t' : Task R) : Prop :=
  exists wq bwq,
    roundUpTimeStep s (getWeight t * tw)%num = Ok wq
    /\ roundUpTimeStep s (lp_hp_ratio s * getWeight t * tw)%num = Ok bwq
    /\ t' = setBackupWorkloadQuota (setWorkloadQuota t wq) bwq.

Lemma set_quotas_ok (s : EnSuRe_Scheduler R) (tw : R) (tl tl' : list (Task R))
      (acc total : R) :
  set_quotas s tw tl acc = (tl', Ok total) -> Forall2 (quotas_added s tw) tl tl'.
Proof.
  revert tl' acc. induction tl as [|t tl IH]; intros tl' acc H; simpl in H.
  - inversion H. constructor.
  - destruct (roundUpTimeStep s (getWeight t * tw)%num) as [wq|e] eqn:E1;
      [|inversion H].
    destruct (roundUpTimeStep s (lp_hp_ratio s * getWeight t * tw)%num) as [bwq|e] eqn:E2;
      [|inversion H].
    destruct (set_quotas s tw tl (acc + wq)%num) as [rest o] eqn:E3.
    inversion H; subst. constructor.
    + exists wq, bwq. auto.
    + eapply IH. exact E3.
Qed.

Lemma quotas_added_id_deadline (s : EnSuRe_Scheduler R) (tw : R) (tl tl' : list (Task R)) :
  Forall2 (quotas_added s tw) tl tl' ->
  map (fun t => (task_id t, deadline t)) tl' = map (fun t => (task_id t, deadline t)) tl
  /\ map (@deadline R) tl' = map (@deadline R) tl.
Proof.
  induction 1 as [|t t' tl tl' (wq & bwq & _ & _ & ->) F IH]; simpl.
  - auto.
  - destruct IH as [-> ->]. auto.
Qed.

Lemma assign_quotas_world (tw : R) (w : World R) :
  assign_quotas tw w
  = lift (snd (set_quotas (sched w) tw (tasksList w) (of_int 0)))
         (with_tasksList
            (fun _ => fst (set_quotas (sched w) tw (tasksList w) (of_int 0))) w).
Proof. reflexivity. Qed.

(** A window that is scheduled to its end. *)
Lemma schedule_window_normal (i : nat) (w w' : World R) :
  schedule_window i w = (w', Normal tt) ->
  exists ds di b tl1 total tasksA st wp x,
    deadlines (sched w) = Some ds
    /\ nth_error ds i = Some di
    /\ window_bounds i w = (w, Normal b)
    /\ set_quotas (sched w) (fst b) (tasksList w) (of_int 0) = (tl1, Ok total)
    /\ (total <=? fst b * of_int (m_pri (sched w)))%num = true
    /\ lp_pack i (snd b) (fst b) (with_tasksList (fun _ => tl1) w)
       = (wp, Normal (tasksA, st))
    /\ heap w' = heap wp
    /\ tasksList w' = tasksList wp
    /\ backup_list (sched w') = backup_list (sched w) ++ [tasksA]
    /\ backup_start (sched w')
       = (if (length (backup_start (sched w)) <=? i)%nat
          then backup_start (sched w) ++ [x]
          else list_set (backup_start (sched w)) i (pymax (of_int 0) x))
    /\ deadlines (sched w') = deadlines (sched w).
Proof.
  intros H. unfold schedule_window in H.
  unbind_normal H as w1 b E1.
  pose proof E1 as E1'. apply window_bounds_normal in E1'.
  destruct E1' as (-> & ds & di & Hds & Hdi).
  unbind_normal H as w2 total E2. rewrite assign_quotas_world in E2.
  apply lift_inv_normal in E2. destruct E2 as [-> Hq].
  rewrite bind_gets in H.
  cbn [sched with_tasksList] in H.
  destruct (total <=? fst b * of_int (m_pri (sched w)))%num eqn:Hcap;
    [|inversion H].
  unbind_normal H as wp packed EP. destruct packed as [tasksA st].
  pose proof EP as S1. apply lp_pack_same_reservation in S1.
  pose proof EP as S2.
  apply lp_pack_unchanged with (F := fun x => deadlines (sched x)) in S2;
    try (intros ? ?; reflexivity).
  unfold unchanged, reservation in S1, S2. cbn [sched with_tasksList] in S1, S2.
  inversion S1 as [[S1a S1b]]. clear S1.
  unbind_normal H as w3 d E3. apply pri_schedule_at_normal in E3. destruct E3 as [-> Hd].
  erewrite bind_eq in H by apply pri_schedule_put_world.
  unbind_normal H as w3 c0 E4. apply lift_inv_normal in E4. destruct E4 as [-> _].
  rewrite bind_gets, bind_modify in H.
  apply update_BB_overloading_normal in H. destruct H as [x ->].
  exists ds, di, b.
  exists (fst (set_quotas (sched w) (fst b) (tasksList w) (of_int 0))).
  exists total, tasksA, st, wp, x.
  cbn [sched with_sched with_tasksList heap tasksList set_backup_start set_backup_list
       set_pri_schedule backup_list backup_start deadlines].
  repeat split; try assumption; try reflexivity;
    try (rewrite S1a; reflexivity); try (rewrite S1b; reflexivity);
    destruct (set_quotas (sched w) (fst b) (tasksList w) (of_int 0)); simpl in *;
    congruence.
Qed.

End Window.

(* ================================================================== *)
(** ** The deadline sequence *)

Section DeadlineSequence.
Context {R : Type} {NR : Number R} {L : NumberLaws R}.

Lemma unique_deadlines_prefix (acc : list R) (l : list (Task R)) :
  exists rest, unique_deadlines acc l = acc ++ rest.
Proof.
  revert acc. induction l as [|t l IH]; intros acc; simpl.
  - exists []. rewrite app_nil_r. reflexivity.
  - destruct (existsb (fun d => (d =? getDeadline t)%num) acc).
    + apply IH.
    + destruct (IH (acc ++ [getDeadline t])) as [rest E]. rewrite E.
      exists (getDeadline t :: rest). rewrite <- app_assoc. reflexivity.
Qed.

Lemma existsb_prefix {A} (f : A -> bool) (l rest : list A) :
  existsb f l = true -> existsb f (l ++ rest) = true.
Proof. intros H. rewrite existsb_app, H. reflexivity. Qed.

(** Every deadline of the task set is represented in the sequence. *)
Lemma unique_deadlines_covers (acc : list R) (l : list (Task R)) (t : Task R) :
  In t l ->
  existsb (fun d => (d =? deadline t)%num) (unique_deadlines acc l) = true.
Proof.
  revert acc. induction l as [|h l IH]; intros acc H; simpl; [contradiction|].
  destruct H as [->|H].
  - unfold getDeadline.
    destruct (existsb (fun d => (d =? deadline t)%num) acc) eqn:E.
    + destruct (unique_deadlines_prefix acc l) as [rest ->].
      apply existsb_prefix. exact E.
    + destruct (unique_deadlines_prefix (acc ++ [deadline t]) l) as [rest ->].
      apply existsb_prefix. rewrite existsb_app. simpl.
      rewrite num_eq_refl. apply orb_true_iff. right. reflexivity.
  - destruct (existsb (fun d => (d =? getDeadline h)%num) acc); apply IH; exact H.
Qed.

(** Every element of the sequence is the deadline of some task. *)
Lemma unique_deadlines_from (acc : list R) (l : list (Task R)) (d : R) :
  In d (unique_deadlines acc l) ->
  In d acc \/ exists t, In t l /\ deadline t = d.
Proof.
  revert acc. induction l as [|h l IH]; intros acc H; simpl in H.
  - left. exact H.
  - destruct (existsb (fun d => (d =? getDeadline h)%num) acc).
    + destruct (IH _ H) as [Ha|(t & Ht & E)]; [left; exact Ha|].
      right. exists t. split; [right; exact Ht | exact E].
    + destruct (IH _ H) as [Ha|(t & Ht & E)].
      * apply in_app_or in Ha. destruct Ha as [Ha|[<-|[]]]; [left; exact Ha|].
        right. exists h. split; [left; reflexivity | reflexivity].
      * right. exists t. split; [right; exact Ht | exact E].
Qed.

Lemma existsb_false_forall {A} (f : A -> bool) (l : list A) (x : A) :
  existsb f l = false -> In x l -> f x = false.
Proof.
  intros H Hx. destruct (f x) eqn:E; [|reflexivity].
  assert (existsb f l = true) by (apply existsb_exists; exists x; auto). congruence.
Qed.

Lemma strongly_sorted_snoc (acc : list R) (x : R) :
  StronglySorted lt_num acc -> Forall (fun a => lt_num a x) acc ->
  StronglySorted lt_num (acc ++ [x]).
Proof.
  induction acc as [|a acc IH]; intros S F; simpl.
  - constructor; constructor.
  - inversion S as [|a' acc' Sa Fa]; subst. inversion F as [|a' acc' Fx Fr]; subst.
    constructor; [apply IH; assumption|].
    apply Forall_app. split; [exact Fa|]. constructor; [exact Fx | constructor].
Qed.

(** The sequence of a deadline-sorted task list is strictly increasing. *)
Lemma unique_deadlines_ascending (acc : list R) (l : list (Task R)) :
  StronglySorted lt_num acc ->
  StronglySorted (fun a b => le_num (deadline a) (deadline b)) l ->
  (forall a t, In a acc -> In t l -> le_num a (deadline t)) ->
  StronglySorted lt_num (unique_deadlines acc l).
Proof.
  revert acc. induction l as [|h l IH]; intros acc Sa Sl B; simpl; [exact Sa|].
  inversion Sl as [|h' l' Sl' Fl]; subst.
  destruct (existsb (fun d => (d =? getDeadline h)%num) acc) eqn:E.
  - apply IH; try assumption. intros a t Ha Ht. apply B; [exact Ha | right; exact Ht].
  - apply IH; try assumption.
    + apply strongly_sorted_snoc; [exact Sa|].
      apply Forall_forall. intros a Ha. apply le_not_eq_lt.
      * apply B; [exact Ha | left; reflexivity].
      * apply (existsb_false_forall _ _ _ E Ha).
    + intros a t Ha Ht. apply in_app_or in Ha. destruct Ha as [Ha|[<-|[]]].
      * apply B; [exact Ha | right; exact Ht].
      * rewrite Forall_forall in Fl. apply Fl. exact Ht.
Qed.

Lemma strongly_sorted_nth (ds : list R) (j j' : nat) (a b : R) :
  StronglySorted lt_num ds -> (j < j')%nat ->
  nth_error ds j = Some a -> nth_error ds j' = Some b -> lt_num a b.
Proof.
  intros S. revert j j'. induction S as [|x ds S IH F]; intros j j' Hlt Ha Hb.
  - destruct j; discriminate.
  - destruct j' as [|j']; [lia|]. simpl in Hb. destruct j as [|j]; simpl in Ha.
    + inversion Ha; subst. rewrite Forall_forall in F. apply F.
      eapply nth_error_In. exact Hb.
    + eapply IH; [|exact Ha|exact Hb]. lia.
Qed.

End DeadlineSequence.

(* ================================================================== *)
(** ** The task list across the windows (C10) *)

Section Prefix.
Context {R : Type} {NR : Number R}.

(** [generate_schedule] up to and including window [n - 1]. *)
Definition first_windows (n : nat) : M R unit :=
  (modify (with_tasksList sort_by_deadline) ;;
   tl <- gets tasksList ;;
   modify (with_sched (set_deadlines (Some (unique_deadlines [] tl)))) ;;
   for_each (seq 0 n) schedule_window)%py.

(** The deadline sequence [generate_schedule] derives from a task list. *)
Definition deadline_sequence (tl : list (Task R)) : list R :=
  unique_deadlines [] (sort_by_deadline tl).

(** The world in which the loop over the windows starts. *)
Definition prepared (w : World R) : World R :=
  with_sched (set_deadlines (Some (deadline_sequence (tasksList w))))
             (with_tasksList sort_by_deadline w).

Lemma first_windows_eq (n : nat) (w : World R) :
  first_windows n w = for_each (seq 0 n) schedule_window (prepared w).
Proof. reflexivity. Qed.

Lemma generate_schedule_eq (w : World R) :
  generate_schedule w
  = bind (first_windows (length (deadline_sequence (tasksList w))))
         (fun _ => exit (Return true)) w.
Proof. reflexivity. Qed.

Lemma for_each_app {A} (l1 l2 : list A) (body : A -> M R unit) (w : World R) :
  for_each (l1 ++ l2) body w = bind (for_each l1 body) (fun _ => for_each l2 body) w.
Proof.
  revert w. induction l1 as [|x l1 IH]; intros w; simpl.
  - reflexivity.
  - unfold bind in *.
    destruct (body x w) as [w1 [[]|b|e|]]; try reflexivity.
    apply IH.
Qed.

Lemma for_each_one {A} (x : A) (body : A -> M R unit) (w : World R) :
  for_each [x] body w = body x w.
Proof.
  simpl. unfold bind, ret. destruct (body x w) as [w1 [[]|b|e|]]; reflexivity.
Qed.

Lemma first_windows_succ (n : nat) (w w' : World R) :
  first_windows (S n) w = (w', Normal tt) ->
  exists wn, first_windows n w = (wn, Normal tt)
             /\ schedule_window n wn = (w', Normal tt).
Proof.
  rewrite !first_windows_eq. rewrite seq_S, for_each_app. simpl "+".
  intros H. unbind_normal H as wn u E. destruct u.
  rewrite for_each_one in H. exists wn. auto.
Qed.

(** Induction over the windows that were scheduled. *)
Lemma first_windows_ind (P : nat -> World R -> Prop) (w : World R) :
  P O (prepared w) ->
  (forall n wn wn', P n wn -> first_windows n w = (wn, Normal tt) ->
                    schedule_window n wn = (wn', Normal tt) -> P (S n) wn') ->
  forall n wn, first_windows n w = (wn, Normal tt) -> P n wn.
Proof.
  intros H0 HS. induction n as [|n IH]; intros wn H.
  - rewrite first_windows_eq in H. simpl in H. inversion H; subst. exact H0.
  - apply first_windows_succ in H. destruct H as (wm & E1 & E2).
    eapply HS; [apply IH; exact E1 | exact E1 | exact E2].
Qed.

Lemma first_windows_deadlines (n : nat) (w wn : World R) (o : outcome unit) :
  first_windows n w = (wn, o) ->
  deadlines (sched wn) = Some (deadline_sequence (tasksList w)).
Proof.
  rewrite first_windows_eq. intros H. apply windows_same_deadlines in H.
  unfold unchanged in H. rewrite H. reflexivity.
Qed.

End Prefix.

Section TaskList.
Context {R : Type} {NR : Number R} {L : NumberLaws R}.

Lemma StronglySorted_map {A B} (f : A -> B) (P : B -> B -> Prop) (l : list A) :
  StronglySorted P (map f l) <-> StronglySorted (fun a b => P (f a) (f b)) l.
Proof.
  induction l as [|a l IH]; simpl; split; intros S; try constructor;
    inversion S as [|a' l' Sl Fl]; subst.
  - apply IH. exact Sl.
  - rewrite Forall_map in Fl. exact Fl.
  - apply IH. exact Sl.
  - rewrite Forall_map. exact Fl.
Qed.

Lemma StronglySorted_filter {A} (P : A -> A -> Prop) (g : A -> bool) (l : list A) :
  StronglySorted P l -> StronglySorted P (filter g l).
Proof.
  induction 1 as [|a l S IH F]; simpl; [constructor|].
  destruct (g a); [|exact IH]. constructor; [exact IH|].
  apply Forall_forall. intros x Hx. apply filter_In in Hx.
  rewrite Forall_forall in F. apply F. apply Hx.
Qed.

Lemma filter_filter {A} (f g : A -> bool) (l : list A) :
  filter f (filter g l) = filter (fun x => g x && f x) l.
Proof.
  induction l as [|a l IH]; simpl; [reflexivity|].
  destruct (g a); simpl; [destruct (f a)|]; rewrite IH; reflexivity.
Qed.

(** A task with identity [x] is still in the list after [n] windows: its
    deadline is none of the first [n] of the sequence [ds]. *)
Definition kept (ds : list R) (n : nat) (x : Z * R * R) : bool :=
  negb (existsb (fun d => (d =? ident_deadline x)%num) (firstn n ds)).

Lemma firstn_snoc {A} (l : list A) (n : nat) (a : A) :
  nth_error l n = Some a -> firstn (S n) l = firstn n l ++ [a].
Proof.
  revert n. induction l as [|x l IH]; intros [|n] H; simpl in *; try discriminate.
  - inversion H. reflexivity.
  - f_equal. apply IH. exact H.
Qed.

Lemma kept_succ (ds : list R) (n : nat) (di : R) (x : Z * R * R) :
  nth_error ds n = Some di ->
  kept ds (S n) x = kept ds n x && negb (di =? ident_deadline x)%num.
Proof.
  intros H. unfold kept. rewrite (firstn_snoc _ _ H), existsb_app. simpl.
  rewrite orb_false_r, negb_orb. reflexivity.
Qed.

(** The list as it is after [n] windows, by identities. *)
Definition remaining (tl : list (Task R)) (n : nat) : list (Z * R * R) :=
  filter (kept (deadline_sequence tl) n) (map ident (sort_by_deadline tl)).

Lemma deadline_sequence_ascending (tl : list (Task R)) :
  StronglySorted lt_num (deadline_sequence tl).
Proof.
  apply unique_deadlines_ascending.
  - constructor.
  - apply sort_by_deadline_sorted.
  - intros a t [].
Qed.

Lemma remaining_sorted (tl : list (Task R)) (n : nat) :
  StronglySorted le_num (map ident_deadline (remaining tl n)).
Proof.
  apply StronglySorted_map. unfold remaining. apply StronglySorted_filter.
  apply StronglySorted_map with (f := ident) (P := fun a b => le_num (ident_deadline a) (ident_deadline b)).
  apply sort_by_deadline_sorted.
Qed.

Lemma remaining_bounded (tl : list (Task R)) (n : nat) (di : R) :
  nth_error (deadline_sequence tl) n = Some di ->
  Forall (fun x => le_num di (ident_deadline x)) (remaining tl n).
Proof.
  intros Hdi. apply Forall_forall. intros x Hx. unfold remaining in Hx.
  apply filter_In in Hx. destruct Hx as [Hin Hk].
  apply in_map_iff in Hin. destruct Hin as (t & <- & Ht).
  pose proof (unique_deadlines_covers [] _ _ Ht) as C.
  apply existsb_exists in C. destruct C as (d & Hd & E).
  apply In_nth_error in Hd. destruct Hd as [j Hj].
  change (unique_deadlines [] (sort_by_deadline tl)) with (deadline_sequence tl) in Hj.
  assert (Hle : le_num d (deadline t)) by (apply num_eq_true in E; apply E).
  destruct (Nat.lt_ge_cases j n) as [Hlt|Hge].
  - exfalso. unfold kept in Hk. apply negb_true_iff in Hk.
    assert (Hin : In d (firstn n (deadline_sequence tl))).
    { rewrite <- (firstn_skipn n (deadline_sequence tl)) in Hj.
      rewrite nth_error_app1 in Hj.
      - eapply nth_error_In. exact Hj.
      - rewrite length_firstn. apply Nat.min_glb_lt; [exact Hlt|].
        apply nth_error_Some. rewrite firstn_skipn in Hj. congruence. }
    pose proof (existsb_false_forall _ _ _ Hk Hin) as F. simpl in F.
    unfold ident_deadline in F. simpl in F. congruence.
  - destruct (Nat.eq_dec j n) as [->|Hne].
    + rewrite Hdi in Hj. inversion Hj; subst. exact Hle.
    + eapply le_num_trans; [|exact Hle]. apply lt_num_le.
      eapply strongly_sorted_nth;
        [apply deadline_sequence_ascending | | exact Hdi | exact Hj]. lia.
Qed.

(** While windows are left, tasks are left. *)
Lemma remaining_nonempty (tl : list (Task R)) (n : nat) (di : R) :
  nth_error (deadline_sequence tl) n = Some di -> remaining tl n <> [].
Proof.
  intros Hdi E.
  assert (Hin : In di (deadline_sequence tl)) by (eapply nth_error_In; exact Hdi).
  apply unique_deadlines_from in Hin. destruct Hin as [[]|(t & Ht & Ed)].
  assert (Hx : In (ident t) (remaining tl n)).
  { unfold remaining. apply filter_In. split; [apply in_map; exact Ht|].
    unfold kept. apply negb_true_iff.
    destruct (existsb (fun d => (d =? ident_deadline (ident t))%num)
                      (firstn n (deadline_sequence tl))) eqn:X; [|reflexivity].
    exfalso. apply existsb_exists in X. destruct X as (d & Hd & Eq).
    apply In_nth_error in Hd. destruct Hd as [j Hj].
    assert (Hjn : (j < n)%nat).
    { assert (Hs : nth_error (firstn n (deadline_sequence tl)) j <> None) by congruence.
      apply nth_error_Some in Hs. rewrite length_firstn in Hs. lia. }
    rewrite nth_error_firstn in Hj.
    destruct (Nat.ltb j n) eqn:Hb; [|discriminate].
    assert (lt_num d di)
      by (eapply strongly_sorted_nth;
          [apply deadline_sequence_ascending | exact Hjn | exact Hj | exact Hdi]).
    apply lt_num_not_eq in H. unfold ident_deadline in Eq. simpl in Eq.
    rewrite Ed in Eq. congruence. }
  rewrite E in Hx. contradiction.
Qed.

End TaskList.

Section TaskListTheorems.
Context {R : Type} {NR : Number R} {L : NumberLaws R}.

Lemma quotas_added_ident (s : EnSuRe_Scheduler R) (tw : R) (tl tl' : list (Task R)) :
  Forall2 (quotas_added s tw) tl tl' -> map ident tl' = map ident tl.
Proof.
  induction 1 as [|t t' tl tl' (wq & bwq & _ & _ & ->) F IH]; simpl.
  - reflexivity.
  - rewrite IH. reflexivity.
Qed.

(** What one scheduled window does to the task list, by identities: the
    tasks whose deadline is the window's are gone, the others stay in
    order. *)
Lemma schedule_window_retires (n : nat) (w w' : World R) (ds : list R) (di : R) :
  schedule_window n w = (w', Normal tt) ->
  deadlines (sched w) = Some ds ->
  nth_error ds n = Some di ->
  StronglySorted le_num (map ident_deadline (map ident (tasksList w))) ->
  Forall (fun x => le_num di (ident_deadline x)) (map ident (tasksList w)) ->
  map ident (tasksList w')
  = filter (fun x => negb (di =? ident_deadline x)%num) (map ident (tasksList w)).
Proof.
  intros H Hds Hdi S B.
  apply schedule_window_normal in H.
  destruct H as (ds' & di' & b & tl1 & total & tasksA & st & wp & x & Hds' & Hdi' & _
                 & Hq & _ & Hp & _ & Ht & _).
  rewrite Hds in Hds'. inversion Hds'; subst ds'.
  rewrite Hdi in Hdi'. inversion Hdi'; subst di'.
  apply set_quotas_ok in Hq.
  pose proof (quotas_added_ident Hq) as Hid.
  apply lp_pack_normal with (ds := ds) (di := di) in Hp; [|exact Hds|exact Hdi].
  cbn [heap tasksList with_tasksList] in Hp.
  destruct Hp as (HA & HT & _).
  rewrite Ht, HT.
  change (fold_left _ ?X tl1) with (retire di X tl1).
  rewrite retire_sorted.
  - rewrite <- Hid. rewrite filter_map_comm. reflexivity.
  - apply StronglySorted_map with (f := @deadline R) (P := le_num).
    rewrite <- Hid, map_map in S. exact S.
  - rewrite <- Hid in B. rewrite Forall_map in B. exact B.
  - rewrite HA. rewrite <- id_deadline_copies with (h := heap w).
    apply Permutation_map, Permutation_sym, sorted_refs_perm.
Qed.

Lemma first_windows_remaining (tl : list (Task R)) (w : World R) :
  tasksList w = tl ->
  forall n wn, first_windows n w = (wn, Normal tt) ->
               (n <= length (deadline_sequence tl))%nat
               /\ map ident (tasksList wn) = remaining tl n.
Proof.
  intros Htl.
  apply (first_windows_ind
           (fun n wn => (n <= length (deadline_sequence tl))%nat
                        /\ map ident (tasksList wn) = remaining tl n)).
  - split; [lia|]. unfold prepared, remaining. cbn [tasksList with_sched with_tasksList].
    rewrite Htl. symmetry. apply filter_all. intros x _. reflexivity.
  - intros n wn wn' [Hn IH] Hw Hs.
    pose proof (first_windows_deadlines _ _ Hw) as Hds. rewrite Htl in Hds.
    pose proof Hs as Hs'. apply schedule_window_normal in Hs'.
    destruct Hs' as (ds' & di & _ & _ & _ & _ & _ & _ & _ & Hds' & Hdi & _).
    rewrite Hds in Hds'. inversion Hds'; subst ds'.
    split.
    + apply Nat.le_succ_l. apply nth_error_Some. congruence.
    + rewrite (@schedule_window_retires n wn wn' _ di Hs Hds Hdi).
      * rewrite IH. unfold remaining. rewrite filter_filter.
        apply filter_ext. intros x. symmetry. apply kept_succ. exact Hdi.
      * rewrite IH. apply remaining_sorted.
      * rewrite IH. apply remaining_bounded. exact Hdi.
Qed.

Lemma remaining_all (tl : list (Task R)) :
  remaining tl (length (deadline_sequence tl)) = [].
Proof.
  unfold remaining. apply filter_none. intros x Hx.
  apply in_map_iff in Hx. destruct Hx as (t & <- & Ht).
  unfold kept. rewrite firstn_all. apply negb_false_iff.
  apply (unique_deadlines_covers [] _ _ Ht).
Qed.

(** C10: [generate_schedule] sorts the caller's list in place by ascending
    deadline and removes every task in the window whose deadline is the
    task's: after [n] scheduled windows the list holds, in sorted order,
    exactly the tasks whose deadline is none of the first [n] deadlines;
    when [generate_schedule] returns [True] the list is empty. *)
Theorem generate_schedule_consumes_task_list (w : World R) :
  (forall n wn, first_windows n w = (wn, Normal tt) ->
                map ident (tasksList wn) = remaining (tasksList w) n)
  /\ (forall w', generate_schedule w = (w', Return true) -> tasksList w' = []).
Proof.
  split.
  - intros n wn H.
    apply (proj2 (@first_windows_remaining (tasksList w) w eq_refl n wn H)).
  - intros w' H. rewrite generate_schedule_eq in H.
    unbind H as w1 u E; try discriminate.
    + apply exit_inv in H. destruct H as [-> _]. destruct u.
      apply (@first_windows_remaining (tasksList w) w eq_refl) in E.
      destruct E as [_ E].
      rewrite remaining_all in E. apply map_eq_nil in E. exact E.
    + exfalso. revert E. rewrite first_windows_eq.
      apply never_returns_for_each. intros i.
      apply schedule_window_never_returns_true.
Qed.

End TaskListTheorems.

(* ================================================================== *)
(** ** Feasibility of a window (C3) *)

Section Feasibility.
Context {R : Type} {NR : Number R}.

(** Both quota lists of the task have [n] entries. *)
Definition quota_len (n : nat) (t : Task R) : Prop :=
  length (workload_quota t) = n /\ length (backup_workload_quota t) = n.

(** A scheduler as [__init__] leaves it, and tasks as [Task(..)] makes
    them. *)
Definition fresh (w : World R) : Prop :=
  pri_schedule (sched w) = [] /\ backup_list (sched w) = []
  /\ backup_start (sched w) = [] /\ Forall (quota_len 0) (tasksList w).

(** What holds when window [n] is about to be scheduled. *)
Definition ready (n : nat) (w : World R) : Prop :=
  committed n w /\ Forall (quota_len n) (tasksList w).

(** The primary quota of a task for the window that is being scheduled:
    the entry that [setWorkloadQuota] appended last. *)
Definition primary_quota (t : Task R) : R := last (workload_quota t) (of_int 0).

(** The sum of the primary quotas of the tasks [tl], read off the tasks and
    added up in list order starting from [acc]. *)
Definition primary_quota_sum_from (acc : R) (tl : list (Task R)) : R :=
  fold_left (fun a t => (a + primary_quota t)%num) tl acc.

Definition primary_quota_sum (tl : list (Task R)) : R :=
  primary_quota_sum_from (of_int 0) tl.

(** [tl1] is the task list of world [w] after every task has been given its
    two quotas for a window of length [len_w]. *)
Definition with_window_quotas (w : World R) (len_w : R) (tl1 : list (Task R)) : Prop :=
  Forall2 (quotas_added (sched w) len_w) (tasksList w) tl1.

(** The primary quotas of the tasks of window [n] sum to more than the
    capacity [len_w * m] of the LP cores. *)
Definition capacity_exceeded (n : nat) (w : World R) : Prop :=
  exists b tl1,
    window_bounds n w = (w, Normal b)
    /\ with_window_quotas w (fst b) tl1
    /\ (fst b * of_int (m_pri (sched w)) <? primary_quota_sum tl1)%num = true.

(** The primary quotas of the tasks of window [n] sum to at most the
    capacity [len_w * m] and the LP packing finds a core for every task. *)
Definition fits_and_packs (n : nat) (w : World R) : Prop :=
  exists b tl1 wp packed,
    window_bounds n w = (w, Normal b)
    /\ with_window_quotas w (fst b) tl1
    /\ (primary_quota_sum tl1 <=? fst b * of_int (m_pri (sched w)))%num = true
    /\ lp_pack n (snd b) (fst b) (with_tasksList (fun _ => tl1) w) = (wp, Normal packed).

Lemma quotas_added_primary (s : EnSuRe_Scheduler R) (tw : R) (t t' : Task R) :
  quotas_added s tw t t' ->
  roundUpTimeStep s (getWeight t * tw)%num = Ok (primary_quota t').
Proof.
  intros (wq & bwq & Hq & _ & ->). unfold primary_quota. simpl.
  rewrite last_last. exact Hq.
Qed.

(** The total that the loop of step ii accumulates is the sum of the
    primary quotas that it has just stored in the tasks. *)
Lemma set_quotas_sum (s : EnSuRe_Scheduler R) (tw : R) (tl tl' : list (Task R))
      (acc total : R) :
  set_quotas s tw tl acc = (tl', Ok total) -> total = primary_quota_sum_from acc tl'.
Proof.
  revert tl' acc. induction tl as [|t tl IH]; intros tl' acc H; simpl in H.
  - inversion H. reflexivity.
  - destruct (roundUpTimeStep s (getWeight t * tw)%num) as [wq|e] eqn:E1;
      [|inversion H].
    destruct (roundUpTimeStep s (lp_hp_ratio s * getWeight t * tw)%num) as [bwq|e] eqn:E2;
      [|inversion H].
    destruct (set_quotas s tw tl (acc + wq)%num) as [rest o] eqn:E3.
    inversion H; subst. apply IH in E3. rewrite E3.
    unfold primary_quota_sum_from. cbn [fold_left]. f_equal.
    unfold primary_quota. simpl. rewrite last_last. reflexivity.
Qed.

(** Conversely, the loop succeeds on tasks whose quotas can be computed, and
    returns that sum. *)
Lemma set_quotas_complete (s : EnSuRe_Scheduler R) (tw : R) (tl tl' : list (Task R)) :
  Forall2 (quotas_added s tw) tl tl' ->
  forall acc, set_quotas s tw tl acc = (tl', Ok (primary_quota_sum_from acc tl')).
Proof.
  induction 1 as [|t t' tl tl' (wq & bwq & Hq & Hb & ->) F IH]; intros acc; simpl.
  - reflexivity.
  - rewrite Hq, Hb, (IH (acc + wq)%num).
    unfold primary_quota_sum_from. cbn [fold_left]. do 3 f_equal.
    unfold primary_quota. simpl. rewrite last_last. reflexivity.
Qed.

Lemma remove_task_Forall (P : Task R -> Prop) (tid : Z) (l : list (Task R)) :
  Forall P l -> Forall P (remove_task tid l).
Proof.
  induction 1 as [|t l Ht F IH]; simpl; [constructor|].
  destruct (getId t =? tid)%Z; [exact F | constructor; assumption].
Qed.

Lemma retire_Forall (P : Task R -> Prop) (d : R) (X : list (Z * R)) (l : list (Task R)) :
  Forall P l ->
  Forall P (fold_left (fun l x => if (d =? snd x)%num then remove_task (fst x) l else l)
                      X l).
Proof.
  revert l. induction X as [|x X IH]; intros l F; simpl; [exact F|].
  apply IH. destruct (d =? snd x)%num; [apply remove_task_Forall|]; exact F.
Qed.

Lemma quotas_added_len (s : EnSuRe_Scheduler R) (tw : R) (n : nat)
      (tl tl' : list (Task R)) :
  Forall2 (quotas_added s tw) tl tl' ->
  Forall (quota_len n) tl -> Forall (quota_len (S n)) tl'.
Proof.
  induction 1 as [|t t' tl tl' (wq & bwq & _ & _ & ->) F IH]; intros Hl.
  - constructor.
  - inversion Hl as [|t0 l0 Ht Hr]; subst. destruct Ht as [H1 H2].
    constructor; [|apply IH; exact Hr].
    unfold quota_len. simpl. rewrite !length_app, H1, H2. simpl. lia.
Qed.

Lemma schedule_window_ready (n : nat) (w w' : World R) :
  schedule_window n w = (w', Normal tt) -> ready n w -> ready (S n) w'.
Proof.
  intros H [C Q]. split.
  - exact (schedule_window_commit H C).
  - apply schedule_window_normal in H.
    destruct H as (ds & di & b & tl1 & total & tasksA & st & wp & x & Hds & Hdi & _
                   & Hq & _ & Hp & _ & Ht & _).
    apply set_quotas_ok in Hq.
    apply lp_pack_normal with (ds := ds) (di := di) in Hp; [|exact Hds|exact Hdi].
    destruct Hp as (_ & HT & _). cbn [tasksList with_tasksList] in HT.
    rewrite Ht, HT. apply retire_Forall. eapply quotas_added_len; eassumption.
Qed.

Lemma prepared_ready (w : World R) : fresh w -> ready O (prepared w).
Proof.
  intros (H1 & H2 & H3 & H4). split.
  - unfold committed, prepared. cbn. rewrite H1, H2, H3. repeat split. intros j Hj. lia.
  - unfold prepared. cbn [tasksList with_sched with_tasksList].
    apply Forall_forall. intros t Ht. rewrite Forall_forall in H4. apply H4.
    eapply Permutation_in; [apply Permutation_sym, sort_asc_perm | exact Ht].
Qed.

Lemma first_windows_ready (w : World R) (n : nat) (wn : World R) :
  fresh w -> first_windows n w = (wn, Normal tt) -> ready n wn.
Proof.
  intros F. revert n wn. apply first_windows_ind.
  - apply prepared_ready. exact F.
  - intros n wn wn' IH _ Hs. eapply schedule_window_ready; eassumption.
Qed.

Lemma backup_quota_sum_ok (h : list (Task R)) (idx : nat) (bl : list ref) (acc : R) :
  Forall (fun r => exists t, nth_error h r = Some t
                             /\ exists q, getBackupWorkloadQuota t idx = Ok q) bl ->
  exists cap, backup_quota_sum h idx bl acc = Ok cap.
Proof.
  revert acc. induction bl as [|r bl IH]; intros acc F; simpl.
  - eexists. reflexivity.
  - inversion F as [|r0 l0 Hr Fr]; subst. destruct Hr as (t & Ht & q & Hq).
    apply index_ok in Ht. rewrite Ht. simpl. rewrite Hq. simpl. apply IH. exact Fr.
Qed.

Lemma Forall_firstn {A} (P : A -> Prop) (n : nat) (l : list A) :
  Forall P l -> Forall P (firstn n l).
Proof.
  revert n. induction l as [|a l IH]; intros [|n] F; simpl; try constructor;
    inversion F; subst; auto.
Qed.

(** A window whose quotas exceed the capacity makes [generate_schedule]
    return [False]. *)
Lemma schedule_window_exceeded {L : NumberLaws R} (n : nat) (w : World R) :
  capacity_exceeded n w -> exists w', schedule_window n w = (w', Return false).
Proof.
  intros (b & tl1 & Hb & Hq & Hc).
  apply set_quotas_complete with (acc := of_int 0) in Hq.
  fold (primary_quota_sum tl1) in Hq. set (total := primary_quota_sum tl1) in *.
  unfold schedule_window. erewrite bind_eq by exact Hb.
  rewrite bind_eq with (w1 := with_tasksList (fun _ => tl1) w) (a := total).
  2:{ rewrite assign_quotas_world, Hq. reflexivity. }
  rewrite bind_gets. cbn [sched with_tasksList].
  rewrite num_lt_le in Hc. apply negb_true_iff in Hc. rewrite Hc.
  eexists. reflexivity.
Qed.

(** A window in a fresh run whose quotas fit and whose tasks are packed is
    scheduled to its end. *)
Lemma schedule_window_succeeds (n : nat) (w : World R) :
  ready n w -> tasksList w <> [] -> fits_and_packs n w ->
  exists w', schedule_window n w = (w', Normal tt).
Proof.
  intros [C Q] Hne (b & tl1 & wp & [tasksA st] & Hb & Hq & Hc & Hp).
  apply set_quotas_complete with (acc := of_int 0) in Hq.
  fold (primary_quota_sum tl1) in Hq. set (total := primary_quota_sum tl1) in *.
  pose proof Hb as Hb'. apply window_bounds_normal in Hb'.
  destruct Hb' as (_ & ds & di & Hds & Hdi).
  pose proof Hq as Hq'. apply set_quotas_ok in Hq'.
  pose proof Hp as Hp'.
  apply lp_pack_normal with (ds := ds) (di := di) in Hp'; [|exact Hds|exact Hdi].
  cbn [heap tasksList with_tasksList sched] in Hp'.
  destruct Hp' as (HA & HT & HL & HM & HN & [d HK] & HF & HS).
  pose proof Hp as S1. apply lp_pack_same_reservation in S1.
  pose proof Hp as S2.
  apply lp_pack_unchanged with (F := fun x => deadlines (sched x)) in S2;
    try (intros ? ?; reflexivity).
  unfold unchanged, reservation in S1, S2. cbn [sched with_tasksList] in S1, S2.
  inversion S1 as [[S1a S1b]]. clear S1.
  destruct C as (C1 & C2 & C3).
  assert (Hst : exists c, index (fst st) 0 = Ok c).
  { destruct (fst st) as [|c l] eqn:E.
    - exfalso. apply HN; [|reflexivity]. intros ->.
      destruct (tasksList w); [apply Hne; reflexivity | inversion Hq'].
    - exists c. reflexivity. }
  destruct Hst as [c Hst].
  assert (HB : Forall (fun r => exists t, nth_error (heap wp) r = Some t
                         /\ exists q, getBackupWorkloadQuota t n = Ok q) tasksA).
  { apply Forall_forall. intros r Hr.
    assert (Hin : In r (seq (length (heap w)) (length tl1))).
    { eapply Permutation_in; [apply Permutation_sym|exact Hr].
      rewrite HA. apply sorted_refs_perm. }
    apply in_seq in Hin.
    destruct (nth_error tl1 (r - length (heap w))) as [t|] eqn:Et.
    2:{ apply nth_error_None in Et. lia. }
    assert (Hh : nth_error (heap w ++ tl1) r = Some t)
      by (rewrite nth_error_app2 by lia; exact Et).
    destruct (HS _ _ Hh) as (t' & Ht' & (_ & _ & _ & _ & Eb)).
    exists t'. split; [exact Ht'|].
    assert (Hlen : quota_len (S n) t).
    { assert (Q1 : Forall (quota_len (S n)) tl1)
        by (eapply quotas_added_len; eassumption).
      rewrite Forall_forall in Q1. apply Q1. eapply nth_error_In. exact Et. }
    destruct Hlen as [_ Hlen]. unfold getBackupWorkloadQuota. rewrite Eb.
    destruct (nth_error (backup_workload_quota t) n) as [q|] eqn:En.
    - exists q. apply index_ok. exact En.
    - apply nth_error_None in En. lia. }
  assert (Hsum : exists cap,
             backup_quota_sum (heap wp) n
               (firstn (Z.to_nat (Z.min (k (sched wp)) (Z.of_nat (length tasksA)))) tasksA)
               (of_int 0) = Ok cap)
    by (apply backup_quota_sum_ok, Forall_firstn, HB).
  destruct Hsum as [cap Hcap].
  unfold schedule_window. erewrite bind_eq by exact Hb.
  rewrite bind_eq with (w1 := with_tasksList (fun _ => tl1) w) (a := total).
  2:{ rewrite assign_quotas_world, Hq. reflexivity. }
  rewrite bind_gets. cbn [sched with_tasksList]. rewrite Hc.
  erewrite bind_eq by exact Hp.
  rewrite bind_eq with (w1 := wp) (a := d).
  2:{ unfold pri_schedule_at. rewrite bind_gets, HK. reflexivity. }
  erewrite bind_eq by apply pri_schedule_put_world.
  cbn [fst snd]. rewrite Hst, bind_lift_ok.
  rewrite bind_gets, bind_modify.
  cbn [fst snd sched with_sched set_pri_schedule backup_list].
  eexists. eapply update_BB_overloading_spec with (bl := tasksA) (ds := ds) (d := di).
  - cbn [sched with_sched set_backup_list set_pri_schedule backup_list].
    rewrite S1a, nth_error_app2 by lia. rewrite C1, Nat.sub_diag. reflexivity.
  - cbn [heap with_sched sched set_backup_list set_pri_schedule k].
    unfold reserved_prefix. cbn [k sched with_sched set_backup_list set_pri_schedule].
    exact Hcap.
  - cbn [sched with_sched set_backup_list set_pri_schedule deadlines].
    rewrite S2. exact Hds.
  - exact Hdi.
Qed.

End Feasibility.

Section FeasibilityTheorems.
Context {R : Type} {NR : Number R} {L : NumberLaws R}.

Lemma first_windows_step (n : nat) (w wn : World R) (w' : World R) (o : outcome unit) :
  first_windows n w = (wn, Normal tt) ->
  schedule_window n wn = (w', o) ->
  first_windows (S n) w = (w', o).
Proof.
  intros H1 H2. rewrite first_windows_eq in *. rewrite seq_S, for_each_app. simpl "+".
  erewrite bind_eq by exact H1. rewrite for_each_one. exact H2.
Qed.

Lemma first_windows_stops (n k0 : nat) (w w' : World R) (b : bool) :
  first_windows n w = (w', Return b) -> first_windows (n + k0) w = (w', Return b).
Proof.
  intros H. rewrite first_windows_eq in *. rewrite seq_app, for_each_app.
  unfold bind. rewrite H. reflexivity.
Qed.

Lemma reached_window_in_range (n : nat) (w wn : World R) (b : R * R) :
  first_windows n w = (wn, Normal tt) ->
  window_bounds n wn = (wn, Normal b) ->
  (n < length (deadline_sequence (tasksList w)))%nat.
Proof.
  intros H Hb. apply window_bounds_normal in Hb.
  destruct Hb as (_ & ds & di & Hds & Hdi).
  rewrite (first_windows_deadlines _ _ H) in Hds. inversion Hds; subst.
  apply nth_error_Some. congruence.
Qed.

(** C3: if the primary quotas of the tasks of a window that
    [generate_schedule] reaches sum to more than [len_w * m], it returns
    [False]; if in every window it reaches the sum is at most [len_w * m]
    and the LP packing places every task, it returns [True].  The sum is
    [primary_quota_sum], read off the quotas stored in the window's tasks.
    The second half is for a scheduler as [__init__] leaves it and tasks
    without earlier quotas. *)
Theorem capacity_decides_schedule (w : World R) :
  (forall n wn, first_windows n w = (wn, Normal tt) ->
                capacity_exceeded n wn ->
                exists w', generate_schedule w = (w', Return false))
  /\ (fresh w ->
      (forall n wn, first_windows n w = (wn, Normal tt) ->
                    (n < length (deadline_sequence (tasksList w)))%nat ->
                    fits_and_packs n wn) ->
      exists w', generate_schedule w = (w', Return true)).
Proof.
  split.
  - intros n wn H X.
    assert (Hn : (n < length (deadline_sequence (tasksList w)))%nat).
    { destruct X as (b & _ & Hb & _). eapply reached_window_in_range; eassumption. }
    apply schedule_window_exceeded in X. destruct X as [w' X].
    exists w'. rewrite generate_schedule_eq.
    assert (S1 : first_windows (S n) w = (w', Return false))
      by (eapply first_windows_step; eassumption).
    apply first_windows_stops
      with (k0 := (length (deadline_sequence (tasksList w)) - S n)%nat) in S1.
    replace (S n + (length (deadline_sequence (tasksList w)) - S n))%nat
      with (length (deadline_sequence (tasksList w))) in S1 by lia.
    unfold bind. rewrite S1. reflexivity.
  - intros F H.
    assert (Hall : forall n, (n <= length (deadline_sequence (tasksList w)))%nat ->
                             exists wn, first_windows n w = (wn, Normal tt)).
    { induction n as [|n IH]; intros Hn.
      - eexists. rewrite first_windows_eq. reflexivity.
      - destruct IH as [wn Hw]; [lia|].
        assert (Hr : ready n wn) by (eapply first_windows_ready; eassumption).
        assert (Hne : tasksList wn <> []).
        { intros E.
          pose proof (@first_windows_remaining _ _ _ (tasksList w) w eq_refl n wn Hw)
            as [_ Hrem].
          rewrite E in Hrem. simpl in Hrem.
          destruct (nth_error (deadline_sequence (tasksList w)) n) as [di|] eqn:Ed.
          - symmetry in Hrem. revert Hrem. eapply remaining_nonempty. exact Ed.
          - apply nth_error_None in Ed. lia. }
        assert (Hs : exists w', schedule_window n wn = (w', Normal tt))
          by (apply schedule_window_succeeds; [exact Hr | exact Hne | apply H; [exact Hw | lia]]).
        destruct Hs as [w' Hs].
        exists w'. eapply first_windows_step; eassumption. }
    destruct (Hall _ (Nat.le_refl _)) as [w' Hw].
    exists w'. rewrite generate_schedule_eq. erewrite bind_eq by exact Hw. reflexivity.
Qed.

End FeasibilityTheorems.

(* ================================================================== *)
(** ** Backup lists (C7) *)

Section BackupOrder.
Context {R : Type} {NR : Number R}.

(** The primary quota for window [n] of the task behind [r]. *)
Definition quota_at (h : list (Task R)) (n : nat) (r : ref) : R :=
  match nth_error h r with
  | Some t => nth n (workload_quota t) (of_int 0)
  | None => of_int 0
  end.









End BackupOrder.

Section BackupOrderTheorems.
Context {R : Type} {NR : Number R} {L : NumberLaws R}.


End BackupOrderTheorems.

Module ScheduleChecks.
Import ExactNum ExactLaws Scenarios.

Lemma two_windows_fresh : fresh (start two_windows_Q).
Proof.
  unfold fresh. repeat split; try reflexivity.
  repeat constructor.
Defined.

Lemma generate_schedule_consumes_task_list_witness :
  let w := start two_windows_Q in
  let w1 := fst (first_windows 1 w) in
  first_windows 1 w = (w1, Normal tt)
  /\ generate_schedule w = (built two_windows_Q, Return true)
  /\ map ident (tasksList w1) = remaining (tasksList w) 1
  /\ tasksList (built two_windows_Q) = [].
Proof.
  intros w w1.
  destruct (@generate_schedule_consumes_task_list Q _ Q_Laws w) as [A B].
  assert (H1 : first_windows 1 w = (w1, Normal tt)) by (vm_compute; reflexivity).
  assert (H2 : generate_schedule w = (built two_windows_Q, Return true))
    by (vm_compute; reflexivity).
  split; [exact H1|]. split; [exact H2|]. split.
  - exact (A 1%nat w1 H1).
  - exact (B _ H2).
Defined.


Lemma capacity_decides_schedule_witness :
  let w := start late_overload_Q in
  let w1 := fst (first_windows 1 w) in
  let w2 := start two_windows_Q in
  (first_windows 1 w = (w1, Normal tt)
   /\ capacity_exceeded 1 w1
   /\ exists w', generate_schedule w = (w', Return false))
  /\ (fresh w2
      /\ (forall n wn, first_windows n w2 = (wn, Normal tt) ->
                       (n < length (deadline_sequence (tasksList w2)))%nat ->
                       fits_and_packs n wn)
      /\ exists w', generate_schedule w2 = (w', Return true)).
Proof.
  intros w w1 w2.
  destruct (@capacity_decides_schedule Q _ Q_Laws w) as [A _].
  destruct (@capacity_decides_schedule Q _ Q_Laws w2) as [_ B].
  assert (H1 : first_windows 1 w = (w1, Normal tt)) by (vm_compute; reflexivity).
  assert (H2 : capacity_exceeded 1 w1).
  { unfold capacity_exceeded. eexists. eexists.
    split; [vm_compute; reflexivity|]. split.
    - eapply set_quotas_ok with (acc := of_int 0). vm_compute. reflexivity.
    - vm_compute. reflexivity. }
  assert (H3 : forall n wn, first_windows n w2 = (wn, Normal tt) ->
                            (n < length (deadline_sequence (tasksList w2)))%nat ->
                            fits_and_packs n wn).
  { intros n wn H Hn. destruct n as [|[|n]].
    - vm_compute in H. inversion H; subst wn. unfold fits_and_packs.
      eexists. eexists. eexists. eexists.
      split; [vm_compute; reflexivity|]. split.
      { eapply set_quotas_ok with (acc := of_int 0). vm_compute. reflexivity. }
      split; vm_compute; reflexivity.
    - vm_compute in H. inversion H; subst wn. unfold fits_and_packs.
      eexists. eexists. eexists. eexists.
      split; [vm_compute; reflexivity|]. split.
      { eapply set_quotas_ok with (acc := of_int 0). vm_compute. reflexivity. }
      split; vm_compute; reflexivity.
    - vm_compute in Hn. lia. }
  split.
  - split; [exact H1|]. split; [exact H2|]. exact (A 1%nat w1 H1 H2).
  - split; [exact two_windows_fresh|]. split; [exact H3|].
    exact (B two_windows_fresh H3).
Defined.

End ScheduleChecks.

(* ================================================================== *)
(** ** Statements that draw no random number *)

Section Calm.
Context {R : Type} {NR : Number R}.

(** A statement that draws nothing: it leaves the tape alone and ends
    normally or with an exception. *)
Definition calm {A} (m : M R A) : Prop :=
  forall w w' o, m w = (w', o) ->
    tape w' = tape w /\ ((exists a, o = Normal a) \/ (exists e, o = Throw e)).

(** The run does not leave through a [return], and it is cut off only when
    the draws are used up.  It may still raise. *)
Definition stops_only_without_draws {A} (w' : World R) (o : outcome A) : Prop :=
  (forall b, o <> Return b) /\ (o = Timeout -> tape w' = []).

Lemma calm_ret {A} (a : A) : calm (ret a).
Proof. intros w w' o E. inversion E; subst. split; eauto. Qed.

Lemma calm_gets {A} (f : World R -> A) : calm (gets f).
Proof. intros w w' o E. inversion E; subst. split; eauto. Qed.

Lemma calm_lift {A} (r : result A) : calm (lift r).
Proof.
  intros w w' o E. unfold lift in E. destruct r; inversion E; subst; split; eauto.
Qed.

Lemma calm_deref (r : ref) : calm (deref r).
Proof. intros w w' o E. unfold deref in E. apply calm_lift in E. exact E. Qed.

Lemma calm_self_deadlines : calm self_deadlines.
Proof.
  intros w w' o E. unfold self_deadlines in E.
  destruct (deadlines (sched w)); inversion E; subst; split; eauto.
Qed.

Lemma calm_update_task (r : ref) (f : Task R -> Task R) : calm (update_task r f).
Proof. intros w w' o E. inversion E; subst. split; eauto. Qed.

Lemma calm_bind {A B} (m : M R A) (f : A -> M R B) :
  calm m -> (forall a, calm (f a)) -> calm (bind m f).
Proof.
  intros Hm Hf w w' o E. unfold bind in E.
  destruct (m w) as [w1 [a|b|e|]] eqn:Em;
    destruct (Hm _ _ _ Em) as [T [[x X]|[x X]]]; try discriminate.
  - destruct (Hf _ _ _ _ E) as [T2 O]. split; [congruence | exact O].
  - inversion E; subst. split; eauto.
Qed.

Lemma calm_modify (f : World R -> World R) :
  (forall w, tape (f w) = tape w) -> calm (modify f).
Proof. intros H w w' o E. inversion E; subst. split; eauto. Qed.

Lemma calm_for_each {A} (l : list A) (body : A -> M R unit) :
  (forall x, calm (body x)) -> calm (for_each l body).
Proof.
  intros H. induction l as [|x l IH]; simpl.
  - apply calm_ret.
  - apply calm_bind; auto.
Qed.

Lemma calm_for_fold {A B} (l : list A) (body : A -> B -> M R B) (acc : B) :
  (forall x b, calm (body x b)) -> calm (for_fold l acc body).
Proof.
  intros H. revert acc. induction l as [|x l IH]; intros acc; simpl.
  - apply calm_ret.
  - apply calm_bind; auto.
Qed.

End Calm.

Ltac calm_walk :=
  repeat match goal with
    | |- calm (ret _) => apply calm_ret
    | |- calm (lift _) => apply calm_lift
    | |- calm (gets _) => apply calm_gets
    | |- calm (deref _) => apply calm_deref
    | |- calm self_deadlines => apply calm_self_deadlines
    | |- calm (update_task _ _) => apply calm_update_task
    | |- calm (modify _) => apply calm_modify; intros; reflexivity
    | |- calm (bind _ _) => apply calm_bind; [|intros]
    | |- calm (for_each _ _) => apply calm_for_each; intros
    | |- calm (for_fold _ _ _) => apply calm_for_fold; intros
    | |- calm (match ?x with _ => _ end) => destruct x
    | |- calm (let _ := _ in _) => cbv zeta
    end.

(* ================================================================== *)
(** ** Fault injection (C6) *)

Section FaultInjection.
Context {R : Type} {NR : Number R} {L : NumberLaws R}.

Lemma calm_pri_schedule_at (i : nat) : calm (R := R) (pri_schedule_at i).
Proof. unfold pri_schedule_at. calm_walk. Qed.

Lemma calm_window_bounds (i : nat) : calm (R := R) (window_bounds i).
Proof. unfold window_bounds. calm_walk. Qed.

Lemma calm_scan_fault (idx : nat) (ft : R) (items : list (Key R * ref)) :
  calm (scan_fault idx ft items).
Proof.
  induction items as [|[key t] rest IH]; simpl; calm_walk. exact IH.
Qed.

Lemma calm_stops {A} (m : M R A) (w w' : World R) (o : outcome A) :
  calm m -> m w = (w', o) -> stops_only_without_draws w' o.
Proof.
  intros H E. destruct (H _ _ _ E) as [_ [[a ->]|[e ->]]]; split; intros; discriminate.
Qed.

Lemma stops_bind {A B} (m : M R A) (f : A -> M R B) (w w' : World R) (o : outcome B) :
  bind m f w = (w', o) ->
  (forall w1 o1, m w = (w1, o1) -> stops_only_without_draws w1 o1) ->
  (forall w1 a, m w = (w1, Normal a) -> f a w1 = (w', o) ->
                stops_only_without_draws w' o) ->
  stops_only_without_draws w' o.
Proof.
  intros E Hm Hf. unfold bind in E.
  destruct (m w) as [w1 [a|b|e|]] eqn:Em.
  - eapply Hf; [reflexivity | exact E].
  - exfalso. destruct (Hm _ _ eq_refl) as [N _]. eapply N. reflexivity.
  - inversion E; subst. split; intros; discriminate.
  - inversion E; subst. destruct (Hm _ _ eq_refl) as [_ T].
    split; [intros; discriminate | intros _; apply T; reflexivity].
Qed.

(** [random.randint] takes one draw and touches nothing else. *)
Lemma randint0_outcome (b : R) (w w' : World R) (o : outcome Z) :
  randint0 b w = (w', o) ->
  (exists z, o = Normal z /\ S (length (tape w')) = length (tape w)
             /\ sched w' = sched w /\ heap w' = heap w)
  \/ (exists e, o = Throw e)
  \/ (o = Timeout /\ tape w' = []).
Proof.
  unfold randint0, bind, lift. destruct (ceil b) as [n|e].
  - destruct (negb (of_int n =? b)%num || (n <? 0)%Z).
    + intros E. inversion E; subst. right. left. eauto.
    + destruct (tape w) as [|r t] eqn:T; intros E; inversion E; subst.
      * right. right. auto.
      * left. eexists. simpl. auto.
  - intros E. inversion E; subst. right. left. eauto.
Qed.

Lemma sample_fault_stops (idx : nat) (tw sw : R) (fuel : nat) :
  forall (w w' : World R) (o : outcome Z),
    (length (tape w) < fuel)%nat ->
    sample_fault fuel idx tw sw w = (w', o) ->
    stops_only_without_draws w' o.
Proof.
  induction fuel as [|fuel IH]; intros w w' o Hf E; [lia|].
  simpl in E. rewrite bind_gets in E.
  eapply stops_bind; [exact E | intros; eapply calm_stops; [apply calm_lift | eassumption] |].
  clear E. intros w1 b E1 E. apply lift_inv_normal in E1. destruct E1 as [-> _].
  eapply stops_bind; [exact E | |].
  - intros w1 o1 E1. apply randint0_outcome in E1.
    destruct E1 as [(z & -> & _) | [(e & ->) | (-> & T)]];
      split; intros; try discriminate. exact T.
  - clear E. intros w1 rand E1 E. apply randint0_outcome in E1.
    destruct E1 as [(z & _ & Hl & _) | [(e & ?) | (? & _)]]; try discriminate.
    eapply stops_bind; [exact E | intros; eapply calm_stops;
                                  [apply calm_pri_schedule_at | eassumption] |].
    clear E. intros w2 items E2 E.
    pose proof E2 as T2. apply calm_pri_schedule_at in T2. destruct T2 as [T2 _].
    eapply stops_bind; [exact E | intros; eapply calm_stops;
                                  [apply calm_scan_fault | eassumption] |].
    clear E. intros w3 hit E3 E.
    pose proof E3 as T3. apply calm_scan_fault in T3. destruct T3 as [T3 _].
    destruct hit as [tid|].
    + inversion E; subst. split; intros; discriminate.
    + eapply IH; [|exact E]. rewrite T3, T2. lia.
Qed.

Lemma fault_loop_stops (idx : nat) (tw sw : R) (l : nat) :
  forall (acc : list Z) (w w' : World R) (o : outcome (list Z)),
    fault_loop l idx tw sw acc w = (w', o) ->
    stops_only_without_draws w' o.
Proof.
  induction l as [|l IH]; intros acc w w' o E; cbn [fault_loop] in E.
  - inversion E; subst. split; intros; discriminate.
  - rewrite bind_gets in E.
    eapply stops_bind; [exact E | |].
    + intros w1 o1 E1. eapply sample_fault_stops; [|exact E1]. lia.
    + intros w1 tid _ E2. eapply IH. exact E2.
Qed.

(** The tasks of [refs] that a run from [w0] to [w] has marked: each was
    unmarked in [w0] and now carries a fault of window [idx] at an offset
    within its primary quota; nothing else of the heap has changed. *)
Record marked_since (idx : nat) (refs : list ref) (w0 : World R)
       (marked : list ref) (w : World R) : Prop := {
  ms_sched : sched w = sched w0;
  ms_nodup : NoDup marked;
  ms_marked : forall r, In r marked ->
      In r refs /\
      exists t rel wq,
        nth_error (heap w0) r = Some t
        /\ getEncounteredFault t = false
        /\ getWorkloadQuota t idx = Ok wq
        /\ (of_int 0 <=? rel)%num = true /\ (rel <=? wq)%num = true
        /\ nth_error (heap w) r = Some (setEncounteredFault t idx rel);
  ms_others : forall r, ~ In r marked -> nth_error (heap w) r = nth_error (heap w0) r
}.

Lemma marked_since_start (idx : nat) (refs : list ref) (w : World R) :
  marked_since idx refs w [] w.
Proof.
  constructor; auto.
  - constructor.
  - intros r [].
Qed.

Lemma marked_since_same (idx : nat) (refs marked : list ref) (w0 w w1 : World R) :
  marked_since idx refs w0 marked w ->
  sched w1 = sched w -> heap w1 = heap w ->
  marked_since idx refs w0 marked w1.
Proof.
  intros [H1 H2 H3 H4] S1 S2. constructor.
  - congruence.
  - exact H2.
  - intros r Hr. destruct (H3 r Hr) as (I & t & rel & wq & A & B & C & D & E & F).
    split; [exact I|]. exists t, rel, wq. rewrite S2. auto 10.
  - intros r Hr. rewrite S2. auto.
Qed.

(** One accepted sample. *)
Lemma scan_fault_normal (idx : nat) (ft : R) (items : list (Key R * ref)) :
  forall (w w' : World R) (hit : option Z),
    scan_fault idx ft items w = (w', Normal hit) ->
    sched w' = sched w /\
    match hit with
    | None => heap w' = heap w
    | Some tid =>
        exists r t rel wq,
          In r (map snd items)
          /\ nth_error (heap w) r = Some t
          /\ getEncounteredFault t = false
          /\ getId t = tid
          /\ getWorkloadQuota t idx = Ok wq
          /\ (of_int 0 <=? rel)%num = true /\ (rel <=? wq)%num = true
          /\ heap w' = list_set (heap w) r (setEncounteredFault t idx rel)
    end.
Proof.
  induction items as [|[key t] rest IH]; intros w w' hit H; simpl in H.
  - inversion H; subst. auto.
  - unbind_normal H as w1 task E. apply deref_normal in E. destruct E as [-> Ht].
    unbind_normal H as w1 inside E.
    assert (Hin : w1 = w /\
                  (inside = true ->
                   exists wq, getWorkloadQuota task idx = Ok wq
                              /\ (fst key <=? ft)%num = true
                              /\ (ft <=? fst key + wq)%num = true)).
    { destruct (fst key <=? ft)%num eqn:Lo.
      - unbind_normal E as w2 wq E2. apply lift_inv_normal in E2.
        destruct E2 as [-> Hwq]. inversion E; subst.
        split; [reflexivity|]. intros Hi. exists wq. auto.
      - inversion E; subst. split; [reflexivity | discriminate]. }
    destruct Hin as [-> Hin]. clear E.
    destruct (inside && negb (getEncounteredFault task)) eqn:C.
    + apply andb_true_iff in C. destruct C as [Ci Cf].
      apply negb_true_iff in Cf.
      destruct (Hin Ci) as (wq & Hwq & Lo & Hi).
      destruct (num_offset_bounds _ _ _ Lo Hi) as [B1 B2].
      unbind_normal H as w1 u E. inversion E; subst. inversion H; subst.
      split; [reflexivity|].
      exists t, task, (ft - fst key)%num, wq. simpl. rewrite Ht.
      repeat split; auto.
    + apply IH in H. destruct H as [S H]. split; [exact S|].
      destruct hit as [tid|]; [|exact H].
      destruct H as (r & t0 & rel & wq & I & H).
      exists r, t0, rel, wq. split; [simpl; auto | exact H].
Qed.

Lemma marked_since_step (idx : nat) (refs marked : list ref) (w0 w w' : World R)
      (r : ref) (t : Task R) (rel wq : R) :
  marked_since idx refs w0 marked w ->
  In r refs ->
  nth_error (heap w) r = Some t ->
  getEncounteredFault t = false ->
  getWorkloadQuota t idx = Ok wq ->
  (of_int 0 <=? rel)%num = true -> (rel <=? wq)%num = true ->
  sched w' = sched w ->
  heap w' = list_set (heap w) r (setEncounteredFault t idx rel) ->
  marked_since idx refs w0 (r :: marked) w'.
Proof.
  intros [H1 H2 H3 H4] I Ht Hf Hwq B1 B2 S1 S2.
  assert (Hn : ~ In r marked).
  { intros Hr. destruct (H3 r Hr) as (_ & t0 & rel0 & wq0 & _ & _ & _ & _ & _ & F).
    rewrite F in Ht. inversion Ht; subst. discriminate. }
  assert (Hlt : (r < length (heap w))%nat).
  { apply nth_error_Some. congruence. }
  constructor.
  - congruence.
  - constructor; assumption.
  - intros r' [<- | Hr].
    + split; [exact I|]. exists t, rel, wq.
      rewrite <- (H4 r Hn), Ht, S2, list_set_same by exact Hlt. auto 10.
    + destruct (H3 r' Hr) as (I' & t0 & rel0 & wq0 & A & B & C & D & E & F).
      split; [exact I'|]. exists t0, rel0, wq0.
      rewrite S2, list_set_other by (intros ->; contradiction). auto 10.
  - intros r' Hr. rewrite S2, list_set_other by (intros ->; apply Hr; left; reflexivity).
    apply H4. intros X. apply Hr. right. exact X.
Qed.

(** Among the tasks that were unmarked, the marked ones are those that
    now carry a fault. *)
Lemma marked_since_flags (idx : nat) (refs marked : list ref) (w0 w : World R)
      (r : ref) (t t' : Task R) :
  marked_since idx refs w0 marked w ->
  nth_error (heap w0) r = Some t -> getEncounteredFault t = false ->
  nth_error (heap w) r = Some t' ->
  (getEncounteredFault t' = true <-> In r marked).
Proof.
  intros [H1 H2 H3 H4] Ht Hf Ht'.
  destruct (in_dec Nat.eq_dec r marked) as [Hin | Hout].
  - split; [intros _; exact Hin|]. intros _.
    destruct (H3 r Hin) as (_ & t0 & rel & wq & _ & _ & _ & _ & _ & F).
    rewrite F in Ht'. inversion Ht'. reflexivity.
  - rewrite (H4 r Hout), Ht in Ht'. inversion Ht'; subst t'.
    split; [congruence | intros X; contradiction].
Qed.

Lemma sample_fault_normal (idx : nat) (tw sw : R) (items : list (Key R * ref))
      (w0 : World R) (fuel : nat) :
  dict_get Nat.eqb idx (pri_schedule (sched w0)) = Ok items ->
  forall (marked : list ref) (w w' : World R) (tid : Z),
    marked_since idx (map snd items) w0 marked w ->
    sample_fault fuel idx tw sw w = (w', Normal tid) ->
    exists r, marked_since idx (map snd items) w0 (r :: marked) w'.
Proof.
  intros Hd. induction fuel as [|fuel IH]; intros marked w w' tid Hm H; simpl in H.
  - inversion H.
  - rewrite bind_gets in H.
    unbind_normal H as w1 b E. apply lift_inv_normal in E. destruct E as [-> _].
    unbind_normal H as w1 rand E. apply randint0_outcome in E.
    destruct E as [(z & _ & _ & S1 & S2) | [(e & ?) | (? & _)]]; try discriminate.
    unbind_normal H as w2 items' E. apply pri_schedule_at_normal in E.
    destruct E as [-> Hd'].
    assert (items' = items).
    { rewrite S1, (ms_sched Hm), Hd in Hd'. congruence. }
    subst items'.
    unbind_normal H as w2 hit E. apply scan_fault_normal in E.
    destruct E as [S3 E].
    assert (Hm1 : marked_since idx (map snd items) w0 marked w1)
      by (eapply marked_since_same; eassumption).
    destruct hit as [tid'|].
    + inversion H; subst.
      destruct E as (r & t & rel & wq & I & Ht & Hf & _ & Hwq & B1 & B2 & Hh).
      exists r. eapply marked_since_step; eassumption.
    + eapply IH; [|exact H]. eapply marked_since_same; eassumption.
Qed.

Lemma fault_loop_normal (idx : nat) (tw sw : R) (items : list (Key R * ref))
      (w0 : World R) (l : nat) :
  dict_get Nat.eqb idx (pri_schedule (sched w0)) = Ok items ->
  forall (acc : list Z) (marked : list ref) (w w' : World R) (ids : list Z),
    marked_since idx (map snd items) w0 marked w ->
    fault_loop l idx tw sw acc w = (w', Normal ids) ->
    exists marked',
      length marked' = (l + length marked)%nat
      /\ marked_since idx (map snd items) w0 marked' w'.
Proof.
  intros Hd. induction l as [|l IH]; intros acc marked w w' ids Hm H;
    cbn [fault_loop] in H.
  - inversion H; subst. exists marked. auto.
  - rewrite bind_gets in H.
    unbind_normal H as w1 tid E.
    eapply sample_fault_normal in E; try eassumption. destruct E as [r Hm1].
    eapply IH in H; try eassumption. destruct H as (marked' & Hl & Hm2).
    exists marked'. split; [simpl in Hl; lia | exact Hm2].
Qed.

End FaultInjection.

Section FaultInjectionTheorems.
Context {R : Type} {NR : Number R} {L : NumberLaws R}.

(** X19.  Over a number type with the order laws of exact arithmetic, a
    call [generate_fault_occurrences(idx)] never leaves through a [return],
    and it is cut off only when the random draws are used up; it may raise,
    as [random.randint] does when the window is not a whole number of time
    steps.  When it finishes normally, it has marked exactly
    [min(k, |primary map of idx|)] distinct task objects of that window's
    primary map: each of them was unmarked before the call (so no task
    receives a second fault), now has [encountered_fault = true] and a
    [relative_fault_time] between 0 and its primary quota for the window;
    every other task object and the scheduler are as before, so that among
    the tasks unmarked before the call the marked ones are exactly those
    that carry a fault after it. *)
Theorem generate_fault_occurrences_marks_min_k (idx : nat) (w w' : World R)
        (o : outcome (list Z)) :
  generate_fault_occurrences idx w = (w', o) ->
  stops_only_without_draws w' o
  /\ (forall ids, o = Normal ids ->
      exists items marked,
        pri_schedule_at idx w = (w, Normal items)
        /\ length marked
           = Z.to_nat (Z.min (k (sched w)) (Z.of_nat (length items)))
        /\ marked_since idx (map snd items) w marked w'
        /\ forall r t t',
             nth_error (heap w) r = Some t -> getEncounteredFault t = false ->
             nth_error (heap w') r = Some t' ->
             (getEncounteredFault t' = true <-> In r marked)).
Proof.
  intros H. unfold generate_fault_occurrences in H. rewrite bind_gets in H. split.
  - eapply stops_bind; [exact H | intros; eapply calm_stops;
                                  [apply calm_pri_schedule_at | eassumption] |].
    intros w1 items E1 E.
    eapply stops_bind; [exact E | intros; eapply calm_stops;
                                  [apply calm_window_bounds | eassumption] |].
    intros w2 b _ E2. eapply fault_loop_stops. exact E2.
  - intros ids ->.
    unbind_normal H as w1 items E. pose proof E as E0.
    apply pri_schedule_at_normal in E. destruct E as [-> Hd].
    unbind_normal H as w1 b E. apply window_bounds_normal in E. destruct E as [-> _].
    assert (Hs := marked_since_start idx (map snd items) w).
    eapply fault_loop_normal in H; try eassumption.
    destruct H as (marked & Hl & Hm).
    exists items, marked. split; [exact E0|]. split; [simpl in Hl; lia|].
    split; [exact Hm|]. intros r t t'. eapply marked_since_flags. exact Hm.
Qed.

End FaultInjectionTheorems.

Module FaultChecks.
Import Scenarios ExactNum ExactLaws.

(** Two tasks side by side on two LP cores, two tolerated faults, and two
    draws that both fall on time step 3 of the window. *)
Definition two_faults : World Q :=
  with_tape (fun _ => [3; 3]%Z) (built two_cores_Q).

Definition two_faults_after : World Q :=
  fst (generate_fault_occurrences 0 two_faults).

Lemma generate_fault_occurrences_marks_min_k_witness :
  generate_fault_occurrences 0 two_faults = (two_faults_after, Normal [0; 1]%Z)
  /\ stops_only_without_draws two_faults_after (Normal [0; 1]%Z)
  /\ (forall ids, Normal [0; 1]%Z = Normal ids ->
      exists items marked,
        pri_schedule_at 0 two_faults = (two_faults, Normal items)
        /\ length marked
           = Z.to_nat (Z.min (k (sched two_faults)) (Z.of_nat (length items)))
        /\ marked_since 0 (map snd items) two_faults marked two_faults_after
        /\ forall r t t',
             nth_error (heap two_faults) r = Some t ->
             getEncounteredFault t = false ->
             nth_error (heap two_faults_after) r = Some t' ->
             (getEncounteredFault t' = true <-> In r marked)).
Proof.
  assert (H : generate_fault_occurrences 0 two_faults
              = (two_faults_after, Normal [0; 1]%Z)) by (vm_compute; reflexivity).
  split; [exact H|].
  exact (@generate_fault_occurrences_marks_min_k Q _ Q_Laws 0%nat _ _ _ H).
Defined.

End FaultChecks.

Module FaultExamples.
Import ExactNum Binary64 Scenarios.

Set Warnings "-inexact-float".

(** One task in one window of length 10, with a time step of 0.3, which does
    not divide the window; one tolerated fault. *)
Definition third_step_Q : option (World Q) :=
  fresh_world 1 200%Q (3 # 10)%Q 1 (8 # 10)%Q [new_Task 0 10%Q (1 # 2)%Q] [5%Z].

(** One task in one window of length 4.35, with a time step of 0.01. *)
Definition short_window_f : option (World float) :=
  fresh_world 1 200%float 0.01%float 1 0.8%float
              [new_Task 0 4.35%float 0.5%float] [5%Z].

(** Two tasks that fill the first second of a window of length 10; the draw
    100 puts the fault at time 1, the end of the second task's slot. *)
Definition slot_end_f : option (World float) :=
  fresh_world 1 200%float 0.01%float 1 0.8%float
              [new_Task 0 10%float 0.07%float; new_Task 1 10%float 0.03%float]
              [100%Z].

(** What a task object shows of a fault in window 0: id, flag, fault time
    and primary quota. *)
Definition fault_marks {R} (w : World R) : list (Z * bool * option (nat * R) * result R) :=
  map (fun t => (task_id t, getEncounteredFault t, relative_fault_time t,
                 getWorkloadQuota t 0))
      (heap w).

(** C6, the code at failing inputs.  [generate_fault_occurrences] is to mark
    [min(k, |primary map|)] tasks, each at a fault time within its quota.
    (a) In exact arithmetic, with a time step of 0.3 and one task in a
    window of length 10, the schedule is built, [k = 1] and the primary map
    of window 0 has one task, but the call raises [ValueError] and marks
    nothing: the bound [time_window / self.time_step] passed to
    [random.randint] is not a whole number.  (b) In binary64 the same
    happens with step 0.01 and a window of length 4.35, where the quotient
    is 434.99999999999994.  (c) In binary64, with step 0.01 and tasks of
    weights 0.07 and 0.03 in a window of length 10, the draw 100 marks task
    1 with [relative_fault_time = 1.0 - 0.7 = 0.30000000000000004], which
    is more than its quota 0.3. *)
Theorem fault_injection_raises_or_overshoots :
  (exists w',
      run_generate third_step_Q = Some (built third_step_Q, Return true)
      /\ k (sched (built third_step_Q)) = 1
      /\ pri_schedule (sched (built third_step_Q)) = [(0%nat, [((0%Q, 0%nat), 0%nat)])]
      /\ generate_fault_occurrences 0 (built third_step_Q) = (w', Throw ValueError)
      /\ fault_marks w' = [(0, false, None, Ok (51 # 10)%Q)])
  /\ (exists w',
      run_generate short_window_f = Some (built short_window_f, Return true)
      /\ k (sched (built short_window_f)) = 1
      /\ pri_schedule (sched (built short_window_f))
         = [(0%nat, [((0%float, 0%nat), 0%nat)])]
      /\ generate_fault_occurrences 0 (built short_window_f) = (w', Throw ValueError)
      /\ fault_marks w' = [(0, false, None, Ok 2.18%float)])
  /\ (exists w',
      run_generate slot_end_f = Some (built slot_end_f, Return true)
      /\ generate_fault_occurrences 0 (built slot_end_f) = (w', Normal [1])
      /\ fault_marks w'
         = [(0, false, None, Ok 0.7%float);
            (1, true, Some (0%nat, 0.30000000000000004%float), Ok 0.3%float)]
      /\ (0.3%float <? 0.30000000000000004%float)%num = true).
Proof.
  split; [|split].
  - eexists. split; [vm_compute; reflexivity|]. split; [vm_compute; reflexivity|].
    split; [vm_compute; reflexivity|]. split; vm_compute; reflexivity.
  - eexists. split; [vm_compute; reflexivity|]. split; [vm_compute; reflexivity|].
    split; [vm_compute; reflexivity|]. split; vm_compute; reflexivity.
  - eexists. split; [vm_compute; reflexivity|]. split; [vm_compute; reflexivity|].
    split; vm_compute; reflexivity.
Qed.

End FaultExamples.

(* ================================================================== *)
(** ** What the simulator leaves alone *)

Section SimulatorFrame.
Context {R : Type} {NR : Number R}.

(** A relation between the worlds before and after a statement that the
    writes of the simulator respect, except possibly the HP core's
    accounting and the reservation update. *)
Variable Rel : World R -> World R -> Prop.
Hypothesis Rel_refl : forall w, Rel w w.
Hypothesis Rel_trans : forall a b c, Rel a b -> Rel b c -> Rel a c.
Hypothesis Rel_heap : forall w f, Rel w (with_heap f w).
Hypothesis Rel_tape : forall w f, Rel w (with_tape f w).
Hypothesis Rel_lp_cores : forall w f, Rel w (with_lp_cores f w).
Hypothesis Rel_backup_list : forall w v, Rel w (with_sched (set_backup_list v) w).
Hypothesis Rel_update : forall idx t, preserves Rel (update_BB_overloading idx t).

Ltac sim_walk := frame_walk Rel_refl Rel_trans.

Lemma update_task_frame (r : ref) (f : Task R -> Task R) :
  preserves Rel (update_task r f).
Proof. unfold update_task. apply preserves_modify. intros w. apply Rel_heap. Qed.

Lemma pri_schedule_at_frame (i : nat) : preserves Rel (pri_schedule_at i).
Proof. unfold pri_schedule_at. sim_walk. Qed.

Lemma window_bounds_frame (i : nat) : preserves Rel (window_bounds i).
Proof. unfold window_bounds. sim_walk. Qed.

Lemma without_id_frame (tid : Z) (bl : list ref) : preserves Rel (without_id tid bl).
Proof. induction bl as [|b bl IH]; simpl; sim_walk. exact IH. Qed.

Lemma remove_from_backup_list_frame (idx : nat) (tid : Z) (t : R) :
  preserves Rel (remove_from_backup_list idx tid t).
Proof.
  unfold remove_from_backup_list. sim_walk.
  - apply without_id_frame.
  - apply preserves_modify. intros w. apply Rel_backup_list.
  - apply Rel_update.
Qed.

Lemma complete_primary_frame (i : nat) (now : R) (t : ref) (hp : option ref) :
  preserves Rel (complete_primary i now t hp).
Proof.
  unfold complete_primary. sim_walk; apply remove_from_backup_list_frame.
Qed.

Lemma sweep_core_frame (i : nat) (now : R) (lp : nat)
      (st : list (option ref) * option ref) :
  preserves Rel (sweep_core i now lp st).
Proof. unfold sweep_core. sim_walk. apply complete_primary_frame. Qed.

Lemma backup_completion_frame (i : nat) (now : R) (hp : option ref) :
  preserves Rel (backup_completion i now hp).
Proof.
  unfold backup_completion. sim_walk. apply remove_from_backup_list_frame.
Qed.

Lemma dispatch_frame (i : nat) (now : R) (pending : list (Key R * ref)) :
  forall st, preserves Rel (dispatch i now pending st).
Proof.
  induction pending as [|[key new] rest IH]; intros st; simpl; sim_walk;
    first [ apply complete_primary_frame | apply update_task_frame | apply IH ].
Qed.

Lemma backup_dispatch_frame (i : nat) (now : R) (hp : option ref) :
  preserves Rel (backup_dispatch i now hp).
Proof. unfold backup_dispatch. sim_walk; apply update_task_frame. Qed.

(** Sub-step i touches the HP core only when a backup is running. *)
Lemma accrue_frame (loc : Locals R) :
  hp_assignedTask loc = None \/ (forall w f, Rel w (with_hp_core f w)) ->
  preserves Rel (accrue loc).
Proof.
  intros H. unfold accrue. sim_walk.
  - apply preserves_modify. intros w. apply Rel_lp_cores.
  - destruct H as [H | H]; [discriminate|].
    apply preserves_modify. intros w. apply H.
Qed.

Lemma sim_step_frame (i : nat) (loc : Locals R) :
  hp_assignedTask loc = None \/ (forall w f, Rel w (with_hp_core f w)) ->
  preserves Rel (sim_step i loc).
Proof.
  intros H. unfold sim_step. sim_walk;
    first [ apply accrue_frame; exact H
          | apply sweep_core_frame
          | apply backup_completion_frame
          | apply pri_schedule_at_frame
          | apply dispatch_frame
          | apply backup_dispatch_frame ].
Qed.

Lemma randint0_frame (b : R) : preserves Rel (randint0 b).
Proof.
  unfold randint0. sim_walk.
  intros w w' o E. destruct (tape w); inversion E; subst.
  - apply Rel_refl.
  - apply Rel_tape.
Qed.

Lemma scan_fault_frame (idx : nat) (ft : R) (items : list (Key R * ref)) :
  preserves Rel (scan_fault idx ft items).
Proof.
  induction items as [|[key t] rest IH]; simpl; sim_walk;
    first [ apply update_task_frame | exact IH ].
Qed.

Lemma sample_fault_frame (idx : nat) (tw sw : R) (fuel : nat) :
  preserves Rel (sample_fault fuel idx tw sw).
Proof.
  induction fuel as [|fuel IH]; simpl; sim_walk;
    first [ apply randint0_frame | apply pri_schedule_at_frame
          | apply scan_fault_frame | exact IH ].
Qed.

Lemma fault_loop_frame (idx : nat) (tw sw : R) (l : nat) :
  forall acc, preserves Rel (fault_loop l idx tw sw acc).
Proof.
  induction l as [|l IH]; intros acc; cbn [fault_loop]; sim_walk;
    first [ apply sample_fault_frame | apply IH ].
Qed.

Lemma generate_fault_occurrences_frame (idx : nat) :
  preserves Rel (generate_fault_occurrences idx).
Proof.
  unfold generate_fault_occurrences. sim_walk;
    first [ apply pri_schedule_at_frame | apply window_bounds_frame
          | apply fault_loop_frame ].
Qed.

Lemma window_loop_frame (i : nat) (fuel : nat) :
  (forall w f, Rel w (with_hp_core f w)) ->
  forall loc, preserves Rel (window_loop fuel i loc).
Proof.
  intros H. induction fuel as [|fuel IH]; intros loc; cbn [window_loop]; sim_walk;
    first [ apply sim_step_frame; right; exact H | apply IH ].
Qed.

(** The part of a window before its time-stepped loop. *)
Lemma simulate_window_frame (fuel i : nat) (now : R) :
  (forall loc, preserves Rel (window_loop fuel i loc)) ->
  preserves Rel (simulate_window fuel i now).
Proof.
  intros H. unfold simulate_window. sim_walk;
    first [ apply pri_schedule_at_frame | apply update_task_frame
          | apply generate_fault_occurrences_frame | apply H ].
Qed.

End SimulatorFrame.

(* ================================================================== *)
(** ** No tolerated fault: the HP core stays idle (C8) *)

Section NoFaults.
Context {R : Type} {NR : Number R} {L : NumberLaws R}.

(** With [k = 0] the reservation is empty: the update writes the window's
    deadline, clamped to the clock when the entry exists. *)
Lemma update_BB_overloading_without_faults (idx : nat) (t : R) (w w' : World R)
      (o : outcome unit) :
  k (sched w) = 0%Z ->
  update_BB_overloading idx t w = (w', o) ->
  (w' = w /\ exists e, o = Throw e)
  \/ (o = Normal tt
      /\ exists ds d,
          deadlines (sched w) = Some ds /\ nth_error ds idx = Some d
          /\ w' = with_sched (set_backup_start
                    (if (length (backup_start (sched w)) <=? idx)%nat
                     then backup_start (sched w) ++ [(d - of_int 0)%num]
                     else list_set (backup_start (sched w)) idx
                                    (pymax t (d - of_int 0)%num))) w).
Proof.
  intros Hk H. unfold update_BB_overloading in H. rewrite bind_gets in H.
  destruct (index (backup_list (sched w)) idx) as [bl|e].
  - rewrite bind_lift_ok in H. rewrite Hk in H.
    replace (Z.to_nat (Z.min 0 (Z.of_nat (length bl)))) with 0%nat in H by lia.
    cbn [firstn reserve] in H.
    change (bind (ret (of_int 0)) ?f w) with (f (of_int 0) w) in H.
    unfold bind at 1 in H. unfold self_deadlines at 1 in H.
    destruct (deadlines (sched w)) as [ds|]; [|inversion H; eauto].
    destruct (index ds idx) as [d|e] eqn:Hd.
    + rewrite bind_lift_ok in H. right.
      assert (o = Normal tt /\ w' = with_sched (set_backup_start
                    (if (length (backup_start (sched w)) <=? idx)%nat
                     then backup_start (sched w) ++ [(d - of_int 0)%num]
                     else list_set (backup_start (sched w)) idx
                                    (pymax t (d - of_int 0)%num))) w) as [-> ->].
      { destruct (length (backup_start (sched w)) <=? idx)%nat;
          inversion H; auto. }
      split; [reflexivity|]. exists ds, d.
      split; [reflexivity|]. split; [apply index_ok; exact Hd | reflexivity].
    + inversion H; eauto.
  - inversion H; eauto.
Qed.

Lemma sub_zero_ge (d : R) : (d <=? d - of_int 0)%num = true.
Proof.
  pose proof (num_sub_zero d) as H. rewrite num_eq_le in H.
  apply andb_true_iff in H. apply H.
Qed.

(** The state in which the HP core cannot run: no fault is tolerated,
    every window has a backup start that is not before its deadline, and
    the HP core has been active for [a]. *)
Record idle_hp (ds : list R) (a : R) (w : World R) : Prop := {
  idle_k : k (sched w) = 0%Z;
  idle_deadlines : deadlines (sched w) = Some ds;
  idle_step : (of_int 0 <? time_step (sched w))%num = true;
  idle_length : length (backup_start (sched w)) = length ds;
  idle_start : forall j b d,
      nth_error (backup_start (sched w)) j = Some b ->
      nth_error ds j = Some d -> (d <=? b)%num = true;
  idle_active : active_duration (hp_core w) = a
}.

Definition keeps_idle (ds : list R) (a : R) (w w' : World R) : Prop :=
  idle_hp ds a w -> idle_hp ds a w'.

Lemma keeps_idle_refl (ds : list R) (a : R) (w : World R) : keeps_idle ds a w w.
Proof. intros H. exact H. Qed.

Lemma keeps_idle_trans (ds : list R) (a : R) (x y z : World R) :
  keeps_idle ds a x y -> keeps_idle ds a y z -> keeps_idle ds a x z.
Proof. unfold keeps_idle. auto. Qed.

Lemma keeps_idle_heap (ds : list R) (a : R) (w : World R) f :
  keeps_idle ds a w (with_heap f w).
Proof. intros [H1 H2 H3 H4 H5 H6]. constructor; assumption. Qed.

Lemma keeps_idle_tape (ds : list R) (a : R) (w : World R) f :
  keeps_idle ds a w (with_tape f w).
Proof. intros [H1 H2 H3 H4 H5 H6]. constructor; assumption. Qed.

Lemma keeps_idle_lp_cores (ds : list R) (a : R) (w : World R) f :
  keeps_idle ds a w (with_lp_cores f w).
Proof. intros [H1 H2 H3 H4 H5 H6]. constructor; assumption. Qed.

Lemma keeps_idle_backup_list (ds : list R) (a : R) (w : World R) v :
  keeps_idle ds a w (with_sched (set_backup_list v) w).
Proof. intros [H1 H2 H3 H4 H5 H6]. constructor; assumption. Qed.

Lemma keeps_idle_update (ds : list R) (a : R) (idx : nat) (t : R) :
  preserves (keeps_idle ds a) (update_BB_overloading idx t).
Proof.
  intros w w' o E Hi. pose proof Hi as [H1 H2 H3 H4 H5 H6].
  apply update_BB_overloading_without_faults in E; [|exact H1].
  destruct E as [[-> _] | (_ & ds' & d & Hds & Hd & ->)]; [exact Hi|].
  assert (ds' = ds) by congruence. subst ds'.
  assert (Hlt : (idx < length (backup_start (sched w)))%nat).
  { rewrite H4. apply nth_error_Some. congruence. }
  apply Nat.leb_gt in Hlt as Hleb. rewrite Hleb.
  constructor; cbn [sched with_sched set_backup_start k deadlines time_step
                    backup_start hp_core]; try assumption.
  - rewrite list_set_length. exact H4.
  - intros j b d' Hb Hd'. destruct (Nat.eq_dec idx j) as [<- | Hne].
    + rewrite list_set_same in Hb by exact Hlt. inversion Hb; subst b.
      assert (d' = d) by congruence. subst d'.
      eapply num_le_trans; [apply sub_zero_ge | apply pymax_ge_right].
    + rewrite list_set_other in Hb by exact Hne. eapply H5; eassumption.
Qed.

(** ** The HP slot stays empty *)

Lemma for_fold_inv {A B} (P : B -> Prop) (body : A -> B -> M R B) (l : list A) :
  (forall x acc w w' acc', P acc -> body x acc w = (w', Normal acc') -> P acc') ->
  forall acc w w' acc',
    P acc -> for_fold l acc body w = (w', Normal acc') -> P acc'.
Proof.
  intros Hb. induction l as [|x l IH]; intros acc w w' acc' HP H; simpl in H.
  - inversion H; subst. exact HP.
  - unbind_normal H as w1 acc1 E. eapply IH; [|exact H]. eapply Hb; eassumption.
Qed.

Lemma complete_primary_none (i : nat) (now : R) (t : ref) (w w' : World R)
      (hp' : option ref) :
  complete_primary i now t None w = (w', Normal hp') -> hp' = None.
Proof.
  unfold complete_primary. intros H. unbind_normal H as w1 tk E.
  destruct (negb (getEncounteredFault tk)).
  - unbind_normal H as w2 u E2. inversion H; reflexivity.
  - inversion H; reflexivity.
Qed.

Lemma sweep_core_none (i : nat) (now : R) (lp : nat)
      (st st' : list (option ref) * option ref) (w w' : World R) :
  snd st = None ->
  sweep_core i now lp st w = (w', Normal st') -> snd st' = None.
Proof.
  unfold sweep_core. intros Hs H.
  destruct (nth_error (fst st) lp) as [[t|]|]; try (inversion H; subst; exact Hs).
  unbind_normal H as w1 tk E1. unbind_normal H as w2 wq E2.
  destruct (getStartTime tk + wq <=? now)%num; [|inversion H; subst; exact Hs].
  unbind_normal H as w3 hp' E3. rewrite Hs in E3.
  apply complete_primary_none in E3. inversion H; subst. reflexivity.
Qed.

Lemma dispatch_none (i : nat) (now : R) (pending : list (Key R * ref)) :
  forall (st st' : list (option ref) * option ref * nat) (w w' : World R),
    snd (fst st) = None ->
    dispatch i now pending st w = (w', Normal st') -> snd (fst st') = None.
Proof.
  induction pending as [|[key new] rest IH]; intros st st' w w' Hs H; simpl in H.
  - inversion H; subst. exact Hs.
  - destruct (fst key <=? now)%num; [|inversion H; subst; exact Hs].
    destruct st as [[assigned hp] idx]. simpl in Hs. subst hp.
    unbind_normal H as w1 cur E1. unbind_normal H as w2 newtk E2.
    unbind_normal H as w3 hp' E3.
    assert (hp' = None).
    { destruct cur as [c|]; [|inversion E3; reflexivity].
      unbind_normal E3 as w4 ctk E4.
      destruct (negb (getId ctk =? getId newtk)%Z).
      - apply complete_primary_none in E3. exact E3.
      - inversion E3; reflexivity. }
    subst hp'.
    unbind_normal H as w4 stale E4. unbind_normal H as w5 assigned' E5.
    eapply IH; [|exact H]. reflexivity.
Qed.

(** Sub-step vi fills the empty HP slot only at or after the backup start. *)
Lemma backup_dispatch_none (i : nat) (now : R) (w w' : World R) (hp : option ref) :
  backup_dispatch i now None w = (w', Normal hp) ->
  sched w' = sched w
  /\ (hp = None
      \/ exists bs, nth_error (backup_start (sched w)) i = Some bs
                    /\ (bs <=? now)%num = true).
Proof.
  unfold backup_dispatch. rewrite bind_gets. intros H.
  unbind_normal H as w1 bs E. apply lift_inv_normal in E. destruct E as [-> Hbs].
  apply index_ok in Hbs.
  destruct (bs <=? now)%num eqn:Hle; [|inversion H; subst; auto].
  unbind_normal H as w1 bl E. apply lift_inv_normal in E. destruct E as [-> _].
  destruct bl as [|b0 bl]; [inversion H; subst; auto|].
  rewrite bind_eq with (w1 := w) (a := true) in H by reflexivity.
  unbind_normal H as w1 u E. inversion E; subst. inversion H; subst.
  split; [reflexivity|]. right. exists bs. auto.
Qed.

Ltac idle_side :=
  intros;
  first [ apply keeps_idle_refl
        | eapply keeps_idle_trans; eassumption
        | apply keeps_idle_heap
        | apply keeps_idle_tape
        | apply keeps_idle_lp_cores
        | apply keeps_idle_backup_list
        | apply keeps_idle_update ].

Lemma step_past_deadline (now d dt : R) :
  (of_int 0 <? dt)%num = true -> (d <=? now)%num = true ->
  (now + dt <=? d)%num = false.
Proof.
  intros Hd Hle. pose proof (num_add_step now dt Hd) as Hs.
  rewrite num_lt_le in Hs. apply negb_true_iff in Hs.
  destruct (now + dt <=? d)%num eqn:E; [|reflexivity].
  rewrite (num_le_trans _ _ _ E Hle) in Hs. discriminate.
Qed.

(** One time step that starts with an empty HP slot leaves the HP core
    idle, and fills the slot only when the clock has passed the deadline. *)
Lemma sim_step_idle (ds : list R) (a : R) (i : nat) (loc : Locals R)
      (w w' : World R) (o : outcome (Locals R)) :
  idle_hp ds a w ->
  hp_assignedTask loc = None ->
  sim_step i loc w = (w', o) ->
  idle_hp ds a w'
  /\ forall loc', o = Normal loc' ->
       forall d, nth_error ds i = Some d ->
         hp_assignedTask loc' = None \/ (sim_time loc' <=? d)%num = false.
Proof.
  intros Hi Hn H. split.
  - assert (P : preserves (keeps_idle ds a) (sim_step i loc))
      by (apply sim_step_frame; first [left; exact Hn | idle_side]).
    exact (P _ _ _ H Hi).
  - intros loc' -> d Hd. unfold sim_step in H.
    unbind_normal H as w1 u E1.
    assert (I1 : idle_hp ds a w1).
    { assert (P : preserves (keeps_idle ds a) (accrue loc))
        by (apply accrue_frame; first [left; exact Hn | idle_side]).
      exact (P _ _ _ E1 Hi). }
    unbind_normal H as w2 st E2.
    assert (I2 : idle_hp ds a w2).
    { assert (P : preserves (keeps_idle ds a)
                    (for_fold (seq 0 (length (lp_assignedTask loc)))
                              (lp_assignedTask loc, hp_assignedTask loc)
                              (sweep_core i (sim_time loc)))).
      { apply preserves_for_fold; try idle_side.
        apply sweep_core_frame; idle_side. }
      exact (P _ _ _ E2 I1). }
    assert (S2 : snd st = None).
    { revert E2. apply for_fold_inv with (P := fun x => snd x = None).
      - intros x acc v v' acc' Ha Hb. eapply sweep_core_none; eassumption.
      - exact Hn. }
    rewrite S2 in H.
    unbind_normal H as w3 hp1 E3. inversion E3; subst w3 hp1. clear E3.
    unbind_normal H as w3 items E3. apply pri_schedule_at_normal in E3.
    destruct E3 as [-> _].
    unbind_normal H as w4 st2 E4.
    assert (I4 : idle_hp ds a w4).
    { assert (P : forall x, preserves (keeps_idle ds a)
                    (dispatch i (sim_time loc) (skipn (keyIdx loc) items) x))
        by (apply dispatch_frame; idle_side).
      exact (P _ _ _ _ E4 I2). }
    apply dispatch_none in E4; [|reflexivity].
    rewrite E4 in H.
    unbind_normal H as w5 hp2 E5. apply backup_dispatch_none in E5.
    destruct E5 as [S5 E5].
    rewrite bind_gets in H. inversion H; subst. cbn [hp_assignedTask sim_time].
    destruct E5 as [-> | (bs & Hbs & Hle)]; [left; reflexivity|].
    right. rewrite S5. apply step_past_deadline.
    + apply (idle_step I4).
    + eapply num_le_trans; [|exact Hle]. eapply (idle_start I4); eassumption.
Qed.

Lemma window_loop_eq (fuel i : nat) (loc : Locals R) (w : World R) :
  window_loop fuel i loc w
  = bind self_deadlines (fun ds =>
    bind (lift (index ds i)) (fun d =>
      if (sim_time loc <=? d)%num then
        match fuel with
        | O => exit Timeout
        | S fuel' => bind (sim_step i loc) (fun loc' => window_loop fuel' i loc')
        end
      else ret loc)) w.
Proof. destruct fuel; reflexivity. Qed.

(** The loop of a window, entered with an empty HP slot. *)
Lemma window_loop_idle (ds : list R) (a : R) (i : nat) (fuel : nat) :
  forall (loc : Locals R) (w w' : World R) (o : outcome (Locals R)),
    idle_hp ds a w ->
    (forall d, nth_error ds i = Some d ->
               hp_assignedTask loc = None \/ (sim_time loc <=? d)%num = false) ->
    window_loop fuel i loc w = (w', o) ->
    idle_hp ds a w'.
Proof.
  induction fuel as [|fuel IH]; intros loc w w' o Hi Hl H;
    rewrite window_loop_eq in H;
    unfold bind at 1 in H; unfold self_deadlines at 1 in H;
    rewrite (idle_deadlines Hi) in H;
    (destruct (index ds i) as [d|e] eqn:Hd;
     [rewrite bind_lift_ok in H | inversion H; subst; exact Hi]);
    apply index_ok in Hd;
    (destruct (sim_time loc <=? d)%num eqn:Hle; [|inversion H; subst; exact Hi]).
  - inversion H; subst. exact Hi.
  - destruct (Hl d Hd) as [Hn | Hp]; [|congruence].
    unbind H as w1 loc1 E;
      destruct (@sim_step_idle ds a i loc _ _ _ Hi Hn E) as [I1 P1]; try exact I1.
    eapply IH; [exact I1 | | exact H].
    intros d' Hd'. apply P1; [reflexivity | exact Hd'].
Qed.

Lemma simulate_window_idle (ds : list R) (a : R) (fuel i : nat) (now : R) :
  preserves (keeps_idle ds a) (simulate_window fuel i now).
Proof.
  unfold simulate_window.
  frame_walk (@keeps_idle_refl ds a) (@keeps_idle_trans ds a);
    first [ apply pri_schedule_at_frame; idle_side
          | apply update_task_frame; idle_side
          | apply generate_fault_occurrences_frame; idle_side
          | idtac ].
  intros w w' o E Hi. eapply window_loop_idle; [exact Hi | | exact E].
  intros d _. left. reflexivity.
Qed.

Lemma account_energy_active (fr : R) (c : Core R) :
  active_duration (account_energy fr c) = active_duration c.
Proof. reflexivity. Qed.

(** The whole simulation leaves the HP core idle. *)
Lemma simulate_idle (ds : list R) (a : R) (fuel : nat) :
  preserves (keeps_idle ds a) (simulate fuel).
Proof.
  unfold simulate.
  frame_walk (@keeps_idle_refl ds a) (@keeps_idle_trans ds a).
  - apply simulate_window_idle.
  - apply preserves_modify. intros w. apply keeps_idle_lp_cores.
  - apply preserves_modify. intros w [H1 H2 H3 H4 H5 H6]. constructor; assumption.
Qed.

(** ** The reservation at construction *)

(** The last statement of a scheduled window is the reservation update. *)
Lemma schedule_window_last {X} (F : World R -> X) (i : nat) (w w' : World R) :
  ignores_heap F -> ignores_tasksList F -> ignores_pri_schedule F ->
  ignores_backup_list F ->
  schedule_window i w = (w', Normal tt) ->
  exists wu, F wu = F w /\ update_BB_overloading i (of_int 0) wu = (w', Normal tt).
Proof.
  intros F1 F2 F3 F4 H. unfold schedule_window in H.
  unbind_normal H as w1 b E1. apply window_bounds_normal in E1. destruct E1 as [-> _].
  unbind_normal H as w2 total E2.
  apply assign_quotas_unchanged with (F := F) in E2; [|exact F2].
  rewrite bind_gets in H.
  destruct (total <=? fst b * of_int (m_pri (sched w2)))%num; [|inversion H].
  unbind_normal H as wp packed EP.
  apply lp_pack_unchanged with (F := F) in EP; try assumption.
  unbind_normal H as w3 d E3. apply pri_schedule_at_normal in E3. destruct E3 as [-> _].
  erewrite bind_eq in H by apply pri_schedule_put_world.
  unbind_normal H as w3 c0 E4. apply lift_inv_normal in E4. destruct E4 as [-> _].
  rewrite bind_gets, bind_modify in H.
  eexists. split; [|exact H].
  unfold unchanged in E2, EP. rewrite F4, F3, EP, E2. reflexivity.
Qed.

(** With [k = 0], after [n] scheduled windows the backup starts are the
    first [n] deadlines, each less an empty reservation. *)
Lemma first_windows_without_faults (w : World R) :
  k (sched w) = 0%Z -> backup_start (sched w) = [] ->
  forall n wn,
    first_windows n w = (wn, Normal tt) ->
    k (sched wn) = 0%Z
    /\ time_step (sched wn) = time_step (sched w)
    /\ hp_core wn = hp_core w
    /\ backup_start (sched wn)
       = map (fun d => (d - of_int 0)%num)
             (firstn n (deadline_sequence (tasksList w))).
Proof.
  intros Hk Hb.
  apply (first_windows_ind
           (fun n wn =>
              k (sched wn) = 0%Z
              /\ time_step (sched wn) = time_step (sched w)
              /\ hp_core wn = hp_core w
              /\ backup_start (sched wn)
                 = map (fun d => (d - of_int 0)%num)
                       (firstn n (deadline_sequence (tasksList w))))).
  - cbn. auto.
  - intros n wn wn' (P1 & P2 & P3 & P4) E1 E2.
    apply first_windows_deadlines in E1.
    apply schedule_window_last
      with (F := fun x => (k (sched x), time_step (sched x), hp_core x,
                           deadlines (sched x), backup_start (sched x))) in E2;
      try (intros x f; reflexivity).
    destruct E2 as (wu & Hu & E2). inversion Hu as [[U1 U2 U3 U4 U5]].
    apply update_BB_overloading_without_faults in E2; [|congruence].
    destruct E2 as [[_ [e He]] | (_ & ds & d & Hds & Hd & ->)]; [discriminate|].
    assert (ds = deadline_sequence (tasksList w)) by congruence. subst ds.
    cbn [sched with_sched set_backup_start k time_step backup_start hp_core].
    repeat (split; [congruence|]).
    rewrite U5, P4, length_map, length_firstn.
    assert (n < length (deadline_sequence (tasksList w)))%nat
      by (apply nth_error_Some; congruence).
    replace (Nat.min n (length (deadline_sequence (tasksList w)))) with n by lia.
    rewrite Nat.leb_refl. erewrite firstn_snoc by exact Hd.
    rewrite map_app. reflexivity.
Qed.

(** What [generate_schedule] establishes for the simulator when [k = 0]. *)
Lemma generate_schedule_idle (w w' : World R) :
  k (sched w) = 0%Z -> backup_start (sched w) = [] ->
  (of_int 0 <? time_step (sched w))%num = true ->
  generate_schedule w = (w', Return true) ->
  backup_start (sched w')
  = map (fun d => (d - of_int 0)%num) (deadline_sequence (tasksList w))
  /\ idle_hp (deadline_sequence (tasksList w)) (active_duration (hp_core w)) w'.
Proof.
  intros Hk Hb Hs H. rewrite generate_schedule_eq in H.
  unbind H as w1 u E; try discriminate.
  - apply exit_inv in H. destruct H as [-> _]. destruct u.
    pose proof E as Hd. apply first_windows_deadlines in Hd.
    apply first_windows_without_faults in E; [|exact Hk|exact Hb].
    destruct E as (P1 & P2 & P3 & P4). rewrite firstn_all in P4.
    split; [exact P4|]. constructor.
    + exact P1.
    + exact Hd.
    + rewrite P2. exact Hs.
    + rewrite P4. apply length_map.
    + intros j b d Hb' Hd'. rewrite P4, nth_error_map, Hd' in Hb'.
      inversion Hb'; subst b. apply sub_zero_ge.
    + rewrite P3. reflexivity.
  - exfalso. revert E. rewrite first_windows_eq.
    apply never_returns_for_each. intros i.
    apply schedule_window_never_returns_true.
Qed.

End NoFaults.

(* ================================================================== *)
(** ** The simulation comes to an end *)

Section Termination.
Context {R : Type} {NR : Number R} {L : NumberLaws R}.

(** The statement ended, normally or with an exception: it neither
    ran out of fuel nor executed a [return]. *)
Definition finishes {A} (o : outcome A) : Prop :=
  (exists a, o = Normal a) \/ (exists e, o = Throw e).

Lemma calm_reserve (idx : nat) (bl : list ref) (acc : R) :
  calm (reserve idx bl acc).
Proof.
  intros w w' o E. rewrite reserve_pure in E. apply calm_lift in E. exact E.
Qed.

Lemma calm_update_BB_overloading (idx : nat) (t : R) :
  calm (update_BB_overloading idx t).
Proof. unfold update_BB_overloading. calm_walk. apply calm_reserve. Qed.

Lemma calm_without_id (tid : Z) (bl : list ref) : calm (R := R) (without_id tid bl).
Proof. induction bl as [|b bl IH]; simpl; calm_walk. exact IH. Qed.

Lemma calm_remove_from_backup_list (idx : nat) (tid : Z) (t : R) :
  calm (remove_from_backup_list idx tid t).
Proof.
  unfold remove_from_backup_list. calm_walk;
    first [ apply calm_without_id | apply calm_update_BB_overloading ].
Qed.

Lemma calm_complete_primary (i : nat) (now : R) (t : ref) (hp : option ref) :
  calm (complete_primary i now t hp).
Proof. unfold complete_primary. calm_walk; apply calm_remove_from_backup_list. Qed.

Lemma calm_sweep_core (i : nat) (now : R) (lp : nat)
      (st : list (option ref) * option ref) :
  calm (sweep_core i now lp st).
Proof. unfold sweep_core. calm_walk. apply calm_complete_primary. Qed.

Lemma calm_backup_completion (i : nat) (now : R) (hp : option ref) :
  calm (backup_completion i now hp).
Proof. unfold backup_completion. calm_walk. apply calm_remove_from_backup_list. Qed.

Lemma calm_dispatch (i : nat) (now : R) (pending : list (Key R * ref)) :
  forall st, calm (dispatch i now pending st).
Proof.
  induction pending as [|[key new] rest IH]; intros st; simpl; calm_walk;
    first [ apply calm_complete_primary | apply IH ].
Qed.

Lemma calm_backup_dispatch (i : nat) (now : R) (hp : option ref) :
  calm (backup_dispatch i now hp).
Proof. unfold backup_dispatch. calm_walk. Qed.

Lemma calm_accrue (loc : Locals R) : calm (accrue loc).
Proof. unfold accrue. calm_walk. Qed.

Lemma calm_sim_step (i : nat) (loc : Locals R) : calm (sim_step i loc).
Proof.
  unfold sim_step. calm_walk;
    first [ apply calm_accrue | apply calm_sweep_core | apply calm_backup_completion
          | apply calm_pri_schedule_at | apply calm_dispatch
          | apply calm_backup_dispatch ].
Qed.

(** The clock advances by one time step. *)
Lemma sim_step_clock (i : nat) (loc loc' : Locals R) (w w' : World R) :
  sim_step i loc w = (w', Normal loc') ->
  sim_time loc' = (sim_time loc + time_step (sched w'))%num.
Proof.
  unfold sim_step. intros H.
  unbind_normal H as w1 u E1. unbind_normal H as w2 st E2.
  unbind_normal H as w3 hp1 E3. unbind_normal H as w4 items E4.
  unbind_normal H as w5 st2 E5. unbind_normal H as w6 hp2 E6.
  rewrite bind_gets in H. inversion H; subst. reflexivity.
Qed.

(** The configuration the simulator reads but never writes. *)
Definition settings (w : World R) : Z * R * option (list R) :=
  (k (sched w), time_step (sched w), deadlines (sched w)).

Ltac settings_side :=
  intros;
  first [ apply unchanged_refl
        | eapply unchanged_trans; eassumption
        | reflexivity
        | apply update_BB_overloading_unchanged; intros ? ?; reflexivity ].

Lemma sim_step_settings (i : nat) (loc : Locals R) :
  preserves (unchanged settings) (sim_step i loc).
Proof. apply sim_step_frame; first [right; settings_side | settings_side]. Qed.

Lemma window_loop_run (fuel i : nat) (loc : Locals R) (w : World R)
      (ds : list R) (d : R) :
  deadlines (sched w) = Some ds -> nth_error ds i = Some d ->
  window_loop fuel i loc w
  = if (sim_time loc <=? d)%num then
      match fuel with
      | O => (w, Timeout)
      | S fuel' => bind (sim_step i loc) (fun loc' => window_loop fuel' i loc') w
      end
    else (w, Normal loc).
Proof.
  intros Hds Hd. rewrite window_loop_eq.
  unfold bind at 1. unfold self_deadlines. rewrite Hds.
  apply index_ok in Hd. unfold bind at 1. rewrite Hd, lift_ok.
  destruct (sim_time loc <=? d)%num; [|reflexivity].
  destruct fuel; reflexivity.
Qed.

Lemma window_loop_no_deadline (fuel i : nat) (loc : Locals R) (w : World R) :
  (forall ds d, deadlines (sched w) = Some ds -> nth_error ds i = Some d -> False) ->
  exists e, forall fuel, window_loop fuel i loc w = (w, Throw e).
Proof.
  intros Hno. destruct (deadlines (sched w)) as [ds|] eqn:Hds.
  - destruct (nth_error ds i) as [d|] eqn:Hd; [exfalso; eauto|].
    exists IndexError. intros f. rewrite window_loop_eq.
    unfold bind at 1. unfold self_deadlines. rewrite Hds.
    unfold bind, index. rewrite Hd. reflexivity.
  - exists TypeError. intros f. rewrite window_loop_eq.
    unfold bind at 1. unfold self_deadlines. rewrite Hds. reflexivity.
Qed.

(** [n] steps take the clock past the deadline, so [n] rounds of fuel are
    enough for the loop of the window and more fuel changes nothing. *)
Lemma window_loop_enough (i : nat) (n : nat) :
  forall (loc : Locals R) (w : World R),
    (of_int 0 <? time_step (sched w))%num = true ->
    (forall ds d, deadlines (sched w) = Some ds -> nth_error ds i = Some d ->
       (d <? Nat.iter n (fun x => x + time_step (sched w)) (sim_time loc))%num = true) ->
    forall fuel, (n <= fuel)%nat ->
      window_loop fuel i loc w = window_loop n i loc w
      /\ finishes (snd (window_loop n i loc w)).
Proof.
  induction n as [|n IH]; intros loc w Hs Hn fuel Hf.
  - destruct (deadlines (sched w)) as [ds|] eqn:Hds;
      [destruct (nth_error ds i) as [d|] eqn:Hd|].
    + rewrite !(@window_loop_run _ i loc w ds d Hds Hd).
      specialize (Hn ds d eq_refl Hd). simpl in Hn.
      rewrite num_lt_le in Hn. apply negb_true_iff in Hn. rewrite Hn.
      split; [reflexivity|]. left. simpl. eauto.
    + destruct (@window_loop_no_deadline 0 i loc w) as [e He].
      { intros ds' d' X Y. congruence. }
      rewrite !He. split; [reflexivity|]. right. simpl. eauto.
    + destruct (@window_loop_no_deadline 0 i loc w) as [e He].
      { intros ds' d' X Y. congruence. }
      rewrite !He. split; [reflexivity|]. right. simpl. eauto.
  - destruct (deadlines (sched w)) as [ds|] eqn:Hds;
      [destruct (nth_error ds i) as [d|] eqn:Hd|].
    + rewrite !(@window_loop_run _ i loc w ds d Hds Hd).
      destruct (sim_time loc <=? d)%num eqn:Hle;
        [|split; [reflexivity|]; left; simpl; eauto].
      destruct fuel as [|fuel]; [lia|].
      unfold bind. destruct (sim_step i loc w) as [w1 o1] eqn:E.
      pose proof E as Fo. apply calm_sim_step in Fo. destruct Fo as [_ Fo].
      destruct o1 as [loc1|b|e|];
        try (destruct Fo as [[x X]|[x X]]; discriminate).
      * pose proof E as S1. apply sim_step_settings in S1.
        inversion S1 as [[S1a S1b S1c]].
        apply IH; [rewrite S1b; exact Hs | | lia].
        intros ds' d' Hds' Hd'. rewrite S1c, Hds in Hds'.
        inversion Hds'; subst ds'. assert (d' = d) by congruence. subst d'.
        apply sim_step_clock in E. rewrite E, S1b.
        pose proof (Hn ds d eq_refl Hd) as X. rewrite Nat.iter_succ_r in X.
        exact X.
      * split; [reflexivity|]. right. simpl. eauto.
    + destruct (@window_loop_no_deadline 0 i loc w) as [e He].
      { intros ds' d' X Y. congruence. }
      rewrite !He. split; [reflexivity|]. right. simpl. eauto.
    + destruct (@window_loop_no_deadline 0 i loc w) as [e He].
      { intros ds' d' X Y. congruence. }
      rewrite !He. split; [reflexivity|]. right. simpl. eauto.
Qed.

End Termination.

(* ================================================================== *)
(** ** A built schedule can be simulated *)

Section Runnable.
Context {R : Type} {NR : Number R} {L : NumberLaws R}.

(** The object behind [r] exists and has a primary quota for window [j]. *)
Definition task_ok (h : list (Task R)) (j : nat) (r : ref) : Prop :=
  exists t, nth_error h r = Some t /\ (j < length (workload_quota t))%nat.

Lemma task_ok_stable (w w' : World R) (j : nat) (r : ref) :
  heap_stable w w' -> task_ok (heap w) j r -> task_ok (heap w') j r.
Proof.
  intros S (t & Ht & Hq). destruct (S r t Ht) as (t' & Ht' & _ & _ & _ & Q & _).
  exists t'. split; [exact Ht' | rewrite Q; exact Hq].
Qed.

Lemma task_ok_valid (h : list (Task R)) (j : nat) (r : ref) :
  task_ok h j r -> (r < length h)%nat.
Proof. intros (t & Ht & _). apply nth_error_Some. congruence. Qed.

(** An item of a primary map: its core is one of the [m] LP cores and its
    task is one of [refs]. *)
Definition entry_ok (m : nat) (refs : list ref) (e : Key R * ref) : Prop :=
  (snd (fst e) < m)%nat /\ In (snd e) refs.

Lemma dict_set_entries (m : nat) (refs : list ref) (key : Key R) (v : ref)
      (d : list (Key R * ref)) :
  Forall (entry_ok m refs) d -> (snd key < m)%nat -> In v refs ->
  Forall (entry_ok m refs) (dict_set key_eqb key v d)
  /\ dict_set key_eqb key v d <> [].
Proof.
  intros F Hk Hv. induction F as [|[k' v'] d [P1 P2] F IH]; simpl.
  - split; [|discriminate]. constructor; [|constructor]. split; assumption.
  - destruct (key_eqb k' key).
    + split; [|discriminate]. constructor; [|exact F]. split; assumption.
    + split; [|discriminate]. constructor; [split; assumption | apply IH].
Qed.

(** The primary map of window [i] while [for t in tasksA] fills it. *)
Lemma fold_place_entries (i : nat) (sw tw : R) (refs : list ref) (tasksA : list ref) :
  forall (st st' : list R * nat) (w w' : World R) (d : list (Key R * ref)),
    for_fold tasksA st (place i sw tw) w = (w', Normal st') ->
    incl tasksA refs ->
    dict_get Nat.eqb i (pri_schedule (sched w)) = Ok d ->
    Forall (entry_ok (length (fst st)) refs) d ->
    exists d',
      dict_get Nat.eqb i (pri_schedule (sched w')) = Ok d'
      /\ Forall (entry_ok (length (fst st)) refs) d'
      /\ (tasksA <> [] \/ d <> [] -> d' <> [])
      /\ forall j, j <> i ->
           dict_get Nat.eqb j (pri_schedule (sched w'))
           = dict_get Nat.eqb j (pri_schedule (sched w)).
Proof.
  induction tasksA as [|t tasksA IH]; intros st st' w w' d H Hin Hd F; simpl in H.
  - inversion H; subst. exists d. repeat split; auto.
    intros [X | X]; [congruence | exact X].
  - unbind_normal H as w1 st1 E. apply place_normal in E.
    destruct E as (tk & lp & cur & c & d0 & ds & di & Htk & Hlp & Hprobe & Hc & Hd0
                   & Hds & Hdi & -> & ->).
    assert (d0 = d) by congruence. subst d0.
    assert (Hcur : (cur < length (fst st))%nat)
      by (apply nth_error_Some; congruence).
    destruct (@dict_set_entries (length (fst st)) refs (c, cur) t d F Hcur)
      as [F1 N1]; [apply Hin; left; reflexivity|].
    eapply IH in H.
    + destruct H as (d' & Hd' & F' & N' & O').
      cbn [fst snd] in F'. rewrite list_set_length in F'.
      exists d'. split; [exact Hd'|]. split; [exact F'|]. split.
      * intros _. apply N'. right. exact N1.
      * intros j Hj. rewrite (O' j Hj).
        cbn [sched with_tasksList with_heap with_sched pri_schedule set_pri_schedule].
        apply dict_get_set_other. congruence.
    + intros x Hx. apply Hin. right. exact Hx.
    + cbn [sched with_tasksList with_heap with_sched pri_schedule set_pri_schedule].
      apply dict_get_set_same.
    + cbn [fst snd]. rewrite list_set_length. exact F1.
Qed.

Lemma lp_pack_entries (i : nat) (sw tw : R) (tasksA : list ref)
      (st : list R * nat) (w w' : World R) :
  lp_pack i sw tw w = (w', Normal (tasksA, st)) ->
  tasksList w <> [] ->
  exists d,
    dict_get Nat.eqb i (pri_schedule (sched w')) = Ok d
    /\ d <> []
    /\ Forall (entry_ok (Z.to_nat (m_pri (sched w))) tasksA) d
    /\ forall j, j <> i ->
         dict_get Nat.eqb j (pri_schedule (sched w'))
         = dict_get Nat.eqb j (pri_schedule (sched w)).
Proof.
  intros H Hne. unfold lp_pack in H. rewrite bind_gets in H.
  unbind_normal H as w1 refs E1. unfold deepcopy_tasks in E1.
  inversion E1; subst w1 refs. clear E1.
  unbind_normal H as w1 tA E2. apply sort_by_wq_normal in E2. destruct E2 as [-> ->].
  erewrite bind_eq in H by apply pri_schedule_put_world.
  unbind_normal H as w1 st1 E3. inversion H; subst w1 st1 tasksA. clear H.
  eapply fold_place_entries with (d := []) in E3.
  - destruct E3 as (d' & Hd' & F' & N' & O').
    cbn [fst] in F'. rewrite repeat_length in F'.
    exists d'. split; [exact Hd'|]. split; [|split; [exact F'|]].
    + apply N'. left. intros X.
      pose proof (sorted_refs_perm (heap w ++ tasksList w)
                    (seq (length (heap w)) (length (tasksList w)))) as P.
      cbn [heap with_heap] in X. rewrite X in P. apply Permutation_length in P.
      rewrite length_seq in P. simpl in P.
      destruct (tasksList w); [congruence | discriminate].
    + intros j Hj. rewrite (O' j Hj).
      cbn [sched with_heap with_sched pri_schedule set_pri_schedule].
      apply dict_get_set_other. congruence.
  - apply incl_refl.
  - cbn [sched with_heap with_sched pri_schedule set_pri_schedule].
    apply dict_get_set_same.
  - constructor.
Qed.

(** The primary map and the backup list that a scheduled window leaves. *)
Lemma schedule_window_entries (n : nat) (w w' : World R) :
  schedule_window n w = (w', Normal tt) ->
  tasksList w <> [] ->
  exists items tasksA,
    dict_get Nat.eqb n (pri_schedule (sched w')) = Ok items
    /\ items <> []
    /\ Forall (entry_ok (Z.to_nat (m_pri (sched w))) tasksA) items
    /\ Forall (task_ok (heap w') n) tasksA
    /\ backup_list (sched w') = backup_list (sched w) ++ [tasksA]
    /\ forall j, j <> n ->
         dict_get Nat.eqb j (pri_schedule (sched w'))
         = dict_get Nat.eqb j (pri_schedule (sched w)).
Proof.
  intros H Hne. unfold schedule_window in H.
  unbind_normal H as w1 b E1. apply window_bounds_normal in E1.
  destruct E1 as (-> & ds & di & Hds & Hdi).
  unbind_normal H as w2 total E2. rewrite assign_quotas_world in E2.
  apply lift_inv_normal in E2. destruct E2 as [-> Hq].
  rewrite bind_gets in H. cbn [sched with_tasksList] in H.
  destruct (total <=? fst b * of_int (m_pri (sched w)))%num; [|inversion H].
  unbind_normal H as wp packed EP. destruct packed as [tasksA st].
  assert (Hne1 : fst (set_quotas (sched w) (fst b) (tasksList w) (of_int 0)) <> []).
  { destruct (set_quotas (sched w) (fst b) (tasksList w) (of_int 0)) as [tl1 o] eqn:Q.
    simpl in Hq. subst o. apply set_quotas_ok in Q. simpl.
    intros X. subst tl1. inversion Q as [E|]. congruence. }
  pose proof EP as EN. apply lp_pack_entries in EN; [|exact Hne1].
  destruct EN as (d & Hd & Nd & Fd & Od).
  cbn [sched with_tasksList] in Fd, Od.
  pose proof EP as EH.
  apply lp_pack_normal with (ds := ds) (di := di) in EH; [|exact Hds|exact Hdi].
  destruct EH as (_ & _ & _ & _ & _ & _ & HF & HS).
  unbind_normal H as w3 d0 E3. apply pri_schedule_at_normal in E3.
  destruct E3 as [-> Hd0]. assert (d0 = d) by congruence. subst d0.
  erewrite bind_eq in H by apply pri_schedule_put_world.
  unbind_normal H as w3 c0 E4. apply lift_inv_normal in E4. destruct E4 as [-> _].
  rewrite bind_gets, bind_modify in H.
  apply update_BB_overloading_normal in H. destruct H as [x ->].
  cbn [sched with_sched heap pri_schedule backup_list set_backup_start
       set_backup_list set_pri_schedule].
  pose proof (sort_asc_perm (fun a b0 : Key R * ref => key_ltb (fst a) (fst b0)) d) as P.
  exists (sort_asc (fun a b0 => key_ltb (fst a) (fst b0)) d), tasksA.
  split; [apply dict_get_set_same|]. split; [|split; [|split; [|split]]].
  - intros X. rewrite X in P. apply Permutation_length in P.
    destruct d; [congruence | discriminate].
  - eapply Permutation_Forall; eassumption.
  - rewrite Forall_forall in *. intros r Hr.
    destruct (HF r Hr) as (t & Ht & q & Hq').
    destruct (HS r t Ht) as (t' & Ht' & _ & _ & _ & Q & _).
    exists t'. split; [exact Ht'|]. rewrite Q.
    unfold getWorkloadQuota in Hq'. apply index_ok in Hq'.
    apply nth_error_Some. congruence.
  - apply lp_pack_same_reservation in EP. unfold unchanged, reservation in EP.
    cbn [sched with_tasksList] in EP. inversion EP as [[B1 B2]]. reflexivity.
  - intros j Hj. rewrite dict_get_set_other by congruence. apply Od. exact Hj.
Qed.

(** A schedule the simulator can run on [m] LP cores when no fault is
    tolerated: every window has a non-empty primary map whose items name
    one of the cores and a task with a quota for the window, and every
    backup list refers to existing tasks. *)
Record runnable (ds : list R) (m : nat) (w : World R) : Prop := {
  run_deadlines : deadlines (sched w) = Some ds;
  run_k : k (sched w) = 0%Z;
  run_backup_list : length (backup_list (sched w)) = length ds;
  run_backup_start : length (backup_start (sched w)) = length ds;
  run_cores : length (lp_cores w) = m;
  run_windows : forall j, (j < length ds)%nat ->
      exists items,
        dict_get Nat.eqb j (pri_schedule (sched w)) = Ok items
        /\ items <> []
        /\ Forall (fun e => (snd (fst e) < m)%nat /\ task_ok (heap w) j (snd e)) items;
  run_backups : forall j bl,
      nth_error (backup_list (sched w)) j = Some bl ->
      Forall (fun r => (r < length (heap w))%nat) bl
}.

Lemma first_windows_entries (w : World R) :
  backup_list (sched w) = [] ->
  forall n wn,
    first_windows n w = (wn, Normal tt) ->
    m_pri (sched wn) = m_pri (sched w)
    /\ lp_cores wn = lp_cores w
    /\ (forall j, (j < n)%nat ->
          exists items,
            dict_get Nat.eqb j (pri_schedule (sched wn)) = Ok items
            /\ items <> []
            /\ Forall (fun e => (snd (fst e) < Z.to_nat (m_pri (sched w)))%nat
                                /\ task_ok (heap wn) j (snd e)) items)
    /\ (forall j bl, nth_error (backup_list (sched wn)) j = Some bl ->
                     Forall (fun r => (r < length (heap wn))%nat) bl).
Proof.
  intros Hb.
  apply (first_windows_ind
           (fun n wn =>
              m_pri (sched wn) = m_pri (sched w)
              /\ lp_cores wn = lp_cores w
              /\ (forall j, (j < n)%nat ->
                    exists items,
                      dict_get Nat.eqb j (pri_schedule (sched wn)) = Ok items
                      /\ items <> []
                      /\ Forall (fun e =>
                                   (snd (fst e) < Z.to_nat (m_pri (sched w)))%nat
                                   /\ task_ok (heap wn) j (snd e)) items)
              /\ (forall j bl, nth_error (backup_list (sched wn)) j = Some bl ->
                               Forall (fun r => (r < length (heap wn))%nat) bl))).
  - split; [reflexivity|]. split; [reflexivity|]. split.
    + intros j Hj. lia.
    + intros j bl. cbn. rewrite Hb. destruct j; discriminate.
  - intros n wn wn' (P1 & P2 & P3 & P4) E1 E2.
    pose proof E1 as Hds. apply first_windows_deadlines in Hds.
    pose proof (@first_windows_remaining _ _ _ (tasksList w) w eq_refl n wn E1)
      as [_ Hrem].
    pose proof E2 as Hst. apply schedule_window_heap_stable in Hst.
    pose proof E2 as Hun.
    apply schedule_window_unchanged
      with (F := fun x => (m_pri (sched x), lp_cores x)) in Hun;
      try (intros x f; reflexivity).
    inversion Hun as [[U1 U2]].
    pose proof E2 as Hw. unfold schedule_window in Hw.
    unbind_normal Hw as w0 b E0. apply window_bounds_normal in E0.
    destruct E0 as (_ & ds & di & Hds' & Hdi). clear Hw.
    assert (ds = deadline_sequence (tasksList w)) by congruence. subst ds.
    assert (Hne : tasksList wn <> []).
    { intros X. apply (remaining_nonempty _ _ Hdi). rewrite <- Hrem, X. reflexivity. }
    apply schedule_window_entries in E2; [|exact Hne].
    destruct E2 as (items & tasksA & Hi & Ni & Fi & Ft & Hbl & Ho).
    split; [congruence|]. split; [congruence|]. split.
    + intros j Hj. destruct (Nat.eq_dec j n) as [-> | Hjn].
      * exists items. split; [exact Hi|]. split; [exact Ni|].
        rewrite Forall_forall in *. intros e He. destruct (Fi e He) as [A B].
        split; [rewrite <- P1; exact A | apply Ft; exact B].
      * destruct (P3 j) as (it & Hit & Nit & Fit); [lia|].
        exists it. split; [rewrite Ho by exact Hjn; exact Hit|].
        split; [exact Nit|].
        rewrite Forall_forall in *. intros e He. destruct (Fit e He) as [A B].
        split; [exact A | eapply task_ok_stable; eassumption].
    + intros j bl Hj. rewrite Hbl in Hj.
      destruct (Nat.lt_ge_cases j (length (backup_list (sched wn)))) as [Hlt | Hge].
      * rewrite nth_error_app1 in Hj by exact Hlt.
        specialize (P4 j bl Hj). rewrite Forall_forall in *. intros r Hr.
        specialize (P4 r Hr). apply nth_error_Some in P4.
        destruct (nth_error (heap wn) r) as [t|] eqn:Ht; [|congruence].
        destruct (Hst r t Ht) as (t' & Ht' & _).
        apply nth_error_Some. congruence.
      * rewrite nth_error_app2 in Hj by exact Hge.
        destruct (j - length (backup_list (sched wn)))%nat as [|x]; simpl in Hj.
        -- inversion Hj; subst bl. rewrite Forall_forall in *. intros r Hr.
           eapply task_ok_valid. apply Ft. exact Hr.
        -- destruct x; discriminate.
Qed.

(** [generate_schedule] leaves a runnable schedule when no fault is
    tolerated and the system has the LP cores the scheduler counts on. *)
Lemma generate_schedule_runnable (w w' : World R) :
  k (sched w) = 0%Z ->
  backup_list (sched w) = [] ->
  backup_start (sched w) = [] ->
  (Z.to_nat (m_pri (sched w)) <= length (lp_cores w))%nat ->
  generate_schedule w = (w', Return true) ->
  runnable (deadline_sequence (tasksList w)) (length (lp_cores w)) w'.
Proof.
  intros Hk Hbl Hbs Hm H. rewrite generate_schedule_eq in H.
  unbind H as w1 u E; try discriminate.
  - apply exit_inv in H. destruct H as [-> _]. destruct u.
    pose proof E as E1. apply first_windows_deadlines in E1.
    pose proof E as E2. apply first_windows_without_faults in E2; [|exact Hk|exact Hbs].
    destruct E2 as (K & _ & _ & _).
    pose proof E as E3. apply first_windows_entries in E3; [|exact Hbl].
    destruct E3 as (_ & C & W & B).
    pose proof E as E4. rewrite first_windows_eq in E4.
    apply windows_commit in E4.
    2:{ unfold committed, prepared.
        cbn [sched with_sched with_tasksList backup_list backup_start set_deadlines].
        rewrite Hbl, Hbs. repeat split. intros j Hj. lia. }
    cbn in E4. destruct E4 as (C1 & C2 & _).
    constructor; try assumption.
    + rewrite C. reflexivity.
    + intros j Hj. destruct (W j Hj) as (items & Hi & Ni & Fi).
      exists items. split; [exact Hi|]. split; [exact Ni|].
      rewrite Forall_forall in *. intros e He. destruct (Fi e He) as [A1 A2].
      split; [lia | exact A2].
  - exfalso. revert E. rewrite first_windows_eq.
    apply never_returns_for_each. intros i.
    apply schedule_window_never_returns_true.
Qed.

(** ** The simulator on a runnable schedule *)

Lemma runnable_stable (ds : list R) (m : nat) (w w' : World R) :
  runnable ds m w -> heap_stable w w' ->
  sched w' = sched w -> lp_cores w' = lp_cores w ->
  runnable ds m w'.
Proof.
  intros [H1 H2 H3 H4 H5 H6 H7] S E1 E2.
  constructor; try (rewrite E1; assumption).
  - rewrite E2. exact H5.
  - intros j Hj. rewrite E1. destruct (H6 j Hj) as (items & Hi & Ni & Fi).
    exists items. split; [exact Hi|]. split; [exact Ni|].
    rewrite Forall_forall in *. intros e He. destruct (Fi e He) as [A B].
    split; [exact A | eapply task_ok_stable; eassumption].
  - intros j bl Hj. rewrite E1 in Hj. specialize (H7 j bl Hj).
    rewrite Forall_forall in *. intros r Hr. specialize (H7 r Hr).
    apply nth_error_Some in H7.
    destruct (nth_error (heap w) r) as [t|] eqn:Ht; [|congruence].
    destruct (S r t Ht) as (t' & Ht' & _). apply nth_error_Some. congruence.
Qed.

Lemma update_task_runs (ds : list R) (m : nat) (r : ref) (f : Task R -> Task R)
      (w : World R) :
  (forall t, same_static t (f t)) ->
  runnable ds m w ->
  exists w', update_task r f w = (w', Normal tt)
             /\ runnable ds m w' /\ heap_stable w w'.
Proof.
  intros Hf Hr. eexists. split; [reflexivity|].
  assert (S : heap_stable w (with_heap (fun h => match nth_error h r with
                                                 | Some t => list_set h r (f t)
                                                 | None => h
                                                 end) w)).
  { eapply update_task_heap_stable; [exact Hf | reflexivity]. }
  split; [|exact S]. eapply runnable_stable; [exact Hr | exact S | |]; reflexivity.
Qed.

Lemma without_id_runs (tid : Z) (bl : list ref) (w : World R) :
  Forall (fun r => (r < length (heap w))%nat) bl ->
  exists bl', without_id tid bl w = (w, Normal bl') /\ incl bl' bl.
Proof.
  induction 1 as [|b bl Hb F IH]; simpl.
  - exists []. split; [reflexivity | apply incl_refl].
  - destruct IH as (bl' & E & I).
    apply nth_error_Some in Hb.
    destruct (nth_error (heap w) b) as [t|] eqn:Ht; [|congruence].
    unfold bind at 1. unfold deref, index. rewrite Ht, lift_ok.
    unfold bind at 1. rewrite E. unfold ret.
    eexists. split; [reflexivity|].
    destruct (getId t =? tid)%Z.
    + apply incl_tl. exact I.
    + intros x [<- | Hx]; [left; reflexivity | right; apply I; exact Hx].
Qed.

Lemma update_BB_overloading_runs (ds : list R) (m : nat) (idx : nat) (t : R)
      (w : World R) :
  runnable ds m w -> (idx < length ds)%nat ->
  exists w', update_BB_overloading idx t w = (w', Normal tt)
             /\ runnable ds m w' /\ heap w' = heap w.
Proof.
  intros Hr Hi. pose proof Hr as [H1 H2 H3 H4 H5 H6 H7].
  destruct (nth_error (backup_list (sched w)) idx) as [bl|] eqn:Hbl.
  2:{ apply nth_error_None in Hbl. lia. }
  destruct (nth_error ds idx) as [d|] eqn:Hd.
  2:{ apply nth_error_None in Hd. lia. }
  eexists. split.
  - eapply update_BB_overloading_spec; try eassumption.
    unfold reserved_prefix. rewrite H2.
    replace (Z.to_nat (Z.min 0 (Z.of_nat (length bl)))) with 0%nat by lia.
    reflexivity.
  - assert (Hleb : (length (backup_start (sched w)) <=? idx)%nat = false)
      by (apply Nat.leb_gt; lia).
    rewrite Hleb. split; [|reflexivity].
    constructor; cbn [sched with_sched set_backup_start deadlines k backup_list
                      backup_start lp_cores pri_schedule heap]; try assumption.
    rewrite list_set_length. exact H4.
Qed.

Lemma remove_from_backup_list_runs (ds : list R) (m : nat) (idx : nat) (tid : Z)
      (t : R) (w : World R) :
  runnable ds m w -> (idx < length ds)%nat ->
  exists w', remove_from_backup_list idx tid t w = (w', Normal tt)
             /\ runnable ds m w' /\ heap w' = heap w.
Proof.
  intros Hr Hi. pose proof Hr as [H1 H2 H3 H4 H5 H6 H7].
  destruct (nth_error (backup_list (sched w)) idx) as [bl|] eqn:Hbl.
  2:{ apply nth_error_None in Hbl. lia. }
  destruct (@without_id_runs tid bl w (H7 idx bl Hbl)) as (bl' & E & I).
  unfold remove_from_backup_list. rewrite bind_gets.
  unfold bind at 1. unfold index. rewrite Hbl, lift_ok.
  unfold bind at 1. rewrite E. rewrite bind_gets, bind_modify.
  match goal with
  | |- exists w', update_BB_overloading _ _ ?x = _ /\ _ => set (w1 := x)
  end.
  assert (R1 : runnable ds m w1).
  { constructor; cbn [w1 sched with_sched set_backup_list deadlines k backup_list
                      backup_start lp_cores pri_schedule heap]; try assumption.
    - rewrite list_set_length. exact H3.
    - intros j bl0 Hj. destruct (Nat.eq_dec idx j) as [<- | Hne].
      + rewrite list_set_same in Hj by lia. inversion Hj; subst bl0.
        specialize (H7 idx bl Hbl). rewrite Forall_forall in *.
        intros r Hr'. apply H7, I, Hr'.
      + rewrite list_set_other in Hj by exact Hne. eapply H7. exact Hj. }
  destruct (@update_BB_overloading_runs ds m idx t w1 R1 Hi) as (w2 & E2 & R2 & Hh).
  exists w2. split; [exact E2|]. split; [exact R2|]. rewrite Hh. reflexivity.
Qed.

Lemma deref_ok (r : ref) (t : Task R) (w : World R) :
  nth_error (heap w) r = Some t -> deref r w = (w, Normal t).
Proof. intros H. unfold deref, index. rewrite H. reflexivity. Qed.

Lemma complete_primary_runs (ds : list R) (m : nat) (i : nat) (now : R) (t : ref)
      (w : World R) :
  runnable ds m w -> (i < length ds)%nat -> (t < length (heap w))%nat ->
  exists w', complete_primary i now t None w = (w', Normal None)
             /\ runnable ds m w' /\ heap w' = heap w.
Proof.
  intros Hr Hi Ht. apply nth_error_Some in Ht.
  destruct (nth_error (heap w) t) as [tk|] eqn:Htk; [|congruence].
  unfold complete_primary. erewrite bind_eq by (apply deref_ok; exact Htk).
  destruct (negb (getEncounteredFault tk)).
  - destruct (@remove_from_backup_list_runs ds m i (getId tk) now w Hr Hi)
      as (w1 & E & R1 & Hh).
    erewrite bind_eq by exact E. exists w1. auto.
  - exists w. auto.
Qed.

(** The LP slots hold nothing or tasks with a quota for window [i]. *)
Definition assigned_ok (h : list (Task R)) (i m : nat) (assigned : list (option ref))
  : Prop :=
  length assigned = m
  /\ forall lp t, nth_error assigned lp = Some (Some t) -> task_ok h i t.

Lemma assigned_ok_stable (w w' : World R) (i m : nat) (assigned : list (option ref)) :
  heap_stable w w' ->
  assigned_ok (heap w) i m assigned -> assigned_ok (heap w') i m assigned.
Proof.
  intros S [A1 A2]. split; [exact A1|].
  intros lp t H. eapply task_ok_stable; [exact S | eapply A2; exact H].
Qed.

Lemma assigned_ok_set (h : list (Task R)) (i m : nat) (assigned : list (option ref))
      (lp : nat) (v : option ref) :
  assigned_ok h i m assigned ->
  (forall t, v = Some t -> task_ok h i t) ->
  assigned_ok h i m (list_set assigned lp v).
Proof.
  intros [A1 A2] Hv. split; [rewrite list_set_length; exact A1|].
  intros lp' t H. destruct (Nat.eq_dec lp lp') as [<- | Hne].
  - destruct (Nat.lt_ge_cases lp (length assigned)) as [Hlt | Hge].
    + rewrite list_set_same in H by exact Hlt. inversion H. apply Hv. assumption.
    + assert (X : nth_error (list_set assigned lp v) lp = None).
      { apply nth_error_None. rewrite list_set_length. exact Hge. }
      congruence.
  - rewrite list_set_other in H by exact Hne. eapply A2. exact H.
Qed.

Lemma sweep_core_runs (ds : list R) (m : nat) (i : nat) (now : R) (lp : nat)
      (assigned : list (option ref)) (w : World R) :
  runnable ds m w -> (i < length ds)%nat ->
  assigned_ok (heap w) i m assigned ->
  exists w' assigned',
    sweep_core i now lp (assigned, None) w = (w', Normal (assigned', None))
    /\ runnable ds m w' /\ assigned_ok (heap w') i m assigned'.
Proof.
  intros Hr Hi Ha. unfold sweep_core. cbn [fst snd].
  destruct (nth_error assigned lp) as [[t|]|] eqn:Hn;
    try solve [exists w, assigned; auto].
  destruct (proj2 Ha lp t Hn) as (tk & Htk & Hq).
  erewrite bind_eq by (apply deref_ok; exact Htk).
  apply nth_error_Some in Hq.
  destruct (nth_error (workload_quota tk) i) as [wq|] eqn:Hwq; [|congruence].
  unfold getWorkloadQuota, index. rewrite Hwq, bind_lift_ok.
  destruct (getStartTime tk + wq <=? now)%num.
  - destruct (@complete_primary_runs ds m i now t w Hr Hi) as (w1 & E & R1 & Hh).
    { apply nth_error_Some. congruence. }
    erewrite bind_eq by exact E.
    exists w1. exists (list_set assigned lp None). split; [reflexivity|].
    split; [exact R1|]. rewrite Hh. apply assigned_ok_set; [exact Ha|].
    intros t' X. discriminate.
  - exists w, assigned. auto.
Qed.

Lemma for_fold_runs {A B} (I : B -> World R -> Prop) (body : A -> B -> M R B)
      (l : list A) :
  (forall x acc w, I acc w ->
     exists w' acc', body x acc w = (w', Normal acc') /\ I acc' w') ->
  forall acc w, I acc w ->
    exists w' acc', for_fold l acc body w = (w', Normal acc') /\ I acc' w'.
Proof.
  intros Hb. induction l as [|x l IH]; intros acc w Hi; simpl.
  - exists w, acc. auto.
  - destruct (Hb x acc w Hi) as (w1 & acc1 & E & I1).
    erewrite bind_eq by exact E. apply IH. exact I1.
Qed.

Lemma for_each_runs {A} (I : World R -> Prop) (body : A -> M R unit) (l : list A) :
  (forall x w, I w -> exists w', body x w = (w', Normal tt) /\ I w') ->
  forall w, I w -> exists w', for_each l body w = (w', Normal tt) /\ I w'.
Proof.
  intros Hb. induction l as [|x l IH]; intros w Hi; simpl.
  - exists w. auto.
  - destruct (Hb x w Hi) as (w1 & E & I1).
    erewrite bind_eq by exact E. apply IH. exact I1.
Qed.

Lemma dispatch_runs (ds : list R) (m : nat) (i : nat) (now : R)
      (pending : list (Key R * ref)) :
  forall (assigned : list (option ref)) (idx : nat) (w : World R),
    runnable ds m w -> (i < length ds)%nat ->
    assigned_ok (heap w) i m assigned ->
    Forall (fun e => (snd (fst e) < m)%nat /\ task_ok (heap w) i (snd e)) pending ->
    exists w' assigned' idx',
      dispatch i now pending (assigned, None, idx) w
      = (w', Normal (assigned', None, idx'))
      /\ runnable ds m w' /\ assigned_ok (heap w') i m assigned'.
Proof.
  induction pending as [|[key new] rest IH]; intros assigned idx w Hr Hi Ha Hp; simpl.
  - exists w, assigned, idx. auto.
  - destruct (fst key <=? now)%num; [|exists w, assigned, idx; auto].
    inversion Hp as [|e l [Hk Hnew] Hrest]; subst. cbn [fst snd] in Hk, Hnew.
    destruct Ha as [A1 A2].
    destruct (nth_error assigned (snd key)) as [cur|] eqn:Hcur.
    2:{ apply nth_error_None in Hcur. lia. }
    unfold index at 1. rewrite Hcur, bind_lift_ok.
    destruct Hnew as (newtk & Hnewtk & Hnq).
    erewrite bind_eq by (apply deref_ok; exact Hnewtk).
    assert (S1 : exists w1,
               (match cur with
                | Some c =>
                    bind (deref c) (fun ctk =>
                      if negb (getId ctk =? getId newtk)%Z
                      then complete_primary i now c None
                      else ret None)
                | None => ret None
                end) w = (w1, Normal None)
               /\ runnable ds m w1 /\ heap w1 = heap w).
    { destruct cur as [c|]; [|exists w; auto].
      destruct (A2 _ _ Hcur) as (ctk & Hctk & _).
      erewrite bind_eq by (apply deref_ok; exact Hctk).
      destruct (negb (getId ctk =? getId newtk)%Z); [|exists w; auto].
      apply complete_primary_runs; try assumption.
      apply nth_error_Some. congruence. }
    destruct S1 as (w1 & E1 & R1 & Hh1).
    erewrite bind_eq by exact E1.
    assert (S2 : exists stale : bool,
               (match cur with
                | Some c => bind (deref c) (fun ctk =>
                              ret (negb (getId ctk =? getId newtk)%Z))
                | None => ret true
                end) w1 = (w1, Normal stale)).
    { destruct cur as [c|]; [|exists true; reflexivity].
      destruct (A2 _ _ Hcur) as (ctk & Hctk & _). rewrite <- Hh1 in Hctk.
      erewrite bind_eq by (apply deref_ok; exact Hctk). eexists. reflexivity. }
    destruct S2 as (stale & E2). erewrite bind_eq by exact E2.
    assert (T1 : task_ok (heap w1) i new)
      by (rewrite Hh1; exists newtk; auto).
    assert (S3 : exists w2 assigned2,
               (if stale
                then bind (update_task new (fun x => setStartTime x now))
                          (fun _ => ret (list_set assigned (snd key) (Some new)))
                else ret assigned) w1 = (w2, Normal assigned2)
               /\ runnable ds m w2 /\ heap_stable w1 w2
               /\ assigned_ok (heap w2) i m assigned2).
    { destruct stale.
      - destruct (@update_task_runs ds m new (fun x => setStartTime x now) w1)
          as (w2 & E3 & R2 & St); [intros x; repeat split | exact R1 |].
        erewrite bind_eq by exact E3.
        exists w2. exists (list_set assigned (snd key) (Some new)).
        split; [reflexivity|]. split; [exact R2|]. split; [exact St|].
        apply assigned_ok_stable with (w := w1); [exact St|].
        apply assigned_ok_set.
        + rewrite Hh1. split; assumption.
        + intros t' X. inversion X; subst t'. exact T1.
      - exists w1, assigned. split; [reflexivity|]. split; [exact R1|].
        split; [apply heap_stable_refl|]. rewrite Hh1. split; assumption. }
    destruct S3 as (w2 & assigned2 & E3 & R2 & St & A3).
    erewrite bind_eq by exact E3.
    apply IH; try assumption.
    rewrite Forall_forall in *. intros e He. destruct (Hrest e He) as [B1 B2].
    split; [exact B1|]. apply task_ok_stable with (w := w1); [exact St|].
    rewrite Hh1. exact B2.
Qed.

Lemma backup_dispatch_runs (ds : list R) (m : nat) (i : nat) (now : R) (w : World R) :
  runnable ds m w -> (i < length ds)%nat ->
  exists w' hp, backup_dispatch i now None w = (w', Normal hp)
                /\ runnable ds m w' /\ heap_stable w w'.
Proof.
  intros Hr Hi. pose proof Hr as [H1 H2 H3 H4 H5 H6 H7].
  unfold backup_dispatch. rewrite bind_gets.
  destruct (nth_error (backup_start (sched w)) i) as [bs|] eqn:Hbs.
  2:{ apply nth_error_None in Hbs. lia. }
  unfold index at 1. rewrite Hbs, bind_lift_ok.
  destruct (bs <=? now)%num.
  2:{ exists w, None. split; [reflexivity|]. split; [exact Hr | apply heap_stable_refl]. }
  destruct (nth_error (backup_list (sched w)) i) as [bl|] eqn:Hbl.
  2:{ apply nth_error_None in Hbl. lia. }
  unfold index at 1. rewrite Hbl, bind_lift_ok.
  destruct bl as [|b0 bl].
  { exists w, None. split; [reflexivity|]. split; [exact Hr | apply heap_stable_refl]. }
  rewrite bind_eq with (w1 := w) (a := true) by reflexivity.
  destruct (@update_task_runs ds m b0 (fun x => setBackupStartTime x now) w)
    as (w1 & E & R1 & St); [intros x; repeat split | exact Hr |].
  erewrite bind_eq by exact E. exists w1, (Some b0). auto.
Qed.

Lemma accrue_lp_length (dt : R) (assigned : list (option ref)) (cores : list (Core R)) :
  length (accrue_lp dt assigned cores) = length cores.
Proof.
  revert cores. induction assigned as [|a assigned IH]; intros [|c cores]; simpl; auto.
Qed.

Lemma Forall_skipn {A} (P : A -> Prop) (n : nat) (l : list A) :
  Forall P l -> Forall P (skipn n l).
Proof.
  intros H. rewrite <- (firstn_skipn n l) in H. apply Forall_app in H. apply H.
Qed.

(** One time step with an empty HP slot runs to its end. *)
Lemma sim_step_runs (ds : list R) (m : nat) (i : nat) (loc : Locals R) (w : World R) :
  runnable ds m w -> (i < length ds)%nat ->
  hp_assignedTask loc = None ->
  assigned_ok (heap w) i m (lp_assignedTask loc) ->
  exists w' loc',
    sim_step i loc w = (w', Normal loc')
    /\ runnable ds m w' /\ assigned_ok (heap w') i m (lp_assignedTask loc').
Proof.
  intros Hr Hi Hn Ha. unfold sim_step.
  assert (S1 : exists w1, accrue loc w = (w1, Normal tt)
                          /\ runnable ds m w1 /\ heap w1 = heap w).
  { unfold accrue. rewrite bind_gets, bind_modify, Hn.
    eexists. split; [reflexivity|]. split; [|reflexivity].
    destruct Hr as [H1 H2 H3 H4 H5 H6 H7].
    constructor; cbn [sched with_lp_cores lp_cores heap]; try assumption.
    rewrite accrue_lp_length. exact H5. }
  destruct S1 as (w1 & E1 & R1 & Hh1). erewrite bind_eq by exact E1.
  rewrite Hn.
  destruct (@for_fold_runs nat _
              (fun st x => snd st = None /\ runnable ds m x
                           /\ assigned_ok (heap x) i m (fst st))
              (sweep_core i (sim_time loc))
              (seq 0 (length (lp_assignedTask loc))))
    with (acc := (lp_assignedTask loc, @None ref)) (w := w1)
    as (w2 & st & E2 & S2 & R2 & A2).
  { intros x [a hp] v (X1 & X2 & X3). cbn [fst snd] in X1, X3. subst hp.
    destruct (@sweep_core_runs ds m i (sim_time loc) x a v X2 Hi X3)
      as (v' & a' & E & R' & A').
    exists v'. exists (a', None). auto. }
  { cbn [fst snd]. split; [reflexivity|]. split; [exact R1|]. rewrite Hh1. exact Ha. }
  erewrite bind_eq by exact E2. destruct st as [a2 hp2]. cbn [fst snd] in S2, A2.
  subst hp2. cbn [fst snd backup_completion].
  rewrite bind_eq with (w1 := w2) (a := @None ref) by reflexivity.
  destruct (run_windows R2 Hi) as (items & Hit & Nit & Fit).
  rewrite bind_eq with (w1 := w2) (a := items)
    by (unfold pri_schedule_at; rewrite bind_gets, Hit; reflexivity).
  destruct (@dispatch_runs ds m i (sim_time loc) (skipn (keyIdx loc) items)
              a2 (keyIdx loc) w2 R2 Hi A2 (Forall_skipn _ Fit))
    as (w4 & a4 & idx4 & E4 & R4 & A4).
  erewrite bind_eq by exact E4. cbn [fst snd].
  destruct (@backup_dispatch_runs ds m i (sim_time loc) w4 R4 Hi)
    as (w5 & hp5 & E5 & R5 & St5).
  erewrite bind_eq by exact E5. rewrite bind_gets.
  eexists. eexists. split; [reflexivity|]. split; [exact R5|].
  cbn [lp_assignedTask]. eapply assigned_ok_stable; eassumption.
Qed.

(** The loop of a window runs to its end within [n] steps when [n] steps
    take the clock past the deadline. *)
Lemma window_loop_runs (ds : list R) (m : nat) (a : R) (i : nat) (d : R) :
  nth_error ds i = Some d ->
  forall (n : nat) (loc : Locals R) (w : World R),
    runnable ds m w -> idle_hp ds a w ->
    assigned_ok (heap w) i m (lp_assignedTask loc) ->
    (hp_assignedTask loc = None \/ (sim_time loc <=? d)%num = false) ->
    (d <? Nat.iter n (fun x => x + time_step (sched w)) (sim_time loc))%num = true ->
    exists w' loc',
      window_loop n i loc w = (w', Normal loc')
      /\ runnable ds m w' /\ idle_hp ds a w'.
Proof.
  intros Hd.
  assert (Hlt : (i < length ds)%nat) by (apply nth_error_Some; congruence).
  induction n as [|n IH]; intros loc w Hr Hi Ha Hh Hn;
    pose proof (run_deadlines Hr) as Hds;
    erewrite window_loop_run by eassumption.
  - simpl in Hn. rewrite num_lt_le in Hn. apply negb_true_iff in Hn. rewrite Hn.
    exists w, loc. auto.
  - destruct (sim_time loc <=? d)%num eqn:Hle; [|exists w, loc; auto].
    destruct Hh as [Hnone | Hp]; [|congruence].
    destruct (@sim_step_runs ds m i loc w Hr Hlt Hnone Ha) as (w1 & loc1 & E & R1 & A1).
    erewrite bind_eq by exact E.
    destruct (@sim_step_idle _ _ _ ds a i loc w w1 (Normal loc1) Hi Hnone E) as [I1 P1].
    pose proof E as S1. apply sim_step_settings in S1.
    inversion S1 as [[S1a S1b S1c]].
    apply IH; try assumption.
    + apply P1; [reflexivity | exact Hd].
    + apply sim_step_clock in E. rewrite E, S1b.
      rewrite Nat.iter_succ_r in Hn. exact Hn.
Qed.

Lemma window_bounds_runs (ds : list R) (i : nat) (w : World R) :
  deadlines (sched w) = Some ds -> (i < length ds)%nat ->
  exists b, window_bounds i w = (w, Normal b).
Proof.
  intros Hds Hi. unfold window_bounds.
  erewrite bind_eq by (unfold self_deadlines; rewrite Hds; reflexivity).
  destruct i as [|j].
  - destruct (nth_error ds 0) as [d|] eqn:Hd; [|apply nth_error_None in Hd; lia].
    unfold index. rewrite Hd, bind_lift_ok. eexists. reflexivity.
  - destruct (nth_error ds (S j)) as [d|] eqn:Hd; [|apply nth_error_None in Hd; lia].
    destruct (nth_error ds j) as [p|] eqn:Hp; [|apply nth_error_None in Hp; lia].
    unfold index. rewrite Hd, bind_lift_ok, Hp, bind_lift_ok. eexists. reflexivity.
Qed.

Lemma pri_schedule_at_ok (i : nat) (items : list (Key R * ref)) (w : World R) :
  dict_get Nat.eqb i (pri_schedule (sched w)) = Ok items ->
  pri_schedule_at i w = (w, Normal items).
Proof. intros H. unfold pri_schedule_at. rewrite bind_gets, H. reflexivity. Qed.

(** With [k = 0] the fault generator marks nothing. *)
Lemma generate_fault_occurrences_runs (ds : list R) (m : nat) (i : nat) (w : World R) :
  runnable ds m w -> (i < length ds)%nat ->
  generate_fault_occurrences i w = (w, Normal []).
Proof.
  intros Hr Hi. destruct (run_windows Hr Hi) as (items & Hit & _).
  destruct (@window_bounds_runs ds i w (run_deadlines Hr) Hi) as [b Hb].
  unfold generate_fault_occurrences. rewrite bind_gets.
  erewrite bind_eq by (apply pri_schedule_at_ok; exact Hit).
  erewrite bind_eq by exact Hb.
  rewrite (run_k Hr).
  replace (Z.to_nat (Z.min 0 (Z.of_nat (length items)))) with 0%nat by lia.
  reflexivity.
Qed.

Lemma nth_error_repeat_none {A} (n lp : nat) (t : A) :
  nth_error (repeat (@None A) n) lp <> Some (Some t).
Proof.
  intros H. apply nth_error_In in H. apply repeat_spec in H. discriminate.
Qed.

(** A window of a runnable schedule runs to its end. *)
Lemma simulate_window_runs (ds : list R) (m : nat) (a : R) (i : nat) (now : R)
      (w : World R) :
  runnable ds m w -> idle_hp ds a w -> (i < length ds)%nat ->
  exists n w' now',
    (forall fuel, (n <= fuel)%nat ->
                  simulate_window fuel i now w = (w', Normal now'))
    /\ runnable ds m w' /\ idle_hp ds a w'.
Proof.
  intros Hr Hi Hlt.
  destruct (nth_error ds i) as [d|] eqn:Hd; [|apply nth_error_None in Hd; lia].
  destruct (run_windows Hr Hlt) as (items & Hit & Nit & Fit).
  destruct (@for_each_runs (Key R * ref)
              (fun x => runnable ds m x /\ idle_hp ds a x)
              (fun e => update_task (snd e) resetEncounteredFault) items)
    with (w := w) as (w2 & E2 & R2 & I2).
  { intros e x [X1 X2].
    destruct (@update_task_runs ds m (snd e) resetEncounteredFault x)
      as (x' & E & R' & _); [intros t; repeat split | exact X1 |].
    exists x'. split; [exact E|]. split; [exact R'|].
    inversion E; subst x'. apply keeps_idle_heap. exact X2. }
  { split; assumption. }
  destruct (run_windows R2 Hlt) as (items2 & Hit2 & Nit2 & Fit2).
  destruct (num_archimedean now d (time_step (sched w2)) (idle_step I2)) as [n Hn].
  set (loc0 := mkLocals now (repeat (@None ref) (length (lp_cores w2))) None 0).
  destruct (@window_loop_runs ds m a i d Hd n loc0 w2 R2 I2)
    as (w3 & loc3 & E3 & R3 & I3).
  { split; [cbn; rewrite repeat_length; apply (run_cores R2)|].
    intros lp t X. exfalso. exact (nth_error_repeat_none _ _ X). }
  { left. reflexivity. }
  { exact Hn. }
  exists n, w3, (sim_time loc3). split; [|split; assumption].
  intros fuel Hf. unfold simulate_window.
  erewrite bind_eq by (apply pri_schedule_at_ok; exact Hit).
  erewrite bind_eq by exact E2.
  erewrite bind_eq by (eapply generate_fault_occurrences_runs; eassumption).
  rewrite bind_gets.
  erewrite bind_eq by (apply pri_schedule_at_ok; exact Hit2).
  destruct items2 as [|e0 items2]; [congruence|].
  unfold index at 1. cbn [nth_error]. rewrite bind_lift_ok.
  destruct (@window_loop_enough _ _ _ i n loc0 w2) with (fuel := fuel) as [Eq _].
  - apply (idle_step I2).
  - intros ds' d' X Y. rewrite (run_deadlines R2) in X. inversion X; subst ds'.
    assert (d' = d) by congruence. subst d'. exact Hn.
  - exact Hf.
  - fold loc0. erewrite bind_eq by (rewrite Eq; exact E3). reflexivity.
Qed.

Lemma windows_runs (ds : list R) (m : nat) (a : R) (l : list nat) :
  (forall i, In i l -> (i < length ds)%nat) ->
  forall (now : R) (w : World R),
    runnable ds m w -> idle_hp ds a w ->
    exists N w' now',
      (forall fuel, (N <= fuel)%nat ->
                    for_fold l now (simulate_window fuel) w = (w', Normal now'))
      /\ runnable ds m w' /\ idle_hp ds a w'.
Proof.
  induction l as [|i l IH]; intros Hl now w Hr Hi.
  - exists 0%nat, w, now. auto.
  - destruct (@simulate_window_runs ds m a i now w Hr Hi)
      as (n1 & w1 & now1 & H1 & R1 & I1); [apply Hl; left; reflexivity|].
    destruct (IH (fun x Hx => Hl x (or_intror Hx)) now1 w1 R1 I1)
      as (N2 & w2 & now2 & H2 & R2 & I2).
    exists (Nat.max n1 N2), w2, now2. split; [|split; assumption].
    intros fuel Hf. cbn [for_fold].
    erewrite bind_eq by (apply H1; lia). apply H2. lia.
Qed.

(** The simulation of a runnable schedule built for [k = 0] returns, and
    the HP core has not been active in it. *)
Lemma simulate_runs (ds : list R) (m : nat) (a : R) (w : World R) :
  runnable ds m w -> idle_hp ds a w ->
  exists N w',
    (forall fuel, (N <= fuel)%nat -> simulate fuel w = (w', Normal tt))
    /\ active_duration (hp_core w') = a.
Proof.
  intros Hr Hi.
  destruct (@windows_runs ds m a (seq 0 (length ds))) with (now := of_int 0) (w := w)
    as (N & w2 & now2 & H2 & R2 & I2); try assumption.
  { intros i Hin. apply in_seq in Hin. lia. }
  exists N. eexists. split.
  - intros fuel Hf. unfold simulate.
    erewrite bind_eq
      by (unfold self_deadlines; rewrite (run_deadlines Hr); reflexivity).
    erewrite bind_eq by (apply H2; exact Hf).
    rewrite bind_gets, bind_modify. reflexivity.
  - cbn [hp_core with_hp_core with_lp_cores]. rewrite account_energy_active.
    apply (idle_active I2).
Qed.

End Runnable.

Section NoFaultsTheorems.
Context {R : Type} {NR : Number R} {L : NumberLaws R}.

(** C8.  Let [generate_schedule] return [True] on a scheduler as
    [__init__] leaves it, with [k = 0] and a positive time step, in a system
    that has the LP cores the scheduler counts on.  Then no entry of any
    backup list is reserved and [backup_start] holds for every window its
    deadline less an empty reservation, which equals the deadline.
    [simulate] never credits the HP core: wherever a run of [simulate] on
    the resulting scheduler stops, the HP core's [active_duration] is what
    it was before the schedule was built.  And [simulate] does return: with
    enough fuel for the loops of its windows it ends normally, in one and the
    same state, the HP core's [active_duration] unchanged. *)
Theorem no_tolerated_fault_keeps_hp_idle (w w1 : World R) :
  k (sched w) = 0%Z ->
  backup_list (sched w) = [] ->
  backup_start (sched w) = [] ->
  (of_int 0 <? time_step (sched w))%num = true ->
  (Z.to_nat (m_pri (sched w)) <= length (lp_cores w))%nat ->
  generate_schedule w = (w1, Return true) ->
  (forall bl, reserved_prefix (sched w1) bl = [])
  /\ backup_start (sched w1)
     = map (fun d => (d - of_int 0)%num) (deadline_sequence (tasksList w))
  /\ Forall2 (fun b d => (b =? d)%num = true)
             (backup_start (sched w1)) (deadline_sequence (tasksList w))
  /\ (forall fuel w2 o,
        simulate fuel w1 = (w2, o) ->
        active_duration (hp_core w2) = active_duration (hp_core w))
  /\ (exists N w2,
        (forall fuel, (N <= fuel)%nat -> simulate fuel w1 = (w2, Normal tt))
        /\ active_duration (hp_core w2) = active_duration (hp_core w)).
Proof.
  intros Hk Hl Hb Hs Hm H.
  destruct (@generate_schedule_idle _ _ _ w w1 Hk Hb Hs H) as [B I].
  pose proof (@generate_schedule_runnable _ _ _ w w1 Hk Hl Hb Hm H) as Rn.
  split; [|split; [exact B | split; [|split]]].
  - intros bl. unfold reserved_prefix. rewrite (idle_k I).
    replace (Z.to_nat (Z.min 0 (Z.of_nat (length bl)))) with 0%nat by lia.
    reflexivity.
  - rewrite B. clear - L. induction (deadline_sequence (tasksList w)) as [|d ds IH]; simpl.
    + constructor.
    + constructor; [apply num_sub_zero | exact IH].
  - intros fuel w2 o E. apply simulate_idle with (ds := deadline_sequence (tasksList w))
                          (a := active_duration (hp_core w)) in E.
    apply (idle_active (E I)).
  - eapply simulate_runs; eassumption.
Qed.

End NoFaultsTheorems.

Module NoFaultChecks.
Import Scenarios ExactNum ExactLaws.

(** Single window, single task, no tolerated fault (end-to-end scenario 1). *)
Definition no_fault_Q : option (World Q) :=
  fresh_world 0 200%Q (1 # 100)%Q 1 (8 # 10)%Q [new_Task 0 10%Q (1 # 2)%Q] [].

(** The run of the scenario: 1001 time steps end the only window, the LP
    core has been active for the primary quota and the HP core not at all. *)
Lemma no_fault_run :
  snd (simulate 1001 (built no_fault_Q)) = Normal tt
  /\ snd (simulate 1000 (built no_fault_Q)) = Timeout
  /\ active_duration (hp_core (fst (simulate 1001 (built no_fault_Q)))) = 0%Q
  /\ map (@active_duration Q) (lp_cores (fst (simulate 1001 (built no_fault_Q))))
     = [5%Q].
Proof. repeat split; vm_compute; reflexivity. Qed.

Lemma no_tolerated_fault_keeps_hp_idle_witness :
  let w := start no_fault_Q in
  let w1 := built no_fault_Q in
  k (sched w) = 0%Z
  /\ backup_list (sched w) = []
  /\ backup_start (sched w) = []
  /\ (of_int 0 <? time_step (sched w))%num = true
  /\ (Z.to_nat (m_pri (sched w)) <= length (lp_cores w))%nat
  /\ generate_schedule w = (w1, Return true)
  /\ (forall bl, reserved_prefix (sched w1) bl = [])
  /\ backup_start (sched w1)
     = map (fun d => (d - of_int 0)%num) (deadline_sequence (tasksList w))
  /\ Forall2 (fun b d => (b =? d)%num = true)
             (backup_start (sched w1)) (deadline_sequence (tasksList w))
  /\ (forall fuel w2 o,
        simulate fuel w1 = (w2, o) ->
        active_duration (hp_core w2) = active_duration (hp_core w))
  /\ (exists N w2,
        (forall fuel, (N <= fuel)%nat -> simulate fuel w1 = (w2, Normal tt))
        /\ active_duration (hp_core w2) = active_duration (hp_core w)).
Proof.
  intros w w1.
  assert (H1 : k (sched w) = 0%Z) by reflexivity.
  assert (H2 : backup_list (sched w) = []) by reflexivity.
  assert (H3 : backup_start (sched w) = []) by reflexivity.
  assert (H4 : (of_int 0 <? time_step (sched w))%num = true)
    by (vm_compute; reflexivity).
  assert (H5 : (Z.to_nat (m_pri (sched w)) <= length (lp_cores w))%nat)
    by (vm_compute; lia).
  assert (H6 : generate_schedule w = (w1, Return true))
    by (vm_compute; reflexivity).
  repeat (split; [assumption|]).
  exact (@no_tolerated_fault_keeps_hp_idle Q _ Q_Laws w w1 H1 H2 H3 H4 H5 H6).
Defined.

End NoFaultChecks.

(* ================================================================== *)
(** * Further properties of the scheduler *)

(* ================================================================== *)
(** ** The builder: deadlines, frame and reuse *)

Section BuilderFacts.
Context {R : Type} {NR : Number R} {L : NumberLaws R}.

(** The parameters [__init__] stores. *)
Definition configuration (w : World R) : Z * R * R * Z * Z * R * bool :=
  (k (sched w), frame (sched w), time_step (sched w), precision_dp (sched w),
   m_pri (sched w), lp_hp_ratio (sched w), log_debug (sched w)).

(** The system around the scheduler: its parameters, the cores and the
    source of random numbers. *)
Definition surroundings (w : World R)
  : (Z * R * R * Z * Z * R * bool) * list (Core R) * Core R * list Z :=
  (configuration w, lp_cores w, hp_core w, tape w).

Lemma generate_schedule_unchanged {X} (F : World R -> X) :
  ignores_heap F -> ignores_tasksList F -> ignores_pri_schedule F ->
  ignores_backup_list F -> ignores_backup_start F -> ignores_deadlines F ->
  preserves (unchanged F) generate_schedule.
Proof.
  intros H1 H2 H3 H4 H5 H6. unfold generate_schedule.
  frame_walk (@unchanged_refl R X F) (@unchanged_trans R X F).
  - apply preserves_modify. intros w. apply H2.
  - apply preserves_modify. intros w. apply H6.
  - apply schedule_window_unchanged; assumption.
Qed.

Lemma generate_schedule_world (w : World R) :
  fst (generate_schedule w)
  = fst (first_windows (length (deadline_sequence (tasksList w))) w).
Proof.
  rewrite generate_schedule_eq. unfold bind.
  destruct (first_windows (length (deadline_sequence (tasksList w))) w)
    as [w1 [u|b|e|]]; reflexivity.
Qed.

Lemma first_windows_backup_list (w : World R) :
  forall n wn,
    first_windows n w = (wn, Normal tt) ->
    exists new, backup_list (sched wn) = backup_list (sched w) ++ new
                /\ length new = n.
Proof.
  apply (first_windows_ind
           (fun n wn => exists new,
                backup_list (sched wn) = backup_list (sched w) ++ new
                /\ length new = n)).
  - exists []. split; [cbn; rewrite app_nil_r; reflexivity | reflexivity].
  - intros n wn wn' (new & E & Hl) _ H.
    apply schedule_window_normal in H.
    destruct H as (ds & di & b & tl1 & total & tasksA & st & wp & x & _ & _ & _
                   & _ & _ & _ & _ & _ & Hbl & _).
    exists (new ++ [tasksA]). rewrite Hbl, E, app_assoc. split; [reflexivity|].
    rewrite length_app. simpl. lia.
Qed.

End BuilderFacts.

Section BuilderFactsTheorems.
Context {R : Type} {NR : Number R} {L : NumberLaws R}.

(** X1.  Whatever [generate_schedule] does afterwards, the deadline list it
    stores is strictly increasing (so free of duplicates), holds a deadline
    equal to that of every task it was given, and holds nothing but
    deadlines of those tasks. *)
Theorem generate_schedule_deadlines (w : World R) :
  exists ds,
    deadlines (sched (fst (generate_schedule w))) = Some ds
    /\ StronglySorted lt_num ds
    /\ (forall t, In t (tasksList w) ->
                  existsb (fun d => (d =? deadline t)%num) ds = true)
    /\ (forall d, In d ds -> exists t, In t (tasksList w) /\ deadline t = d).
Proof.
  exists (deadline_sequence (tasksList w)). split; [|split; [|split]].
  - rewrite generate_schedule_world.
    destruct (first_windows (length (deadline_sequence (tasksList w))) w)
      as [w1 o1] eqn:E.
    apply first_windows_deadlines in E. exact E.
  - apply deadline_sequence_ascending.
  - intros t Ht. unfold deadline_sequence. apply unique_deadlines_covers.
    eapply Permutation_in; [apply sort_by_deadline_perm | exact Ht].
  - intros d Hd. unfold deadline_sequence in Hd.
    apply unique_deadlines_from in Hd. destruct Hd as [[] | (t & Ht & E)].
    exists t. split; [|exact E].
    eapply Permutation_in; [apply Permutation_sym, sort_by_deadline_perm | exact Ht].
Qed.

(** X2.  [generate_schedule] writes to the scheduler's schedule data, the
    task objects and the caller's list only: the parameters of the
    scheduler, the LP cores, the HP core and the random source are the
    same afterwards, whether it returns [True], returns [False] or raises. *)
Theorem generate_schedule_keeps_surroundings (w : World R) :
  surroundings (fst (generate_schedule w)) = surroundings w.
Proof.
  destruct (generate_schedule w) as [w' o] eqn:E. cbn [fst].
  revert E. apply generate_schedule_unchanged; intros x f; reflexivity.
Qed.

(** X3.  On an empty task list [generate_schedule] returns [True] at once:
    the deadline list becomes empty and no primary map, backup list or
    backup start is added or removed. *)
Theorem generate_schedule_empty (w : World R) :
  tasksList w = [] ->
  snd (generate_schedule w) = Return true
  /\ deadlines (sched (fst (generate_schedule w))) = Some []
  /\ pri_schedule (sched (fst (generate_schedule w))) = pri_schedule (sched w)
  /\ backup_list (sched (fst (generate_schedule w))) = backup_list (sched w)
  /\ backup_start (sched (fst (generate_schedule w))) = backup_start (sched w)
  /\ heap (fst (generate_schedule w)) = heap w
  /\ tasksList (fst (generate_schedule w)) = [].
Proof.
  intros H. unfold generate_schedule.
  rewrite bind_modify, bind_gets, bind_modify.
  cbn [tasksList with_tasksList]. rewrite H.
  repeat split; cbn; rewrite ?H; reflexivity.
Qed.

(** X4.  [generate_schedule] never clears [backup_list]: a successful call
    appends one backup list per window behind whatever the scheduler held
    before, so a scheduler that is used for a second task set keeps the
    backup lists of the first at the indexes of the first windows. *)
Theorem generate_schedule_appends_backup_lists (w w' : World R) :
  generate_schedule w = (w', Return true) ->
  exists new,
    backup_list (sched w') = backup_list (sched w) ++ new
    /\ length new = length (deadline_sequence (tasksList w)).
Proof.
  intros H. rewrite generate_schedule_eq in H.
  unbind H as w1 u E; try discriminate.
  - apply exit_inv in H. destruct H as [-> _]. destruct u.
    eapply first_windows_backup_list. exact E.
  - exfalso. revert E. rewrite first_windows_eq.
    apply never_returns_for_each. intros i.
    apply schedule_window_never_returns_true.
Qed.

End BuilderFactsTheorems.

Module BuilderFactsChecks.
Import Scenarios ExactNum ExactLaws.

(** The scheduler of the two-window example, given the same two tasks a
    second time. *)
Definition reused_Q : World Q :=
  with_tasksList
    (fun _ => [new_Task 0 10%Q (4 # 10)%Q; new_Task 1 20%Q (3 # 10)%Q])
    (built two_windows_Q).

Lemma generate_schedule_deadlines_witness :
  let w := start two_windows_Q in
  exists ds,
    deadlines (sched (fst (generate_schedule w))) = Some ds
    /\ StronglySorted lt_num ds
    /\ (forall t, In t (tasksList w) ->
                  existsb (fun d => (d =? deadline t)%num) ds = true)
    /\ (forall d, In d ds -> exists t, In t (tasksList w) /\ deadline t = d).
Proof.
  intros w. exact (@generate_schedule_deadlines Q _ Q_Laws w).
Defined.

Lemma generate_schedule_empty_witness :
  let w := built two_windows_Q in
  tasksList w = []
  /\ snd (generate_schedule w) = Return true
  /\ deadlines (sched (fst (generate_schedule w))) = Some []
  /\ pri_schedule (sched (fst (generate_schedule w))) = pri_schedule (sched w)
  /\ backup_list (sched (fst (generate_schedule w))) = backup_list (sched w)
  /\ backup_start (sched (fst (generate_schedule w))) = backup_start (sched w)
  /\ heap (fst (generate_schedule w)) = heap w
  /\ tasksList (fst (generate_schedule w)) = [].
Proof.
  intros w.
  assert (H : tasksList w = []) by (vm_compute; reflexivity).
  split; [exact H|].
  exact (@generate_schedule_empty Q _ w H).
Defined.

Lemma generate_schedule_appends_backup_lists_witness :
  let w := reused_Q in
  let w' := fst (generate_schedule w) in
  generate_schedule w = (w', Return true)
  /\ exists new,
      backup_list (sched w') = backup_list (sched w) ++ new
      /\ length new = length (deadline_sequence (tasksList w)).
Proof.
  intros w w'.
  assert (H : generate_schedule w = (w', Return true)) by (vm_compute; reflexivity).
  split; [exact H|].
  exact (@generate_schedule_appends_backup_lists Q _ w w' H).
Defined.

End BuilderFactsChecks.

(* ================================================================== *)
(** ** The reservation: appending, removing, windows that do not exist *)

Section ReservationFacts.
Context {R : Type} {NR : Number R}.

(** The id of the task behind a reference. *)
Definition id_at (h : list (Task R)) (r : ref) : Z :=
  match nth_error h r with
  | Some t => getId t
  | None => 0%Z
  end.

Lemma without_id_normal (tid : Z) (bl : list ref) :
  forall (w w' : World R) (bl' : list ref),
    without_id tid bl w = (w', Normal bl') ->
    w' = w /\ bl' = filter (fun r => negb (id_at (heap w) r =? tid)%Z) bl.
Proof.
  induction bl as [|b bl IH]; intros w w' bl' H; simpl in H.
  - inversion H. auto.
  - unbind_normal H as w1 t E1. apply deref_normal in E1. destruct E1 as [-> Ht].
    unbind_normal H as w1 rest E2. apply IH in E2. destruct E2 as [-> ->].
    inversion H; subst. split; [reflexivity|].
    cbn [filter].
    assert (X : id_at (heap w') b = getId t) by (unfold id_at; rewrite Ht; reflexivity).
    rewrite X. destruct (getId t =? tid)%Z; reflexivity.
Qed.

End ReservationFacts.

Section ReservationFactsTheorems.
Context {R : Type} {NR : Number R}.

(** X5.  When [backup_start] has no entry for the window yet,
    [update_BB_overloading] appends the deadline less the reservation at the
    end of the list, which is the window's index only if the list had
    exactly that many entries, and the [sim_time] it is given plays no part:
    the value is not clamped and the call does the same for every
    [sim_time]. *)
Theorem update_appends_unclamped (idx : nat) (sim_time : R) (w : World R)
        (bl : list ref) (ds : list R) (d cap : R) :
  nth_error (backup_list (sched w)) idx = Some bl ->
  backup_quota_sum (heap w) idx (reserved_prefix (sched w) bl) (of_int 0) = Ok cap ->
  deadlines (sched w) = Some ds ->
  nth_error ds idx = Some d ->
  (length (backup_start (sched w)) <= idx)%nat ->
  exists w',
    update_BB_overloading idx sim_time w = (w', Normal tt)
    /\ backup_start (sched w') = backup_start (sched w) ++ [(d - cap)%num]
    /\ nth_error (backup_start (sched w')) (length (backup_start (sched w)))
       = Some (d - cap)%num
    /\ (forall t, update_BB_overloading idx t w = (w', Normal tt)).
Proof.
  intros Hbl Hcap Hds Hd Hlen.
  assert (E : (length (backup_start (sched w)) <=? idx)%nat = true)
    by (apply Nat.leb_le; exact Hlen).
  assert (U : forall t,
             update_BB_overloading idx t w
             = (with_sched (set_backup_start
                              (backup_start (sched w) ++ [(d - cap)%num])) w,
                Normal tt)).
  { intros t.
    rewrite (@update_BB_overloading_spec R NR idx t w bl ds d cap Hbl Hcap Hds Hd).
    rewrite E. reflexivity. }
  eexists. split; [apply U|].
  cbn [sched with_sched set_backup_start backup_start].
  split; [reflexivity|]. split; [|exact U].
  rewrite nth_error_app2 by lia. rewrite Nat.sub_diag. reflexivity.
Qed.

(** X6.  For a window without a backup list both [update_BB_overloading]
    and [remove_from_backup_list] raise [IndexError] and leave everything
    as it was. *)
Theorem missing_window_raises (idx : nat) (tid : Z) (t : R) (w : World R) :
  (length (backup_list (sched w)) <= idx)%nat ->
  update_BB_overloading idx t w = (w, Throw IndexError)
  /\ remove_from_backup_list idx tid t w = (w, Throw IndexError).
Proof.
  intros H. apply nth_error_None in H.
  unfold remove_from_backup_list, update_BB_overloading.
  rewrite !bind_gets. unfold bind, lift, index. rewrite H. auto.
Qed.

(** X7.  A call [remove_from_backup_list(idx, taskId, sim_time)] that
    returns has replaced the backup list of window [idx] by its entries
    whose id is not [taskId], in their order; no entry with that id is
    left, the backup lists of the other windows, the primary maps, the
    deadlines and every task object are as before. *)
Theorem remove_from_backup_list_filters (idx : nat) (tid : Z) (t : R)
        (w w' : World R) :
  remove_from_backup_list idx tid t w = (w', Normal tt) ->
  exists bl,
    nth_error (backup_list (sched w)) idx = Some bl
    /\ backup_list (sched w')
       = list_set (backup_list (sched w)) idx
                  (filter (fun r => negb (id_at (heap w) r =? tid)%Z) bl)
    /\ (forall bl', nth_error (backup_list (sched w')) idx = Some bl' ->
                    Forall (fun r => id_at (heap w') r <> tid) bl')
    /\ (forall j, j <> idx ->
                  nth_error (backup_list (sched w')) j
                  = nth_error (backup_list (sched w)) j)
    /\ heap w' = heap w
    /\ pri_schedule (sched w') = pri_schedule (sched w)
    /\ deadlines (sched w') = deadlines (sched w).
Proof.
  intros H. unfold remove_from_backup_list in H. rewrite bind_gets in H.
  unbind_normal H as w1 bl E1. apply lift_inv_normal in E1. destruct E1 as [-> Hbl].
  apply index_ok in Hbl.
  unbind_normal H as w1 bl' E2. apply without_id_normal in E2. destruct E2 as [-> ->].
  rewrite bind_gets, bind_modify in H.
  apply update_BB_overloading_unchanged
    with (F := fun x => (backup_list (sched x), heap x, pri_schedule (sched x),
                         deadlines (sched x))) in H;
    [|intros x v; reflexivity].
  unfold unchanged in H. injection H as U1 U2 U3 U4.
  cbn [sched with_sched set_backup_list backup_list heap pri_schedule deadlines]
    in U1, U2, U3, U4.
  exists bl. split; [exact Hbl|]. split; [exact U1|]. split; [|split].
  - intros bl' Hb. rewrite U1 in Hb.
    rewrite list_set_same in Hb by (apply nth_error_Some; congruence).
    inversion Hb; subst bl'. apply Forall_forall. intros r Hr.
    apply filter_In in Hr. destruct Hr as [_ Hr]. rewrite U2.
    apply negb_true_iff in Hr. apply Z.eqb_neq. exact Hr.
  - intros j Hj. rewrite U1. apply list_set_other. congruence.
  - auto.
Qed.

End ReservationFactsTheorems.

Module ReservationFactsChecks.
Import Scenarios ExactNum ExactLaws.

(** The two-window example, its backup starts forgotten. *)
Definition unreserved_Q : World Q :=
  with_sched (set_backup_start []) (built two_windows_Q).

Lemma update_appends_unclamped_witness :
  let w := unreserved_Q in
  nth_error (backup_list (sched w)) 1 = Some [2%nat]
  /\ backup_quota_sum (heap w) 1 (reserved_prefix (sched w) [2%nat]) 0%Q
     = Ok (12 # 5)%Q
  /\ deadlines (sched w) = Some [10%Q; 20%Q]
  /\ nth_error [10%Q; 20%Q] 1 = Some 20%Q
  /\ (length (backup_start (sched w)) <= 1)%nat
  /\ exists w',
      update_BB_overloading 1 19%Q w = (w', Normal tt)
      /\ backup_start (sched w')
         = backup_start (sched w) ++ [num_sub 20%Q (12 # 5)%Q]
      /\ nth_error (backup_start (sched w')) (length (backup_start (sched w)))
         = Some (num_sub 20%Q (12 # 5)%Q)
      /\ (forall t, update_BB_overloading 1 t w = (w', Normal tt)).
Proof.
  intros w.
  assert (H1 : nth_error (backup_list (sched w)) 1 = Some [2%nat])
    by (vm_compute; reflexivity).
  assert (H2 : backup_quota_sum (heap w) 1 (reserved_prefix (sched w) [2%nat]) 0%Q
               = Ok (12 # 5)%Q) by (vm_compute; reflexivity).
  assert (H3 : deadlines (sched w) = Some [10%Q; 20%Q]) by (vm_compute; reflexivity).
  assert (H4 : nth_error [10%Q; 20%Q] 1 = Some 20%Q) by reflexivity.
  assert (H5 : (length (backup_start (sched w)) <= 1)%nat) by (vm_compute; lia).
  repeat (split; [assumption|]).
  exact (@update_appends_unclamped Q _ 1%nat 19%Q w [2%nat] [10%Q; 20%Q] 20%Q
           (12 # 5)%Q H1 H2 H3 H4 H5).
Defined.

Lemma missing_window_raises_witness :
  let w := built two_windows_Q in
  (length (backup_list (sched w)) <= 2)%nat
  /\ update_BB_overloading 2 0%Q w = (w, Throw IndexError)
  /\ remove_from_backup_list 2 0%Z 0%Q w = (w, Throw IndexError).
Proof.
  intros w.
  assert (H : (length (backup_list (sched w)) <= 2)%nat) by (vm_compute; lia).
  split; [exact H|].
  exact (@missing_window_raises Q _ 2%nat 0%Z 0%Q w H).
Defined.

Lemma remove_from_backup_list_filters_witness :
  let w := built two_windows_Q in
  let w' := fst (remove_from_backup_list 0 0%Z 4%Q w) in
  remove_from_backup_list 0 0%Z 4%Q w = (w', Normal tt)
  /\ exists bl,
      nth_error (backup_list (sched w)) 0 = Some bl
      /\ backup_list (sched w')
         = list_set (backup_list (sched w)) 0
                    (filter (fun r => negb (id_at (heap w) r =? 0)%Z) bl)
      /\ (forall bl', nth_error (backup_list (sched w')) 0 = Some bl' ->
                      Forall (fun r => id_at (heap w') r <> 0%Z) bl')
      /\ (forall j, j <> 0%nat ->
                    nth_error (backup_list (sched w')) j
                    = nth_error (backup_list (sched w)) j)
      /\ heap w' = heap w
      /\ pri_schedule (sched w') = pri_schedule (sched w)
      /\ deadlines (sched w') = deadlines (sched w).
Proof.
  intros w w'.
  assert (H : remove_from_backup_list 0 0%Z 4%Q w = (w', Normal tt))
    by (vm_compute; reflexivity).
  split; [exact H|].
  exact (@remove_from_backup_list_filters Q _ 0%nat 0%Z 4%Q w w' H).
Defined.

End ReservationFactsChecks.

(* ================================================================== *)
(** ** The search for an LP core *)

Section FirstFit.
Context {R : Type} {NR : Number R}.

(** Core [j] has no room for a quota [lp] before [limit]. *)
Definition full (cores : list R) (lp limit : R) (j : nat) : Prop :=
  exists c, nth_error cores j = Some c /\ (limit <? c + lp)%num = true.

Lemma probe_eq (fuel : nat) (m : Z) (cores : list R) (lp limit : R)
      (cur : nat) (counter : Z) :
  probe fuel m cores lp limit cur counter
  = match index cores cur with
    | Ok c =>
        if (limit <? c + lp)%num then
          if (m <? counter + 1)%Z then Return false
          else match fuel with
               | O => Timeout
               | S fuel' =>
                   probe fuel' m cores lp limit (next_core m cur) (counter + 1)
               end
        else Normal cur
    | Raise e => Throw e
    end.
Proof. destruct fuel; reflexivity. Qed.

Lemma next_core_mod (n a : nat) :
  (0 < n)%nat ->
  next_core (Z.of_nat n) (a mod n) = (S a mod n)%nat.
Proof.
  intros Hn. unfold next_core.
  pose proof (Nat.mod_upper_bound a n ltac:(lia)) as Hb.
  replace (S a) with (a + 1)%nat by lia.
  rewrite Nat.Div0.add_mod by lia.
  remember (a mod n)%nat as r eqn:Hr. clear Hr.
  destruct (Z.of_nat n <=? Z.of_nat (S r))%Z eqn:E.
  - apply Z.leb_le in E. assert (S r = n) by lia.
    destruct (Nat.eq_dec n 1) as [-> | Hn1].
    + rewrite !Nat.mod_1_r. reflexivity.
    + rewrite (Nat.mod_small 1 n) by lia.
      replace (r + 1)%nat with n by lia. rewrite Nat.Div0.mod_same. reflexivity.
  - apply Z.leb_gt in E.
    destruct (Nat.eq_dec n 1) as [-> | Hn1]; [lia|].
    rewrite (Nat.mod_small 1 n) by lia.
    rewrite (Nat.mod_small (r + 1) n) by lia. symmetry. apply Nat.add_1_r.
Qed.

Lemma cyclic_reach (n c0 j : nat) :
  (c0 < n)%nat -> (j < n)%nat -> exists i, (i < n)%nat /\ ((c0 + i) mod n = j)%nat.
Proof.
  intros Hc Hj. destruct (Nat.le_gt_cases c0 j) as [Hle | Hgt].
  - exists (j - c0)%nat. split; [lia|].
    replace (c0 + (j - c0))%nat with j by lia. apply Nat.mod_small. exact Hj.
  - exists (n + j - c0)%nat. split; [lia|].
    replace (c0 + (n + j - c0))%nat with (j + 1 * n)%nat by lia.
    rewrite Nat.Div0.mod_add. apply Nat.mod_small. exact Hj.
Qed.

(** The loop after [j] cores, starting from [c0] and taken in cyclic order,
    were found full. *)
Lemma probe_cyclic (n c0 : nat) (cores : list R) (lp limit : R) (fuel : nat) :
  length cores = n -> (c0 < n)%nat ->
  forall j,
    (j <= n)%nat -> (n - j <= fuel)%nat ->
    (forall i, (i < j)%nat -> full cores lp limit ((c0 + i) mod n)) ->
    match probe fuel (Z.of_nat n) cores lp limit ((c0 + j) mod n) (Z.of_nat j) with
    | Normal c =>
        exists i, (i <= n)%nat /\ c = ((c0 + i) mod n)%nat
                  /\ (forall i', (i' < i)%nat -> full cores lp limit ((c0 + i') mod n))
                  /\ exists x, nth_error cores c = Some x
                               /\ (limit <? x + lp)%num = false
    | Return b => b = false /\ forall c, (c < n)%nat -> full cores lp limit c
    | _ => False
    end.
Proof.
  intros Hlen Hc0.
  induction fuel as [|fuel IH]; intros j Hj Hf Hfull; rewrite probe_eq;
    (assert (Hcur : ((c0 + j) mod n < length cores)%nat)
       by (rewrite Hlen; apply Nat.mod_upper_bound; lia));
    (destruct (nth_error cores ((c0 + j) mod n)) as [x|] eqn:Hx;
       [|apply nth_error_None in Hx; lia]);
    unfold index; rewrite Hx;
    (destruct (limit <? x + lp)%num eqn:Hroom;
       [|exists j; split; [exact Hj|]; split; [reflexivity|];
         split; [exact Hfull | exists x; auto]]).
  - assert (j = n) by lia. subst j.
    replace (Z.of_nat n <? Z.of_nat n + 1)%Z with true by (symmetry; apply Z.ltb_lt; lia).
    split; [reflexivity|]. intros c Hc.
    destruct (@cyclic_reach n c0 c Hc0 Hc) as (i & Hi & <-). apply Hfull. exact Hi.
  - destruct (Z.of_nat n <? Z.of_nat j + 1)%Z eqn:Hm.
    + apply Z.ltb_lt in Hm. assert (j = n) by lia. subst j.
      split; [reflexivity|]. intros c Hc.
      destruct (@cyclic_reach n c0 c Hc0 Hc) as (i & Hi & <-). apply Hfull. exact Hi.
    + apply Z.ltb_ge in Hm.
      rewrite next_core_mod by lia.
      replace (S (c0 + j)) with (c0 + S j)%nat by lia.
      replace (Z.of_nat j + 1)%Z with (Z.of_nat (S j)) by lia.
      apply IH; try lia.
      intros i Hi. destruct (Nat.eq_dec i j) as [-> | Hne].
      * exists x. auto.
      * apply Hfull. lia.
Qed.

End FirstFit.

Section FirstFitTheorems.
Context {R : Type} {NR : Number R}.

(** X8.  The [while] loop that looks for an LP core is a first fit in
    cyclic order: started at core [cur] of the [m] cores it ends within
    [m + 1] rounds, either on the first core from [cur] onwards that has
    room for the quota, every core passed on the way being full, or with
    [return False], and then no core at all has room. *)
Theorem probe_first_fit (m : Z) (cores : list R) (lp limit : R) (cur : nat) :
  length cores = Z.to_nat m -> (cur < length cores)%nat ->
  match probe (Z.to_nat m) m cores lp limit cur 0 with
  | Normal c =>
      exists i, c = ((cur + i) mod length cores)%nat
                /\ (forall i', (i' < i)%nat ->
                               full cores lp limit ((cur + i') mod length cores))
                /\ exists x, nth_error cores c = Some x
                             /\ (limit <? x + lp)%num = false
  | Return b => b = false /\ forall c, (c < length cores)%nat -> full cores lp limit c
  | _ => False
  end.
Proof.
  intros Hlen Hcur.
  pose proof (@probe_cyclic R NR (length cores) cur cores lp limit (Z.to_nat m)
                eq_refl Hcur 0%nat) as P.
  rewrite Nat.add_0_r, Nat.mod_small in P by exact Hcur.
  replace (Z.of_nat (length cores)) with m in P by lia.
  change (Z.of_nat 0) with 0%Z in P.
  specialize (P ltac:(lia) ltac:(lia) ltac:(intros i Hi; lia)).
  destruct (probe (Z.to_nat m) m cores lp limit cur 0) as [c|b|e|]; try exact P.
  destruct P as (i & _ & P). exists i. exact P.
Qed.

End FirstFitTheorems.

Module FirstFitChecks.
Import ExactNum.

Lemma probe_first_fit_witness :
  length [9%Q; 3%Q; 10%Q] = Z.to_nat 3
  /\ (2 < length [9%Q; 3%Q; 10%Q])%nat
  /\ probe (Z.to_nat 3) 3 [9%Q; 3%Q; 10%Q] 2%Q 10%Q 2 0 = Normal 1%nat
  /\ exists i, 1%nat = ((2 + i) mod length [9%Q; 3%Q; 10%Q])%nat
               /\ (forall i', (i' < i)%nat ->
                     full [9%Q; 3%Q; 10%Q] 2%Q 10%Q
                          ((2 + i') mod length [9%Q; 3%Q; 10%Q]))
               /\ exists x, nth_error [9%Q; 3%Q; 10%Q] 1 = Some x
                            /\ (10%Q <? x + 2%Q)%num = false.
Proof.
  assert (H1 : length [9%Q; 3%Q; 10%Q] = Z.to_nat 3) by reflexivity.
  assert (H2 : (2 < length [9%Q; 3%Q; 10%Q])%nat) by (simpl; lia).
  assert (H3 : probe (Z.to_nat 3) 3 [9%Q; 3%Q; 10%Q] 2%Q 10%Q 2 0 = Normal 1%nat)
    by (vm_compute; reflexivity).
  repeat (split; [assumption|]).
  pose proof (@probe_first_fit Q _ 3%Z [9%Q; 3%Q; 10%Q] 2%Q 10%Q 2%nat H1 H2) as P.
  rewrite H3 in P. exact P.
Defined.

End FirstFitChecks.

(* ================================================================== *)
(** ** The primary schedule: slots inside the window, one per task *)

(** What the end of a window as the builder computes it, [start_window +
    time_window], comes to in exact arithmetic. *)
Class AdditionLaws (R : Type) {NR : Number R} : Prop := {
  num_zero_add_le : forall a : R, (of_int 0 + a <=? a)%num = true;
  num_add_sub_le : forall a b : R, (a + (b - a) <=? b)%num = true
}.

Arguments AdditionLaws R {NR}.

Module ExactAddition.
Import ExactNum.

#[export] Instance Q_Addition : AdditionLaws Q.
Proof.
  constructor; cbn [of_int num_add num_sub num_le Q_Number].
  - intros a. apply Qle_bool_iff. rewrite Qred_correct. unfold inject_Z. lra.
  - intros a b. apply Qle_bool_iff. rewrite !Qred_correct. lra.
Qed.

End ExactAddition.

Section PrimarySlots.
Context {R : Type} {NR : Number R} {L : NumberLaws R} {LA : AdditionLaws R}.

(** An item [((start, core), task)] of the primary map of window [i] is a
    slot on an LP core: it starts at [start] and, with the quota the task
    has for the window, ends at [finish]. *)
Definition start_of (e : Key R * ref) : R := fst (fst e).
Definition core_of (e : Key R * ref) : nat := snd (fst e).
Definition finish (h : list (Task R)) (i : nat) (e : Key R * ref) : R :=
  (start_of e + quota_at h i (snd e))%num.

(** Two slots do not meet: they are on different cores, or one has ended
    when the other starts. *)
Definition apart (h : list (Task R)) (i : nat) (e1 e2 : Key R * ref) : Prop :=
  core_of e1 <> core_of e2
  \/ le_num (finish h i e1) (start_of e2)
  \/ le_num (finish h i e2) (start_of e1).

(** [start_window] of window [i]. *)
Definition window_start (ds : list R) (i : nat) : R :=
  match i with
  | O => of_int 0
  | S j => nth j ds (of_int 0)
  end.

Lemma lt_le_num_trans (a b c : R) : lt_num a b -> le_num b c -> lt_num a c.
Proof.
  intros H1 H2. apply num_lt_true. apply num_lt_true in H1.
  destruct (c <=? a)%num eqn:E; [|reflexivity].
  assert (le_num b a) by (eapply num_le_trans; eassumption).
  unfold le_num in *. congruence.
Qed.

Lemma roundUpTimeStep_at_least (s : EnSuRe_Scheduler R) (v out : R) :
  roundUpTimeStep s v = Ok out -> le_num (time_step s) out.
Proof.
  unfold roundUpTimeStep. intros H.
  destruct (truediv v (time_step s)) as [q|e]; [|discriminate]. simpl in H.
  destruct (ceil q) as [c|e]; [|discriminate]. simpl in H.
  destruct (round_to (of_int c * time_step s) (precision_dp s) <? time_step s)%num eqn:E;
    inversion H; subst.
  - apply num_le_refl.
  - unfold le_num. rewrite num_lt_le in E. apply negb_false_iff in E. exact E.
Qed.

Lemma probe_normal (fuel : nat) (m : Z) (cores : list R) (lp limit : R) :
  forall (cur : nat) (counter : Z) (c : nat),
    probe fuel m cores lp limit cur counter = Normal c ->
    exists x, nth_error cores c = Some x /\ (limit <? x + lp)%num = false.
Proof.
  induction fuel as [|fuel IH]; intros cur counter c; rewrite probe_eq;
    destruct (index cores cur) as [x|e] eqn:E; try discriminate;
    destruct (limit <? x + lp)%num eqn:Hx;
    try (intros H; inversion H; subst; exists x;
         split; [apply index_ok; exact E | exact Hx]);
    destruct (m <? counter + 1)%Z; try discriminate.
  apply IH.
Qed.

Lemma quota_at_set_start (h : list (Task R)) (t : ref) (tk : Task R) (c : R)
      (i : nat) (r : ref) :
  nth_error h t = Some tk ->
  quota_at (list_set h t (setStartTime tk c)) i r = quota_at h i r.
Proof.
  intros H. unfold quota_at. destruct (Nat.eq_dec t r) as [<-|Hne].
  - rewrite list_set_same by (apply nth_error_Some; congruence). rewrite H. reflexivity.
  - rewrite list_set_other by exact Hne. reflexivity.
Qed.

Lemma quota_at_stable (w w' : World R) (i : nat) (r : ref) :
  heap_stable w w' -> task_ok (heap w) i r ->
  quota_at (heap w') i r = quota_at (heap w) i r.
Proof.
  intros S (t & Ht & _). destruct (S r t Ht) as (t' & Ht' & _ & _ & _ & Q & _).
  unfold quota_at. rewrite Ht, Ht', Q. reflexivity.
Qed.

Lemma Forall_list_set {A} (P : A -> Prop) (l : list A) (i : nat) (v : A) :
  Forall P l -> P v -> Forall P (list_set l i v).
Proof.
  intros F Hv. revert i. induction F as [|a l Ha F IH]; intros [|i]; simpl;
    try constructor; auto.
Qed.

(** A key that no item of the map has is added behind the others. *)
Lemma dict_set_fresh (key : Key R) (v : ref) (d : list (Key R * ref)) :
  (forall e, In e d -> key_eqb (fst e) key = false) ->
  dict_set key_eqb key v d = d ++ [(key, v)].
Proof.
  induction d as [|[k' v'] d IH]; intros H; simpl; [reflexivity|].
  pose proof (H (k', v') (or_introl eq_refl)) as X. cbn [fst] in X. rewrite X.
  f_equal. apply IH.
  intros e He. apply H. right. exact He.
Qed.

(** The primary map [d] of window [i] and the local [pri_cores] after the
    tasks [placed] were packed: every core is free from a time on that is
    not before the window starts; every slot starts in the window, ends
    within [limit] and before its core is free again; no two slots meet. *)
Record packed_so_far (h : list (Task R)) (i : nat) (sw limit : R)
       (cores : list R) (placed : list ref) (d : list (Key R * ref)) : Prop := {
  psf_cores : Forall (le_num sw) cores;
  psf_tasks : map snd d = placed;
  psf_items : Forall (fun e => le_num sw (start_of e)
                               /\ le_num (finish h i e) limit
                               /\ exists c, nth_error cores (core_of e) = Some c
                                            /\ le_num (finish h i e) c
                                            /\ lt_num (start_of e) c) d;
  psf_apart : forall e1 e2, In e1 d -> In e2 d -> e1 = e2 \/ apart h i e1 e2
}.

Lemma packed_step (h : list (Task R)) (i : nat) (sw limit : R) (cores : list R)
      (placed : list ref) (d : list (Key R * ref)) (t : ref) (tk : Task R)
      (lp c : R) (cur : nat) :
  packed_so_far h i sw limit cores placed d ->
  nth_error h t = Some tk ->
  nth_error (workload_quota tk) i = Some lp ->
  lt_num (of_int 0) lp ->
  nth_error cores cur = Some c ->
  (limit <? c + lp)%num = false ->
  packed_so_far (list_set h t (setStartTime tk c)) i sw limit
                (list_set cores cur (c + lp)%num) (placed ++ [t])
                (dict_set key_eqb (c, cur) t d).
Proof.
  intros [P1 P2 P3 P4] Ht Hq Hlp Hc Hroom.
  assert (Hcur : (cur < length cores)%nat) by (apply nth_error_Some; congruence).
  assert (Hsw : le_num sw c).
  { rewrite Forall_forall in P1. apply P1. eapply nth_error_In. exact Hc. }
  assert (Hup : lt_num c (c + lp)%num) by (apply num_add_step; exact Hlp).
  assert (Hlim : le_num (c + lp)%num limit).
  { unfold le_num. rewrite num_lt_le in Hroom. apply negb_false_iff in Hroom.
    exact Hroom. }
  rewrite Forall_forall in P3.
  assert (Hfresh : forall e, In e d -> key_eqb (fst e) (c, cur) = false).
  { intros e He. destruct (P3 e He) as (_ & _ & c0 & Hc0 & _ & Hlt).
    unfold key_eqb. cbn [fst snd]. destruct (Nat.eqb (snd (fst e)) cur) eqn:En.
    - apply Nat.eqb_eq in En. unfold core_of in Hc0. rewrite En, Hc in Hc0.
      inversion Hc0; subst c0. unfold start_of in Hlt.
      rewrite (lt_num_not_eq Hlt). reflexivity.
    - apply andb_false_r. }
  rewrite dict_set_fresh by exact Hfresh.
  assert (Hfin : forall e, finish (list_set h t (setStartTime tk c)) i e = finish h i e).
  { intros e. unfold finish. rewrite quota_at_set_start by exact Ht. reflexivity. }
  assert (Hnew : finish h i ((c, cur), t) = (c + lp)%num).
  { unfold finish, start_of, quota_at. cbn [fst snd]. rewrite Ht.
    rewrite (nth_error_nth _ _ _ Hq). reflexivity. }
  constructor.
  - apply Forall_list_set; [exact P1|].
    eapply num_le_trans; [exact Hsw | apply lt_num_le; exact Hup].
  - rewrite map_app, P2. reflexivity.
  - apply Forall_app. split.
    + apply Forall_forall. intros e He.
      destruct (P3 e He) as (A & B & c0 & Hc0 & C & D).
      rewrite Hfin. split; [exact A|]. split; [exact B|].
      destruct (Nat.eq_dec (core_of e) cur) as [E|E].
      * rewrite E in *. rewrite Hc in Hc0. inversion Hc0; subst c0.
        exists (c + lp)%num. split; [apply list_set_same; exact Hcur|]. split.
        -- eapply num_le_trans; [exact C | apply lt_num_le; exact Hup].
        -- eapply lt_le_num_trans; [exact D | apply lt_num_le; exact Hup].
      * exists c0. split; [rewrite list_set_other by congruence; exact Hc0|].
        split; assumption.
    + constructor; [|constructor]. rewrite Hfin.
      change (finish h i (c, cur, t)) with (finish h i ((c, cur), t)).
      rewrite Hnew.
      cbn [start_of core_of fst snd]. split; [exact Hsw|]. split; [exact Hlim|].
      exists (c + lp)%num. split; [apply list_set_same; exact Hcur|].
      split; [apply num_le_refl | exact Hup].
  - assert (Hside : forall e, In e d ->
                      core_of e <> cur \/ le_num (finish h i e) c).
    { intros e He. destruct (P3 e He) as (_ & _ & c0 & Hc0 & C & _).
      destruct (Nat.eq_dec (core_of e) cur) as [E|E]; [right | left; exact E].
      rewrite E, Hc in Hc0. inversion Hc0; subst c0. exact C. }
    intros e1 e2 H1 H2. apply in_app_or in H1, H2. unfold apart. rewrite !Hfin.
    destruct H1 as [H1|[<-|[]]]; destruct H2 as [H2|[<-|[]]].
    + exact (P4 e1 e2 H1 H2).
    + right. cbn [start_of core_of fst snd].
      destruct (Hside e1 H1) as [X|X]; [left; exact X | right; left; exact X].
    + right. cbn [start_of core_of fst snd].
      destruct (Hside e2 H2) as [X|X]; [left; congruence | right; right; exact X].
    + left. reflexivity.
Qed.

(** The invariant along [for t in tasksA]. *)
Lemma fold_place_slots (i : nat) (sw tw : R) (tasksA : list ref) :
  forall (st st' : list R * nat) (w w' : World R) (placed : list ref)
         (d : list (Key R * ref)),
    for_fold tasksA st (place i sw tw) w = (w', Normal st') ->
    Forall (fun r => lt_num (of_int 0) (quota_at (heap w) i r)) tasksA ->
    dict_get Nat.eqb i (pri_schedule (sched w)) = Ok d ->
    packed_so_far (heap w) i sw (sw + tw)%num (fst st) placed d ->
    exists d',
      dict_get Nat.eqb i (pri_schedule (sched w')) = Ok d'
      /\ packed_so_far (heap w') i sw (sw + tw)%num (fst st') (placed ++ tasksA) d'.
Proof.
  induction tasksA as [|t tasksA IH]; intros st st' w w' placed d H Hpos Hd P;
    simpl in H.
  - inversion H; subst. exists d. rewrite app_nil_r. auto.
  - unbind_normal H as w1 st1 E. apply place_normal in E.
    destruct E as (tk & lp & cur & c & d0 & ds & di & Htk & Hlp & Hprobe & Hc & Hd0
                   & Hds & Hdi & -> & ->).
    assert (d0 = d) by congruence. subst d0.
    apply probe_normal in Hprobe. destruct Hprobe as (x & Hx & Hroom).
    assert (x = c) by congruence. subst x.
    unfold getWorkloadQuota in Hlp. apply index_ok in Hlp.
    inversion Hpos as [|t0 l0 Hpt Hrest]; subst.
    assert (Hq : quota_at (heap w) i t = lp).
    { unfold quota_at. rewrite Htk. apply nth_error_nth. exact Hlp. }
    rewrite Hq in Hpt.
    eapply IH with (placed := placed ++ [t]) in H.
    + destruct H as (d' & Hd' & P'). exists d'. split; [exact Hd'|].
      rewrite <- app_assoc in P'. exact P'.
    + cbn [heap with_tasksList with_heap with_sched].
      eapply Forall_impl; [|exact Hrest]. intros r Hr.
      rewrite quota_at_set_start by exact Htk. exact Hr.
    + cbn [sched with_tasksList with_heap with_sched pri_schedule set_pri_schedule].
      apply dict_get_set_same.
    + cbn [heap with_tasksList with_heap with_sched fst].
      eapply packed_step; eassumption.
Qed.

Lemma lp_pack_slots (i : nat) (sw tw : R) (tasksA : list ref)
      (st : list R * nat) (w w' : World R) :
  lp_pack i sw tw w = (w', Normal (tasksA, st)) ->
  Forall (fun t => lt_num (of_int 0) (nth i (workload_quota t) (of_int 0)))
         (tasksList w) ->
  exists d,
    dict_get Nat.eqb i (pri_schedule (sched w')) = Ok d
    /\ packed_so_far (heap w') i sw (sw + tw)%num (fst st) tasksA d.
Proof.
  intros H Hpos. unfold lp_pack in H. rewrite bind_gets in H.
  unbind_normal H as w1 refs E1. unfold deepcopy_tasks in E1.
  inversion E1; subst w1 refs. clear E1.
  unbind_normal H as w1 tA E2. apply sort_by_wq_normal in E2. destruct E2 as [-> ->].
  erewrite bind_eq in H by apply pri_schedule_put_world.
  unbind_normal H as w1 st1 E3. inversion H; subst w1 st1 tasksA. clear H.
  eapply fold_place_slots with (placed := []) (d := []) in E3.
  - exact E3.
  - cbn [heap with_heap with_sched]. apply Forall_forall. intros r Hr.
    assert (Hin : In r (seq (length (heap w)) (length (tasksList w)))).
    { eapply Permutation_in; [apply Permutation_sym, sorted_refs_perm | exact Hr]. }
    apply in_seq in Hin.
    destruct (nth_error (tasksList w) (r - length (heap w))) as [t|] eqn:Et.
    2:{ apply nth_error_None in Et. lia. }
    unfold quota_at. rewrite nth_error_app2 by lia. rewrite Et.
    rewrite Forall_forall in Hpos. apply Hpos. eapply nth_error_In. exact Et.
  - cbn [sched with_heap with_sched pri_schedule set_pri_schedule].
    apply dict_get_set_same.
  - cbn [fst]. constructor.
    + apply Forall_forall. intros x Hx. apply repeat_spec in Hx. subst x.
      apply num_le_refl.
    + reflexivity.
    + constructor.
    + intros e1 e2 [].
Qed.

Lemma window_bounds_value (i : nat) (w w' : World R) (b : R * R) (ds : list R) :
  window_bounds i w = (w', Normal b) ->
  deadlines (sched w) = Some ds ->
  snd b = window_start ds i /\ le_num (snd b + fst b)%num (nth i ds (of_int 0)).
Proof.
  intros H Hds. unfold window_bounds in H.
  unbind_normal H as w1 ds' E. apply self_deadlines_normal in E. destruct E as [-> Hds'].
  assert (ds' = ds) by congruence. subst ds'.
  destruct i as [|j].
  - unbind_normal H as w1 d E. apply lift_inv_normal in E. destruct E as [-> Hd].
    apply index_ok in Hd. inversion H; subst. cbn [fst snd window_start].
    split; [reflexivity|]. rewrite (nth_error_nth _ _ _ Hd). apply num_zero_add_le.
  - unbind_normal H as w1 d E. apply lift_inv_normal in E. destruct E as [-> Hd].
    unbind_normal H as w1 p E. apply lift_inv_normal in E. destruct E as [-> Hp].
    apply index_ok in Hd, Hp. inversion H; subst. cbn [fst snd window_start].
    rewrite (nth_error_nth _ _ _ Hd), (nth_error_nth _ _ _ Hp).
    split; [reflexivity | apply num_add_sub_le].
Qed.

Lemma quotas_added_positive (s : EnSuRe_Scheduler R) (tw : R) (n : nat)
      (tl tl' : list (Task R)) :
  lt_num (of_int 0) (time_step s) ->
  Forall2 (quotas_added s tw) tl tl' ->
  Forall (quota_len n) tl ->
  Forall (fun t => lt_num (of_int 0) (nth n (workload_quota t) (of_int 0))) tl'.
Proof.
  intros Hts. induction 1 as [|t t' tl tl' (wq & bwq & Hw & _ & ->) F IH]; intros Hl.
  - constructor.
  - inversion Hl as [|t0 l0 Hq0 Hr]; subst. destruct Hq0 as [Ht _].
    constructor; [|apply IH; exact Hr].
    cbn [workload_quota setBackupWorkloadQuota setWorkloadQuota].
    rewrite app_nth2 by lia. rewrite Ht, Nat.sub_diag. cbn [nth].
    eapply lt_le_num_trans; [exact Hts | apply roundUpTimeStep_at_least in Hw; exact Hw].
Qed.

(** The slots of a window: what holds of the items of its primary map. *)
Definition slots (h : list (Task R)) (m : nat) (ds : list R) (j : nat)
           (bl : list ref) (items : list (Key R * ref)) : Prop :=
  Forall (fun e => (core_of e < m)%nat
                   /\ task_ok h j (snd e)
                   /\ le_num (window_start ds j) (start_of e)
                   /\ le_num (finish h j e) (nth j ds (of_int 0))) items
  /\ (forall e1 e2, In e1 items -> In e2 items -> e1 = e2 \/ apart h j e1 e2)
  /\ Permutation (map snd items) bl.

Lemma slots_stable (w w' : World R) (m : nat) (ds : list R) (j : nat)
      (bl : list ref) (items : list (Key R * ref)) :
  heap_stable w w' -> slots (heap w) m ds j bl items -> slots (heap w') m ds j bl items.
Proof.
  intros S (F & A & P). rewrite Forall_forall in F.
  assert (Hfin : forall e, In e items -> finish (heap w') j e = finish (heap w) j e).
  { intros e He. unfold finish. destruct (F e He) as (_ & T & _).
    rewrite (quota_at_stable S T). reflexivity. }
  split; [|split; [|exact P]].
  - apply Forall_forall. intros e He. destruct (F e He) as (F1 & F2 & F3 & F4).
    rewrite (Hfin e He). repeat split; try assumption.
    eapply task_ok_stable; eassumption.
  - intros e1 e2 H1 H2. unfold apart. rewrite (Hfin e1 H1), (Hfin e2 H2).
    exact (A e1 e2 H1 H2).
Qed.

Lemma schedule_window_slots (n : nat) (w w' : World R) (ds : list R) :
  schedule_window n w = (w', Normal tt) ->
  deadlines (sched w) = Some ds ->
  tasksList w <> [] ->
  Forall (quota_len n) (tasksList w) ->
  lt_num (of_int 0) (time_step (sched w)) ->
  exists items tasksA,
    dict_get Nat.eqb n (pri_schedule (sched w')) = Ok items
    /\ backup_list (sched w') = backup_list (sched w) ++ [tasksA]
    /\ slots (heap w') (Z.to_nat (m_pri (sched w))) ds n tasksA items.
Proof.
  intros H Hds Hne Hlen Hts.
  pose proof H as HE. apply schedule_window_entries in HE; [|exact Hne].
  destruct HE as (items & tasksA & Hi & _ & Fe & Ft & Hbl & _).
  exists items, tasksA. split; [exact Hi|]. split; [exact Hbl|].
  unfold schedule_window in H.
  unbind_normal H as w1 b E1.
  pose proof E1 as Hb. apply window_bounds_value with (ds := ds) in Hb; [|exact Hds].
  destruct Hb as [Hsw Hlim].
  apply window_bounds_normal in E1. destruct E1 as (-> & _).
  unbind_normal H as w2 total E2. rewrite assign_quotas_world in E2.
  apply lift_inv_normal in E2. destruct E2 as [-> Hq].
  rewrite bind_gets in H. cbn [sched with_tasksList] in H.
  destruct (total <=? fst b * of_int (m_pri (sched w)))%num; [|inversion H].
  unbind_normal H as wp packed EP. destruct packed as [tasksA' st].
  assert (Hpos : Forall (fun t => lt_num (of_int 0) (nth n (workload_quota t) (of_int 0)))
                        (fst (set_quotas (sched w) (fst b) (tasksList w) (of_int 0)))).
  { destruct (set_quotas (sched w) (fst b) (tasksList w) (of_int 0)) as [tl1 o] eqn:Q.
    simpl in Hq. subst o. apply set_quotas_ok in Q. simpl.
    eapply quotas_added_positive; eassumption. }
  pose proof EP as ES. apply lp_pack_slots in ES; [|exact Hpos].
  destruct ES as (d & Hd & PS).
  unbind_normal H as w3 d0 E3. apply pri_schedule_at_normal in E3.
  destruct E3 as [-> Hd0]. assert (d0 = d) by congruence. subst d0.
  erewrite bind_eq in H by apply pri_schedule_put_world.
  unbind_normal H as w3 c0 E4. apply lift_inv_normal in E4. destruct E4 as [-> _].
  rewrite bind_gets, bind_modify in H.
  cbn [sched with_sched set_pri_schedule backup_list] in H.
  pose proof H as HB.
  apply update_BB_overloading_normal in H. destruct H as [x ->].
  cbn [sched with_sched heap pri_schedule backup_list set_backup_start
       set_backup_list set_pri_schedule] in *.
  rewrite dict_get_set_same in Hi. inversion Hi; subst items. clear Hi.
  apply lp_pack_same_reservation in EP. unfold unchanged, reservation in EP.
  cbn [sched with_tasksList] in EP. inversion EP as [[B1 B2]].
  rewrite B1 in Hbl. apply app_inv_head in Hbl. inversion Hbl; subst tasksA'.
  pose proof (sort_asc_perm (fun a b0 : Key R * ref => key_ltb (fst a) (fst b0)) d) as P.
  destruct PS as [P1 P2 P3 P4].
  rewrite Forall_forall in P3, Fe, Ft.
  split; [|split].
  - apply Forall_forall. intros e He.
    assert (Hed : In e d) by (eapply Permutation_in; [apply Permutation_sym, P | exact He]).
    destruct (P3 e Hed) as (A & B & _). destruct (Fe e He) as [C D].
    split; [exact C|]. split; [apply Ft; exact D|]. split.
    + rewrite <- Hsw. exact A.
    + eapply num_le_trans; [exact B | exact Hlim].
  - intros e1 e2 H1 H2. apply P4; eapply Permutation_in;
      try (apply Permutation_sym, P); assumption.
  - rewrite <- P2. apply Permutation_sym, Permutation_map, P.
Qed.

(** The windows [generate_schedule] has scheduled on a fresh scheduler. *)
Lemma first_windows_slots (w : World R) :
  fresh w ->
  lt_num (of_int 0) (time_step (sched w)) ->
  forall n wn,
    first_windows n w = (wn, Normal tt) ->
    time_step (sched wn) = time_step (sched w)
    /\ m_pri (sched wn) = m_pri (sched w)
    /\ length (backup_list (sched wn)) = n
    /\ forall j, (j < n)%nat ->
         exists items bl,
           dict_get Nat.eqb j (pri_schedule (sched wn)) = Ok items
           /\ nth_error (backup_list (sched wn)) j = Some bl
           /\ slots (heap wn) (Z.to_nat (m_pri (sched w)))
                    (deadline_sequence (tasksList w)) j bl items.
Proof.
  intros Hf Hts.
  apply (first_windows_ind
           (fun n wn =>
              time_step (sched wn) = time_step (sched w)
              /\ m_pri (sched wn) = m_pri (sched w)
              /\ length (backup_list (sched wn)) = n
              /\ forall j, (j < n)%nat ->
                   exists items bl,
                     dict_get Nat.eqb j (pri_schedule (sched wn)) = Ok items
                     /\ nth_error (backup_list (sched wn)) j = Some bl
                     /\ slots (heap wn) (Z.to_nat (m_pri (sched w)))
                              (deadline_sequence (tasksList w)) j bl items)).
  - split; [reflexivity|]. split; [reflexivity|]. split.
    + destruct Hf as (_ & Hb & _). cbn. rewrite Hb. reflexivity.
    + intros j Hj. lia.
  - intros n wn wn' (P1 & P2 & P3 & P4) E1 E2.
    pose proof E1 as Hds. apply first_windows_deadlines in Hds.
    pose proof E1 as Hr. apply first_windows_ready in Hr; [|exact Hf].
    destruct Hr as [_ Hlen].
    pose proof (@first_windows_remaining _ _ _ (tasksList w) w eq_refl n wn E1)
      as [_ Hrem].
    pose proof E2 as Hst. apply schedule_window_heap_stable in Hst.
    pose proof E2 as Hun.
    apply schedule_window_unchanged
      with (F := fun x => (time_step (sched x), m_pri (sched x))) in Hun;
      try (intros x f; reflexivity).
    inversion Hun as [[U1 U2]].
    pose proof E2 as Hw. unfold schedule_window in Hw.
    unbind_normal Hw as w0 b E0. apply window_bounds_normal in E0.
    destruct E0 as (_ & ds & di & Hds' & Hdi). clear Hw.
    assert (ds = deadline_sequence (tasksList w)) by congruence. subst ds.
    assert (Hne : tasksList wn <> []).
    { intros X. apply (remaining_nonempty _ _ Hdi). rewrite <- Hrem, X. reflexivity. }
    pose proof E2 as HO. apply schedule_window_entries in HO; [|exact Hne].
    destruct HO as (it0 & tA0 & _ & _ & _ & _ & _ & Ho).
    apply schedule_window_slots with (ds := deadline_sequence (tasksList w)) in E2;
      [|exact Hds|exact Hne|exact Hlen|rewrite P1; exact Hts].
    destruct E2 as (items & tasksA & Hi & Hbl & Hs).
    split; [congruence|]. split; [congruence|]. split.
    + rewrite Hbl, length_app, P3. simpl. lia.
    + intros j Hj. destruct (Nat.eq_dec j n) as [-> | Hjn].
      * exists items, tasksA. split; [exact Hi|]. split.
        -- rewrite Hbl, nth_error_app2 by lia. rewrite P3, Nat.sub_diag. reflexivity.
        -- rewrite <- P2. exact Hs.
      * destruct (P4 j) as (it & bl & Hit & Hb & Hsl); [lia|].
        exists it, bl. split; [rewrite Ho by exact Hjn; exact Hit|]. split.
        -- rewrite Hbl, nth_error_app1 by lia. exact Hb.
        -- eapply slots_stable; eassumption.
Qed.

Lemma generate_schedule_slots (w w' : World R) (j : nat) :
  fresh w ->
  lt_num (of_int 0) (time_step (sched w)) ->
  generate_schedule w = (w', Return true) ->
  (j < length (deadline_sequence (tasksList w)))%nat ->
  m_pri (sched w') = m_pri (sched w)
  /\ exists items bl,
      dict_get Nat.eqb j (pri_schedule (sched w')) = Ok items
      /\ nth_error (backup_list (sched w')) j = Some bl
      /\ slots (heap w') (Z.to_nat (m_pri (sched w)))
               (deadline_sequence (tasksList w)) j bl items.
Proof.
  intros Hf Hts H Hj. rewrite generate_schedule_eq in H.
  unbind H as w1 u E; try discriminate.
  - apply exit_inv in H. destruct H as [-> _]. destruct u.
    pose proof E as X. apply first_windows_slots in X; [|exact Hf|exact Hts].
    destruct X as (_ & M & _ & S).
    split; [exact M | apply S; exact Hj].
  - exfalso. revert E. rewrite first_windows_eq.
    apply never_returns_for_each. intros i.
    apply schedule_window_never_returns_true.
Qed.

End PrimarySlots.

Section PrimarySlotsTheorems.
Context {R : Type} {NR : Number R} {L : NumberLaws R} {LA : AdditionLaws R}.

(** X9.  In the schedule that [generate_schedule] builds on a new scheduler
    from new tasks, with a positive time step, every item of the primary map
    of a window names one of the [m_pri] LP cores and an existing task with a
    quota for the window, starts no earlier than the window and, run for
    that quota, ends no later than the window's deadline. *)
Theorem primary_slots_inside_window (w w' : World R) (j : nat) (dj : R) :
  fresh w ->
  lt_num (of_int 0) (time_step (sched w)) ->
  generate_schedule w = (w', Return true) ->
  nth_error (deadline_sequence (tasksList w)) j = Some dj ->
  exists items,
    dict_get Nat.eqb j (pri_schedule (sched w')) = Ok items
    /\ Forall (fun e =>
                 (core_of e < Z.to_nat (m_pri (sched w')))%nat
                 /\ task_ok (heap w') j (snd e)
                 /\ le_num (window_start (deadline_sequence (tasksList w)) j)
                           (start_of e)
                 /\ le_num (finish (heap w') j e) dj) items.
Proof.
  intros Hf Hts H Hd.
  assert (Hj : (j < length (deadline_sequence (tasksList w)))%nat)
    by (apply nth_error_Some; congruence).
  pose proof (@generate_schedule_slots R NR L LA w w' j Hf Hts H Hj)
    as (M & items & bl & Hi & _ & F & _).
  exists items. split; [exact Hi|]. rewrite M.
  rewrite (nth_error_nth _ _ (of_int 0) Hd) in F. exact F.
Qed.

(** X10.  In that schedule no LP core is given two primary copies at once:
    two different items of the primary map of a window are on different
    cores, or one has ended when the other starts. *)
Theorem primary_slots_never_overlap (w w' : World R) (j : nat)
        (items : list (Key R * ref)) (e1 e2 : Key R * ref) :
  fresh w ->
  lt_num (of_int 0) (time_step (sched w)) ->
  generate_schedule w = (w', Return true) ->
  (j < length (deadline_sequence (tasksList w)))%nat ->
  dict_get Nat.eqb j (pri_schedule (sched w')) = Ok items ->
  In e1 items -> In e2 items ->
  e1 = e2 \/ apart (heap w') j e1 e2.
Proof.
  intros Hf Hts H Hj Hi H1 H2.
  pose proof (@generate_schedule_slots R NR L LA w w' j Hf Hts H Hj)
    as (_ & items' & bl & Hi' & _ & _ & A & _).
  assert (items' = items) by congruence. subst items'.
  exact (A e1 e2 H1 H2).
Qed.

(** X11.  In that schedule the primary map of a window holds exactly one
    item for each task of the window's backup list: the tasks of the items
    are a permutation of the backup list. *)
Theorem primary_slots_cover_backup_list (w w' : World R) (j : nat) :
  fresh w ->
  lt_num (of_int 0) (time_step (sched w)) ->
  generate_schedule w = (w', Return true) ->
  (j < length (deadline_sequence (tasksList w)))%nat ->
  exists items bl,
    dict_get Nat.eqb j (pri_schedule (sched w')) = Ok items
    /\ nth_error (backup_list (sched w')) j = Some bl
    /\ Permutation (map snd items) bl.
Proof.
  intros Hf Hts H Hj.
  pose proof (@generate_schedule_slots R NR L LA w w' j Hf Hts H Hj)
    as (_ & items & bl & Hi & Hb & _ & _ & P).
  exists items, bl. auto.
Qed.

End PrimarySlotsTheorems.

Module PrimarySlotsChecks.
Import Scenarios ExactNum ExactLaws ExactAddition.

Lemma primary_slots_inside_window_witness :
  let w := start two_windows_Q in
  let w' := built two_windows_Q in
  fresh w
  /\ lt_num (of_int 0) (time_step (sched w))
  /\ generate_schedule w = (w', Return true)
  /\ nth_error (deadline_sequence (tasksList w)) 0 = Some 10%Q
  /\ exists items,
      dict_get Nat.eqb 0%nat (pri_schedule (sched w')) = Ok items
      /\ Forall (fun e =>
                   (core_of e < Z.to_nat (m_pri (sched w')))%nat
                   /\ task_ok (heap w') 0 (snd e)
                   /\ le_num (window_start (deadline_sequence (tasksList w)) 0)
                             (start_of e)
                   /\ le_num (finish (heap w') 0 e) 10%Q) items.
Proof.
  intros w w'.
  assert (H1 : fresh w) by exact ScheduleChecks.two_windows_fresh.
  assert (H2 : lt_num (of_int 0) (time_step (sched w))) by (vm_compute; reflexivity).
  assert (H3 : generate_schedule w = (w', Return true)) by (vm_compute; reflexivity).
  assert (H4 : nth_error (deadline_sequence (tasksList w)) 0 = Some 10%Q)
    by (vm_compute; reflexivity).
  repeat (split; [assumption|]).
  exact (@primary_slots_inside_window Q _ Q_Laws Q_Addition w w' 0%nat 10%Q
           H1 H2 H3 H4).
Defined.

Lemma primary_slots_never_overlap_witness :
  let w := start two_windows_Q in
  let w' := built two_windows_Q in
  let e1 : Key Q * ref := ((0%Q, 0%nat), 0%nat) in
  let e2 : Key Q * ref := ((4%Q, 0%nat), 1%nat) in
  fresh w
  /\ lt_num (of_int 0) (time_step (sched w))
  /\ generate_schedule w = (w', Return true)
  /\ (0 < length (deadline_sequence (tasksList w)))%nat
  /\ dict_get Nat.eqb 0%nat (pri_schedule (sched w')) = Ok [e1; e2]
  /\ In e1 [e1; e2]
  /\ In e2 [e1; e2]
  /\ (e1 = e2 \/ apart (heap w') 0 e1 e2).
Proof.
  intros w w' e1 e2.
  assert (H1 : fresh w) by exact ScheduleChecks.two_windows_fresh.
  assert (H2 : lt_num (of_int 0) (time_step (sched w))) by (vm_compute; reflexivity).
  assert (H3 : generate_schedule w = (w', Return true)) by (vm_compute; reflexivity).
  assert (H4 : (0 < length (deadline_sequence (tasksList w)))%nat)
    by (vm_compute; lia).
  assert (H5 : dict_get Nat.eqb 0%nat (pri_schedule (sched w')) = Ok [e1; e2])
    by (vm_compute; reflexivity).
  assert (H6 : In e1 [e1; e2]) by (left; reflexivity).
  assert (H7 : In e2 [e1; e2]) by (right; left; reflexivity).
  repeat (split; [assumption|]).
  exact (@primary_slots_never_overlap Q _ Q_Laws Q_Addition w w' 0%nat [e1; e2]
           e1 e2 H1 H2 H3 H4 H5 H6 H7).
Defined.

Lemma primary_slots_cover_backup_list_witness :
  let w := start two_windows_Q in
  let w' := built two_windows_Q in
  fresh w
  /\ lt_num (of_int 0) (time_step (sched w))
  /\ generate_schedule w = (w', Return true)
  /\ (0 < length (deadline_sequence (tasksList w)))%nat
  /\ exists items bl,
      dict_get Nat.eqb 0%nat (pri_schedule (sched w')) = Ok items
      /\ nth_error (backup_list (sched w')) 0 = Some bl
      /\ Permutation (map snd items) bl.
Proof.
  intros w w'.
  assert (H1 : fresh w) by exact ScheduleChecks.two_windows_fresh.
  assert (H2 : lt_num (of_int 0) (time_step (sched w))) by (vm_compute; reflexivity).
  assert (H3 : generate_schedule w = (w', Return true)) by (vm_compute; reflexivity).
  assert (H4 : (0 < length (deadline_sequence (tasksList w)))%nat)
    by (vm_compute; lia).
  repeat (split; [assumption|]).
  exact (@primary_slots_cover_backup_list Q _ Q_Laws Q_Addition w w' 0%nat
           H1 H2 H3 H4).
Defined.

End PrimarySlotsChecks.

(* ================================================================== *)
(** ** What a simulation can change *)

Section SimulatorEffects.
Context {R : Type} {NR : Number R}.

(** The power model of a core. *)
Definition core_model (c : Core R) : R * R := (xi c, p_idle c).

(** A relation between the worlds before and after a statement that the
    writes of the simulator respect: to the fields of a task that are not
    static, to the random source, to the active durations and the energy of
    the cores, and the removal of a task from a backup list. *)
Variable Rel : World R -> World R -> Prop.
Hypothesis Rel_refl : forall w, Rel w w.
Hypothesis Rel_trans : forall a b c, Rel a b -> Rel b c -> Rel a c.
Hypothesis Rel_task : forall r f,
    (forall t, same_static t (f t)) -> preserves Rel (update_task r f).
Hypothesis Rel_tape : forall w f, Rel w (with_tape f w).
Hypothesis Rel_accrue_lp : forall w dt assigned,
    Rel w (with_lp_cores (accrue_lp dt assigned) w).
Hypothesis Rel_accrue_hp : forall w dt,
    Rel w (with_hp_core (fun c => update_active_duration c dt) w).
Hypothesis Rel_account_lp : forall w fr,
    Rel w (with_lp_cores (map (account_energy fr)) w).
Hypothesis Rel_account_hp : forall w fr,
    Rel w (with_hp_core (account_energy fr) w).
Hypothesis Rel_remove : forall idx tid t,
    preserves Rel (remove_from_backup_list idx tid t).

Ltac effect_walk := frame_walk Rel_refl Rel_trans.
Ltac task_write := apply Rel_task; intros ?; repeat split.

Lemma randint0_effect (b : R) : preserves Rel (randint0 b).
Proof.
  unfold randint0. effect_walk.
  intros w w' o E. destruct (tape w); inversion E; subst.
  - apply Rel_refl.
  - apply Rel_tape.
Qed.

Lemma scan_fault_effect (idx : nat) (ft : R) (items : list (Key R * ref)) :
  preserves Rel (scan_fault idx ft items).
Proof.
  induction items as [|[key t] rest IH]; simpl; effect_walk;
    first [ task_write | exact IH ].
Qed.

Lemma sample_fault_effect (idx : nat) (tw sw : R) (fuel : nat) :
  preserves Rel (sample_fault fuel idx tw sw).
Proof.
  induction fuel as [|fuel IH]; simpl; effect_walk;
    first [ apply randint0_effect | apply scan_fault_effect | exact IH
          | progress unfold pri_schedule_at; effect_walk ].
Qed.

Lemma fault_loop_effect (idx : nat) (tw sw : R) (l : nat) :
  forall acc, preserves Rel (fault_loop l idx tw sw acc).
Proof.
  induction l as [|l IH]; intros acc; cbn [fault_loop]; effect_walk;
    first [ apply sample_fault_effect | apply IH ].
Qed.

Lemma generate_fault_occurrences_effect (idx : nat) :
  preserves Rel (generate_fault_occurrences idx).
Proof.
  unfold generate_fault_occurrences. effect_walk;
    first [ apply fault_loop_effect
          | progress unfold pri_schedule_at; effect_walk
          | progress unfold window_bounds; effect_walk ].
Qed.

Lemma complete_primary_effect (i : nat) (now : R) (t : ref) (hp : option ref) :
  preserves Rel (complete_primary i now t hp).
Proof. unfold complete_primary. effect_walk; apply Rel_remove. Qed.

Lemma sweep_core_effect (i : nat) (now : R) (lp : nat)
      (st : list (option ref) * option ref) :
  preserves Rel (sweep_core i now lp st).
Proof. unfold sweep_core. effect_walk. apply complete_primary_effect. Qed.

Lemma backup_completion_effect (i : nat) (now : R) (hp : option ref) :
  preserves Rel (backup_completion i now hp).
Proof. unfold backup_completion. effect_walk. apply Rel_remove. Qed.

Lemma dispatch_effect (i : nat) (now : R) (pending : list (Key R * ref)) :
  forall st, preserves Rel (dispatch i now pending st).
Proof.
  induction pending as [|[key new] rest IH]; intros st; simpl; effect_walk;
    first [ apply complete_primary_effect | task_write | apply IH ].
Qed.

Lemma backup_dispatch_effect (i : nat) (now : R) (hp : option ref) :
  preserves Rel (backup_dispatch i now hp).
Proof. unfold backup_dispatch. effect_walk; task_write. Qed.

Lemma accrue_effect (loc : Locals R) : preserves Rel (accrue loc).
Proof.
  unfold accrue. effect_walk.
  - apply preserves_modify. intros w. apply Rel_accrue_lp.
  - apply preserves_modify. intros w. apply Rel_accrue_hp.
Qed.

Lemma sim_step_effect (i : nat) (loc : Locals R) : preserves Rel (sim_step i loc).
Proof.
  unfold sim_step. effect_walk;
    first [ apply accrue_effect
          | apply sweep_core_effect
          | apply backup_completion_effect
          | apply dispatch_effect
          | apply backup_dispatch_effect
          | progress unfold pri_schedule_at; effect_walk ].
Qed.

Lemma window_loop_effect (i : nat) (fuel : nat) :
  forall loc, preserves Rel (window_loop fuel i loc).
Proof.
  induction fuel as [|fuel IH]; intros loc; cbn [window_loop]; effect_walk;
    first [ apply sim_step_effect | apply IH ].
Qed.

Lemma simulate_window_effect (fuel i : nat) (now : R) :
  preserves Rel (simulate_window fuel i now).
Proof.
  unfold simulate_window. effect_walk;
    first [ task_write
          | apply generate_fault_occurrences_effect
          | apply window_loop_effect
          | progress unfold pri_schedule_at; effect_walk ].
Qed.

(** The loop over the windows. *)
Lemma windows_effect (fuel : nat) (l : list nat) (now : R) :
  preserves Rel (for_fold l now (simulate_window fuel)).
Proof. effect_walk. apply simulate_window_effect. Qed.

Lemma simulate_effect (fuel : nat) : preserves Rel (simulate fuel).
Proof.
  unfold simulate. effect_walk.
  - apply simulate_window_effect.
  - apply preserves_modify. intros w. apply Rel_account_lp.
  - apply preserves_modify. intros w. apply Rel_account_hp.
Qed.

End SimulatorEffects.

Section SimulatorPlan.
Context {R : Type} {NR : Number R}.

(** What identifies a task and what the builder gave it. *)
Definition static (t : Task R) : Z * R * R * list R * list R :=
  (task_id t, deadline t, weight t, workload_quota t, backup_workload_quota t).

(** What a simulation works from: the primary maps, the deadlines, the
    parameters of the scheduler, the caller's task list, the static fields
    of every task object and the power model of every core. *)
Definition plan (w : World R)
  : list (nat * list (Key R * ref)) * option (list R)
    * (Z * R * R * Z * Z * R * bool) * list (Task R)
    * list (Z * R * R * list R * list R) * list (R * R) * (R * R) :=
  (pri_schedule (sched w), deadlines (sched w), configuration w, tasksList w,
   map static (heap w), map core_model (lp_cores w), core_model (hp_core w)).

Lemma accrue_lp_keeps {B} (g : Core R -> B) (dt : R) (assigned : list (option ref)) :
  (forall c, g (update_active_duration c dt) = g c) ->
  forall cores, map g (accrue_lp dt assigned cores) = map g cores.
Proof.
  intros Hg. induction assigned as [|a assigned IH]; intros [|c cores]; simpl;
    try reflexivity.
  rewrite IH. destruct a; [rewrite Hg|]; reflexivity.
Qed.

Lemma same_static_eq (t t' : Task R) : same_static t t' -> static t' = static t.
Proof.
  unfold same_static, static. intros (A & B & C & D & E). congruence.
Qed.

Lemma map_list_set {A B} (g : A -> B) (l : list A) (i : nat) (v a : A) :
  nth_error l i = Some a -> g v = g a -> map g (list_set l i v) = map g l.
Proof.
  revert i. induction l as [|x l IH]; intros [|i] H E; simpl in *; try discriminate.
  - inversion H; subst. rewrite E. reflexivity.
  - f_equal. apply IH; assumption.
Qed.

Lemma update_task_plan (r : ref) (f : Task R -> Task R) :
  (forall t, same_static t (f t)) -> preserves (unchanged plan) (update_task r f).
Proof.
  intros Hf w w' o E. unfold update_task, modify in E. inversion E; subst. clear E.
  unfold unchanged, plan, configuration. cbn [heap sched tasksList lp_cores hp_core with_heap].
  destruct (nth_error (heap w) r) as [t|] eqn:Ht; [|reflexivity].
  erewrite map_list_set; [reflexivity | exact Ht | apply same_static_eq, Hf].
Qed.

(** What a core is billed for: its power model and the energy it has
    consumed so far. *)
Definition bill (c : Core R) : R * R * R := (core_model c, energy_consumed c).

(** Core [c'] is core [c] after the energy of a simulation over a frame of
    length [fr] was added: the active consumption for its active duration
    and the idle consumption for the rest of the frame. *)
Definition billed (fr : R) (c c' : Core R) : Prop :=
  core_model c' = core_model c
  /\ energy_consumed c'
     = (energy_consumed c + xi c * active_duration c'
        + p_idle c * (fr - active_duration c'))%num.

Lemma account_energy_billed (fr : R) (c0 c : Core R) :
  bill c = bill c0 -> billed fr c0 (account_energy fr c).
Proof.
  unfold bill, core_model. intros E. injection E as E1 E2 E3.
  unfold billed, account_energy, core_model, update_energy_consumption,
    energy_consumption_active, energy_consumption_idle, get_active_duration.
  cbn [xi p_idle active_duration energy_consumed].
  rewrite E1, E2, E3. split; reflexivity.
Qed.

Lemma account_energy_all_billed (fr : R) (l0 l : list (Core R)) :
  map bill l = map bill l0 -> Forall2 (billed fr) l0 (map (account_energy fr) l).
Proof.
  revert l0. induction l as [|c l IH]; intros [|c0 l0] E; simpl in E;
    try discriminate; [constructor|].
  pose proof (f_equal (@tl _) E) as E2.
  pose proof (f_equal (fun x => hd (bill c0) x) E) as E1.
  simpl in E1, E2. constructor.
  - apply account_energy_billed. exact E1.
  - apply IH. exact E2.
Qed.

(** The new backup list is the old one with some entries left out. *)
Definition shrunk (new old : list ref) : Prop := exists f, new = filter f old.

(** The backup lists, window by window, only lost entries. *)
Definition shrinks (w w' : World R) : Prop :=
  Forall2 shrunk (backup_list (sched w')) (backup_list (sched w)).

Lemma shrunk_refl (l : list ref) : shrunk l l.
Proof.
  exists (fun _ => true). symmetry. apply filter_all. reflexivity.
Qed.

Lemma shrunk_all_refl (l : list (list ref)) : Forall2 shrunk l l.
Proof. induction l; constructor; [apply shrunk_refl | assumption]. Qed.

Lemma shrinks_refl (w : World R) : shrinks w w.
Proof. apply shrunk_all_refl. Qed.

Lemma shrinks_trans (a b c : World R) : shrinks a b -> shrinks b c -> shrinks a c.
Proof.
  unfold shrinks. generalize (backup_list (sched a)) (backup_list (sched b))
                             (backup_list (sched c)).
  intros la lb lc H1. revert lc. induction H1 as [|x y lb la [f Hf] F IH];
    intros lc H2; inversion H2 as [|z y' lc' lb' [g Hg] G]; subst; constructor.
  - exists (fun r => f r && g r). rewrite filter_filter. reflexivity.
  - apply IH. exact G.
Qed.

Lemma same_backup_list_shrinks (w w' : World R) :
  backup_list (sched w') = backup_list (sched w) -> shrinks w w'.
Proof. intros E. unfold shrinks. rewrite E. apply shrunk_all_refl. Qed.

Lemma list_set_shrunk (l : list (list ref)) (idx : nat) (bl : list ref)
      (f : ref -> bool) :
  nth_error l idx = Some bl -> Forall2 shrunk (list_set l idx (filter f bl)) l.
Proof.
  revert idx. induction l as [|x l IH]; intros [|idx] H; simpl in *; try discriminate.
  - inversion H; subst. constructor; [exists f; reflexivity | apply shrunk_all_refl].
  - constructor; [apply shrunk_refl | apply IH; exact H].
Qed.

Lemma remove_from_backup_list_shrinks (idx : nat) (tid : Z) (t : R) :
  preserves shrinks (remove_from_backup_list idx tid t).
Proof.
  intros w w' o E. unfold remove_from_backup_list in E. rewrite bind_gets in E.
  apply bind_inv in E. destruct E as [(w1 & bl & E1 & E) | E].
  2:{ assert (w' = w).
      { destruct E as [[E _]|[[E _]|[(e & E & _)|[E _]]]]; revert E;
          apply pure_step, preserves_lift; apply unchanged_refl. }
      subst w'. apply shrinks_refl. }
  apply lift_inv_normal in E1. destruct E1 as [-> Hbl]. apply index_ok in Hbl.
  apply bind_inv in E. destruct E as [(w1 & bl' & E2 & E) | E].
  2:{ assert (w' = w).
      { destruct E as [[E _]|[[E _]|[(e & E & _)|[E _]]]]; revert E;
          apply pure_step, without_id_unchanged. }
      subst w'. apply shrinks_refl. }
  apply without_id_normal in E2. destruct E2 as [-> ->].
  rewrite bind_gets, bind_modify in E.
  apply update_BB_overloading_unchanged
    with (F := fun x => backup_list (sched x)) in E; [|intros x v; reflexivity].
  unfold unchanged in E. cbn [sched with_sched set_backup_list backup_list] in E.
  unfold shrinks. rewrite E. apply list_set_shrunk. exact Hbl.
Qed.

End SimulatorPlan.

Section SimulatorPlanTheorems.
Context {R : Type} {NR : Number R}.

(** X12.  However a simulation ends, it has not touched what it works from:
    the primary maps, the deadlines, the parameters of the scheduler and the
    caller's task list are the same, no task object was added or removed
    and each kept its id, deadline, weight and quotas, and every core kept
    its power model. *)
Theorem simulate_keeps_plan (fuel : nat) (w : World R) :
  plan (fst (simulate fuel w)) = plan w.
Proof.
  assert (P : preserves (unchanged plan) (simulate (R := R) fuel)).
  2:{ destruct (simulate fuel w) as [w' o] eqn:E. exact (P _ _ _ E). }
  apply simulate_effect.
  - apply unchanged_refl.
  - apply unchanged_trans.
  - apply update_task_plan.
  - intros x f. reflexivity.
  - intros x dt assigned. unfold unchanged, plan, configuration.
    cbn [heap sched tasksList lp_cores hp_core with_lp_cores].
    rewrite accrue_lp_keeps by reflexivity. reflexivity.
  - intros x dt. reflexivity.
  - intros x fr. unfold unchanged, plan, configuration.
    cbn [heap sched tasksList lp_cores hp_core with_lp_cores].
    rewrite map_map. reflexivity.
  - intros x fr. reflexivity.
  - intros idx tid t.
    apply remove_from_backup_list_unchanged; intros x v; reflexivity.
Qed.

(** X13.  However a simulation ends, the scheduler has a backup list for the
    same windows as before, and each is the list it was with some entries
    left out: the simulator adds no task to a backup list and reorders
    none. *)
Theorem simulate_shrinks_backup_lists (fuel : nat) (w : World R) :
  Forall2 shrunk (backup_list (sched (fst (simulate fuel w))))
          (backup_list (sched w)).
Proof.
  assert (P : preserves shrinks (simulate (R := R) fuel)).
  2:{ destruct (simulate fuel w) as [w' o] eqn:E. exact (P _ _ _ E). }
  apply simulate_effect.
  - apply shrinks_refl.
  - apply shrinks_trans.
  - intros r f Hf x x' o' E. apply same_backup_list_shrinks.
    revert E. apply update_task_unchanged with (F := fun y => backup_list (sched y)).
    intros y g. reflexivity.
  - intros x f. apply same_backup_list_shrinks. reflexivity.
  - intros x dt assigned. apply same_backup_list_shrinks. reflexivity.
  - intros x dt. apply same_backup_list_shrinks. reflexivity.
  - intros x fr. apply same_backup_list_shrinks. reflexivity.
  - intros x fr. apply same_backup_list_shrinks. reflexivity.
  - apply remove_from_backup_list_shrinks.
Qed.

(** X14.  A simulation that runs to its end bills every core once: the
    energy of a core afterwards is the energy it had before the call plus
    [xi] times the active duration it has reached plus [p_idle] times the
    rest of the frame; the power model of the core is unchanged.  What a
    core had consumed before the call is kept, not reset. *)
Theorem simulate_bills_energy (fuel : nat) (w w' : World R) :
  simulate fuel w = (w', Normal tt) ->
  Forall2 (billed (frame (sched w))) (lp_cores w) (lp_cores w')
  /\ billed (frame (sched w)) (hp_core w) (hp_core w').
Proof.
  intros H. unfold simulate in H.
  unbind_normal H as w0 ds E0. apply self_deadlines_normal in E0. destruct E0 as [-> _].
  unbind_normal H as w1 clock E1.
  rewrite bind_gets, bind_modify in H. inversion H; subst w'. clear H.
  assert (P : preserves
                (unchanged (fun x : World R =>
                   (frame (sched x), map bill (lp_cores x), bill (hp_core x))))
                (for_fold (seq 0 (length ds)) (of_int 0) (simulate_window fuel))).
  { apply windows_effect.
    - apply unchanged_refl.
    - apply unchanged_trans.
    - intros r f _. apply update_task_unchanged. intros x g. reflexivity.
    - intros x f. reflexivity.
    - intros x dt assigned. unfold unchanged.
      cbn [sched lp_cores hp_core with_lp_cores].
      rewrite accrue_lp_keeps by reflexivity. reflexivity.
    - intros x dt. reflexivity.
    - intros idx tid t.
      apply remove_from_backup_list_unchanged; intros x v; reflexivity. }
  apply P in E1. unfold unchanged in E1.
  pose proof (f_equal (fun x => fst (fst x)) E1) as P1.
  pose proof (f_equal (fun x => snd (fst x)) E1) as P2.
  pose proof (f_equal snd E1) as P3.
  cbn [fst snd] in P1, P2, P3.
  cbn [sched lp_cores hp_core with_lp_cores with_hp_core]. rewrite P1. split.
  - apply account_energy_all_billed. exact P2.
  - apply account_energy_billed. exact P3.
Qed.

End SimulatorPlanTheorems.

Module SimulatorPlanChecks.
Import Scenarios ExactNum.

Lemma simulate_bills_energy_witness :
  let w := built NoFaultChecks.no_fault_Q in
  let w' := fst (simulate 1001 w) in
  simulate 1001 w = (w', Normal tt)
  /\ Forall2 (billed (frame (sched w))) (lp_cores w) (lp_cores w')
  /\ billed (frame (sched w)) (hp_core w) (hp_core w').
Proof.
  intros w w'.
  assert (H : simulate 1001 w = (w', Normal tt)) by (vm_compute; reflexivity).
  split; [exact H|].
  exact (@simulate_bills_energy Q _ 1001%nat w w' H).
Defined.

End SimulatorPlanChecks.

(* ================================================================== *)
(** ** Quotas when the time step is a power of ten *)

Module DecimalStep.
Import ExactNum.

Lemma round_half_even_integer (q : Q) (c : Z) :
  (q == inject_Z c)%Q -> round_half_even q = c.
Proof.
  intros E. unfold round_half_even.
  assert (F : Qfloor q = c) by (rewrite E; apply Qfloor_Z).
  rewrite F.
  assert (C : (q - inject_Z c ?= 1 # 2)%Q = Lt).
  { rewrite E. assert (Z0 : (inject_Z c - inject_Z c == 0)%Q) by ring.
    rewrite Z0. reflexivity. }
  rewrite C. reflexivity.
Qed.

Lemma pow10_pos (p : Z) : 0 <= p -> 0 < 10 ^ p.
Proof. intros H. apply Z.pow_pos_nonneg; lia. Qed.

(** A whole number of steps of [10^-p] is unchanged by rounding to [p]
    decimals. *)
Lemma Qround_to_steps (p c : Z) :
  0 <= p ->
  Qround_to (Qred (inject_Z c * (1 # Z.to_pos (10 ^ p)))) p
  = Qred (inject_Z c * (1 # Z.to_pos (10 ^ p))).
Proof.
  intros Hp. pose proof (pow10_pos Hp) as Hpos.
  unfold Qround_to, pow10. replace (0 <=? p) with true by (symmetry; apply Z.leb_le; exact Hp).
  rewrite (@round_half_even_integer _ c).
  - apply Qred_complete. unfold Qeq. simpl. lia.
  - rewrite Qred_correct. unfold Qeq. simpl.
    rewrite Pos.mul_1_r, Z2Pos.id by exact Hpos. ring.
Qed.

End DecimalStep.

Section DecimalStepTheorems.
Import ExactNum.

(** X15.  In exact arithmetic, when the time step is [10^-p] and
    [precision_dp] is [p], [roundUpTimeStep] never fails and returns a whole
    number of time steps: the least number of steps that cover the value,
    and one step when the value is zero or negative.  The rounding to
    [precision_dp] decimals changes nothing. *)
Theorem roundUpTimeStep_decimal_step (s : EnSuRe_Scheduler Q) (p : Z) (v : Q) :
  0 <= p ->
  time_step s = 1 # Z.to_pos (10 ^ p) ->
  precision_dp s = p ->
  roundUpTimeStep s v
  = Ok (if Qceiling (v / time_step s) <=? 0 then time_step s
        else (of_int (Qceiling (v / time_step s)) * time_step s)%num).
Proof.
  intros Hp Hts Hdp. pose proof (DecimalStep.pow10_pos Hp) as Hpos.
  unfold roundUpTimeStep. rewrite Hdp, Hts.
  cbn [truediv ceil round_to of_int num_mul num_lt Q_Number].
  unfold Qtruediv.
  replace (Qeq_bool (1 # Z.to_pos (10 ^ p)) 0) with false by reflexivity.
  cbn [rbind].
  assert (Hc : Qceiling (Qred (v / (1 # Z.to_pos (10 ^ p))))
               = Qceiling (v / (1 # Z.to_pos (10 ^ p))))
    by (rewrite Qred_correct; reflexivity).
  rewrite Hc. set (c := Qceiling (v / (1 # Z.to_pos (10 ^ p)))).
  rewrite DecimalStep.Qround_to_steps by exact Hp.
  assert (Hle : Qle_bool (1 # Z.to_pos (10 ^ p))
                         (Qred (inject_Z c * (1 # Z.to_pos (10 ^ p))))
                = negb (c <=? 0)).
  { destruct (c <=? 0) eqn:E; cbn [negb].
    - apply Z.leb_le in E.
      destruct (Qle_bool (1 # Z.to_pos (10 ^ p))
                         (Qred (inject_Z c * (1 # Z.to_pos (10 ^ p))))) eqn:B;
        [|reflexivity].
      apply Qle_bool_iff in B. rewrite Qred_correct in B.
      unfold Qle in B. simpl in B. nia.
    - apply Z.leb_gt in E. apply Qle_bool_iff. rewrite Qred_correct.
      unfold Qle. simpl. nia. }
  rewrite Hle, negb_involutive. destruct (c <=? 0); reflexivity.
Qed.

End DecimalStepTheorems.

Module DecimalStepChecks.
Import Scenarios ExactNum.

Lemma roundUpTimeStep_decimal_step_witness :
  let s := sched (start two_windows_Q) in
  0 <= 2
  /\ time_step s = 1 # Z.to_pos (10 ^ 2)
  /\ precision_dp s = 2
  /\ roundUpTimeStep s (16 # 5)%Q
     = Ok (if Qceiling ((16 # 5) / time_step s) <=? 0 then time_step s
           else (of_int (Qceiling ((16 # 5) / time_step s)) * time_step s)%num).
Proof.
  intros s.
  assert (H1 : 0 <= 2) by lia.
  assert (H2 : time_step s = 1 # Z.to_pos (10 ^ 2)) by (vm_compute; reflexivity).
  assert (H3 : precision_dp s = 2) by (vm_compute; reflexivity).
  repeat (split; [assumption|]).
  exact (@roundUpTimeStep_decimal_step s 2 (16 # 5)%Q H1 H2 H3).
Defined.

End DecimalStepChecks.

(* ================================================================== *)
(** ** The clock of the simulation *)

Section Clock.
Context {R : Type} {NR : Number R}.






End Clock.

Section ClockTheorems.
Context {R : Type} {NR : Number R}.


End ClockTheorems.

Module ClockChecks.
Import Scenarios ExactNum.


End ClockChecks.

(* ================================================================== *)
(** ** The reservation of a built schedule *)

Section BuiltReservation.
Context {R : Type} {NR : Number R}.

(** A call of [update_BB_overloading] that returns. *)
Lemma update_BB_overloading_inv (idx : nat) (t : R) (w w' : World R) :
  update_BB_overloading idx t w = (w', Normal tt) ->
  exists bl ds d cap,
    nth_error (backup_list (sched w)) idx = Some bl
    /\ backup_quota_sum (heap w) idx (reserved_prefix (sched w) bl) (of_int 0) = Ok cap
    /\ deadlines (sched w) = Some ds
    /\ nth_error ds idx = Some d
    /\ w' = with_sched (set_backup_start
              (if (length (backup_start (sched w)) <=? idx)%nat
               then backup_start (sched w) ++ [(d - cap)%num]
               else list_set (backup_start (sched w)) idx (pymax t (d - cap)%num))) w.
Proof.
  intros H. pose proof H as H0. unfold update_BB_overloading in H.
  rewrite bind_gets in H.
  unbind_normal H as w1 bl E1. apply lift_inv_normal in E1. destruct E1 as [-> Hbl].
  apply index_ok in Hbl.
  unbind_normal H as w1 cap E2. rewrite reserve_pure in E2.
  apply lift_inv_normal in E2. destruct E2 as [-> Hcap].
  unbind_normal H as w1 ds E3. apply self_deadlines_normal in E3. destruct E3 as [-> Hds].
  unbind_normal H as w1 d E4. apply lift_inv_normal in E4. destruct E4 as [-> Hd].
  apply index_ok in Hd. clear H.
  exists bl, ds, d, cap. repeat (split; [assumption|]).
  erewrite update_BB_overloading_spec in H0 by eassumption.
  inversion H0. reflexivity.
Qed.

Lemma backup_quota_sum_stable (w w' : World R) (idx : nat) (bl : list ref) :
  heap_stable w w' ->
  forall acc cap,
    backup_quota_sum (heap w) idx bl acc = Ok cap ->
    backup_quota_sum (heap w') idx bl acc = Ok cap.
Proof.
  intros S. induction bl as [|b bl IH]; intros acc cap H; simpl in *; [exact H|].
  destruct (index (heap w) b) as [t|e] eqn:Et; [|discriminate]. simpl in H.
  apply index_ok in Et. destruct (S b t Et) as (t' & Et' & _ & _ & _ & _ & Q).
  apply index_ok in Et'. rewrite Et'. simpl.
  unfold getBackupWorkloadQuota in *. rewrite Q.
  destruct (index (backup_workload_quota t) idx) as [q|e]; [|discriminate].
  simpl in *. apply IH. exact H.
Qed.

(** What scheduling window [n] adds to the reservation data of a scheduler
    that holds the data of windows [0 .. n-1]. *)
Lemma schedule_window_reservation (n : nat) (w w' : World R) :
  schedule_window n w = (w', Normal tt) ->
  committed n w ->
  exists bl ds d cap,
    deadlines (sched w) = Some ds
    /\ nth_error ds n = Some d
    /\ backup_list (sched w') = backup_list (sched w) ++ [bl]
    /\ backup_start (sched w') = backup_start (sched w) ++ [(d - cap)%num]
    /\ backup_quota_sum (heap w') n (reserved_prefix (sched w') bl) (of_int 0) = Ok cap
    /\ k (sched w') = k (sched w).
Proof.
  intros H (C1 & C2 & _). unfold schedule_window in H.
  unbind_normal H as w1 b E1. apply window_bounds_normal in E1.
  destruct E1 as (-> & ds & di & Hds & Hdi).
  unbind_normal H as w2 total E2. rewrite assign_quotas_world in E2.
  apply lift_inv_normal in E2. destruct E2 as [-> Hq].
  rewrite bind_gets in H. cbn [sched with_tasksList] in H.
  destruct (total <=? fst b * of_int (m_pri (sched w)))%num; [|inversion H].
  unbind_normal H as wp packed EP. destruct packed as [tasksA st].
  pose proof EP as S1. apply lp_pack_same_reservation in S1.
  pose proof EP as S2.
  apply lp_pack_unchanged
    with (F := fun x => (deadlines (sched x), k (sched x))) in S2;
    try (intros ? ?; reflexivity).
  unfold unchanged, reservation in S1, S2. cbn [sched with_tasksList] in S1, S2.
  pose proof (f_equal fst S1) as S1a. pose proof (f_equal snd S1) as S1b.
  pose proof (f_equal fst S2) as S2a. pose proof (f_equal snd S2) as S2b.
  cbn [fst snd] in S1a, S1b, S2a, S2b.
  unbind_normal H as w3 d0 E3. apply pri_schedule_at_normal in E3. destruct E3 as [-> _].
  erewrite bind_eq in H by apply pri_schedule_put_world.
  unbind_normal H as w3 c0 E4. apply lift_inv_normal in E4. destruct E4 as [-> _].
  rewrite bind_gets, bind_modify in H.
  apply update_BB_overloading_inv in H.
  destruct H as (bl & ds' & d & cap & Hbl & Hcap & Hds' & Hd & ->).
  cbn [sched with_sched heap set_pri_schedule set_backup_list set_backup_start
       backup_list backup_start deadlines k] in *.
  rewrite S1a in Hbl. rewrite nth_error_app2 in Hbl by lia.
  rewrite C1, Nat.sub_diag in Hbl. inversion Hbl; subst bl. clear Hbl.
  rewrite S2a, Hds in Hds'. inversion Hds'; subst ds'.
  assert (d = di) by congruence. subst d.
  assert (E : (length (backup_start (sched wp)) <=? n)%nat = true)
    by (apply Nat.leb_le; rewrite S1b; lia).
  rewrite E. exists tasksA, ds, di, cap.
  split; [exact Hds|]. split; [exact Hdi|]. rewrite S1a, S1b.
  split; [reflexivity|]. split; [reflexivity|]. split; [|exact S2b].
  unfold reserved_prefix in *.
  cbn [sched with_sched set_pri_schedule set_backup_list set_backup_start k] in *.
  exact Hcap.
Qed.

(** The reservation data after the first [n] windows of a fresh run. *)
Lemma first_windows_reservation (w : World R) :
  fresh w ->
  forall n wn,
    first_windows n w = (wn, Normal tt) ->
    k (sched wn) = k (sched w)
    /\ forall j, (j < n)%nat ->
         exists bl cap dj,
           nth_error (deadline_sequence (tasksList w)) j = Some dj
           /\ nth_error (backup_list (sched wn)) j = Some bl
           /\ backup_quota_sum (heap wn) j (reserved_prefix (sched wn) bl) (of_int 0)
              = Ok cap
           /\ nth_error (backup_start (sched wn)) j = Some (dj - cap)%num.
Proof.
  intros Hf.
  apply (first_windows_ind
           (fun n wn =>
              k (sched wn) = k (sched w)
              /\ forall j, (j < n)%nat ->
                   exists bl cap dj,
                     nth_error (deadline_sequence (tasksList w)) j = Some dj
                     /\ nth_error (backup_list (sched wn)) j = Some bl
                     /\ backup_quota_sum (heap wn) j (reserved_prefix (sched wn) bl)
                                         (of_int 0) = Ok cap
                     /\ nth_error (backup_start (sched wn)) j = Some (dj - cap)%num)).
  - split; [reflexivity|]. intros j Hj. lia.
  - intros n wn wn' (P1 & P2) E1 E2.
    pose proof E1 as Hds. apply first_windows_deadlines in Hds.
    pose proof E1 as Hr. apply first_windows_ready in Hr; [|exact Hf].
    destruct Hr as [Hc _]. pose proof Hc as (C1 & C2 & _).
    pose proof E2 as Hst. apply schedule_window_heap_stable in Hst.
    apply schedule_window_reservation in E2; [|exact Hc].
    destruct E2 as (bl & ds & d & cap & Hds' & Hd & Hbl & Hbs & Hcap & Hk).
    assert (ds = deadline_sequence (tasksList w)) by congruence. subst ds.
    split; [congruence|].
    intros j Hj. destruct (Nat.eq_dec j n) as [-> | Hjn].
    + exists bl, cap, d. split; [exact Hd|]. split; [|split; [exact Hcap|]].
      * rewrite Hbl, nth_error_app2 by lia. rewrite C1, Nat.sub_diag. reflexivity.
      * rewrite Hbs, nth_error_app2 by lia. rewrite C2, Nat.sub_diag. reflexivity.
    + destruct (P2 j) as (bl0 & cap0 & dj & Hdj & Hb0 & Hc0 & Hs0); [lia|].
      exists bl0, cap0, dj. split; [exact Hdj|]. split; [|split].
      * rewrite Hbl, nth_error_app1 by lia. exact Hb0.
      * unfold reserved_prefix in *. rewrite Hk.
        eapply backup_quota_sum_stable; eassumption.
      * rewrite Hbs, nth_error_app1 by lia. exact Hs0.
Qed.

End BuiltReservation.

Section BuiltReservationTheorems.
Context {R : Type} {NR : Number R}.

(** X17.  In the schedule that [generate_schedule] builds on a new scheduler
    from new tasks, the backup start of every window is the window's
    deadline less the backup quotas, for that window, of the first
    [min(k, |B|)] tasks of the window's backup list [B].  The value is not
    compared with the start of the window: a reservation longer than the
    window gives a backup start before the window begins. *)
Theorem built_backup_start (w w' : World R) (j : nat) (dj : R) :
  fresh w ->
  generate_schedule w = (w', Return true) ->
  nth_error (deadline_sequence (tasksList w)) j = Some dj ->
  exists bl cap,
    nth_error (backup_list (sched w')) j = Some bl
    /\ backup_quota_sum (heap w') j (reserved_prefix (sched w') bl) (of_int 0) = Ok cap
    /\ nth_error (backup_start (sched w')) j = Some (dj - cap)%num.
Proof.
  intros Hf H Hd. rewrite generate_schedule_eq in H.
  unbind H as w1 u E; try discriminate.
  - apply exit_inv in H. destruct H as [-> _]. destruct u.
    apply first_windows_reservation in E; [|exact Hf].
    destruct E as [_ E].
    destruct (E j) as (bl & cap & dj' & Hdj' & Hbl & Hcap & Hbs).
    { apply nth_error_Some. congruence. }
    assert (dj' = dj) by congruence. subst dj'.
    exists bl, cap. auto.
  - exfalso. revert E. rewrite first_windows_eq.
    apply never_returns_for_each. intros i.
    apply schedule_window_never_returns_true.
Qed.

End BuiltReservationTheorems.

Module BuiltReservationChecks.
Import Scenarios ExactNum.

Lemma built_backup_start_witness :
  let w := start two_windows_Q in
  let w' := built two_windows_Q in
  fresh w
  /\ generate_schedule w = (w', Return true)
  /\ nth_error (deadline_sequence (tasksList w)) 0 = Some 10%Q
  /\ exists bl cap,
      nth_error (backup_list (sched w')) 0 = Some bl
      /\ backup_quota_sum (heap w') 0 (reserved_prefix (sched w') bl) (of_int 0)
         = Ok cap
      /\ nth_error (backup_start (sched w')) 0 = Some (10%Q - cap)%num.
Proof.
  intros w w'.
  assert (H1 : fresh w) by exact ScheduleChecks.two_windows_fresh.
  assert (H2 : generate_schedule w = (w', Return true)) by (vm_compute; reflexivity).
  assert (H3 : nth_error (deadline_sequence (tasksList w)) 0 = Some 10%Q)
    by (vm_compute; reflexivity).
  repeat (split; [assumption|]).
  exact (@built_backup_start Q _ w w' 0%nat 10%Q H1 H2 H3).
Defined.

End BuiltReservationChecks.

(* ================================================================== *)
(** ** The order of a primary map *)

Section PrimaryOrder.
Context {R : Type} {NR : Number R} {L : NumberLaws R}.

(** Item [a] starts no later than item [b]. *)
Definition starts_before (a b : Key R * ref) : Prop :=
  le_num (start_of a) (start_of b).

Lemma key_ltb_starts (a b : Key R * ref) :
  key_ltb (fst a) (fst b) = true -> starts_before a b.
Proof.
  unfold key_ltb, starts_before, start_of. intros H.
  destruct (fst (fst a) =? fst (fst b))%num eqn:E.
  - apply num_eq_true in E. apply E.
  - apply lt_num_le. exact H.
Qed.

Lemma key_not_ltb_starts (a b : Key R * ref) :
  key_ltb (fst a) (fst b) = false -> starts_before b a.
Proof.
  unfold key_ltb, starts_before, start_of. intros H.
  destruct (fst (fst a) =? fst (fst b))%num eqn:E.
  - apply num_eq_true in E. apply E.
  - unfold le_num. rewrite num_lt_le in H. apply negb_false_iff in H. exact H.
Qed.

Lemma sorted_by_start (d : list (Key R * ref)) :
  StronglySorted starts_before (sort_asc (fun a b => key_ltb (fst a) (fst b)) d).
Proof.
  apply sort_asc_sorted.
  - apply key_ltb_starts.
  - apply key_not_ltb_starts.
  - intros x y z. apply num_le_trans.
Qed.

Lemma schedule_window_sorted (n : nat) (w w' : World R) :
  schedule_window n w = (w', Normal tt) ->
  exists items,
    dict_get Nat.eqb n (pri_schedule (sched w')) = Ok items
    /\ StronglySorted starts_before items.
Proof.
  intros H. unfold schedule_window in H.
  unbind_normal H as w1 b E1. unbind_normal H as w2 total E2.
  rewrite bind_gets in H.
  destruct (total <=? fst b * of_int (m_pri (sched w2)))%num; [|inversion H].
  unbind_normal H as wp packed EP.
  unbind_normal H as w3 d E3. apply pri_schedule_at_normal in E3. destruct E3 as [-> _].
  erewrite bind_eq in H by apply pri_schedule_put_world.
  unbind_normal H as w3 c0 E4. apply lift_inv_normal in E4. destruct E4 as [-> _].
  rewrite bind_gets, bind_modify in H.
  apply update_BB_overloading_normal in H. destruct H as [x ->].
  cbn [sched with_sched pri_schedule set_backup_start set_backup_list set_pri_schedule].
  eexists. split; [apply dict_get_set_same | apply sorted_by_start].
Qed.

Lemma first_windows_sorted (w : World R) :
  forall n wn,
    first_windows n w = (wn, Normal tt) ->
    forall j, (j < n)%nat ->
      exists items,
        dict_get Nat.eqb j (pri_schedule (sched wn)) = Ok items
        /\ StronglySorted starts_before items.
Proof.
  apply (first_windows_ind
           (fun n wn =>
              forall j, (j < n)%nat ->
                exists items,
                  dict_get Nat.eqb j (pri_schedule (sched wn)) = Ok items
                  /\ StronglySorted starts_before items)).
  - intros j Hj. lia.
  - intros n wn wn' P E1 E2 j Hj.
    destruct (Nat.eq_dec j n) as [-> | Hjn].
    + eapply schedule_window_sorted. exact E2.
    + destruct (P j) as (items & Hi & Hs); [lia|].
      exists items. split; [|exact Hs]. rewrite <- Hi.
      pose proof (@first_windows_remaining _ _ _ (tasksList w) w eq_refl n wn E1)
        as [_ Hrem].
      pose proof E2 as Hw. unfold schedule_window in Hw.
      unbind_normal Hw as w0 b E0. apply window_bounds_normal in E0.
      destruct E0 as (_ & ds & di & Hds & Hdi). clear Hw.
      pose proof E1 as Hd1. apply first_windows_deadlines in Hd1.
      assert (ds = deadline_sequence (tasksList w)) by congruence. subst ds.
      assert (Hne : tasksList wn <> []).
      { intros X. apply (remaining_nonempty _ _ Hdi). rewrite <- Hrem, X. reflexivity. }
      apply schedule_window_entries in E2; [|exact Hne].
      destruct E2 as (it0 & tA0 & _ & _ & _ & _ & _ & Ho).
      apply Ho. exact Hjn.
Qed.

End PrimaryOrder.

Section PrimaryOrderTheorems.
Context {R : Type} {NR : Number R} {L : NumberLaws R}.

(** X18.  When [generate_schedule] returns [True], the items of every
    window's primary map are in the order of their start times: each item
    starts no later than all the items behind it.  The simulator and the
    fault generator walk the map in this order. *)
Theorem primary_map_in_start_order (w w' : World R) (j : nat) :
  generate_schedule w = (w', Return true) ->
  (j < length (deadline_sequence (tasksList w)))%nat ->
  exists items,
    dict_get Nat.eqb j (pri_schedule (sched w')) = Ok items
    /\ StronglySorted starts_before items.
Proof.
  intros H Hj. rewrite generate_schedule_eq in H.
  unbind H as w1 u E; try discriminate.
  - apply exit_inv in H. destruct H as [-> _]. destruct u.
    eapply first_windows_sorted; eassumption.
  - exfalso. revert E. rewrite first_windows_eq.
    apply never_returns_for_each. intros i.
    apply schedule_window_never_returns_true.
Qed.

End PrimaryOrderTheorems.

Module PrimaryOrderChecks.
Import Scenarios ExactNum ExactLaws.

Lemma primary_map_in_start_order_witness :
  let w := start two_windows_Q in
  let w' := built two_windows_Q in
  generate_schedule w = (w', Return true)
  /\ (0 < length (deadline_sequence (tasksList w)))%nat
  /\ exists items,
      dict_get Nat.eqb 0%nat (pri_schedule (sched w')) = Ok items
      /\ StronglySorted starts_before items.
Proof.
  intros w w'.
  assert (H1 : generate_schedule w = (w', Return true)) by (vm_compute; reflexivity).
  assert (H2 : (0 < length (deadline_sequence (tasksList w)))%nat)
    by (vm_compute; lia).
  repeat (split; [assumption|]).
  exact (@primary_map_in_start_order Q _ Q_Laws w w' 0%nat H1 H2).
Defined.

End PrimaryOrderChecks.
